(** * The OpenAPI trimming pipeline of [src/bin/modules/simplified-openapi.mjs]

    A shallow embedding of the JavaScript module: the document is a heap of
    mutable objects and arrays, every function of the module is a function
    of a small state-and-failure monad over that heap, and the properties of
    the specification are theorems about these functions.

    Conventions of the embedding.
    - Strings are sequences of 8-bit characters; case conversion acts on the
      ASCII letters.
    - Numbers are integers ([Z]); YAML floats are outside the model.
    - A property read looks at own properties only: names inherited from
      [Object.prototype] ([constructor], [toString], [__proto__], ...) are
      outside the model.
    - Behaviour the model does not cover (an array turned into a string, an
      array given a non-index property) is the failure [Unmodelled]. *)

From Stdlib Require Import String Ascii List ZArith Lia Bool Arith.
From stdpp Require Import base list.
Import ListNotations.
Local Open Scope string_scope.
Local Open Scope list_scope.

(** ** Strings, as JavaScript uses them in this module *)

Module Str.

(** [s.startsWith(p)] *)
Definition startsWith (s p : string) : bool := String.prefix p s.

(** [s.slice(n)] for [0 <= n] *)
Fixpoint slice (n : nat) (s : string) : string :=
  match n, s with
  | O, _ => s
  | S n', String _ s' => slice n' s'
  | S _, EmptyString => EmptyString
  end.

(** [s.includes(c)] for a one-character needle *)
Fixpoint includes (c : ascii) (s : string) : bool :=
  match s with
  | EmptyString => false
  | String a s' => if Ascii.eqb a c then true else includes c s'
  end.

(** [s.split(c)] for a one-character separator *)
Fixpoint split (c : ascii) (s : string) : list string :=
  match s with
  | EmptyString => [EmptyString]
  | String a s' =>
      if Ascii.eqb a c then EmptyString :: split c s'
      else match split c s' with
           | [] => [String a EmptyString]
           | w :: ws => String a w :: ws
           end
  end.

(** [s.replace(pat, rep)] with a string pattern: the first occurrence *)
Fixpoint replace (pat rep s : string) : string :=
  if String.prefix pat s then rep ++ slice (String.length pat) s
  else match s with
       | EmptyString => EmptyString
       | String a s' => String a (replace pat rep s')
       end.

(** [s.replace(/~1/g, '/')] *)
Fixpoint replace_tilde1 (s : string) : string :=
  match s with
  | String "~"%char (String "1"%char rest) => String "/"%char (replace_tilde1 rest)
  | String a s' => String a (replace_tilde1 s')
  | EmptyString => EmptyString
  end.

(** [s.replace(/~0/g, '~')] *)
Fixpoint replace_tilde0 (s : string) : string :=
  match s with
  | String "~"%char (String "0"%char rest) => String "~"%char (replace_tilde0 rest)
  | String a s' => String a (replace_tilde0 s')
  | EmptyString => EmptyString
  end.

Definition is_lower (c : ascii) : bool :=
  let n := nat_of_ascii c in Nat.leb 97 n && Nat.leb n 122.
Definition is_upper (c : ascii) : bool :=
  let n := nat_of_ascii c in Nat.leb 65 n && Nat.leb n 90.
Definition is_digit (c : ascii) : bool :=
  let n := nat_of_ascii c in Nat.leb 48 n && Nat.leb n 57.
Definition is_alnum (c : ascii) : bool := is_lower c || is_upper c || is_digit c.

Definition upper_char (c : ascii) : ascii :=
  if is_lower c then ascii_of_nat (Nat.sub (nat_of_ascii c) 32) else c.
Definition lower_char (c : ascii) : ascii :=
  if is_upper c then ascii_of_nat (Nat.add (nat_of_ascii c) 32) else c.

Fixpoint map_chars (f : ascii -> ascii) (s : string) : string :=
  match s with
  | EmptyString => EmptyString
  | String a s' => String (f a) (map_chars f s')
  end.

Definition toUpperCase : string -> string := map_chars upper_char.
Definition toLowerCase : string -> string := map_chars lower_char.

(** [s.replace(/([a-z\d])([A-Z])/g, '$1 $2')] *)
Fixpoint space_camel (s : string) : string :=
  match s with
  | String a ((String b rest) as s') =>
      if (is_lower a || is_digit a) && is_upper b
      then String a (String " "%char (space_camel s'))
      else String a (space_camel s')
  | String a EmptyString => String a EmptyString
  | EmptyString => EmptyString
  end.

(** [s.replace(/[^a-zA-Z\d]+/g, ' ')]; [inrun] tells that the previous
    character already belonged to the run being replaced. *)
Fixpoint squash_non_alnum (inrun : bool) (s : string) : string :=
  match s with
  | EmptyString => EmptyString
  | String a s' =>
      if is_alnum a then String a (squash_non_alnum false s')
      else if inrun then squash_non_alnum true s'
           else String " "%char (squash_non_alnum true s')
  end.

(** White space of [trim()], among 8-bit characters. *)
Definition is_space (c : ascii) : bool :=
  let n := nat_of_ascii c in
  (Nat.leb 9 n && Nat.leb n 13) || Nat.eqb n 32 || Nat.eqb n 160.

Fixpoint trim_start (s : string) : string :=
  match s with
  | String a s' => if is_space a then trim_start s' else s
  | EmptyString => EmptyString
  end.

Fixpoint trim_end (s : string) : string :=
  match s with
  | EmptyString => EmptyString
  | String a s' =>
      match trim_end s' with
      | EmptyString => if is_space a then EmptyString else String a EmptyString
      | t => String a t
      end
  end.

Definition trim (s : string) : string := trim_end (trim_start s).

(** [xs.join(sep)] *)
Fixpoint join (sep : string) (xs : list string) : string :=
  match xs with
  | [] => EmptyString
  | [x] => x
  | x :: rest => x ++ sep ++ join sep rest
  end.

Definition nonempty (s : string) : bool :=
  match s with EmptyString => false | _ => true end.

(** Decimal rendering of an integer, as a template literal prints it. *)
Definition digit_char (n : nat) : ascii := ascii_of_nat (Nat.add 48 n).

Fixpoint nat_digits (fuel n : nat) (acc : string) : string :=
  match fuel with
  | O => acc
  | S fuel' =>
      let acc' := String (digit_char (Nat.modulo n 10)) acc in
      if Nat.ltb n 10 then acc' else nat_digits fuel' (Nat.div n 10) acc'
  end.

Definition of_nat (n : nat) : string := nat_digits (S n) n EmptyString.

Definition of_Z (z : Z) : string :=
  match z with
  | Z0 => "0"
  | Zpos p => of_nat (Pos.to_nat p)
  | Zneg p => String "-"%char (of_nat (Pos.to_nat p))
  end.

End Str.

(** ** Values, objects and the heap *)

Abbreviation addr := nat (only parsing).

Inductive val : Type :=
| VUndef
| VNull
| VBool (b : bool)
| VNum (n : Z)
| VStr (s : string)
| VObj (a : addr).

(** An object keeps its own properties in enumeration order; an array keeps
    its elements. *)
Inductive object : Type :=
| OMap (fields : list (string * val))
| OArr (items : list val).

Abbreviation heap := (list object) (only parsing).

Inductive failure : Type :=
| TypeError
| Thrown (msg : string)
| Unmodelled
| OutOfFuel.

Inductive outcome (A : Type) : Type :=
| Ok (a : A)
| Fail (f : failure).
Arguments Ok {A} a.
Arguments Fail {A} f.

Definition val_eqb (x y : val) : bool :=
  match x, y with
  | VUndef, VUndef => true
  | VNull, VNull => true
  | VBool a, VBool b => Bool.eqb a b
  | VNum a, VNum b => Z.eqb a b
  | VStr a, VStr b => String.eqb a b
  | VObj a, VObj b => Nat.eqb a b
  | _, _ => false
  end.

(** [!!v] *)
Definition truthy (v : val) : bool :=
  match v with
  | VUndef | VNull => false
  | VBool b => b
  | VNum n => negb (Z.eqb n 0)
  | VStr s => Str.nonempty s
  | VObj _ => true
  end.

(** [typeof v === 'object'] *)
Definition typeof_object (v : val) : bool :=
  match v with VNull | VObj _ => true | _ => false end.

(** [typeof v === 'string'] *)
Definition typeof_string (v : val) : bool :=
  match v with VStr _ => true | _ => false end.

(** [x || y] *)
Definition js_or (x y : val) : val := if truthy x then x else y.

(** *** Property keys *)

Fixpoint digits_value (s : string) (acc : N) : option N :=
  match s with
  | EmptyString => Some acc
  | String c s' =>
      if Str.is_digit c
      then digits_value s' (N.add (N.mul 10 acc) (N.sub (N_of_ascii c) 48))
      else None
  end.

(** An array index: a canonical decimal numeral below [2^32 - 1]. *)
Definition index_of_key (k : string) : option nat :=
  match k with
  | EmptyString => None
  | String "0"%char EmptyString => Some O
  | String "0"%char _ => None
  | _ => if Nat.ltb 10 (String.length k) then None
         else match digits_value k 0%N with
              | Some n => if N.ltb n 4294967295 then Some (N.to_nat n) else None
              | None => None
              end
  end.

Fixpoint fget (fs : list (string * val)) (k : string) : val :=
  match fs with
  | [] => VUndef
  | (k', v) :: fs' => if String.eqb k' k then v else fget fs' k
  end.

Fixpoint fhas (fs : list (string * val)) (k : string) : bool :=
  match fs with
  | [] => false
  | (k', _) :: fs' => if String.eqb k' k then true else fhas fs' k
  end.

Fixpoint freplace (fs : list (string * val)) (k : string) (v : val) : list (string * val) :=
  match fs with
  | [] => []
  | (k', v') :: fs' =>
      if String.eqb k' k then (k', v) :: fs' else (k', v') :: freplace fs' k v
  end.

(** A new index key goes among the index keys, in ascending order; any other
    new key goes last. *)
Fixpoint finsert_index (fs : list (string * val)) (n : nat) (k : string) (v : val)
  : list (string * val) :=
  match fs with
  | [] => [(k, v)]
  | (k', v') :: fs' =>
      match index_of_key k' with
      | Some n' => if Nat.ltb n n' then (k, v) :: fs
                   else (k', v') :: finsert_index fs' n k v
      | None => (k, v) :: fs
      end
  end.

Definition fset (fs : list (string * val)) (k : string) (v : val) : list (string * val) :=
  if fhas fs k then freplace fs k v
  else match index_of_key k with
       | Some n => finsert_index fs n k v
       | None => fs ++ [(k, v)]
       end.

Definition fdel (fs : list (string * val)) (k : string) : list (string * val) :=
  List.filter (fun kv => negb (String.eqb (fst kv) k)) fs.

Definition fkeys (fs : list (string * val)) : list string := List.map fst fs.

Definition index_keys (n : nat) : list string := List.map Str.of_nat (seq 0 n).

Fixpoint chars (s : string) : list val :=
  match s with
  | EmptyString => []
  | String c s' => VStr (String c EmptyString) :: chars s'
  end.

Definition nth_val (xs : list val) (n : nat) : val :=
  match xs !! n with Some v => v | None => VUndef end.

Definition indexed_get (xs : list val) (k : string) : val :=
  if String.eqb k "length" then VNum (Z.of_nat (List.length xs))
  else match index_of_key k with
       | Some n => nth_val xs n
       | None => VUndef
       end.

(** *** Reading and writing properties *)

(** [v[k]] *)
Definition js_get (h : heap) (v : val) (k : string) : outcome val :=
  match v with
  | VUndef | VNull => Fail TypeError
  | VBool _ | VNum _ => Ok VUndef
  | VStr s => Ok (indexed_get (chars s) k)
  | VObj a =>
      match h !! a with
      | Some (OMap fs) => Ok (fget fs k)
      | Some (OArr xs) => Ok (indexed_get xs k)
      | None => Fail Unmodelled
      end
  end.

(** [v[k] = x], in strict mode (the file is an ES module) *)
Definition js_set (h : heap) (v : val) (k : string) (x : val) : outcome heap :=
  match v with
  | VObj a =>
      match h !! a with
      | Some (OMap fs) => Ok (<[a := OMap (fset fs k x)]> h)
      | Some (OArr xs) =>
          match index_of_key k with
          | Some n => if Nat.ltb n (List.length xs)
                      then Ok (<[a := OArr (<[n := x]> xs)]> h)
                      else Fail Unmodelled
          | None => Fail Unmodelled
          end
      | None => Fail Unmodelled
      end
  | _ => Fail TypeError
  end.

(** [delete v[k]], in strict mode *)
Definition js_delete (h : heap) (v : val) (k : string) : outcome heap :=
  match v with
  | VUndef | VNull => Fail TypeError
  | VBool _ | VNum _ => Ok h
  | VStr s => match indexed_get (chars s) k with
              | VUndef => Ok h
              | _ => Fail TypeError
              end
  | VObj a =>
      match h !! a with
      | Some (OMap fs) => Ok (<[a := OMap (fdel fs k)]> h)
      | Some (OArr xs) =>
          if String.eqb k "length" then Fail TypeError
          else match index_of_key k with
               | Some n => if Nat.ltb n (List.length xs) then Fail Unmodelled else Ok h
               | None => Ok h
               end
      | None => Fail Unmodelled
      end
  end.

(** [Object.entries(v)] *)
Definition js_entries (h : heap) (v : val) : outcome (list (string * val)) :=
  match v with
  | VUndef | VNull => Fail TypeError
  | VBool _ | VNum _ => Ok []
  | VStr s => Ok (combine (index_keys (String.length s)) (chars s))
  | VObj a =>
      match h !! a with
      | Some (OMap fs) => Ok fs
      | Some (OArr xs) => Ok (combine (index_keys (List.length xs)) xs)
      | None => Fail Unmodelled
      end
  end.

(** [Array.isArray(v)] *)
Definition is_array (h : heap) (v : val) : bool :=
  match v with
  | VObj a => match h !! a with Some (OArr _) => true | _ => false end
  | _ => false
  end.

(** The elements of [v] when it is an array. *)
Definition array_items (h : heap) (v : val) : option (list val) :=
  match v with
  | VObj a => match h !! a with Some (OArr xs) => Some xs | _ => None end
  | _ => None
  end.

(** A template literal's rendering of [v], also the property key [v] names. *)
Definition js_to_string (h : heap) (v : val) : outcome string :=
  match v with
  | VUndef => Ok "undefined"
  | VNull => Ok "null"
  | VBool true => Ok "true"
  | VBool false => Ok "false"
  | VNum n => Ok (Str.of_Z n)
  | VStr s => Ok s
  | VObj a =>
      match h !! a with
      | Some (OMap _) => Ok "[object Object]"
      | _ => Fail Unmodelled
      end
  end.

(** ** The monad: state passing with failure

    A computation runs on a state and returns an outcome and the state it
    left, also when it fails: what a function wrote before it threw stays
    written. *)

Definition M (St A : Type) : Type := St -> outcome A * St.

Definition ret {St A : Type} (a : A) : M St A := fun s => (Ok a, s).

Definition bind {St A B : Type} (m : M St A) (k : A -> M St B) : M St B :=
  fun s => match m s with
           | (Ok a, s') => k a s'
           | (Fail e, s') => (Fail e, s')
           end.

Definition fail {St A : Type} (e : failure) : M St A := fun s => (Fail e, s).

Declare Scope js_scope.
Delimit Scope js_scope with js.
Notation "'let*' x := m 'in' k" := (bind m (fun x => k))
  (at level 10, x pattern, m at level 100, k at level 200) : js_scope.
Notation "m ;; k" := (bind m (fun _ => k))
  (at level 100, k at level 200, right associativity) : js_scope.
Local Open Scope js_scope.

(** States that hold the document heap. *)
Class Store (St : Type) : Type := {
  heap_of : St -> heap;
  with_heap : heap -> St -> St
}.

#[global] Instance heap_Store : Store heap := {
  heap_of h := h;
  with_heap h _ := h
}.

Definition get_state {St : Type} : M St St := fun s => (Ok s, s).
Definition modify {St : Type} (f : St -> St) : M St unit := fun s => (Ok tt, f s).

Definition of_outcome {St A : Type} (o : outcome A) : M St A := fun s => (o, s).

Definition reading {St A : Type} `{Store St} (f : heap -> outcome A) : M St A :=
  fun s => (f (heap_of s), s).

Definition writing {St : Type} `{Store St} (f : heap -> outcome heap) : M St unit :=
  fun s => match f (heap_of s) with
           | Ok h' => (Ok tt, with_heap h' s)
           | Fail e => (Fail e, s)
           end.

Section HeapOps.
Context {St : Type} `{Store St}.

Definition getp (v : val) (k : string) : M St val := reading (fun h => js_get h v k).
Definition setp (v : val) (k : string) (x : val) : M St unit := writing (fun h => js_set h v k x).
Definition delp (v : val) (k : string) : M St unit := writing (fun h => js_delete h v k).
Definition entries (v : val) : M St (list (string * val)) := reading (fun h => js_entries h v).
Definition keys (v : val) : M St (list string) :=
  let* es := entries v in ret (List.map fst es).
Definition values (v : val) : M St (list val) :=
  let* es := entries v in ret (List.map snd es).
Definition isArray (v : val) : M St bool := reading (fun h => Ok (is_array h v)).
Definition to_string (v : val) : M St string := reading (fun h => js_to_string h v).

(** [new Object] / an object or array literal *)
Definition alloc (o : object) : M St val :=
  fun s => (Ok (VObj (List.length (heap_of s))), with_heap (heap_of s ++ [o]) s).

(** [v?.k] *)
Definition getp_opt (v : val) (k : string) : M St val :=
  match v with
  | VUndef | VNull => ret VUndef
  | _ => getp v k
  end.

(** The elements of an array, for the methods only arrays have
    ([map], [filter], [some], [find], [forEach]): calling one on anything
    else is a [TypeError]. *)
Definition items_of (v : val) : M St (list val) :=
  reading (fun h => match v with
                    | VUndef | VNull => Fail TypeError
                    | _ => match array_items h v with
                           | Some xs => Ok xs
                           | None => Fail TypeError
                           end
                    end).

(** [xs.forEach(f)] over a list already read *)
Fixpoint forEach {A : Type} (xs : list A) (f : A -> M St unit) : M St unit :=
  match xs with
  | [] => ret tt
  | x :: xs' => f x ;; forEach xs' f
  end.

(** [arr.forEach(f)] on the live array [arr]: the length is read once, each
    element when its turn comes, and an index that no longer exists is
    skipped. *)
Fixpoint forEach_from (arr : val) (i n : nat) (f : val -> M St unit) : M St unit :=
  match n with
  | O => ret tt
  | S n' =>
      let* xs := items_of arr in
      (match xs !! i with
       | Some x => f x
       | None => ret tt
       end) ;;
      forEach_from arr (S i) n' f
  end.

Definition forEach_live (arr : val) (f : val -> M St unit) : M St unit :=
  let* xs := items_of arr in
  forEach_from arr 0 (List.length xs) f.

(** [xs.some(p)] and [xs.find(p)], which stop at the first hit *)
Fixpoint some_of (xs : list val) (p : val -> M St bool) : M St bool :=
  match xs with
  | [] => ret false
  | x :: xs' => let* b := p x in if b then ret true else some_of xs' p
  end.

Fixpoint find_of (xs : list val) (p : val -> M St bool) : M St val :=
  match xs with
  | [] => ret VUndef
  | x :: xs' => let* b := p x in if b then ret x else find_of xs' p
  end.

(** [xs.filter(p)] *)
Fixpoint filter_of {A : Type} (xs : list A) (p : A -> M St bool) : M St (list A) :=
  match xs with
  | [] => ret []
  | x :: xs' =>
      let* b := p x in
      let* rest := filter_of xs' p in
      ret (if b then x :: rest else rest)
  end.

(** [xs.map(f)] *)
Fixpoint map_of {A B : Type} (xs : list A) (f : A -> M St B) : M St (list B) :=
  match xs with
  | [] => ret []
  | x :: xs' =>
      let* y := f x in
      let* rest := map_of xs' f in
      ret (y :: rest)
  end.

Definition when (b : bool) (m : M St unit) : M St unit := if b then m else ret tt.

(** [Object.assign(target, source)] *)
Definition assign (target source : val) : M St unit :=
  match source with
  | VUndef | VNull => ret tt
  | _ => let* es := entries source in
         forEach es (fun kv => setp target (fst kv) (snd kv))
  end.

End HeapOps.

(** ** Stage 1: the endpoint filter (lines 5-46 of the module) *)

Definition dquote : string := String (ascii_of_nat 34) EmptyString.

Section EndpointFilter.
Context {St : Type} `{Store St}.

(** [allEndpoints.filter((endpoint) => !endpoint.disabled)] *)
Definition enabledEndpoints (allEndpoints : val) : M St (list val) :=
  let* eps := items_of allEndpoints in
  filter_of eps (fun ep => let* d := getp ep "disabled" in ret (negb (truthy d))).

(** The loop of lines 11-15: every endpoint's path must be in the document. *)
Definition checkEndpoint (openApiSpec endpoint : val) : M St unit :=
  let* paths := getp openApiSpec "paths" in
  let* pp := getp endpoint "pathPattern" in
  let* key := to_string pp in
  let* item := getp paths key in
  if truthy item then ret tt
  else fail (Thrown ("Path " ++ dquote ++ key ++ dquote ++ " not found in OpenAPI spec.")).

Definition checkEndpoints (openApiSpec : val) (endpoints : list val) : M St unit :=
  forEach endpoints (checkEndpoint openApiSpec).

(** The callback of [operation.parameters.map], lines 30-39. *)
Definition resolveParameter (openApiSpec param : val) : M St val :=
  let* r := getp param "$ref" in
  if truthy r then
    match r with
    | VStr rs =>
        if Str.startsWith rs "#/components/parameters/" then
          let paramName := Str.replace "#/components/parameters/" "" rs in
          let* comps := getp openApiSpec "components" in
          let* params := getp_opt comps "parameters" in
          let* resolvedParam := getp_opt params paramName in
          if truthy resolvedParam
          then let* es := entries resolvedParam in alloc (OMap es)
          else ret param
        else ret param
    | _ => fail TypeError
    end
  else ret param.

(** [ep.method.toLowerCase() === method] *)
Definition methodMatches (method : string) (ep : val) : M St bool :=
  let* m := getp ep "method" in
  match m with
  | VStr ms => ret (String.eqb (Str.toLowerCase ms) method)
  | _ => fail TypeError
  end.

(** The body of the inner loop, lines 23-43. *)
Definition filterOperation (openApiSpec : val) (e : list val) (value : val)
    (method : string) (operation : val) : M St unit :=
  let* eo := find_of e (methodMatches method) in
  if truthy eo then
    let* toolName := getp eo "toolName" in
    setp operation "operationId" toolName ;;
    let* d := getp operation "description" in
    let* sm := getp operation "summary" in
    when (negb (truthy d) && truthy sm) (setp operation "description" sm) ;;
    let* ps := getp operation "parameters" in
    when (truthy ps)
      (let* xs := items_of ps in
       let* ys := map_of xs (resolveParameter openApiSpec) in
       let* arr := alloc (OArr ys) in
       setp operation "parameters" arr)
  else delp value method.

(** [ep.pathPattern === key] *)
Definition pathMatches (key : string) (ep : val) : M St bool :=
  let* pp := getp ep "pathPattern" in ret (val_eqb pp (VStr key)).

(** The body of the outer loop, lines 18-45. *)
Definition filterPath (openApiSpec : val) (endpoints : list val) (kv : string * val)
  : M St unit :=
  let* e := filter_of endpoints (pathMatches (fst kv)) in
  match e with
  | [] => let* paths := getp openApiSpec "paths" in delp paths (fst kv)
  | _ => let* ms := entries (snd kv) in
         forEach ms (fun mo => filterOperation openApiSpec e (snd kv) (fst mo) (snd mo))
  end.

Definition filterPaths (openApiSpec : val) (endpoints : list val) : M St unit :=
  let* paths := getp openApiSpec "paths" in
  let* es := entries paths in
  forEach es (filterPath openApiSpec endpoints).

End EndpointFilter.

(** ** Stage 2: the structural cleaner *)

Section Cleaner.
Context {St : Type} `{Store St}.

Fixpoint removeODataTypeRecursively (fuel : nat) (obj : val) : M St unit :=
  match fuel with
  | O => fail OutOfFuel
  | S fuel' =>
      if negb (truthy obj) || negb (typeof_object obj) then ret tt
      else
        let* isarr := isArray obj in
        if isarr then forEach_live obj (removeODataTypeRecursively fuel')
        else
          let* ks := keys obj in
          forEach ks (fun key =>
            if String.eqb key "@odata.type" then delp obj key
            else let* v := getp obj key in removeODataTypeRecursively fuel' v)
  end.

(** [items.some((item) => item.$ref)] *)
Definition hasRef (items : list val) : M St bool :=
  some_of items (fun item => let* r := getp item "$ref" in ret (truthy r)).

(** [items.some((item) => item.type === 'object' && item.nullable === true
    && Object.keys(item).length <= 2)] *)
Definition hasNullableObject (items : list val) : M St bool :=
  some_of items (fun item =>
    let* t := getp item "type" in
    if val_eqb t (VStr "object") then
      let* n := getp item "nullable" in
      if val_eqb n (VBool true) then
        let* ks := keys item in ret (Nat.leb (List.length ks) 2)
      else ret false
    else ret false).

(** [items.find((item) => item.$ref)] *)
Definition findRef (items : list val) : M St val :=
  find_of items (fun item => let* r := getp item "$ref" in ret (truthy r)).

(** [schema.description = `${schema.description || ''}${note}`.trim()] *)
Definition annotate (schema : val) (note : string) : M St unit :=
  let* d := getp schema "description" in
  let* ds := to_string (js_or d (VStr "")) in
  setp schema "description" (VStr (Str.trim (ds ++ note))).

(** The two-branch rule shared by every copy of the [anyOf] code: a
    reference beside a nullable object marker. *)
Definition collapseRefNullable (schema : val) (union : string) (items : list val) : M St unit :=
  let* r := hasRef items in
  let* n := hasNullableObject items in
  when (r && n)
    (let* refItem := findRef items in
     delp schema union ;;
     let* rr := getp refItem "$ref" in
     setp schema "$ref" rr ;;
     setp schema "nullable" (VBool true)).

(** The many-branch rule: the first branch's type, nullable, annotated. *)
Definition collapseMany (schema : val) (union : string) : M St unit :=
  let* u := getp schema union in
  let* firstOption := getp u "0" in
  let* t := getp firstOption "type" in
  setp schema "type" (js_or t (VStr "object")) ;;
  setp schema "nullable" (VBool true) ;;
  let* u' := getp schema union in
  let* len := getp u' "length" in
  let* ls := to_string len in
  annotate schema (" [Simplified from " ++ ls ++ " options]") ;;
  delp schema union.

(** [v.length] of an array already known to be one. *)
Definition lengthOf (v : val) : M St nat :=
  let* xs := items_of v in ret (List.length xs).

Definition flattenComplexSchema (schema : val) (schemaName : string) : M St unit :=
  let* a := getp schema "anyOf" in
  let* aArr := isArray a in
  when (truthy a && aArr)
    (let* n := lengthOf a in
     if Nat.eqb n 2 then
       let* items := items_of a in collapseRefNullable schema "anyOf" items
     else when (Nat.ltb 2 n) (collapseMany schema "anyOf")) ;;
  let* o := getp schema "oneOf" in
  let* oArr := isArray o in
  if truthy o && oArr then
    let* n := lengthOf o in
    when (Nat.ltb 2 n) (collapseMany schema "oneOf")
  else ret tt.

(** [[...v]]: the elements of an iterable *)
Definition spread (v : val) : M St (list val) :=
  match v with
  | VStr s => ret (chars s)
  | _ => items_of v
  end.

(** [[...new Set(xs)]] *)
Fixpoint dedupe (xs : list val) (seen : list val) : list val :=
  match xs with
  | [] => []
  | x :: xs' =>
      if existsb (val_eqb x) seen then dedupe xs' seen
      else x :: dedupe xs' (x :: seen)
  end.

(** [merged.required = [...(merged.required || []), ...source.required]] *)
Definition appendRequired (merged source : val) : M St unit :=
  let* req := getp source "required" in
  when (truthy req)
    (let* old := getp merged "required" in
     let* olds := (if truthy old then spread old else ret []) in
     let* news := spread req in
     let* arr := alloc (OArr (olds ++ news)) in
     setp merged "required" arr).

Definition mergeAllOfSchemas (allOfArray allSchemas : val) : M St val :=
  let* props := alloc (OMap []) in
  let* merged := alloc (OMap [("type", VStr "object"); ("properties", props)]) in
  forEach_live allOfArray (fun item =>
    let* r := getp item "$ref" in
    if truthy r then
      match r with
      | VStr rs =>
          let refSchemaName := Str.replace "#/components/schemas/" "" rs in
          let* refSchema := getp allSchemas refSchemaName in
          when (truthy refSchema)
            (let* rp := getp refSchema "properties" in
             when (truthy rp)
               (let* mp := getp merged "properties" in assign mp rp) ;;
             appendRequired merged refSchema ;;
             let* rd := getp refSchema "description" in
             let* md := getp merged "description" in
             when (truthy rd && negb (truthy md)) (setp merged "description" rd))
      | _ => fail TypeError
      end
    else
      let* ip := getp item "properties" in
      when (truthy ip)
        (let* mp := getp merged "properties" in
         assign mp ip ;;
         appendRequired merged item)) ;;
  let* req := getp merged "required" in
  when (truthy req)
    (let* xs := spread req in
     let* arr := alloc (OArr (dedupe xs [])) in
     setp merged "required" arr) ;;
  ret merged.

Definition shouldReduceProperties (schema : val) : M St bool :=
  let* props := getp schema "properties" in
  if negb (truthy props) then ret false
  else let* ks := keys props in ret (Nat.ltb 25 (List.length ks)).

Definition priorityProperties : list string :=
  [ "id"; "name"; "displayName"; "description"; "createdDateTime";
    "lastModifiedDateTime"; "status"; "state"; "type"; "value"; "email";
    "userPrincipalName"; "title"; "content"; "body"; "subject"; "message";
    "attachments"; "error"; "code"; "details"; "url"; "href"; "path";
    "method"; "enabled" ].

(** [xs.slice(0, e)]: a negative end counts from the end of [xs]. *)
Definition slice_to {A : Type} (xs : list A) (e : Z) : list A :=
  if Z.ltb e 0 then List.firstn (Z.to_nat (Z.of_nat (List.length xs) + e)) xs
  else List.firstn (Z.to_nat e) xs.

Definition reduceProperties (schema : val) (schemaName : string) : M St unit :=
  let* properties := getp schema "properties" in
  let* propertyKeys := keys properties in
  let propertyCount := List.length propertyKeys in
  when (Nat.ltb 25 propertyCount)
    (let* keptProperties := alloc (OMap []) in
     forEach priorityProperties (fun key =>
       let* p := getp properties key in
       when (truthy p) (setp keptProperties key p)) ;;
     let* keptKeys := keys keptProperties in
     let remainingSlots := (25 - Z.of_nat (List.length keptKeys))%Z in
     let* otherKeys := filter_of propertyKeys (fun key =>
       let* k := getp keptProperties key in ret (negb (truthy k))) in
     forEach (slice_to otherKeys remainingSlots) (fun key =>
       let* p := getp properties key in setp keptProperties key p) ;;
     setp schema "properties" keptProperties ;;
     setp schema "additionalProperties" (VBool true) ;;
     annotate schema (" [Note: Simplified from " ++ Str.of_nat propertyCount
                        ++ " properties to 25 most common ones]")).

(** The union rules as [simplifyNestedPropertiesRecursively] and
    [simplifyAnyOfSchema] apply them to [anyOf]. *)
Definition simplifyAnyOf (schema : val) : M St unit :=
  let* a := getp schema "anyOf" in
  let* aArr := isArray a in
  when (truthy a && aArr)
    (let* n := lengthOf a in
     if Nat.eqb n 2 then
       let* items := items_of a in collapseRefNullable schema "anyOf" items
     else when (Nat.ltb 2 n) (collapseMany schema "anyOf")).

(** [gap] is [maxDepth - currentDepth]; the module calls the function with
    [currentDepth = 0] and [maxDepth = 3]. *)
Fixpoint simplifyNestedPropertiesRecursively (gap : nat) (properties : val) : M St unit :=
  match gap with
  | O => ret tt
  | S gap' =>
      if negb (truthy properties) || negb (typeof_object properties) then ret tt
      else
        let* ks := keys properties in
        forEach ks (fun key =>
          let* prop := getp properties key in
          when (truthy prop && typeof_object prop)
            (let* pp := getp prop "properties" in
             (if Nat.eqb gap' 0 && truthy pp then
                setp prop "type" (VStr "object") ;;
                annotate prop " [Simplified: nested object]" ;;
                delp prop "properties" ;;
                delp prop "additionalProperties"
              else when (truthy pp) (simplifyNestedPropertiesRecursively gap' pp)) ;;
             simplifyAnyOf prop ;;
             let* o := getp prop "oneOf" in
             let* oArr := isArray o in
             if truthy o && oArr then
               let* n := lengthOf o in
               when (Nat.ltb 2 n) (collapseMany prop "oneOf")
             else ret tt))
  end.

Definition flattenComplexSchemasRecursively (schemas : val) : M St unit :=
  let* es := entries schemas in
  forEach es (fun kv =>
    let schema := snd kv in
    if negb (truthy schema) || negb (typeof_object schema) then ret tt
    else
      flattenComplexSchema schema (fst kv) ;;
      let* allOf := getp schema "allOf" in
      when (truthy allOf)
        (let* flattenedSchema := mergeAllOfSchemas allOf schemas in
         assign schema flattenedSchema ;;
         delp schema "allOf") ;;
      let* props := getp schema "properties" in
      let* big := (if truthy props then shouldReduceProperties schema else ret false) in
      when big (reduceProperties schema (fst kv)) ;;
      let* props' := getp schema "properties" in
      when (truthy props') (simplifyNestedPropertiesRecursively 3 props')).

(** [simplifyAnyOfSchema(schema, context)], called when [schema.anyOf] is
    truthy. *)
Definition simplifyAnyOfSchema (schema : val) : M St unit := simplifyAnyOf schema.

(** [holder.schema && holder.schema.anyOf] then [simplifyAnyOfSchema] *)
Definition simplifySchemaOf (holder : val) : M St unit :=
  let* sc := getp holder "schema" in
  if truthy sc then
    let* a := getp sc "anyOf" in
    when (truthy a) (simplifyAnyOfSchema sc)
  else ret tt.

Definition simplifyAnyOfInPaths (paths : val) : M St unit :=
  let* es := entries paths in
  forEach es (fun kv =>
    let pathItem := snd kv in
    if negb (truthy pathItem) || negb (typeof_object pathItem) then ret tt
    else
      let* ops := entries pathItem in
      forEach ops (fun mo =>
        let operation := snd mo in
        if negb (truthy operation) || negb (typeof_object operation) then ret tt
        else
          let* ps := getp operation "parameters" in
          let* psArr := isArray ps in
          when (truthy ps && psArr) (forEach_live ps simplifySchemaOf) ;;
          let* rb := getp operation "requestBody" in
          let* rbc := (if truthy rb then getp rb "content" else ret VUndef) in
          when (truthy rbc)
            (let* ms := values rbc in forEach ms simplifySchemaOf) ;;
          let* rs := getp operation "responses" in
          when (truthy rs)
            (let* rvs := values rs in
             forEach rvs (fun response =>
               let* c := getp response "content" in
               when (truthy c)
                 (let* ms := values c in forEach ms simplifySchemaOf)))
      )).

End Cleaner.

(** ** Stage 3: the reference normalizer *)

Definition schemasPrefix : string := "#/components/schemas/".

Definition shouldHoistRef (ref : val) : bool :=
  match ref with
  | VStr r =>
      if negb (Str.startsWith r "#/") then false
      else if Str.startsWith r "#/$defs/" then false
      else if Str.startsWith r schemasPrefix
           then Str.includes "/" (Str.slice (String.length schemasPrefix) r)
      else if Str.startsWith r "#/components/" then false
      else true
  | _ => false
  end.

Definition decodePointerSegment (segment : string) : string :=
  Str.replace_tilde0 (Str.replace_tilde1 segment).

(** [pointer.slice(2).split('/').map(decodePointerSegment)] *)
Definition pointerSegments (pointer : string) : list string :=
  List.map decodePointerSegment (Str.split "/" (Str.slice 2 pointer)).

(** The loop of [resolveJsonPointerWithParent]: [parent] and [key] are those
    of the last step taken. *)
Fixpoint walkPointer (h : heap) (segments : list string) (current parent : val)
    (key : string) : outcome (option (val * string * val)) :=
  match segments with
  | [] =>
      if negb (truthy parent) || negb (typeof_object parent) then Ok None
      else Ok (Some (parent, key, current))
  | segment :: rest =>
      match current with
      | VUndef | VNull => Ok None
      | _ => match js_get h current segment with
             | Ok next => walkPointer h rest next current segment
             | Fail e => Fail e
             end
      end
  end.

Definition resolveJsonPointerWithParent (h : heap) (root : val) (pointer : val)
  : outcome (option (val * string * val)) :=
  match pointer with
  | VStr p =>
      if negb (Str.startsWith p "#/") then Ok None
      else walkPointer h (pointerSegments p) root VNull EmptyString
  | _ => Ok None
  end.

Definition capitalize (word : string) : string :=
  match word with
  | EmptyString => EmptyString
  | String c rest => String (Str.upper_char c) rest
  end.

(** [toPascalCase] on a string *)
Definition pascalCase (value : string) : string :=
  if negb (Str.nonempty value) then EmptyString
  else
    let spaced := Str.squash_non_alnum false (Str.space_camel value) in
    let words := List.filter Str.nonempty (Str.split " " (Str.trim spaced)) in
    Str.join EmptyString (List.map capitalize words).

Definition structuralSegments : list string :=
  [ "components"; "schemas"; "$defs"; "schema"; "content"; "responses";
    "requestBody"; "properties"; "definitions"; "pathItems"; "allOf"; "anyOf";
    "oneOf"; "then"; "else"; "if" ].

Definition mem_string (s : string) (xs : list string) : bool :=
  existsb (String.eqb s) xs.

(** [xs.lastIndexOf(x)] *)
Fixpoint lastIndexOf (x : string) (xs : list string) (i : nat) (found : option nat)
  : option nat :=
  match xs with
  | [] => found
  | y :: ys => lastIndexOf x ys (S i) (if String.eqb y x then Some i else found)
  end.

(** [xs.slice(-2)] *)
Definition last_two {A : Type} (xs : list A) : list A :=
  List.skipn (List.length xs - 2) xs.

Definition head_is (xs : list string) (s : string) : bool :=
  match xs with
  | x :: _ => String.eqb x s
  | [] => false
  end.

Definition extractPointerNameSegments (pointer contextSegment : string) : list string :=
  if negb (Str.startsWith pointer "#/") then []
  else
    let rawSegments := List.filter Str.nonempty (pointerSegments pointer) in
    match rawSegments with
    | [] => []
    | _ =>
        let relevant1 :=
          if head_is rawSegments "components" && head_is (List.tl rawSegments) "schemas"
          then List.skipn 2 rawSegments
          else if head_is rawSegments "$defs" then List.skipn 1 rawSegments
          else if head_is rawSegments "paths" then
            match lastIndexOf "schema" rawSegments 0 None with
            | Some schemaIndex => List.skipn (S schemaIndex) rawSegments
            | None => last_two rawSegments
            end
          else rawSegments in
        let relevant2 :=
          if head_is relevant1 "properties" then List.skipn 1 relevant1 else relevant1 in
        let sanitized :=
          List.filter (fun seg => negb (mem_string seg structuralSegments)) relevant2 in
        let pascal := List.filter Str.nonempty (List.map pascalCase sanitized) in
        let pascal' :=
          if Str.nonempty contextSegment && head_is pascal contextSegment
          then List.tl pascal else pascal in
        match pascal' with
        | [] => ["Component"]
        | _ => pascal'
        end
    end.

(** The closure variables of [normalizeSchemaRefs], beside the document. *)
Record nstate : Type := mkN {
  n_heap : heap;
  pointerToComponent : list (string * string);
  existingNames : list string;
  visitedSchemas : list addr;
  hoistedCount : nat
}.

#[global] Instance nstate_Store : Store nstate := {
  heap_of := n_heap;
  with_heap h s :=
    mkN h (pointerToComponent s) (existingNames s) (visitedSchemas s) (hoistedCount s)
}.

(** [pointerToComponent.get(ref)] *)
Fixpoint memo_get (m : list (string * string)) (ref : string) : option string :=
  match m with
  | [] => None
  | (k, v) :: m' => if String.eqb k ref then Some v else memo_get m' ref
  end.

(** [pointerToComponent.set(ref, name)] *)
Fixpoint memo_set (m : list (string * string)) (ref name : string) : list (string * string) :=
  match m with
  | [] => [(ref, name)]
  | (k, v) :: m' => if String.eqb k ref then (k, name) :: m' else (k, v) :: memo_set m' ref name
  end.

Definition setPointer (ref name : string) : M nstate unit :=
  modify (fun s => mkN (n_heap s) (memo_set (pointerToComponent s) ref name)
                       (existingNames s) (visitedSchemas s) (hoistedCount s)).

(** [existingNames.add(name)] *)
Definition addName (name : string) : M nstate unit :=
  modify (fun s => mkN (n_heap s) (pointerToComponent s)
                       (if mem_string name (existingNames s) then existingNames s
                        else existingNames s ++ [name])
                       (visitedSchemas s) (hoistedCount s)).

Definition setNames (names : list string) : M nstate unit :=
  modify (fun s => mkN (n_heap s) (pointerToComponent s) names
                       (visitedSchemas s) (hoistedCount s)).

(** [visitedSchemas.add(schema)] *)
Definition markVisited (a : addr) : M nstate unit :=
  modify (fun s => mkN (n_heap s) (pointerToComponent s) (existingNames s)
                       (if existsb (Nat.eqb a) (visitedSchemas s) then visitedSchemas s
                        else visitedSchemas s ++ [a])
                       (hoistedCount s)).

(** [hoistedCount += 1] *)
Definition countHoist : M nstate unit :=
  modify (fun s => mkN (n_heap s) (pointerToComponent s) (existingNames s)
                       (visitedSchemas s) (S (hoistedCount s))).

(** [toPascalCase(value)] on any value: [`${value}`] renders it first. *)
Definition toPascalCase {St : Type} `{Store St} (value : val) : M St string :=
  if negb (truthy value) then ret EmptyString
  else let* s := to_string value in ret (pascalCase s).

(** The [while] loop of [generateComponentName]. *)
Fixpoint uniqueName (fuel : nat) (candidate : string) (counter : nat)
    (uniqueCandidate : string) (names : list string) : outcome string :=
  if mem_string uniqueCandidate names then
    match fuel with
    | O => Fail OutOfFuel
    | S fuel' =>
        uniqueName fuel' candidate (S counter)
                   (candidate ++ Str.of_nat (S counter)) names
    end
  else Ok uniqueCandidate.

Definition generateComponentName (fuel : nat) (contextName : val) (pointer : string)
  : M nstate string :=
  let* contextSegment := toPascalCase (js_or contextName (VStr EmptyString)) in
  let segments := extractPointerNameSegments pointer contextSegment in
  let base_segments :=
    if Str.nonempty contextSegment then (contextSegment, segments)
    else match segments with
         | first :: rest => (if Str.nonempty first then first else "Hoisted", rest)
         | [] => ("Hoisted", [])
         end in
  let base := fst base_segments in
  let suffix := Str.join EmptyString (snd base_segments) in
  let candidate0 := if Str.nonempty suffix then String.append base suffix else base in
  let candidate := if Str.nonempty candidate0 then candidate0 else "HoistedComponent" in
  let* s := get_state in
  let* uniqueCandidate := of_outcome (uniqueName fuel candidate 1 candidate (existingNames s)) in
  addName uniqueCandidate ;;
  ret uniqueCandidate.

(** *** [cloneSchema]: [structuredClone], a copy of the graph below a value
    that keeps its sharing. [seen] maps the objects already copied to their
    copies. *)

Fixpoint seen_get (seen : list (addr * addr)) (a : addr) : option addr :=
  match seen with
  | [] => None
  | (k, v) :: seen' => if Nat.eqb k a then Some v else seen_get seen' a
  end.

Definition cloner : Type :=
  heap -> list (addr * addr) -> val -> outcome (heap * list (addr * addr) * val).

Fixpoint cloneFields (rec : cloner) (fs : list (string * val)) (h : heap)
    (seen : list (addr * addr))
  : outcome (heap * list (addr * addr) * list (string * val)) :=
  match fs with
  | [] => Ok (h, seen, [])
  | (k, v) :: fs' =>
      match rec h seen v with
      | Ok (h1, seen1, v') =>
          match cloneFields rec fs' h1 seen1 with
          | Ok (h2, seen2, fs2) => Ok (h2, seen2, (k, v') :: fs2)
          | Fail e => Fail e
          end
      | Fail e => Fail e
      end
  end.

Fixpoint cloneItems (rec : cloner) (xs : list val) (h : heap)
    (seen : list (addr * addr))
  : outcome (heap * list (addr * addr) * list val) :=
  match xs with
  | [] => Ok (h, seen, [])
  | v :: xs' =>
      match rec h seen v with
      | Ok (h1, seen1, v') =>
          match cloneItems rec xs' h1 seen1 with
          | Ok (h2, seen2, xs2) => Ok (h2, seen2, v' :: xs2)
          | Fail e => Fail e
          end
      | Fail e => Fail e
      end
  end.

Fixpoint cloneValue (fuel : nat) (h : heap) (seen : list (addr * addr)) (v : val)
  : outcome (heap * list (addr * addr) * val) :=
  match fuel with
  | O => Fail OutOfFuel
  | S fuel' =>
      match v with
      | VObj a =>
          match seen_get seen a with
          | Some a' => Ok (h, seen, VObj a')
          | None =>
              let a' := List.length h in
              match h !! a with
              | None => Fail Unmodelled
              | Some (OMap fs) =>
                  match cloneFields (cloneValue fuel') fs (h ++ [OMap []]) ((a, a') :: seen) with
                  | Ok (h2, seen2, fs') => Ok (<[a' := OMap fs']> h2, seen2, VObj a')
                  | Fail e => Fail e
                  end
              | Some (OArr xs) =>
                  match cloneItems (cloneValue fuel') xs (h ++ [OArr []]) ((a, a') :: seen) with
                  | Ok (h2, seen2, xs') => Ok (<[a' := OArr xs']> h2, seen2, VObj a')
                  | Fail e => Fail e
                  end
              end
          end
      | _ => Ok (h, seen, v)
      end
  end.

Definition cloneSchema {St : Type} `{Store St} (fuel : nat) (schema : val) : M St val :=
  fun s => match cloneValue fuel (heap_of s) [] schema with
           | Ok (h', _, v') => (Ok v', with_heap h' s)
           | Fail e => (Fail e, s)
           end.

(** *** [processSchema] and [hoistRef] *)

Section Traversal.
Context {St : Type} `{Store St}.

(** [if (Array.isArray(schema[k])) schema[k].forEach(f)] *)
Definition eachOfArray (schema : val) (k : string) (f : val -> M St unit) : M St unit :=
  let* a := getp schema k in
  let* arr := isArray a in
  when arr (forEach_live a f).

(** [if (schema[k]) f(schema[k])] *)
Definition ifTruthy (schema : val) (k : string) (f : val -> M St unit) : M St unit :=
  let* a := getp schema k in
  when (truthy a) (f a).

(** [if (schema[k] && typeof schema[k] === 'object') f(schema[k])] *)
Definition ifObject (schema : val) (k : string) (f : val -> M St unit) : M St unit :=
  let* a := getp schema k in
  when (truthy a && typeof_object a) (f a).

(** [if (schema[k] && typeof schema[k] === 'object')
      Object.values(schema[k]).forEach(f)] *)
Definition eachValue (schema : val) (k : string) (f : val -> M St unit) : M St unit :=
  let* a := getp schema k in
  when (truthy a && typeof_object a)
    (let* vs := values a in forEach vs f).

(** The descent of [processSchema] into the keywords of a schema, lines
    97-173, with [f] for the recursive call. *)
Definition descend (schema : val) (f : val -> M St unit) : M St unit :=
  eachOfArray schema "allOf" f ;;
  eachOfArray schema "anyOf" f ;;
  eachOfArray schema "oneOf" f ;;
  eachOfArray schema "prefixItems" f ;;
  ifTruthy schema "not" f ;;
  ifTruthy schema "contains" f ;;
  ifTruthy schema "propertyNames" f ;;
  ifTruthy schema "if" f ;;
  ifTruthy schema "then" f ;;
  ifTruthy schema "else" f ;;
  ifTruthy schema "items" (fun items =>
    let* arr := isArray items in
    if arr then forEach_live items f else f items) ;;
  ifObject schema "additionalProperties" f ;;
  ifObject schema "additionalItems" f ;;
  ifObject schema "unevaluatedItems" f ;;
  ifObject schema "unevaluatedProperties" f ;;
  eachValue schema "patternProperties" f ;;
  eachValue schema "dependencies" (fun dep =>
    when (truthy dep && typeof_object dep) (f dep)) ;;
  eachValue schema "dependentSchemas" f ;;
  eachValue schema "properties" f.

End Traversal.

Definition is_visited (s : nstate) (a : addr) : bool :=
  existsb (Nat.eqb a) (visitedSchemas s).

(** [{ $ref: replacementRef }] *)
Definition refStub (replacementRef : string) : object :=
  OMap [("$ref", VStr replacementRef)].

(** The context [hoistRef] names the component from, lines 235-239. *)
Definition deriveContext (contextName : val) (ref : string) : val :=
  if negb (truthy contextName) && Str.startsWith ref schemasPrefix
  then match Str.split "/" (Str.slice (String.length schemasPrefix) ref) with
       | first :: _ => VStr first
       | [] => VUndef
       end
  else contextName.

(** Lines 241-247 of [hoistRef]: name the component, record the pointer,
    install the clone and put a reference where the schema was. *)
Definition installComponent (fuel : nat) (openApiSpec : val) (ref : string)
    (contextName : val) (parent : val) (key : string) (clonedSchema : val)
  : M nstate string :=
  let* componentName := generateComponentName fuel (deriveContext contextName ref) ref in
  setPointer ref componentName ;;
  let* comps := getp openApiSpec "components" in
  let* schemas := getp comps "schemas" in
  setp schemas componentName clonedSchema ;;
  countHoist ;;
  let* stub := alloc (refStub (String.append schemasPrefix componentName)) in
  setp parent key stub ;;
  ret componentName.

(** Lines 225-231: the resolved value is itself a reference to a component
    schema, which the pointer is then recorded as an alias of. *)
Definition aliasTarget (vref : val) : option string :=
  match vref with
  | VStr vr =>
      if Str.nonempty vr && negb (shouldHoistRef vref) && Str.startsWith vr schemasPrefix
      then Some vr else None
  | _ => None
  end.

(** Lines 90-95 of [processSchema]: a schema whose [$ref] is a string takes
    the reference [hoistRef] returns, when it returns one. *)
Definition rewriteRef (schema : val) (hoist : M nstate (option string)) : M nstate unit :=
  let* ref := getp schema "$ref" in
  if typeof_string ref then
    let* normalizedRef := hoist in
    match normalizedRef with
    | Some r => when (Str.nonempty r) (setp schema "$ref" (VStr r))
    | None => ret tt
    end
  else ret tt.

Fixpoint processSchema (fuel : nat) (openApiSpec : val) (schema : val) (contextName : val)
  : M nstate unit :=
  match fuel with
  | O => fail OutOfFuel
  | S fuel' =>
      match schema with
      | VObj a =>
          let* s := get_state in
          if is_visited s a then ret tt
          else
            markVisited a ;;
            rewriteRef schema (hoistRef fuel' openApiSpec schema contextName) ;;
            descend schema (fun sub => processSchema fuel' openApiSpec sub contextName)
      | _ => ret tt
      end
  end

with hoistRef (fuel : nat) (openApiSpec : val) (schemaNode : val) (contextName : val)
  : M nstate (option string) :=
  match fuel with
  | O => fail OutOfFuel
  | S fuel' =>
      let* refv := getp schemaNode "$ref" in
      match refv with
      | VStr ref =>
          if negb (shouldHoistRef refv) then ret None
          else
            let* s := get_state in
            match memo_get (pointerToComponent s) ref with
            | Some componentName => ret (Some (String.append schemasPrefix componentName))
            | None =>
                let* resolved := reading (fun h => resolveJsonPointerWithParent h openApiSpec refv) in
                match resolved with
                | None => ret None
                | Some (parent, key, value) =>
                    if negb (truthy value) || negb (typeof_object value) then ret None
                    else
                      let* vref := getp value "$ref" in
                      match aliasTarget vref with
                      | Some vr =>
                          setPointer ref (Str.replace schemasPrefix EmptyString vr) ;;
                          ret (Some vr)
                      | None =>
                          let* clonedSchema := cloneSchema fuel' value in
                          let* componentName :=
                            installComponent fuel' openApiSpec ref contextName
                                             parent key clonedSchema in
                          processSchema fuel' openApiSpec clonedSchema (VStr componentName) ;;
                          ret (Some (String.append schemasPrefix componentName))
                      end
                end
            end
      | _ => ret None
      end
  end.

(** [if (content?.schema) processSchema(content.schema, context)] *)
Definition processContentSchema (fuel : nat) (openApiSpec : val) (content : val)
    (contextName : val) : M nstate unit :=
  let* sc := getp_opt content "schema" in
  when (truthy sc) (processSchema fuel openApiSpec sc contextName).

Definition processParameter (fuel : nat) (openApiSpec : val) (parameter : val)
    (contextName : string) : M nstate unit :=
  if negb (truthy parameter) || negb (typeof_object parameter) then ret tt
  else
    let* name := getp parameter "name" in
    let parameterName := match name with VStr n => n | _ => EmptyString end in
    let derived1 :=
      if Str.nonempty parameterName
      then (if Str.nonempty contextName
            then String.append contextName (String.append " " parameterName)
            else parameterName)
      else contextName in
    let derivedContext := if Str.nonempty derived1 then derived1 else "Parameter" in
    let* sc := getp parameter "schema" in
    when (truthy sc && typeof_object sc)
      (processSchema fuel openApiSpec sc (VStr derivedContext)) ;;
    let* content := getp parameter "content" in
    when (truthy content && typeof_object content)
      (let* es := entries content in
       forEach es (fun mc =>
         let mediaContext :=
           if Str.nonempty (fst mc)
           then String.append derivedContext (String.append " " (fst mc))
           else derivedContext in
         processContentSchema fuel openApiSpec (snd mc) (VStr mediaContext))).

Definition httpMethods : list string :=
  ["get"; "put"; "post"; "delete"; "options"; "head"; "patch"; "trace"].

(** The callback of lines 273-310, for one entry of a path item. *)
Definition processOperation (fuel : nat) (openApiSpec : val) (pathKey : string)
    (mo : string * val) : M nstate unit :=
  let normalizedMethod := Str.toLowerCase (fst mo) in
  let operation := snd mo in
  if negb (mem_string normalizedMethod httpMethods)
     || negb (truthy operation) || negb (typeof_object operation)
  then ret tt
  else
    let* opId := getp operation "operationId" in
    let contextName :=
      js_or opId (VStr (String.append (Str.toUpperCase normalizedMethod)
                                      (String.append " " pathKey))) in
    let* ps := getp operation "parameters" in
    let* psArr := isArray ps in
    when psArr
      (forEach_live ps (fun parameter =>
         let* c := to_string contextName in
         processParameter fuel openApiSpec parameter (String.append c " parameter"))) ;;
    let* rb := getp operation "requestBody" in
    let* rbc := getp_opt rb "content" in
    when (truthy rbc)
      (let* cs := values rbc in
       forEach cs (fun content => processContentSchema fuel openApiSpec content contextName)) ;;
    let* rs := getp operation "responses" in
    when (truthy rs)
      (let* rvs := values rs in
       forEach rvs (fun response =>
         if negb (truthy response) || negb (typeof_object response) then ret tt
         else
           let* rc := getp response "content" in
           when (truthy rc)
             (let* cs := values rc in
              forEach cs (fun content =>
                processContentSchema fuel openApiSpec content contextName)))).

(** [Object.entries(v || {})]: the entries of [v], none when [v] is falsy. *)
Definition entriesOrNone {St : Type} `{Store St} (v : val) : M St (list (string * val)) :=
  if truthy v then entries v else ret [].

(** Lines 73-77 of [normalizeSchemaRefs]: the registry is there, and its
    keys are the names in use. *)
Definition ensureRegistry (openApiSpec : val) : M nstate unit :=
  let* c0 := getp openApiSpec "components" in
  let* c1 := (if truthy c0 then ret c0 else alloc (OMap [])) in
  setp openApiSpec "components" c1 ;;
  let* comps := getp openApiSpec "components" in
  let* s0 := getp comps "schemas" in
  let* s1 := (if truthy s0 then ret s0 else alloc (OMap [])) in
  setp comps "schemas" s1 ;;
  let* comps := getp openApiSpec "components" in
  let* schemas := getp comps "schemas" in
  let* names := keys schemas in
  setNames names.

(** Lines 254-335 of [normalizeSchemaRefs]: every place of the document
    that holds a schema. *)
Definition traverseDocument (fuel : nat) (openApiSpec : val) : M nstate unit :=
  let* comps := getp openApiSpec "components" in
  let* schemas := getp comps "schemas" in
  let* es := entries schemas in
  forEach es (fun kv => processSchema fuel openApiSpec (snd kv) (VStr (fst kv))) ;;
  let* comps := getp openApiSpec "components" in
  let* params := getp_opt comps "parameters" in
  let* pes := entriesOrNone params in
  forEach pes (fun kv =>
    processParameter fuel openApiSpec (snd kv)
                     (String.append "ComponentParameter " (fst kv))) ;;
  let* paths := getp openApiSpec "paths" in
  let* pths := entriesOrNone paths in
  forEach pths (fun kv =>
    let pathItem := snd kv in
    if negb (truthy pathItem) || negb (typeof_object pathItem) then ret tt
    else
      let* pps := getp pathItem "parameters" in
      let* ppsArr := isArray pps in
      when ppsArr
        (forEach_live pps (fun parameter =>
           processParameter fuel openApiSpec parameter (String.append "Path " (fst kv)))) ;;
      let* ops := entries pathItem in
      forEach ops (processOperation fuel openApiSpec (fst kv))) ;;
  let* comps := getp openApiSpec "components" in
  let* resps := getp_opt comps "responses" in
  let* rvs := entriesOrNone resps in
  forEach rvs (fun kv =>
    let holder := snd kv in
    if negb (truthy holder) || negb (typeof_object holder) then ret tt
    else
      let* c := getp holder "content" in
      if negb (truthy c) then ret tt
      else
        let* cs := values c in
        forEach cs (fun content =>
          processContentSchema fuel openApiSpec content (VStr "ComponentResponse"))) ;;
  let* comps := getp openApiSpec "components" in
  let* rbs := getp_opt comps "requestBodies" in
  let* rbvs := entriesOrNone rbs in
  forEach rbvs (fun kv =>
    let holder := snd kv in
    if negb (truthy holder) || negb (typeof_object holder) then ret tt
    else
      let* c := getp holder "content" in
      if negb (truthy c) then ret tt
      else
        let* cs := values c in
        forEach cs (fun content =>
          processContentSchema fuel openApiSpec content (VStr "ComponentRequestBody"))).

(** The body of [normalizeSchemaRefs] from line 73 on, over its closure
    variables. *)
Definition normalizeBody (fuel : nat) (openApiSpec : val) : M nstate unit :=
  ensureRegistry openApiSpec ;;
  traverseDocument fuel openApiSpec.

Definition initialNstate (h : heap) : nstate := mkN h [] [] [] 0.

(** [normalizeSchemaRefs(openApiSpec)], returning the state it ends in. *)
Definition normalizeRun (fuel : nat) (openApiSpec : val) (h : heap) : outcome unit * nstate :=
  if negb (truthy openApiSpec) || negb (typeof_object openApiSpec)
  then (Ok tt, initialNstate h)
  else normalizeBody fuel openApiSpec (initialNstate h).

Definition normalizeSchemaRefs (fuel : nat) (openApiSpec : val) : M heap unit :=
  fun h => let r := normalizeRun fuel openApiSpec h in (fst r, n_heap (snd r)).

(** ** Stage 4: the reachability pruner *)

(** [findRefsInObject(obj, callback, visited)]: the document is only read,
    so the references handed to [callback] are returned, in the order of the
    calls, with the set of objects visited. *)
Fixpoint findRefsInObject (fuel : nat) (h : heap) (obj : val) (visited : list addr)
  : outcome (list string * list addr) :=
  match fuel with
  | O => Fail OutOfFuel
  | S fuel' =>
      match obj with
      | VObj a =>
          if existsb (Nat.eqb a) visited then Ok ([], visited)
          else
            let scan :=
              fix scan (vs : list (string * val)) (isArr : bool) (visited : list addr)
                : outcome (list string * list addr) :=
                match vs with
                | [] => Ok ([], visited)
                | (key, value) :: vs' =>
                    let here :=
                      match value with
                      | VStr r =>
                          if negb isArr && String.eqb key "$ref"
                             && Str.startsWith r schemasPrefix
                          then Ok ([r], visited) else Ok ([], visited)
                      | _ =>
                          if typeof_object value
                          then findRefsInObject fuel' h value visited
                          else Ok ([], visited)
                      end in
                    match here with
                    | Ok (refs1, visited1) =>
                        match scan vs' isArr visited1 with
                        | Ok (refs2, visited2) => Ok (refs1 ++ refs2, visited2)
                        | Fail e => Fail e
                        end
                    | Fail e => Fail e
                    end
                end in
            match h !! a with
            | Some (OArr xs) => scan (List.map (fun x => (EmptyString, x)) xs) true (a :: visited)
            | Some (OMap fs) => scan fs false (a :: visited)
            | None => Fail Unmodelled
            end
      | _ => Ok ([], visited)
      end
  end.

(** The local collections of [findUsedSchemas]. *)
Record ustate : Type := mkU {
  schemasToProcess : list string;
  visitedResponses : list string;
  visitedRequestBodies : list string;
  visitedParameters : list string;
  visitedNames : list string;
  usedSchemas : list string
}.

Definition add_string (x : string) (xs : list string) : list string :=
  if mem_string x xs then xs else xs ++ [x].

Section FindUsed.
Variable h : heap.
Variables schemas responses requestBodies parameters : val.

Definition getH (v : val) (k : string) : M ustate val := of_outcome (js_get h v k).
Definition valuesH (v : val) : M ustate (list val) :=
  let* es := of_outcome (js_entries h v) in ret (List.map snd es).

Definition enqueueSchemaRef (ref : string) : M ustate unit :=
  let schemaName := Str.replace schemasPrefix EmptyString ref in
  when (Str.nonempty schemaName)
    (modify (fun u => mkU (schemasToProcess u ++ [schemaName]) (visitedResponses u)
                          (visitedRequestBodies u) (visitedParameters u)
                          (visitedNames u) (usedSchemas u))).

Definition processSchemaRefs (fuel : nat) (schema : val) : M ustate unit :=
  if negb (truthy schema) || negb (typeof_object schema) then ret tt
  else
    let* found := of_outcome (findRefsInObject fuel h schema []) in
    forEach (fst found) enqueueSchemaRef.

(** [Object.values(holder.content).forEach(content =>
      content?.schema && processSchemaRefs(content.schema))] *)
Definition processContent (fuel : nat) (holder : val) : M ustate unit :=
  let* c := getH holder "content" in
  when (truthy c)
    (let* cs := valuesH c in
     forEach cs (fun content =>
       let* sc := (match content with
                   | VUndef | VNull => ret VUndef
                   | _ => getH content "schema"
                   end) in
       when (truthy sc) (processSchemaRefs fuel sc))).

(** [holder.$ref.replace(prefix, '')] for a truthy [$ref] *)
Definition refName (prefix : string) (r : val) : M ustate string :=
  match r with
  | VStr rs => ret (Str.replace prefix EmptyString rs)
  | _ => fail TypeError
  end.

Fixpoint processResponse (fuel : nat) (response : val) : M ustate unit :=
  match fuel with
  | O => fail OutOfFuel
  | S fuel' =>
      if negb (truthy response) || negb (typeof_object response) then ret tt
      else
        let* r := getH response "$ref" in
        if truthy r then
          let* responseName := refName "#/components/responses/" r in
          let* u := get_state in
          let* target := getH responses responseName in
          when (negb (mem_string responseName (visitedResponses u)) && truthy target)
            (modify (fun u => mkU (schemasToProcess u)
                                  (add_string responseName (visitedResponses u))
                                  (visitedRequestBodies u) (visitedParameters u)
                                  (visitedNames u) (usedSchemas u)) ;;
             processResponse fuel' target)
        else processContent fuel' response
  end.

Fixpoint processRequestBody (fuel : nat) (requestBody : val) : M ustate unit :=
  match fuel with
  | O => fail OutOfFuel
  | S fuel' =>
      if negb (truthy requestBody) || negb (typeof_object requestBody) then ret tt
      else
        let* r := getH requestBody "$ref" in
        if truthy r then
          let* requestBodyName := refName "#/components/requestBodies/" r in
          let* u := get_state in
          let* target := getH requestBodies requestBodyName in
          when (negb (mem_string requestBodyName (visitedRequestBodies u)) && truthy target)
            (modify (fun u => mkU (schemasToProcess u) (visitedResponses u)
                                  (add_string requestBodyName (visitedRequestBodies u))
                                  (visitedParameters u)
                                  (visitedNames u) (usedSchemas u)) ;;
             processRequestBody fuel' target)
        else processContent fuel' requestBody
  end.

Fixpoint processParameterRefs (fuel : nat) (parameter : val) : M ustate unit :=
  match fuel with
  | O => fail OutOfFuel
  | S fuel' =>
      if negb (truthy parameter) || negb (typeof_object parameter) then ret tt
      else
        let* r := getH parameter "$ref" in
        if truthy r then
          let* parameterName := refName "#/components/parameters/" r in
          let* u := get_state in
          let* target := getH parameters parameterName in
          when (negb (mem_string parameterName (visitedParameters u)) && truthy target)
            (modify (fun u => mkU (schemasToProcess u) (visitedResponses u)
                                  (visitedRequestBodies u)
                                  (add_string parameterName (visitedParameters u))
                                  (visitedNames u) (usedSchemas u)) ;;
             processParameterRefs fuel' target)
        else
          let* sc := getH parameter "schema" in
          when (truthy sc) (processSchemaRefs fuel' sc) ;;
          processContent fuel' parameter
  end.

(** The closure over schema names, lines 957-977. *)
Fixpoint processSchemaName (fuel : nat) (schemaName : string) : M ustate unit :=
  match fuel with
  | O => fail OutOfFuel
  | S fuel' =>
      let* u := get_state in
      if mem_string schemaName (visitedNames u) then ret tt
      else
        modify (fun u => mkU (schemasToProcess u) (visitedResponses u)
                             (visitedRequestBodies u) (visitedParameters u)
                             (add_string schemaName (visitedNames u)) (usedSchemas u)) ;;
        let* schema := getH schemas schemaName in
        if negb (truthy schema) then ret tt
        else
          modify (fun u => mkU (schemasToProcess u) (visitedResponses u)
                               (visitedRequestBodies u) (visitedParameters u)
                               (visitedNames u) (add_string schemaName (usedSchemas u))) ;;
          let* found := of_outcome (findRefsInObject fuel' h schema []) in
          forEach (fst found) (fun ref =>
            let refSchemaName := Str.replace schemasPrefix EmptyString ref in
            let* target := getH schemas refSchemaName in
            when (truthy target) (processSchemaName fuel' refSchemaName))
  end.

End FindUsed.

Definition errorSchemas : list string :=
  [ "microsoft.graph.ODataErrors.ODataError";
    "microsoft.graph.ODataErrors.MainError";
    "microsoft.graph.ODataErrors.ErrorDetails";
    "microsoft.graph.ODataErrors.InnerError" ].

(** [x?.k || {}], read in the heap [h]; the empty object is [VBool true],
    which has no property either. *)
Definition sectionOf (h : heap) (x : val) (k : string) : outcome val :=
  match x with
  | VUndef | VNull => Ok (VBool true)
  | _ => match js_get h x k with
         | Ok v => Ok (if truthy v then v else VBool true)
         | Fail e => Fail e
         end
  end.

Definition findUsedSchemasIn (fuel : nat) (h : heap) (openApiSpec : val) : M ustate unit :=
  let* comps := of_outcome (js_get h openApiSpec "components") in
  let* schemas := of_outcome (sectionOf h comps "schemas") in
  let* responses := of_outcome (sectionOf h comps "responses") in
  let* requestBodies := of_outcome (sectionOf h comps "requestBodies") in
  let* parameters := of_outcome (sectionOf h comps "parameters") in
  let* paths0 := of_outcome (js_get h openApiSpec "paths") in
  let paths := if truthy paths0 then paths0 else VBool true in
  let* pathItems := valuesH h paths in
  forEach pathItems (fun pathItem =>
    if negb (truthy pathItem) || negb (typeof_object pathItem) then ret tt
    else
      let* es := of_outcome (js_entries h pathItem) in
      forEach es (fun ko =>
        let operation := snd ko in
        if String.eqb (fst ko) "parameters" && is_array h operation then
          let* ps := of_outcome (js_entries h operation) in
          forEach ps (fun p => processParameterRefs h parameters fuel (snd p))
        else if negb (typeof_object operation) then ret tt
        else
          let* rb := getH h operation "requestBody" in
          when (truthy rb) (processRequestBody h requestBodies fuel rb) ;;
          let* rs := getH h operation "responses" in
          when (truthy rs)
            (let* rvs := valuesH h rs in
             forEach rvs (processResponse h responses fuel)) ;;
          let* ps := getH h operation "parameters" in
          when (truthy ps)
            (let* xs := of_outcome (match array_items h ps with
                                    | Some xs => Ok xs
                                    | None => Fail TypeError
                                    end) in
             forEach xs (processParameterRefs h parameters fuel)))) ;;
  let* u := get_state in
  forEach (schemasToProcess u) (processSchemaName h schemas fuel) ;;
  forEach errorSchemas (fun errorSchema =>
    let* sc := getH h schemas errorSchema in
    when (truthy sc) (processSchemaName h schemas fuel errorSchema)).

(** [findUsedSchemas(openApiSpec)]: the names of the schemas in use. *)
Definition findUsedSchemas (fuel : nat) (openApiSpec : val) : M heap (list string) :=
  fun h => match findUsedSchemasIn fuel h openApiSpec (mkU [] [] [] [] [] []) with
           | (Ok _, u) => (Ok (usedSchemas u), h)
           | (Fail e, _) => (Fail e, h)
           end.

(** The state of one sweep: the document and the [visited] set handed down
    through the calls of [cleanBrokenRefs]. *)
Record cstate : Type := mkC {
  c_heap : heap;
  c_visited : list addr
}.

#[global] Instance cstate_Store : Store cstate := {
  heap_of := c_heap;
  with_heap h s := mkC h (c_visited s)
}.

Definition visit (a : addr) : M cstate unit :=
  modify (fun s => mkC (c_heap s)
                       (if existsb (Nat.eqb a) (c_visited s) then c_visited s
                        else a :: c_visited s)).

(** [arr.splice(i, 1)] *)
Definition js_splice1 (h : heap) (arr : val) (i : nat) : outcome heap :=
  match arr with
  | VObj a => match h !! a with
              | Some (OArr xs) => Ok (<[a := OArr (List.firstn i xs ++ List.skipn (S i) xs)]> h)
              | _ => Fail TypeError
              end
  | _ => Fail TypeError
  end.

(** [!availableSchemas[ref.replace('#/components/schemas/', '')]] *)
Definition isBroken {St : Type} `{Store St} (availableSchemas : val) (ref : string)
  : M St bool :=
  let* target := getp availableSchemas (Str.replace schemasPrefix EmptyString ref) in
  ret (negb (truthy target)).

(** The loop of lines 1022-1033 over the indices below [n], downwards;
    [rec] is the recursive call. *)
Fixpoint cleanArray (rec : val -> M cstate unit) (obj availableSchemas : val) (n : nat)
  : M cstate unit :=
  match n with
  | O => ret tt
  | S i =>
      let* xs := items_of obj in
      let item := nth_val xs i in
      (if truthy item && typeof_object item then
         let* r := getp item "$ref" in
         if truthy r then
           match r with
           | VStr rs =>
               let* broken := isBroken availableSchemas rs in
               when broken (writing (fun h => js_splice1 h obj i))
           | _ => fail TypeError
           end
         else rec item
       else when (typeof_object item) (rec item)) ;;
      cleanArray rec obj availableSchemas i
  end.

(** The callback of lines 1037-1050, for one entry of [obj]. *)
Definition cleanEntry (rec : val -> M cstate unit) (obj availableSchemas : val)
    (kv : string * val) : M cstate unit :=
  match snd kv with
  | VStr value =>
      if String.eqb (fst kv) "$ref" && Str.startsWith value schemasPrefix then
        let* broken := isBroken availableSchemas value in
        when broken
          (delp obj (fst kv) ;;
           let* ks := keys obj in
           when (Nat.eqb (List.length ks) 0) (setp obj "type" (VStr "object")))
      else ret tt
  | v => when (typeof_object v) (rec v)
  end.

Fixpoint cleanBrokenRefs (fuel : nat) (availableSchemas : val) (obj : val) : M cstate unit :=
  match fuel with
  | O => fail OutOfFuel
  | S fuel' =>
      match obj with
      | VObj a =>
          let* s := get_state in
          if existsb (Nat.eqb a) (c_visited s) then ret tt
          else
            visit a ;;
            let* arr := isArray obj in
            if arr then
              let* n := lengthOf obj in
              cleanArray (cleanBrokenRefs fuel' availableSchemas) obj availableSchemas n
            else
              let* es := entries obj in
              forEach es (cleanEntry (cleanBrokenRefs fuel' availableSchemas) obj availableSchemas)
      | _ => ret tt
      end
  end.

(** [cleanBrokenRefs(obj, availableSchemas)] with its fresh [visited] set. *)
Definition sweep (fuel : nat) (availableSchemas : val) (obj : val) : M heap unit :=
  fun h => let r := cleanBrokenRefs fuel availableSchemas obj (mkC h []) in
           (fst r, c_heap (snd r)).

Section Pruner.

(** [Object.values(x).forEach(v => { if (v) cleanBrokenRefs(v, schemas) })] *)
Definition sweepValues (fuel : nat) (schemas : val) (x : val) : M heap unit :=
  let* vs := values x in
  forEach vs (fun v => when (truthy v) (sweep fuel schemas v)).

(** [holder[k]?.$ref] names, with [prefix] taken off, added to [used]. *)
Definition usedRef (prefix : string) (holder : val) (used : list string)
  : M heap (list string) :=
  let* r := getp_opt holder "$ref" in
  if truthy r then
    match r with
    | VStr rs => ret (add_string (Str.replace prefix EmptyString rs) used)
    | _ => fail TypeError
    end
  else ret used.

(** [xs.reduce]-like threading of a set through a loop. *)
Fixpoint collect {A : Type} (xs : list A) (f : A -> list string -> M heap (list string))
    (used : list string) : M heap (list string) :=
  match xs with
  | [] => ret used
  | x :: xs' => let* used' := f x used in collect xs' f used'
  end.

(** [Object.keys(section).forEach(name => { if (!used.has(name)) delete section[name] })] *)
Definition deleteUnused (section : val) (used : list string) : M heap unit :=
  let* ks := keys section in
  forEach ks (fun name => when (negb (mem_string name used)) (delp section name)).

Definition pruneUnusedSchemas (fuel : nat) (openApiSpec : val) (usedSchemas : list string)
  : M heap unit :=
  let* comps := getp openApiSpec "components" in
  let* sch := getp_opt comps "schemas" in
  let* schemas := (if truthy sch then ret sch else alloc (OMap [])) in
  deleteUnused schemas usedSchemas ;;
  sweepValues fuel schemas schemas ;;
  let* comps := getp openApiSpec "components" in
  let* resps := getp_opt comps "responses" in
  when (truthy resps) (sweepValues fuel schemas resps) ;;
  let* paths := getp openApiSpec "paths" in
  when (truthy paths) (sweepValues fuel schemas paths) ;;
  let* comps := getp openApiSpec "components" in
  let* resps := getp_opt comps "responses" in
  when (truthy resps)
    (let* paths := getp openApiSpec "paths" in
     let* pathItems := (if truthy paths then values paths else ret []) in
     let* usedResponses :=
       collect pathItems (fun pathItem used =>
         let* ops := values pathItem in
         collect ops (fun operation used =>
           let* rs := getp operation "responses" in
           if truthy rs then
             let* rvs := values rs in
             collect rvs (fun response used =>
               let* r := getp response "$ref" in
               if truthy r then
                 match r with
                 | VStr rs => ret (add_string (Str.replace "#/components/responses/" EmptyString rs) used)
                 | _ => fail TypeError
                 end
               else ret used) used
           else ret used) used) [] in
     let* comps := getp openApiSpec "components" in
     let* responses := getp comps "responses" in
     deleteUnused responses (add_string "error" usedResponses)) ;;
  let* comps := getp openApiSpec "components" in
  let* rbs := getp_opt comps "requestBodies" in
  when (truthy rbs)
    (let* paths := getp openApiSpec "paths" in
     let* pathItems := (if truthy paths then values paths else ret []) in
     let* usedRequestBodies :=
       collect pathItems (fun pathItem used =>
         let* ops := values pathItem in
         collect ops (fun operation used =>
           let* rb := getp operation "requestBody" in
           usedRef "#/components/requestBodies/" rb used) used) [] in
     let* comps := getp openApiSpec "components" in
     let* requestBodies := getp comps "requestBodies" in
     deleteUnused requestBodies usedRequestBodies).

End Pruner.

(** ** The pipeline *)

(** The document and the output file: [written] holds the tree that was
    dumped, once [fs.writeFileSync] has run. *)
Record world : Type := mkW {
  w_heap : heap;
  written : option heap
}.

#[global] Instance world_Store : Store world := {
  heap_of := w_heap;
  with_heap h w := mkW h (written w)
}.

(** Runs a stage that knows the heap only. *)
Definition stage {A : Type} (m : M heap A) : M world A :=
  fun w => let r := m (w_heap w) in (fst r, mkW (snd r) (written w)).

(** [fs.writeFileSync(openapiTrimmedFile, yaml.dump(openApiSpec))] *)
Definition writeFileSync : M world unit :=
  fun w => (Ok tt, mkW (w_heap w) (Some (w_heap w))).

(** [allEndpoints] and [openApiSpec] are the two files as parsed. *)
Definition createAndSaveSimplifiedOpenAPI (fuel : nat) (allEndpoints openApiSpec : val)
  : M world unit :=
  let* endpoints := enabledEndpoints allEndpoints in
  checkEndpoints openApiSpec endpoints ;;
  filterPaths openApiSpec endpoints ;;
  let* comps := getp openApiSpec "components" in
  let* schemas := (if truthy comps then getp comps "schemas" else ret VUndef) in
  when (truthy comps && truthy schemas)
    (removeODataTypeRecursively fuel schemas ;;
     flattenComplexSchemasRecursively schemas) ;;
  let* paths := getp openApiSpec "paths" in
  when (truthy paths)
    (removeODataTypeRecursively fuel paths ;;
     simplifyAnyOfInPaths paths) ;;
  stage (normalizeSchemaRefs fuel openApiSpec) ;;
  let* usedSchemas := stage (findUsedSchemas fuel openApiSpec) in
  stage (pruneUnusedSchemas fuel openApiSpec usedSchemas) ;;
  writeFileSync.

(** ** Documents as trees: what [yaml.load] builds and [yaml.dump] prints *)

#[warnings="-register-all"]
Inductive json : Type :=
| JNull
| JBool (b : bool)
| JNum (n : Z)
| JStr (s : string)
| JArr (items : list json)
| JObj (fields : list (string * json)).

(** [yaml.load]: every node of the tree becomes an object of its own. *)
Fixpoint load (j : json) (h : heap) : val * heap :=
  match j with
  | JNull => (VNull, h)
  | JBool b => (VBool b, h)
  | JNum n => (VNum n, h)
  | JStr s => (VStr s, h)
  | JArr items =>
      let r :=
        (fix go (xs : list json) (h : heap) : list val * heap :=
           match xs with
           | [] => ([], h)
           | x :: xs' => let (v, h1) := load x h in
                         let (vs, h2) := go xs' h1 in (v :: vs, h2)
           end) items h in
      (VObj (List.length (snd r)), snd r ++ [OArr (fst r)])
  | JObj fields =>
      let r :=
        (fix go (fs : list (string * json)) (h : heap) : list (string * val) * heap :=
           match fs with
           | [] => ([], h)
           | (k, x) :: fs' => let (v, h1) := load x h in
                              let (vs, h2) := go fs' h1 in ((k, v) :: vs, h2)
           end) fields h in
      (VObj (List.length (snd r)), snd r ++ [OMap (fst r)])
  end.

(** The tree below a value, as [yaml.dump] would print it. *)
Fixpoint dump (fuel : nat) (h : heap) (v : val) : option json :=
  match fuel with
  | O => None
  | S fuel' =>
      match v with
      | VUndef | VNull => Some JNull
      | VBool b => Some (JBool b)
      | VNum n => Some (JNum n)
      | VStr s => Some (JStr s)
      | VObj a =>
          match h !! a with
          | Some (OArr xs) =>
              option_map JArr
                ((fix go (xs : list val) : option (list json) :=
                    match xs with
                    | [] => Some []
                    | x :: xs' =>
                        match dump fuel' h x, go xs' with
                        | Some j, Some js => Some (j :: js)
                        | _, _ => None
                        end
                    end) xs)
          | Some (OMap fs) =>
              option_map JObj
                ((fix go (fs : list (string * val)) : option (list (string * json)) :=
                    match fs with
                    | [] => Some []
                    | (k, x) :: fs' =>
                        match dump fuel' h x, go fs' with
                        | Some j, Some js => Some ((k, j) :: js)
                        | _, _ => None
                        end
                    end) fs)
          | None => None
          end
      end
  end.

(** Runs the whole module on two parsed files and returns the outcome with
    the tree written, if one was. *)
Definition runPipeline (fuel : nat) (endpoints document : json)
  : outcome unit * option json :=
  let (eps, h1) := load endpoints [] in
  let (doc, h2) := load document h1 in
  let r := createAndSaveSimplifiedOpenAPI fuel eps doc (mkW h2 None) in
  (fst r, match written (snd r) with
          | Some h => dump fuel h doc
          | None => None
          end).

(** ** The canonicality rule in the words of the specification *)

Definition no_slash (s : string) : Prop := Str.includes "/" s = false.

(** "starts with [#/$defs/], addresses a non-schema component collection
    ([#/components/<kind>/] where kind is not schemas), or addresses
    [#/components/schemas/<name>] with no further path segments" *)
Definition spec_not_hoisted (r : string) : Prop :=
  Str.startsWith r "#/$defs/" = true
  \/ (exists kind rest : string,
         r = ("#/components/" ++ kind ++ "/" ++ rest)%string /\ no_slash kind /\ kind <> "schemas")
  \/ (exists name : string, r = ("#/components/schemas/" ++ name)%string /\ no_slash name).

(** A pointer at a whole collection: [#/components/<kind>] and nothing
    after the kind. *)
Definition bare_collection (r : string) : Prop :=
  exists kind : string, r = ("#/components/" ++ kind)%string /\ no_slash kind.


(** ** C9: unions of many branches *)

(** What [collapseMany] does to a schema whose union has a first branch. *)
Definition collapsedFields (fs : list (string * val)) (union : string) (t : val)
    (ds : string) (n : nat) : list (string * val) :=
  fdel (fset (fset (fset fs "type" (js_or t (VStr "object")))
                   "nullable" (VBool true))
             "description"
             (VStr (Str.trim (ds ++ " [Simplified from " ++ Str.of_Z (Z.of_nat n)
                                 ++ " options]")%string)))
       union.

(** A union of three branches whose first branch is a reference. *)
Definition unionSchema : json :=
  JObj [("description", JStr "A pet");
        ("anyOf", JArr [JObj [("$ref", JStr "#/components/schemas/Cat")];
                        JObj [("type", JStr "string")];
                        JObj [("type", JStr "number")]])].

(** "type equal to the first branch's declared type", for the [anyOf] of
    [schema] read in [h] and the schema rewritten in [h']. *)
Definition typeOfFirstBranch (h h' : heap) (schema : val) : Prop :=
  forall u first t,
    js_get h schema "anyOf" = Ok u -> js_get h u "0" = Ok first ->
    js_get h first "type" = Ok t ->
    js_get h' schema "type" = Ok t.


(** ** C8: the property cap *)

Definition stringSchema : json := JObj [("type", JStr "string")].

(** A component schema whose properties are exactly the 26 names of the
    priority list. *)
Definition prioritySchemas : json :=
  JObj [("Big", JObj [("type", JStr "object");
                      ("properties",
                       JObj (List.map (fun k => (k, stringSchema)) priorityProperties))])].

(** Scenario 4 of the specification: 30 properties, none of them in the
    priority list. *)
Definition plainSchemas : json :=
  JObj [("Wide", JObj [("type", JStr "object");
                       ("properties",
                        JObj (List.map (fun n => (String.append "p" (Str.of_nat n), stringSchema))
                                       (seq 0 30)))])].

Definition json_field (j : json) (k : string) : json :=
  match j with
  | JObj fs =>
      (fix go (fs : list (string * json)) : json :=
         match fs with
         | [] => JNull
         | (k', v) :: fs' => if String.eqb k' k then v else go fs'
         end) fs
  | _ => JNull
  end.

Definition json_keys (j : json) : list string :=
  match j with
  | JObj fs => List.map fst fs
  | _ => []
  end.

(** The cleaner's pass over the component schemas, on a tree. *)
Definition cleanSchemas (schemas : json) : outcome unit * option json :=
  let (v, h) := load schemas [] in
  let r := flattenComplexSchemasRecursively v h in
  (fst r, dump 10 (snd r) v).

(** ** C4: the allow-list check *)

(** An allow-list record: an object whose [pathPattern] is a string. *)
Definition endpointRecord (h : heap) (ep : val) : Prop :=
  exists a fs p, ep = VObj a /\ h !! a = Some (OMap fs) /\ fget fs "pathPattern" = VStr p.

(** [ep] is not disabled and names the path [p]. *)
Definition enabledFor (h : heap) (ep : val) (p : string) : Prop :=
  exists d, js_get h ep "disabled" = Ok d /\ truthy d = false
            /\ js_get h ep "pathPattern" = Ok (VStr p).

(** [!endpoint.disabled], read in [h]. *)
Definition enabledIn (h : heap) (ep : val) : bool :=
  match js_get h ep "disabled" with
  | Ok d => negb (truthy d)
  | Fail _ => false
  end.

Definition missingEndpoints : json :=
  JArr [JObj [("pathPattern", JStr "/test"); ("method", JStr "get"); ("toolName", JStr "getTest")];
        JObj [("pathPattern", JStr "/absent"); ("method", JStr "get"); ("toolName", JStr "getAbsent")]].

Definition smallDocument : json :=
  JObj [("paths", JObj [("/test", JObj [("get", JObj [("summary", JStr "Test operation")])])]);
        ("components", JObj [("schemas", JObj [])])].

(** ** C7: pointers that do not resolve *)

(** The pointer stops before its last segment, or what it reaches is no
    object: [undefined] when the location does not exist. *)
Definition unresolved (h : heap) (root : val) (ref : string) : Prop :=
  match resolveJsonPointerWithParent h root (VStr ref) with
  | Ok None => True
  | Ok (Some (_, _, value)) => truthy value && typeof_object value = false
  | Fail _ => False
  end.

(** A response schema that points at a location the document does not
    have. *)
Definition danglingDocument : json :=
  JObj [("paths",
         JObj [("/test",
                JObj [("get",
                       JObj [("responses",
                              JObj [("200",
                                     JObj [("content",
                                            JObj [("application/json",
                                                   JObj [("schema",
                                                          JObj [("$ref", JStr "#/properties/missing")])])])])])])])]);
        ("components", JObj [("schemas", JObj [])])].

Definition testEndpoints : json :=
  JArr [JObj [("pathPattern", JStr "/test"); ("method", JStr "get"); ("toolName", JStr "getTest")]].

(** ** Invariants of computations

    [inv I m]: from a state in [I], [m] ends in a state in [I], whether it
    returns or fails. *)

Definition inv {St A : Type} (I : St -> Prop) (m : M St A) : Prop :=
  forall s, I s -> I (snd (m s)).

(** [m] never writes. *)
Definition readonly {St A : Type} (m : M St A) : Prop :=
  forall s, snd (m s) = s.


(** ** C6: a second pass of the normalizer *)

(** No object of the heap holds a [$ref] that requires hoisting. *)
Definition allCanonical (h : heap) : bool :=
  forallb (fun o => match o with
                    | OMap fs => negb (shouldHoistRef (fget fs "$ref"))
                    | OArr _ => true
                    end) h.

(** The normalizer left the document alone: nothing hoisted, no pointer
    recorded, every object as it was. *)
Definition untouched (h : heap) (s : nstate) : Prop :=
  n_heap s = h /\ hoistedCount s = 0 /\ pointerToComponent s = [].

(** A schema that points into a component the first pass is yet to
    create: [AQ] is the name given to the hoisted [A/properties/q]. *)
Definition lateDocument : json :=
  JObj [("components",
         JObj [("schemas",
                JObj [("A",
                       JObj [("type", JStr "object");
                             ("properties",
                              JObj [("p", JObj [("$ref", JStr "#/components/schemas/AQ/properties/z")]);
                                    ("r", JObj [("$ref", JStr "#/components/schemas/A/properties/q")]);
                                    ("q", JObj [("type", JStr "object");
                                                ("properties",
                                                 JObj [("z", JObj [("type", JStr "string")])])])])])])])].

Definition canonicalDocument : json :=
  JObj [("components",
         JObj [("schemas",
                JObj [("A", JObj [("type", JStr "object");
                                  ("properties",
                                   JObj [("b", JObj [("$ref", JStr "#/components/schemas/B")])])]);
                      ("B", JObj [("type", JStr "string")])])])].

(** ** C10: what the endpoint filter leaves in a path item *)

(** [k] is an allow-listed method for the path [p]: some record of the list
    names [p] and a method that is [k] in lower case. *)
Definition allowListed (h : heap) (endpoints : list val) (p k : string) : Prop :=
  exists ep m, In ep endpoints
               /\ js_get h ep "pathPattern" = Ok (VStr p)
               /\ js_get h ep "method" = Ok (VStr m)
               /\ Str.toLowerCase m = k.

Definition objAddrs (vs : list val) : list nat :=
  flat_map (fun v => match v with VObj a => [a] | _ => [] end) vs.

(** The objects an object refers to. *)
Definition fieldAddrs (h : heap) (a : nat) : list nat :=
  match h !! a with
  | Some (OMap fs) => objAddrs (List.map snd fs)
  | Some (OArr xs) => objAddrs xs
  | None => []
  end.

Definition memb (a : nat) (xs : list nat) : bool := existsb (Nat.eqb a) xs.

(** The document is laid out as a parsed file is: the root [r], the paths
    map [pa] and the path items are objects of their own, every path item
    is an object, no operation is the paths map or a path item, and the
    records of the allow-list are apart from them. *)
Definition isMapIn (h : heap) (v : val) : bool :=
  match v with
  | VObj b => match h !! b with Some (OMap _) => true | _ => false end
  | _ => false
  end.

Definition pathItems (h : heap) (pa : nat) : list val :=
  match h !! pa with
  | Some (OMap fs) => List.map snd fs
  | _ => []
  end.

Definition separate (h : heap) (r pa : nat) (endpoints : list val) : bool :=
  let items := fieldAddrs h pa in
  let protected := pa :: items in
  negb (memb r protected)
  && forallb (isMapIn h) (pathItems h pa)
  && forallb (fun b => forallb (fun c => negb (memb c protected)) (fieldAddrs h b)) items
  && forallb (fun e => negb (memb e protected) && Nat.ltb e (List.length h))
             (objAddrs endpoints)
  && forallb (fun a => Nat.ltb a (List.length h)) (r :: protected).

(** How the heap may change under the filter, for the protected objects
    [prot], the allow-list and the root [r]: objects are added, protected
    objects only lose properties, and what the filter reads of the records
    and of the root stays. *)
Definition evolves (prot : list nat) (endpoints : list val) (r : nat) (h1 h2 : heap) : Prop :=
  List.length h1 <= List.length h2
  /\ (forall a fs2, In a prot -> h2 !! a = Some (OMap fs2) ->
        exists fs1, h1 !! a = Some (OMap fs1) /\ incl fs2 fs1)
  /\ (forall a fs1, In a prot -> h1 !! a = Some (OMap fs1) ->
        exists fs2, h2 !! a = Some (OMap fs2))
  /\ (forall ep k, In ep endpoints -> k = "pathPattern" \/ k = "method" ->
        js_get h2 ep k = js_get h1 ep k)
  /\ js_get h2 (VObj r) "paths" = js_get h1 (VObj r) "paths".

(** The entry [key: value] of the paths map is dealt with in [hx]: the key
    is gone from the paths map [pa], or the path item has allow-listed
    keys only. *)
Definition settled (h : heap) (endpoints : list val) (pa : nat) (hx : heap)
    (key : string) (value : val) : Prop :=
  (forall fs, hx !! pa = Some (OMap fs) -> ~ In key (fkeys fs))
  \/ (forall b fs k, value = VObj b -> hx !! b = Some (OMap fs) -> In k (fkeys fs) ->
         allowListed h endpoints key k).

(** Every address the filter relies on is allocated in [h]. *)
Definition allocated (prot : list nat) (endpoints : list val) (r : nat) (h : heap) : Prop :=
  forall a, In a (r :: prot ++ objAddrs endpoints) -> a < List.length h.

Definition filterDocument : json :=
  JObj [("paths",
         JObj [("/test",
                JObj [("parameters", JArr [JObj [("name", JStr "id"); ("in", JStr "query")]]);
                      ("summary", JStr "A path");
                      ("get", JObj [("summary", JStr "Read")]);
                      ("post", JObj [("summary", JStr "Write")])]);
               ("/other", JObj [("get", JObj [("summary", JStr "Other")])])]);
        ("components", JObj [("schemas", JObj [])])].

(** ** C3 and C5: the bookkeeping of the normalizer *)

(** A pointer whose segments are [components] alone, or [components],
    [schemas]: it addresses the component collections themselves. *)
Definition badPointer (ref : string) : bool :=
  match pointerSegments ref with
  | [a] => String.eqb a "components"
  | [a; b] => String.eqb a "components" && String.eqb b "schemas"
  | _ => false
  end.

Definition goodRefs (fs : list (string * val)) : Prop :=
  forall x, fget fs "$ref" = VStr x -> badPointer x = false.

(** Every object that [o] refers to was allocated at [base] or later. *)
Definition freshObj (base : nat) (o : object) : Prop :=
  match o with
  | OMap fs => forall k b, In (k, VObj b) fs -> base <= b
  | OArr xs => forall b, In (VObj b) xs -> base <= b
  end.

(** The state of a clone in progress, started on the heap [h0]: the
    objects of [h0] are as they were, the copies refer to copies only, and
    no [$ref] is a bad pointer. *)
Definition cloning (h0 : heap) (h : heap) (seen : list (nat * nat)) : Prop :=
  List.length h0 <= List.length h
  /\ (forall a, a < List.length h0 -> h !! a = h0 !! a)
  /\ (forall o n, In (o, n) seen -> List.length h0 <= n)
  /\ (forall a o, List.length h0 <= a -> h !! a = Some o -> freshObj (List.length h0) o)
  /\ (forall a fs, h !! a = Some (OMap fs) -> goodRefs fs).

(** [v'] is what a clone makes of [v]: a copy for an object, the value
    itself otherwise. *)
Definition clonedAs (base : nat) (v v' : val) : Prop :=
  match v with
  | VObj _ => exists b, v' = VObj b /\ base <= b
  | _ => v' = v
  end.

Definition clonerOK (h0 : heap) (rec : cloner) : Prop :=
  forall h seen v h' seen' v',
    cloning h0 h seen -> rec h seen v = Ok (h', seen', v') ->
    cloning h0 h' seen' /\ List.length h <= List.length h' /\ clonedAs (List.length h0) v v'.

(** An edge of the heap, from the property [k] of the object [a] to [v]:
    nothing refers to the root [r], and the components object [c] is
    referred to by [r.components] only. *)
Definition edgeOk (r c a : nat) (k : string) (v : val) : Prop :=
  forall b, v = VObj b -> b <> r /\ (b = c -> a = r /\ k = "components").

Definition objectApart (r c a : nat) (o : object) : Prop :=
  match o with
  | OMap fs => forall k v, In (k, v) fs -> edgeOk r c a k v
  | OArr xs => forall v, In v xs -> edgeOk r c a EmptyString v
  end.

Definition edgesApart (r c : nat) (h : heap) : Prop :=
  forall a o, h !! a = Some o -> objectApart r c a o.

Definition allGoodRefs (h : heap) : Prop :=
  forall a fs, h !! a = Some (OMap fs) -> goodRefs fs.

(** The two conditions as checks on a given heap. *)
Definition edgeOkb (r c a : nat) (k : string) (v : val) : bool :=
  match v with
  | VObj b => negb (Nat.eqb b r)
              && (negb (Nat.eqb b c) || (Nat.eqb a r && String.eqb k "components"))
  | _ => true
  end.

Definition objectApartb (r c : nat) (ao : nat * object) : bool :=
  match snd ao with
  | OMap fs => forallb (fun kv => edgeOkb r c (fst ao) (fst kv) (snd kv)) fs
  | OArr xs => forallb (edgeOkb r c (fst ao) EmptyString) xs
  end.

Definition edgesApartb (r c : nat) (h : heap) : bool :=
  forallb (objectApartb r c) (combine (seq 0 (List.length h)) h).

Definition allGoodRefsb (h : heap) : bool :=
  forallb (fun o => match o with
                    | OMap fs => match fget fs "$ref" with
                                 | VStr x => negb (badPointer x)
                                 | _ => true
                                 end
                    | OArr _ => true
                    end) h.

(** The bookkeeping of a run of the normalizer on a document whose root is
    [r], components object [c] and schema registry [g], which had the keys
    [keys0], [n0] of them, when the run began. *)
Record wf (r c g : nat) (keys0 : list string) (n0 : nat) (s : nstate) : Prop := mkWf {
  wf_root : exists rfs, n_heap s !! r = Some (OMap rfs) /\ fget rfs "components" = VObj c;
  wf_comps : exists cfs, n_heap s !! c = Some (OMap cfs) /\ fget cfs "schemas" = VObj g;
  wf_registry :
    exists gfs, n_heap s !! g = Some (OMap gfs)
      /\ (forall k, fhas gfs k = true -> mem_string k (existingNames s) = true)
      /\ List.length gfs = n0 + hoistedCount s
      /\ (forall k, In k (fkeys gfs) ->
            In k keys0 \/ exists p, memo_get (pointerToComponent s) p = Some k);
  wf_memo : NoDup (List.map fst (pointerToComponent s));
  wf_count : hoistedCount s <= List.length (pointerToComponent s);
  wf_edges : edgesApart r c (n_heap s);
  wf_refs : allGoodRefs (n_heap s)
}.

(** The objects of [h1] are objects of [h2] that have kept their keys. *)
Definition grows (h1 h2 : heap) : Prop :=
  forall a fs1, h1 !! a = Some (OMap fs1) ->
    exists fs2, h2 !! a = Some (OMap fs2) /\ forall k, fhas fs1 k = true -> fhas fs2 k = true.

(** What every step of the normalizer keeps, from the state [s1] on. *)
Definition keeps (r c g : nat) (keys0 : list string) (n0 : nat) (s1 s : nstate) : Prop :=
  wf r c g keys0 n0 s /\ grows (n_heap s1) (n_heap s).

(** What a call of [hoistRef] from the state [s] leaves: the bookkeeping
    is kept, and a reference that is returned is canonical. *)
Definition hoisted (r c g : nat) (keys0 : list string) (n0 : nat) (s : nstate)
    (res : outcome (option string) * nstate) : Prop :=
  keeps r c g keys0 n0 s (snd res)
  /\ forall x, fst res = Ok (Some x) -> Str.startsWith x schemasPrefix = true.

(** ** C3, C5: pointers that are other names of components *)

(** Two schemas refer to [A/properties/x], which is itself a reference to
    the component [B]. *)
Definition aliasDocument : json :=
  JObj [("components",
         JObj [("schemas",
                JObj [("B", JObj [("type", JStr "string")]);
                      ("A", JObj [("type", JStr "object");
                                  ("properties",
                                   JObj [("x", JObj [("$ref", JStr "#/components/schemas/B")])])]);
                      ("C", JObj [("type", JStr "object");
                                  ("properties",
                                   JObj [("p", JObj [("$ref", JStr "#/components/schemas/A/properties/x")]);
                                         ("q", JObj [("$ref", JStr "#/components/schemas/A/properties/x")])])])])])].

(** Two schemas refer to [A/properties/x], an object schema. *)
Definition sharedDocument : json :=
  JObj [("components",
         JObj [("schemas",
                JObj [("A", JObj [("type", JStr "object");
                                  ("properties",
                                   JObj [("x", JObj [("type", JStr "string")])])]);
                      ("C", JObj [("type", JStr "object");
                                  ("properties",
                                   JObj [("p", JObj [("$ref", JStr "#/components/schemas/A/properties/x")]);
                                         ("q", JObj [("$ref", JStr "#/components/schemas/A/properties/x")])])])])])].

(** The entries of the schema registry of the document at [root]. *)
Definition registryOf (h : heap) (root : val) : outcome (list (string * val)) :=
  match js_get h root "components" with
  | Ok comps => match js_get h comps "schemas" with
                | Ok schemas => js_entries h schemas
                | Fail e => Fail e
                end
  | Fail e => Fail e
  end.

(** ** C1: the references the pipeline leaves *)

(** The [$ref] strings of a tree. *)
Fixpoint json_refs (j : json) : list string :=
  match j with
  | JArr items =>
      (fix go (xs : list json) : list string :=
         match xs with
         | [] => []
         | x :: xs' => json_refs x ++ go xs'
         end) items
  | JObj fields =>
      (fix go (fs : list (string * json)) : list string :=
         match fs with
         | [] => []
         | (k, v) :: fs' =>
             (match v with
              | JStr s => if String.eqb k "$ref" then [s] else []
              | _ => json_refs v
              end) ++ go fs'
         end) fields
  | _ => []
  end.

Fixpoint json_lookup (fs : list (string * json)) (k : string) : option json :=
  match fs with
  | [] => None
  | (k', v) :: fs' => if String.eqb k' k then Some v else json_lookup fs' k
  end.

(** The entry of the tree that the segments of a pointer lead to. *)
Fixpoint json_walk (segments : list string) (j : json) : option json :=
  match segments with
  | [] => Some j
  | segment :: rest =>
      match j with
      | JObj fields =>
          match json_lookup fields segment with
          | Some v => json_walk rest v
          | None => None
          end
      | JArr items =>
          match index_of_key segment with
          | Some n => match nth_error items n with
                      | Some v => json_walk rest v
                      | None => None
                      end
          | None => None
          end
      | _ => None
      end
  end.

(** The reference resolves to an entry that exists in the document. *)
Definition json_resolves (doc : json) (ref : string) : bool :=
  Str.startsWith ref "#/"
  && match json_walk (pointerSegments ref) doc with
     | Some _ => true
     | None => false
     end.

(** [!availableSchemas[ref.replace('#/components/schemas/', '')]], for the
    registry with the entries [rfs]. *)
Definition brokenRef (rfs : list (string * val)) (x : string) : bool :=
  negb (truthy (fget rfs (Str.replace schemasPrefix EmptyString x))).

(** An object that holds no reference to a component schema the registry
    does not have. *)
Definition cleanNode (rfs : list (string * val)) (o : object) : Prop :=
  match o with
  | OMap fs =>
      forall x, fget fs "$ref" = VStr x -> Str.startsWith x schemasPrefix = true ->
                brokenRef rfs x = false
  | OArr _ => True
  end.

(** A sweep of [cleanBrokenRefs], from the state [s0] to [s], with the
    objects [skip] still in progress: the registry [R] is as it was, the
    objects visited before [s0] are as they were, the objects visited
    since are clean, and the objects their fields hold are visited. *)
Definition sweeping (R : nat) (rfs : list (string * val)) (skip : list nat)
    (s0 s : cstate) : Prop :=
  c_heap s !! R = Some (OMap rfs)
  /\ (forall b, In b (c_visited s0) -> In b (c_visited s))
  /\ (forall b, In b (c_visited s0) -> c_heap s !! b = c_heap s0 !! b)
  /\ (forall b o, In b (c_visited s) -> ~ In b (c_visited s0) -> ~ In b skip ->
                  c_heap s !! b = Some o -> cleanNode rfs o)
  /\ (forall b fs k d, In b (c_visited s) -> ~ In b (c_visited s0) -> ~ In b skip ->
                       c_heap s !! b = Some (OMap fs) -> In (k, VObj d) fs ->
                       In d (c_visited s)).

(** What is known of the map [a] while its entries [rem] are still to be
    treated: a broken reference it holds is among them. *)
Definition pending (rfs : list (string * val)) (rem fsa : list (string * val)) : Prop :=
  forall x, fget fsa "$ref" = VStr x -> Str.startsWith x schemasPrefix = true ->
            brokenRef rfs x = true -> In ("$ref", VStr x) rem.

(** An object held in a field of the map in progress is visited, or its
    entry is still to be treated. *)
Definition awaiting (visited : list nat) (rem fsa : list (string * val)) : Prop :=
  forall k d, In (k, VObj d) fsa -> In d visited \/ In (k, VObj d) rem.

(** A registry whose schema [A] refers to [A] and to a schema [Gone] that
    the registry does not have. *)
Definition sweptRegistry : json :=
  JObj [("A",
         JObj [("type", JStr "object");
               ("properties",
                JObj [("x", JObj [("$ref", JStr "#/components/schemas/Gone")]);
                      ("y", JObj [("$ref", JStr "#/components/schemas/A")])])])].

(** ** What [removeODataTypeRecursively] may do to a heap *)

(** From [h0] to [h], objects have at most lost their [@odata.type]
    properties. *)
Definition stripped (h0 h : heap) : Prop :=
  List.length h = List.length h0
  /\ forall a, h !! a = h0 !! a
               \/ exists fs, h0 !! a = Some (OMap fs)
                             /\ h !! a = Some (OMap (fdel fs "@odata.type")).

(** The object [b] has no [@odata.type] property. *)
Definition lacksOData (h : heap) (b : nat) : Prop :=
  forall fs, h !! b = Some (OMap fs) -> fhas fs "@odata.type" = false.

(** [b] is reached from [a] by property reads. *)
Inductive reaches (h : heap) : nat -> nat -> Prop :=
| reaches_here (a : nat) : reaches h a a
| reaches_step (a : nat) (k : string) (c b : nat) :
    js_get h (VObj a) k = Ok (VObj c) -> reaches h c b -> reaches h a b.

(** Nothing that is reached from [v] has an [@odata.type] property. *)
Definition cleared (h : heap) (v : val) : Prop :=
  forall c b, v = VObj c -> reaches h c b -> lacksOData h b.

Definition odataDocument : json :=
  JObj [("@odata.type", JStr "#microsoft.graph.user");
        ("value",
         JArr [JObj [("@odata.type", JStr "#microsoft.graph.message");
                     ("id", JNum 1)]])].

(** ** What [findRefsInObject] reports *)

(** [r] is a reference to a component schema that some object of the heap
    holds as its [$ref]. *)
Definition heldRef (h : heap) (r : string) : Prop :=
  Str.startsWith r schemasPrefix = true
  /\ exists b fs, h !! b = Some (OMap fs) /\ In ("$ref", VStr r) fs.

(** ** What [findUsedSchemas] returns *)

(** Every name recorded as used names a schema that [schemas] holds. *)
Definition usedExist (h : heap) (schemas : val) (u : ustate) : Prop :=
  forall n, In n (usedSchemas u) ->
            exists v, js_get h schemas n = Ok v /\ truthy v = true.

(** A document whose only operation answers with the schema [A], which
    refers to [B]; [C] is referred to by nothing. *)
Definition usedDocument : json :=
  JObj [("paths",
         JObj [("/test",
                JObj [("get",
                       JObj [("responses",
                              JObj [("200",
                                     JObj [("content",
                                            JObj [("application/json",
                                                   JObj [("schema",
                                                          JObj [("$ref", JStr "#/components/schemas/A")])])])])])])])]);
        ("components",
         JObj [("schemas",
                JObj [("A", JObj [("type", JStr "object");
                                  ("properties",
                                   JObj [("b", JObj [("$ref", JStr "#/components/schemas/B")])])]);
                      ("B", JObj [("type", JStr "string")]);
                      ("C", JObj [("type", JStr "string")])])])].

(** ** The two-branch rule of [flattenComplexSchema] *)

(** [item.type === 'object' && item.nullable === true
    && Object.keys(item).length <= 2], for an object with the fields
    [fs]. *)
Definition nullableMarker (fs : list (string * val)) : bool :=
  val_eqb (fget fs "type") (VStr "object")
  && val_eqb (fget fs "nullable") (VBool true)
  && Nat.leb (List.length fs) 2.

Definition optionalRefSchema : json :=
  JObj [("description", JStr "The manager");
        ("anyOf", JArr [JObj [("$ref", JStr "#/components/schemas/User")];
                        JObj [("type", JStr "object"); ("nullable", JBool true)]])].

Definition pairSchema : json :=
  JObj [("oneOf", JArr [JObj [("type", JStr "string")]; JObj [("type", JStr "number")]])].

(** ** The endpoint filter *)

(** The objects of [h1] are in [h2] as they are. *)
Definition extends (h1 h2 : heap) : Prop :=
  forall a o, h1 !! a = Some o -> h2 !! a = Some o.

(** [!operation.description && operation.summary ? operation.summary
    : operation.description], for an operation with the fields [ofs]. *)
Definition describedBy (ofs : list (string * val)) : val :=
  if negb (truthy (fget ofs "description")) && truthy (fget ofs "summary")
  then fget ofs "summary" else fget ofs "description".

(** ** [cloneSchema] on any heap *)

(** The state of a copy in progress, started on the heap [h0]: the objects
    of [h0] are as they were, and the copies refer to copies only. *)
Definition copying (h0 : heap) (h : heap) (seen : list (nat * nat)) : Prop :=
  List.length h0 <= List.length h
  /\ (forall a, a < List.length h0 -> h !! a = h0 !! a)
  /\ (forall o n, In (o, n) seen -> List.length h0 <= n)
  /\ (forall a o, List.length h0 <= a -> h !! a = Some o -> freshObj (List.length h0) o).

Definition copierOK (h0 : heap) (rec : cloner) : Prop :=
  forall h seen v h' seen' v',
    copying h0 h seen -> rec h seen v = Ok (h', seen', v') ->
    copying h0 h' seen' /\ List.length h <= List.length h'
    /\ clonedAs (List.length h0) v v'.

(** ** Reading a decimal numeral back *)

Definition numeral_digit (c : ascii) : nat := nat_of_ascii c - 48.

Fixpoint numeral_value (s : string) : nat :=
  match s with
  | EmptyString => 0
  | String c rest => numeral_digit c * 10 ^ String.length rest + numeral_value rest
  end.

(** The names the loop of [generateComponentName] tries after the
    candidate itself, from the counter [from] on. *)
Definition numbered (candidate : string) (from count : nat) : list string :=
  List.map (fun k => String.append candidate (Str.of_nat k)) (seq from count).

(** ** Names made of letters and digits *)

Fixpoint every_char (p : ascii -> bool) (s : string) : bool :=
  match s with
  | EmptyString => true
  | String c rest => p c && every_char p rest
  end.

Definition alphanumeric (s : string) : bool := every_char Str.is_alnum s.

Definition alnum_or_space (c : ascii) : bool := Str.is_alnum c || Ascii.eqb c " ".

(** ** [mergeAllOfSchemas] in progress

    The merge started on the heap [h0]: the objects of [h0] are as they
    were, and the object made for the result has its [type] and refers to
    the object made for its properties. *)
Definition merging (h0 : heap) (h : heap) : Prop :=
  (forall a, a < List.length h0 -> h !! a = h0 !! a)
  /\ exists fs, h !! S (List.length h0) = Some (OMap fs)
                /\ fget fs "type" = VStr "object"
                /\ fget fs "properties" = VObj (List.length h0).

(** ** [reduceProperties]: what the two loops leave in [keptProperties] *)

(** A step of the loop over the priority list, and a step of the loop over
    the other keys, on the fields of [keptProperties]. *)
Definition keepPriority (pfs acc : list (string * val)) (key : string)
  : list (string * val) :=
  if truthy (fget pfs key) then fset acc key (fget pfs key) else acc.

Definition keepOther (pfs acc : list (string * val)) (key : string)
  : list (string * val) :=
  fset acc key (fget pfs key).

(** A schema of 29 properties, the last two of them in the priority list. *)
Definition mixedSchema : json :=
  JObj [("type", JStr "object");
        ("properties",
         JObj (List.map (fun n => (String.append "p" (Str.of_nat n), stringSchema))
                        (seq 0 27)
               ++ [("id", stringSchema); ("name", stringSchema)]))].

(** Every field of [acc] is a field of [pfs], with the value it has there. *)
Definition takenFrom (pfs acc : list (string * val)) : Prop :=
  forall k, fhas acc k = true -> fhas pfs k = true /\ fget acc k = fget pfs k.

(** The fields of [keptProperties] after the loop over the priority list,
    and after the loop over the other keys. *)
Definition keptByPriority (pfs : list (string * val)) : list (string * val) :=
  fold_left (keepPriority pfs) priorityProperties [].

Definition keptFields (pfs : list (string * val)) : list (string * val) :=
  let kept1 := keptByPriority pfs in
  let otherKeys :=
    List.filter (fun key => negb (truthy (fget kept1 key))) (fkeys pfs) in
  fold_left (keepOther pfs)
            (slice_to otherKeys (25 - Z.of_nat (List.length (fkeys kept1)))%Z) kept1.

(** The names of a list are distinct. *)
Fixpoint distinctNames (xs : list string) : bool :=
  match xs with
  | [] => true
  | x :: rest => negb (mem_string x rest) && distinctNames rest
  end.
(** * Properties *)

(** ** Strings *)

Lemma prefix_app (p t : string) : String.prefix p (p ++ t)%string = true.
Proof.
  induction p as [|c p IH]; simpl.
  - destruct t; reflexivity.
  - destruct (ascii_dec c c) as [_|n]; [exact IH | contradiction].
Qed.

Lemma prefix_inv (p s : string) :
  String.prefix p s = true -> exists t, s = (p ++ t)%string.
Proof.
  revert s; induction p as [|c p IH]; intros s Hp.
  - exists s; reflexivity.
  - destruct s as [|d s]; simpl in Hp; [discriminate|].
    destruct (ascii_dec c d) as [->|]; [|discriminate].
    destruct (IH _ Hp) as [t ->]. exists t; reflexivity.
Qed.

Lemma slice_app (p t : string) : Str.slice (String.length p) (p ++ t)%string = t.
Proof. induction p as [|c p IH]; simpl; [destruct t; reflexivity | exact IH]. Qed.

Lemma includes_app_r (c : ascii) (a b : string) :
  Str.includes c (a ++ String c b)%string = true.
Proof.
  induction a as [|d a IH]; simpl.
  - rewrite Ascii.eqb_refl; reflexivity.
  - destruct (Ascii.eqb d c); [reflexivity | exact IH].
Qed.

(** Cutting a string at its first occurrence of [c]. *)
Lemma first_occurrence (c : ascii) (t : string) :
  Str.includes c t = true ->
  exists a b, t = (a ++ String c b)%string /\ Str.includes c a = false.
Proof.
  induction t as [|d t IH]; simpl; [discriminate|].
  destruct (Ascii.eqb d c) eqn:E.
  - intros _. apply Ascii.eqb_eq in E; subst d.
    exists EmptyString, t; split; reflexivity.
  - intros Ht. destruct (IH Ht) as (a & b & -> & Ha).
    exists (String d a), b; split; [reflexivity|]. simpl; rewrite E; exact Ha.
Qed.

Lemma first_occurrence_unique (c : ascii) (a b a' b' : string) :
  (a ++ String c b)%string = (a' ++ String c b')%string ->
  Str.includes c a = false -> Str.includes c a' = false -> a = a'.
Proof.
  revert a'; induction a as [|d a IH]; intros [|d' a'] Heq Ha Ha'; simpl in *.
  - reflexivity.
  - injection Heq as <- _. rewrite Ascii.eqb_refl in Ha'; discriminate.
  - injection Heq as -> _. rewrite Ascii.eqb_refl in Ha; discriminate.
  - injection Heq as <- Heq.
    destruct (Ascii.eqb d c); [discriminate|].
    f_equal; eapply IH; eauto.
Qed.

(** ** C2: the canonicality test *)

Lemma bare_schemas_not_exempt : ~ spec_not_hoisted "#/components/schemas".
Proof.
  intros [H | [(kind & rest & Heq & _ & _) | (name & Heq & _)]].
  - discriminate H.
  - assert (Hinc : Str.includes "/" "schemas" = true).
    { injection Heq as Heq. rewrite Heq. apply includes_app_r. }
    discriminate Hinc.
  - simpl in Heq. discriminate Heq.
Qed.

(** C2, as stated, fails: the pointer [#/components/schemas] is in none of
    the three exempt forms, and [shouldHoistRef] does not hoist it. *)
Lemma C2_counterexample :
  ~ (forall r : string, Str.startsWith r "#/" = true ->
       (shouldHoistRef (VStr r) = false <-> spec_not_hoisted r)).
Proof.
  intros H. apply bare_schemas_not_exempt.
  apply (H "#/components/schemas"); reflexivity.
Qed.

Lemma shouldHoistRef_false_inv (r : string) :
  Str.startsWith r "#/" = true ->
  shouldHoistRef (VStr r) = false ->
  spec_not_hoisted r \/ bare_collection r.
Proof.
  intros Hloc. unfold shouldHoistRef. rewrite Hloc. simpl negb. cbv iota.
  destruct (Str.startsWith r "#/$defs/") eqn:Hd.
  { intros _. left; left; exact Hd. }
  destruct (Str.startsWith r schemasPrefix) eqn:Hs.
  { intros Hinc. left; right; right.
    destruct (prefix_inv _ _ Hs) as [name ->].
    exists name; split; [reflexivity|].
    unfold no_slash. rewrite slice_app in Hinc. exact Hinc. }
  destruct (Str.startsWith r "#/components/") eqn:Hc; [|discriminate].
  intros _. destruct (prefix_inv _ _ Hc) as [t ->].
  destruct (Str.includes "/" t) eqn:Ht.
  - destruct (first_occurrence _ _ Ht) as (kind & rest & -> & Hk).
    left; right; left. exists kind, rest. split; [reflexivity|]. split; [exact Hk|].
    intros ->. unfold Str.startsWith, schemasPrefix in Hs. simpl in Hs.
    destruct rest; discriminate Hs.
  - right. exists t; split; [reflexivity | exact Ht].
Qed.

Lemma spec_not_hoisted_sound (r : string) :
  Str.startsWith r "#/" = true ->
  spec_not_hoisted r \/ bare_collection r ->
  shouldHoistRef (VStr r) = false.
Proof.
  intros Hloc. unfold shouldHoistRef. rewrite Hloc. simpl negb. cbv iota.
  intros [[Hd | [(kind & rest & -> & Hk & Hne) | (name & -> & Hn)]] | (kind & -> & Hk)].
  - rewrite Hd; reflexivity.
  - change (Str.startsWith ("#/components/" ++ kind ++ "/" ++ rest)%string "#/$defs/") with false.
    cbv iota.
    destruct (Str.startsWith ("#/components/" ++ kind ++ "/" ++ rest)%string schemasPrefix) eqn:Hs.
    + exfalso. destruct (prefix_inv _ _ Hs) as [t Ht].
      injection Ht as Ht. apply Hne.
      change ((kind ++ String "/" rest)%string = ("schemas" ++ String "/" t)%string) in Ht.
      eapply first_occurrence_unique; [exact Ht | exact Hk | reflexivity].
    + change ("#/components/" ++ kind ++ "/" ++ rest)%string
        with ("#/components/" ++ (kind ++ "/" ++ rest))%string.
      unfold Str.startsWith. rewrite prefix_app. reflexivity.
  - change (Str.startsWith ("#/components/schemas/" ++ name)%string "#/$defs/") with false.
    cbv iota. unfold Str.startsWith at 1.
    change "#/components/schemas/" with schemasPrefix.
    rewrite prefix_app, slice_app. exact Hn.
  - change (Str.startsWith ("#/components/" ++ kind)%string "#/$defs/") with false.
    cbv iota.
    destruct (Str.startsWith ("#/components/" ++ kind)%string schemasPrefix) eqn:Hs.
    + destruct (prefix_inv _ _ Hs) as [t Ht]. injection Ht as ->.
      unfold no_slash in Hk. simpl in Hk. discriminate Hk.
    + unfold Str.startsWith. rewrite prefix_app. reflexivity.
Qed.

(** C2, amended: a pointer starting with [#/] is left alone exactly when it
    is in one of the three exempt forms of the specification or addresses a
    whole collection, [#/components/<kind>] with nothing after the kind;
    every other such pointer is hoisted. *)
Theorem C2_shouldHoistRef_exact (r : string) :
  Str.startsWith r "#/" = true ->
  (shouldHoistRef (VStr r) = false <-> spec_not_hoisted r \/ bare_collection r)
  /\ (~ (spec_not_hoisted r \/ bare_collection r) -> shouldHoistRef (VStr r) = true).
Proof.
  intros Hloc. split; [split|].
  - apply shouldHoistRef_false_inv; exact Hloc.
  - apply spec_not_hoisted_sound; exact Hloc.
  - intros Hn. destruct (shouldHoistRef (VStr r)) eqn:E; [reflexivity|].
    exfalso. apply Hn. apply shouldHoistRef_false_inv; assumption.
Qed.

Lemma C2_shouldHoistRef_exact_witness :
  Str.startsWith "#/properties/sharedThing" "#/" = true
  /\ shouldHoistRef (VStr "#/properties/sharedThing") = true.
Proof.
  split; [reflexivity|].
  apply (C2_shouldHoistRef_exact "#/properties/sharedThing"); [reflexivity|].
  intros [[H | [(kind & rest & Heq & _) | (name & Heq & _)]] | (kind & Heq & _)];
    discriminate.
Defined.

(** ** Running the monad *)

Lemma bind_eval {St A B : Type} (m : M St A) (k : A -> M St B) s a s' :
  m s = (Ok a, s') -> bind m k s = k a s'.
Proof. intros Hm. unfold bind. rewrite Hm. reflexivity. Qed.

Lemma bind_fail {St A B : Type} (m : M St A) (k : A -> M St B) s e s' :
  m s = (Fail e, s') -> bind m k s = (Fail e, s').
Proof. intros Hm. unfold bind. rewrite Hm. reflexivity. Qed.

Lemma getp_eval {St : Type} `{Store St} v k x (s : St) :
  js_get (heap_of s) v k = Ok x -> getp v k s = (Ok x, s).
Proof. intros Hg. unfold getp, reading. rewrite Hg. reflexivity. Qed.

Lemma isArray_eval {St : Type} `{Store St} v (s : St) :
  isArray v s = (Ok (is_array (heap_of s) v), s).
Proof. reflexivity. Qed.

Lemma items_of_eval {St : Type} `{Store St} v xs (s : St) :
  array_items (heap_of s) v = Some xs -> items_of v s = (Ok xs, s).
Proof.
  intros Hx. unfold items_of, reading. rewrite Hx.
  destruct v; try discriminate; reflexivity.
Qed.


(** ** Objects and the heap *)

Lemma fget_freplace_eq fs k v : fhas fs k = true -> fget (freplace fs k v) k = v.
Proof.
  induction fs as [|[k' v'] fs IH]; simpl; [discriminate|].
  destruct (String.eqb k' k) eqn:E; simpl; rewrite E; auto.
Qed.

Lemma fget_freplace_ne fs k v k' : k <> k' -> fget (freplace fs k v) k' = fget fs k'.
Proof.
  intros Hne. induction fs as [|[k0 v0] fs IH]; simpl; [reflexivity|].
  destruct (String.eqb k0 k) eqn:E; simpl.
  - apply String.eqb_eq in E; subst k0.
    destruct (String.eqb k k') eqn:E'; [apply String.eqb_eq in E'; contradiction | reflexivity].
  - rewrite IH; reflexivity.
Qed.

Lemma fget_none fs k : fhas fs k = false -> fget fs k = VUndef.
Proof.
  induction fs as [|[k' v'] fs IH]; simpl; [reflexivity|].
  destruct (String.eqb k' k); [discriminate | exact IH].
Qed.

Lemma fget_app fs gs k :
  fget (fs ++ gs) k = if fhas fs k then fget fs k else fget gs k.
Proof.
  induction fs as [|[k' v'] fs IH]; simpl; [reflexivity|].
  destruct (String.eqb k' k); [reflexivity | exact IH].
Qed.

Lemma fget_finsert_index fs n k v k' :
  fhas fs k = false ->
  fget (finsert_index fs n k v) k' = if String.eqb k k' then v else fget fs k'.
Proof.
  induction fs as [|[k0 v0] fs IH]; simpl; intros Hk.
  - reflexivity.
  - destruct (String.eqb k0 k) eqn:E0; [discriminate|].
    destruct (index_of_key k0) as [n'|]; [destruct (Nat.ltb n n')|]; simpl;
      try reflexivity.
    destruct (String.eqb k0 k') eqn:E1.
    + destruct (String.eqb k k') eqn:E2; [|reflexivity].
      apply String.eqb_eq in E1, E2; subst. rewrite String.eqb_refl in E0; discriminate.
    + apply IH; exact Hk.
Qed.

Lemma fget_fset_eq fs k v : fget (fset fs k v) k = v.
Proof.
  unfold fset. destruct (fhas fs k) eqn:E.
  - apply fget_freplace_eq; exact E.
  - destruct (index_of_key k).
    + rewrite fget_finsert_index by exact E. rewrite String.eqb_refl; reflexivity.
    + rewrite fget_app, E. simpl. rewrite String.eqb_refl; reflexivity.
Qed.

Lemma fget_fset_ne fs k v k' : k <> k' -> fget (fset fs k v) k' = fget fs k'.
Proof.
  intros Hne. unfold fset. destruct (fhas fs k) eqn:E.
  - apply fget_freplace_ne; exact Hne.
  - assert (Hb : String.eqb k k' = false) by (apply String.eqb_neq; exact Hne).
    destruct (index_of_key k).
    + rewrite fget_finsert_index by exact E. rewrite Hb; reflexivity.
    + rewrite fget_app. simpl. rewrite Hb.
      destruct (fhas fs k') eqn:E'; [reflexivity|]. symmetry; apply fget_none; exact E'.
Qed.

Lemma fget_fdel_eq fs k : fget (fdel fs k) k = VUndef.
Proof.
  induction fs as [|[k' v'] fs IH]; simpl; [reflexivity|].
  destruct (String.eqb k' k) eqn:E; simpl; [exact IH | rewrite E; exact IH].
Qed.

Lemma fget_fdel_ne fs k k' : k <> k' -> fget (fdel fs k) k' = fget fs k'.
Proof.
  intros Hne. induction fs as [|[k0 v0] fs IH]; simpl; [reflexivity|].
  destruct (String.eqb k0 k) eqn:E; simpl.
  - apply String.eqb_eq in E; subst k0.
    destruct (String.eqb k k') eqn:E'; [apply String.eqb_eq in E'; contradiction | exact IH].
  - rewrite IH; reflexivity.
Qed.

Lemma fhas_fdel fs k : fhas (fdel fs k) k = false.
Proof.
  induction fs as [|[k' v'] fs IH]; simpl; [reflexivity|].
  destruct (String.eqb k' k) eqn:E; simpl; [exact IH | rewrite E; exact IH].
Qed.

Lemma heap_insert_same (h : heap) a o : a < List.length h -> <[a := o]> h !! a = Some o.
Proof. intros Hlt. apply list_lookup_insert_eq; exact Hlt. Qed.

Lemma heap_lookup_lt (h : heap) a o : h !! a = Some o -> a < List.length h.
Proof. intros Hl. apply lookup_lt_Some in Hl. exact Hl. Qed.

Lemma js_to_string_insert_map (h : heap) a fs fs' v :
  h !! a = Some (OMap fs) ->
  js_to_string (<[a := OMap fs']> h) v = js_to_string h v.
Proof.
  intros Ha. destruct v as [| |b|n|s|b]; try reflexivity. simpl.
  destruct (Nat.eq_dec b a) as [->|Hne].
  - rewrite heap_insert_same by (eapply heap_lookup_lt; eauto). rewrite Ha; reflexivity.
  - rewrite list_lookup_insert_ne by auto. reflexivity.
Qed.

Lemma js_get_map (h : heap) a fs k :
  h !! a = Some (OMap fs) -> js_get h (VObj a) k = Ok (fget fs k).
Proof. intros Ha. simpl. rewrite Ha. reflexivity. Qed.

Lemma js_set_map (h : heap) a fs k x :
  h !! a = Some (OMap fs) -> js_set h (VObj a) k x = Ok (<[a := OMap (fset fs k x)]> h).
Proof. intros Ha. simpl. rewrite Ha. reflexivity. Qed.

Lemma js_delete_map (h : heap) a fs k :
  h !! a = Some (OMap fs) -> js_delete h (VObj a) k = Ok (<[a := OMap (fdel fs k)]> h).
Proof. intros Ha. simpl. rewrite Ha. reflexivity. Qed.

Lemma heap_insert_insert (h : heap) a o o' : <[a := o']> (<[a := o]> h) = <[a := o']> h.
Proof. apply list_insert_insert_eq. Qed.

Lemma collapseMany_spec (h : heap) a fs union u first rest t ds :
  h !! a = Some (OMap fs) ->
  fget fs union = VObj u ->
  h !! u = Some (OArr (first :: rest)) ->
  js_get h first "type" = Ok t ->
  js_to_string h (js_or (fget fs "description") (VStr "")) = Ok ds ->
  union <> "type" -> union <> "nullable" -> union <> "description" ->
  collapseMany (VObj a) union h
  = (Ok tt, <[a := OMap (collapsedFields fs union t ds (S (List.length rest)))]> h).
Proof.
  intros Ha Hu Hitems Ht Hds N1 N2 N3.
  assert (Hau : a <> u) by (intros ->; rewrite Ha in Hitems; discriminate).
  assert (Hlt : a < List.length h) by (eapply heap_lookup_lt; eauto).
  unfold collapseMany, annotate, getp, setp, delp, to_string, reading, writing, bind, ret.
  cbn [heap_of with_heap heap_Store].
  rewrite (js_get_map _ _ _ _ Ha), Hu.
  assert (Hfirst : js_get h (VObj u) "0" = Ok first).
  { simpl. rewrite Hitems. reflexivity. }
  rewrite Hfirst, Ht.
  rewrite (js_set_map _ _ _ _ _ Ha).
  set (fs1 := fset fs "type" (js_or t (VStr "object"))).
  assert (H1 : <[a := OMap fs1]> h !! a = Some (OMap fs1)) by (apply heap_insert_same; exact Hlt).
  rewrite (js_set_map _ _ _ _ _ H1), heap_insert_insert.
  set (fs2 := fset fs1 "nullable" (VBool true)).
  assert (H2 : <[a := OMap fs2]> h !! a = Some (OMap fs2)) by (apply heap_insert_same; exact Hlt).
  rewrite (js_get_map _ _ _ _ H2).
  assert (Hu2 : fget fs2 union = VObj u).
  { unfold fs2, fs1. rewrite !fget_fset_ne by congruence. exact Hu. }
  rewrite Hu2.
  assert (Hlen : js_get (<[a := OMap fs2]> h) (VObj u) "length"
                 = Ok (VNum (Z.of_nat (S (List.length rest))))).
  { simpl js_get. rewrite list_lookup_insert_ne by exact Hau. rewrite Hitems. reflexivity. }
  rewrite Hlen. cbn [js_to_string].
  rewrite (js_get_map _ _ _ _ H2).
  assert (Hd2 : fget fs2 "description" = fget fs "description").
  { unfold fs2, fs1. rewrite !fget_fset_ne by discriminate. reflexivity. }
  rewrite Hd2, (js_to_string_insert_map _ _ _ _ _ Ha), Hds.
  rewrite (js_set_map _ _ _ _ _ H2), heap_insert_insert.
  match goal with |- context [fset fs2 "description" ?d] => set (fs3 := fset fs2 "description" d) end.
  assert (H3 : <[a := OMap fs3]> h !! a = Some (OMap fs3)) by (apply heap_insert_same; exact Hlt).
  rewrite (js_delete_map _ _ _ _ H3), heap_insert_insert.
  reflexivity.
Qed.

Lemma truthy_fget_fhas fs k : truthy (fget fs k) = true -> fhas fs k = true.
Proof.
  intros Ht. destruct (fhas fs k) eqn:E; [reflexivity|].
  rewrite (fget_none _ _ E) in Ht. discriminate Ht.
Qed.

Lemma freplace_same fs k : freplace fs k (fget fs k) = fs.
Proof.
  induction fs as [|[k' v'] fs IH]; simpl; [reflexivity|].
  destruct (String.eqb k' k); [reflexivity | rewrite IH; reflexivity].
Qed.

Lemma fset_same fs k : fhas fs k = true -> fset fs k (fget fs k) = fs.
Proof. intros Hk. unfold fset. rewrite Hk. apply freplace_same. Qed.

Lemma js_set_same (h : heap) a fs k :
  h !! a = Some (OMap fs) -> truthy (fget fs k) = true ->
  js_set h (VObj a) k (fget fs k) = Ok h.
Proof.
  intros Ha Ht. rewrite (js_set_map _ _ _ _ _ Ha).
  rewrite fset_same by (apply truthy_fget_fhas; exact Ht).
  rewrite list_insert_id by exact Ha. reflexivity.
Qed.

(** ** Invariants of computations *)

Lemma inv_readonly {St A : Type} (I : St -> Prop) (m : M St A) :
  readonly m -> inv I m.
Proof. intros Hm s Hs. rewrite Hm. exact Hs. Qed.

Lemma inv_bind {St A B : Type} (I : St -> Prop) (m : M St A) (k : A -> M St B) :
  inv I m -> (forall a, inv I (k a)) -> inv I (bind m k).
Proof.
  intros Hm Hk s Hs. unfold bind. specialize (Hm s Hs).
  destruct (m s) as [[a|e] s']; simpl in *; [apply Hk; exact Hm | exact Hm].
Qed.

(** The rule for a bind whose continuation needs to know what [m]
    returned, and from which state. *)
Lemma inv_bind_with {St A B : Type} (I : St -> Prop) (m : M St A) (k : A -> M St B) :
  inv I m ->
  (forall s a s', I s -> m s = (Ok a, s') -> I (snd (k a s'))) ->
  inv I (bind m k).
Proof.
  intros Hm Hk s Hs. unfold bind. specialize (Hm s Hs). specialize (Hk s).
  destruct (m s) as [[a|e] s']; simpl in *; [eapply Hk; eauto | exact Hm].
Qed.

Lemma inv_ret {St A : Type} (I : St -> Prop) (a : A) : inv I (ret a).
Proof. intros s Hs; exact Hs. Qed.

Lemma inv_fail {St A : Type} (I : St -> Prop) (e : failure) : inv I (@fail St A e).
Proof. intros s Hs; exact Hs. Qed.

Lemma inv_when {St : Type} `{Store St} (I : St -> Prop) (b : bool) (m : M St unit) :
  inv I m -> inv I (when b m).
Proof. intros Hm. destruct b; [exact Hm | apply inv_ret]. Qed.

Lemma inv_if {St A : Type} (I : St -> Prop) (b : bool) (m1 m2 : M St A) :
  inv I m1 -> inv I m2 -> inv I (if b then m1 else m2).
Proof. intros H1 H2. destruct b; assumption. Qed.

Lemma inv_forEach {St A : Type} `{Store St} (I : St -> Prop) (xs : list A)
    (f : A -> M St unit) :
  (forall x, inv I (f x)) -> inv I (forEach xs f).
Proof.
  intros Hf. induction xs as [|x xs IH]; simpl; [apply inv_ret|].
  apply inv_bind; [apply Hf | intros _; exact IH].
Qed.

Section ReadOnly.
Context {St : Type} `{Store St}.

Lemma readonly_reading {A : Type} (f : heap -> outcome A) : readonly (reading (St := St) f).
Proof. intros s; reflexivity. Qed.

Lemma readonly_ret {A : Type} (a : A) : readonly (ret (St := St) a).
Proof. intros s; reflexivity. Qed.

Lemma readonly_bind {A B : Type} (m : M St A) (k : A -> M St B) :
  readonly m -> (forall a, readonly (k a)) -> readonly (bind m k).
Proof.
  intros Hm Hk s. unfold bind. specialize (Hm s).
  destruct (m s) as [[a|e] s']; simpl in *; subst; [apply Hk | reflexivity].
Qed.

Lemma readonly_getp v k : readonly (getp (St := St) v k).
Proof. apply readonly_reading. Qed.

Lemma readonly_getp_opt v k : readonly (getp_opt (St := St) v k).
Proof. destruct v; first [apply readonly_ret | apply readonly_getp]. Qed.

Lemma readonly_entries v : readonly (entries (St := St) v).
Proof. apply readonly_reading. Qed.

Lemma readonly_keys v : readonly (keys (St := St) v).
Proof. apply readonly_bind; [apply readonly_entries | intros; apply readonly_ret]. Qed.

Lemma readonly_values v : readonly (values (St := St) v).
Proof. apply readonly_bind; [apply readonly_entries | intros; apply readonly_ret]. Qed.

Lemma readonly_isArray v : readonly (isArray (St := St) v).
Proof. apply readonly_reading. Qed.

Lemma readonly_items_of v : readonly (items_of (St := St) v).
Proof. apply readonly_reading. Qed.

Lemma readonly_to_string v : readonly (to_string (St := St) v).
Proof. apply readonly_reading. Qed.

Lemma readonly_entriesOrNone v : readonly (entriesOrNone (St := St) v).
Proof. unfold entriesOrNone. destruct (truthy v); [apply readonly_entries | apply readonly_ret]. Qed.

Lemma inv_forEach_from (I : St -> Prop) (arr : val) (i n : nat) (f : val -> M St unit) :
  (forall x, inv I (f x)) -> inv I (forEach_from arr i n f).
Proof.
  intros Hf. revert i. induction n as [|n IH]; intros i; simpl; [apply inv_ret|].
  apply inv_bind; [apply inv_readonly, readonly_items_of|]. intros xs.
  apply inv_bind; [|intros _; apply IH].
  destruct (xs !! i); [apply Hf | apply inv_ret].
Qed.

Lemma inv_forEach_live (I : St -> Prop) (arr : val) (f : val -> M St unit) :
  (forall x, inv I (f x)) -> inv I (forEach_live arr f).
Proof.
  intros Hf. apply inv_bind; [apply inv_readonly, readonly_items_of|].
  intros xs. apply inv_forEach_from; exact Hf.
Qed.

(** The descent of [processSchema] keeps whatever the recursive call
    keeps. *)
Lemma inv_descend (I : St -> Prop) (schema : val) (f : val -> M St unit) :
  (forall x, inv I (f x)) -> inv I (descend schema f).
Proof.
  intros Hf. unfold descend, eachOfArray, ifTruthy, ifObject, eachValue.
  repeat first
    [ apply inv_ret
    | apply Hf
    | apply inv_forEach_live; exact Hf
    | apply inv_forEach; intros ?
    | apply inv_when
    | apply inv_if
    | apply inv_bind; [first [ apply inv_readonly;
                               first [ apply readonly_getp | apply readonly_isArray
                                     | apply readonly_values ] | idtac ] | intros ? ] ].
Qed.

End ReadOnly.

(** ** The traversal around [processSchema]

    Whatever [processSchema] keeps, the functions that only read the
    document and call it keep too. *)

Section Traversal.
Variable I : nstate -> Prop.
Variable openApiSpec : val.
Hypothesis Hps : forall fuel schema contextName,
  inv I (processSchema fuel openApiSpec schema contextName).

Lemma inv_processContentSchema fuel content contextName :
  inv I (processContentSchema fuel openApiSpec content contextName).
Proof.
  unfold processContentSchema.
  apply inv_bind; [apply inv_readonly, readonly_getp_opt|]. intros sc.
  apply inv_when, Hps.
Qed.

Lemma inv_processParameter fuel parameter contextName :
  inv I (processParameter fuel openApiSpec parameter contextName).
Proof.
  unfold processParameter. apply inv_if; [apply inv_ret|].
  apply inv_bind; [apply inv_readonly, readonly_getp|]. intros name.
  apply inv_bind; [apply inv_readonly, readonly_getp|]. intros sc.
  apply inv_bind; [apply inv_when, Hps|]. intros _.
  apply inv_bind; [apply inv_readonly, readonly_getp|]. intros content.
  apply inv_when.
  apply inv_bind; [apply inv_readonly, readonly_entries|]. intros es.
  apply inv_forEach. intros mc. apply inv_processContentSchema.
Qed.

Lemma inv_processOperation fuel pathKey mo :
  inv I (processOperation fuel openApiSpec pathKey mo).
Proof.
  unfold processOperation. apply inv_if; [apply inv_ret|].
  apply inv_bind; [apply inv_readonly, readonly_getp|]. intros opId.
  apply inv_bind; [apply inv_readonly, readonly_getp|]. intros ps.
  apply inv_bind; [apply inv_readonly, readonly_isArray|]. intros psArr.
  apply inv_bind.
  { apply inv_when, inv_forEach_live. intros parameter.
    apply inv_bind; [apply inv_readonly, readonly_to_string|]. intros c.
    apply inv_processParameter. }
  intros _.
  apply inv_bind; [apply inv_readonly, readonly_getp|]. intros rb.
  apply inv_bind; [apply inv_readonly, readonly_getp_opt|]. intros rbc.
  apply inv_bind.
  { apply inv_when.
    apply inv_bind; [apply inv_readonly, readonly_values|]. intros cs.
    apply inv_forEach. intros content. apply inv_processContentSchema. }
  intros _.
  apply inv_bind; [apply inv_readonly, readonly_getp|]. intros rs.
  apply inv_when.
  apply inv_bind; [apply inv_readonly, readonly_values|]. intros rvs.
  apply inv_forEach. intros response. apply inv_if; [apply inv_ret|].
  apply inv_bind; [apply inv_readonly, readonly_getp|]. intros rc.
  apply inv_when.
  apply inv_bind; [apply inv_readonly, readonly_values|]. intros cs.
  apply inv_forEach. intros content. apply inv_processContentSchema.
Qed.

(** The holders of lines 313-335: component responses and request bodies. *)
Lemma inv_processHolder fuel (kv : string * val) contextName :
  inv I
    (let holder := snd kv in
     if negb (truthy holder) || negb (typeof_object holder) then ret tt
     else
       let* c := getp holder "content" in
       if negb (truthy c) then ret tt
       else
         let* cs := values c in
         forEach cs (fun content =>
           processContentSchema fuel openApiSpec content (VStr contextName))).
Proof.
  cbv zeta. apply inv_if; [apply inv_ret|].
  apply inv_bind; [apply inv_readonly, readonly_getp|]. intros c.
  apply inv_if; [apply inv_ret|].
  apply inv_bind; [apply inv_readonly, readonly_values|]. intros cs.
  apply inv_forEach. intros content. apply inv_processContentSchema.
Qed.

Lemma inv_traverseDocument fuel : inv I (traverseDocument fuel openApiSpec).
Proof.
  unfold traverseDocument.
  apply inv_bind; [apply inv_readonly, readonly_getp|]. intros comps0.
  apply inv_bind; [apply inv_readonly, readonly_getp|]. intros schemas.
  apply inv_bind; [apply inv_readonly, readonly_entries|]. intros es.
  apply inv_bind; [apply inv_forEach; intros kv; apply Hps|].
  intros _.
  apply inv_bind; [apply inv_readonly, readonly_getp|]. intros comps.
  apply inv_bind; [apply inv_readonly, readonly_getp_opt|]. intros params.
  apply inv_bind; [apply inv_readonly, readonly_entriesOrNone|]. intros pes.
  apply inv_bind; [apply inv_forEach; intros kv; apply inv_processParameter|].
  intros _.
  apply inv_bind; [apply inv_readonly, readonly_getp|]. intros paths.
  apply inv_bind; [apply inv_readonly, readonly_entriesOrNone|]. intros pths.
  apply inv_bind.
  { apply inv_forEach. intros kv. apply inv_if; [apply inv_ret|].
    apply inv_bind; [apply inv_readonly, readonly_getp|]. intros pps.
    apply inv_bind; [apply inv_readonly, readonly_isArray|]. intros ppsArr.
    apply inv_bind.
    { apply inv_when, inv_forEach_live. intros parameter. apply inv_processParameter. }
    intros _.
    apply inv_bind; [apply inv_readonly, readonly_entries|]. intros ops.
    apply inv_forEach. intros mo. apply inv_processOperation. }
  intros _.
  apply inv_bind; [apply inv_readonly, readonly_getp|]. intros comps'.
  apply inv_bind; [apply inv_readonly, readonly_getp_opt|]. intros resps.
  apply inv_bind; [apply inv_readonly, readonly_entriesOrNone|]. intros rvs.
  apply inv_bind.
  { apply inv_forEach. intros kv. apply (inv_processHolder fuel kv "ComponentResponse"). }
  intros _.
  apply inv_bind; [apply inv_readonly, readonly_getp|]. intros comps''.
  apply inv_bind; [apply inv_readonly, readonly_getp_opt|]. intros rbs.
  apply inv_bind; [apply inv_readonly, readonly_entriesOrNone|]. intros rbvs.
  apply inv_forEach. intros kv. apply (inv_processHolder fuel kv "ComponentRequestBody").
Qed.

End Traversal.

(** ** C9: unions of many branches *)

(** C9, as stated, fails when the first branch declares no type: the
    schema is given the type [object]. *)
Lemma C9_counterexample :
  let v := fst (load unionSchema []) in
  let h := snd (load unionSchema []) in
  let r := flattenComplexSchema v "Pet" h in
  fst r = Ok tt /\ ~ typeOfFirstBranch h (snd r) v.
Proof.
  cbv zeta. split; [vm_compute; reflexivity|].
  intros Hc.
  specialize (Hc (VObj 3) (VObj 0) VUndef).
  vm_compute in Hc.
  specialize (Hc eq_refl eq_refl eq_refl). discriminate Hc.
Qed.

(** C9, amended: a schema whose [anyOf] (or [oneOf], the other union being
    absent) has more than two branches loses the union keyword, gets
    [nullable: true] and the annotation with the branch count, and gets
    the first branch's declared type, or [object] when the first branch
    declares none. *)
Theorem C9_flatten_many_branches (h : heap) (schemaName : string) a fs union other
    u first rest t ds :
  (union = "anyOf" /\ other = "oneOf") \/ (union = "oneOf" /\ other = "anyOf") ->
  h !! a = Some (OMap fs) ->
  fget fs union = VObj u ->
  h !! u = Some (OArr (first :: rest)) ->
  2 <= List.length rest ->
  fget fs other = VUndef ->
  js_get h first "type" = Ok t ->
  js_to_string h (js_or (fget fs "description") (VStr "")) = Ok ds ->
  exists h',
    flattenComplexSchema (VObj a) schemaName h = (Ok tt, h')
    /\ js_get h' (VObj a) union = Ok VUndef
    /\ js_get h' (VObj a) "type" = Ok (js_or t (VStr "object"))
    /\ js_get h' (VObj a) "nullable" = Ok (VBool true)
    /\ js_get h' (VObj a) "description"
       = Ok (VStr (Str.trim (ds ++ " [Simplified from "
                                ++ Str.of_Z (Z.of_nat (S (List.length rest)))
                                ++ " options]")%string)).
Proof.
  intros Hun Ha Hu Hitems Hlen Hother Ht Hds.
  assert (Hlt : a < List.length h) by (eapply heap_lookup_lt; eauto).
  set (cf := collapsedFields fs union t ds (S (List.length rest))).
  assert (Hne : union <> "type" /\ union <> "nullable" /\ union <> "description"
                /\ union <> other).
  { destruct Hun as [[-> ->]|[-> ->]]; repeat split; discriminate. }
  destruct Hne as (N1 & N2 & N3 & N4).
  assert (Hrun : flattenComplexSchema (VObj a) schemaName h = (Ok tt, <[a := OMap cf]> h)).
  { assert (Hcf : <[a := OMap cf]> h !! a = Some (OMap cf)) by (apply heap_insert_same; exact Hlt).
    assert (Hcfo : fget cf other = VUndef).
    { unfold cf, collapsedFields. rewrite fget_fdel_ne by exact N4.
      destruct Hun as [[-> ->]|[-> ->]]; rewrite !fget_fset_ne by discriminate; exact Hother. }
    assert (Hn2 : Nat.eqb (S (List.length rest)) 2 = false) by (apply Nat.eqb_neq; lia).
    assert (Hn3 : Nat.ltb 2 (S (List.length rest)) = true) by (apply Nat.ltb_lt; lia).
    pose proof (collapseMany_spec h a fs union u first rest t ds Ha Hu Hitems Ht Hds N1 N2 N3)
      as Hcm. fold cf in Hcm.
    assert (Harr : is_array h (VObj u) = true) by (simpl; rewrite Hitems; reflexivity).
    assert (Hlen' : lengthOf (VObj u) h = (Ok (S (List.length rest)), h)).
    { unfold lengthOf. erewrite bind_eval by (apply items_of_eval; simpl; rewrite Hitems; reflexivity).
      reflexivity. }
    unfold flattenComplexSchema.
    destruct Hun as [[-> ->]|[-> ->]].
    - erewrite bind_eval by (apply getp_eval, js_get_map; exact Ha). rewrite Hu.
      erewrite bind_eval by apply isArray_eval. cbn [heap_of heap_Store]. rewrite Harr.
      erewrite bind_eval.
      2:{ cbn [truthy andb when]. erewrite bind_eval by exact Hlen'.
          rewrite Hn2, Hn3. exact Hcm. }
      erewrite bind_eval by (apply getp_eval, js_get_map; exact Hcf). rewrite Hcfo.
      erewrite bind_eval by apply isArray_eval. reflexivity.
    - erewrite bind_eval by (apply getp_eval, js_get_map; exact Ha). rewrite Hother.
      erewrite bind_eval by apply isArray_eval.
      erewrite bind_eval by reflexivity.
      erewrite bind_eval by (apply getp_eval, js_get_map; exact Ha). rewrite Hu.
      erewrite bind_eval by apply isArray_eval. cbn [heap_of heap_Store]. rewrite Harr.
      cbn [truthy andb]. erewrite bind_eval by exact Hlen'.
      rewrite Hn3. exact Hcm. }
  exists (<[a := OMap cf]> h). split; [exact Hrun|].
  assert (Hcf : <[a := OMap cf]> h !! a = Some (OMap cf)) by (apply heap_insert_same; exact Hlt).
  rewrite !(js_get_map _ _ _ _ Hcf). unfold cf, collapsedFields.
  repeat split; f_equal.
  - apply fget_fdel_eq.
  - rewrite fget_fdel_ne by congruence. rewrite !fget_fset_ne by discriminate.
    apply fget_fset_eq.
  - rewrite fget_fdel_ne by congruence. rewrite fget_fset_ne by discriminate.
    apply fget_fset_eq.
  - rewrite fget_fdel_ne by congruence. apply fget_fset_eq.
Qed.

Lemma C9_flatten_many_branches_witness :
  exists h',
    flattenComplexSchema (VObj 4) "Pet" (snd (load unionSchema [])) = (Ok tt, h')
    /\ js_get h' (VObj 4) "anyOf" = Ok VUndef
    /\ js_get h' (VObj 4) "type" = Ok (VStr "object")
    /\ js_get h' (VObj 4) "nullable" = Ok (VBool true)
    /\ js_get h' (VObj 4) "description"
       = Ok (VStr "A pet [Simplified from 3 options]").
Proof.
  apply (C9_flatten_many_branches (snd (load unionSchema [])) "Pet" 4
           [("description", VStr "A pet"); ("anyOf", VObj 3)] "anyOf" "oneOf"
           3 (VObj 0) [VObj 1; VObj 2] VUndef "A pet").
  - left; split; reflexivity.
  - reflexivity.
  - reflexivity.
  - reflexivity.
  - simpl; lia.
  - reflexivity.
  - reflexivity.
  - reflexivity.
Defined.

(** ** C8: the property cap *)

(** C8 at the failing input: a schema that has all 26 properties of the
    priority list keeps the 26 of them, under an annotation that says 25. *)
Lemma C8_priority_list_overflows :
  exists out,
    cleanSchemas prioritySchemas = (Ok tt, Some out)
    /\ List.length (json_keys (json_field (json_field out "Big") "properties")) = 26
    /\ json_field (json_field out "Big") "description"
       = JStr "[Note: Simplified from 26 properties to 25 most common ones]".
Proof. eexists. split; [vm_compute; reflexivity|]. split; reflexivity. Qed.

(** Scenario 4: with no priority property among 30, the first 25 stay. *)
Example scenario4_thirty_plain_properties :
  exists out,
    cleanSchemas plainSchemas = (Ok tt, Some out)
    /\ json_keys (json_field (json_field out "Wide") "properties")
       = List.map (fun n => String.append "p" (Str.of_nat n)) (seq 0 25)
    /\ json_field (json_field out "Wide") "additionalProperties" = JBool true
    /\ json_field (json_field out "Wide") "description"
       = JStr "[Note: Simplified from 30 properties to 25 most common ones]".
Proof. eexists. split; [vm_compute; reflexivity|]. repeat split; reflexivity. Qed.

(** ** C4: the allow-list check *)

Lemma filter_of_pure {St A : Type} `{Store St} (xs : list A) (p : A -> M St bool)
    (f : A -> bool) (s : St) :
  (forall x, In x xs -> p x s = (Ok (f x), s)) ->
  filter_of xs p s = (Ok (List.filter f xs), s).
Proof.
  induction xs as [|x xs IH]; intros Hp; simpl; [reflexivity|].
  erewrite bind_eval by (apply Hp; left; reflexivity).
  erewrite bind_eval by (apply IH; intros y Hy; apply Hp; right; exact Hy).
  destruct (f x); reflexivity.
Qed.

Lemma enabledEndpoints_records (w : world) allEndpoints eps :
  array_items (w_heap w) allEndpoints = Some eps ->
  Forall (endpointRecord (w_heap w)) eps ->
  enabledEndpoints allEndpoints w = (Ok (List.filter (enabledIn (w_heap w)) eps), w).
Proof.
  intros Hitems Hrec. unfold enabledEndpoints.
  erewrite bind_eval by (apply items_of_eval; exact Hitems).
  apply filter_of_pure. intros ep Hin.
  rewrite List.Forall_forall in Hrec. destruct (Hrec ep Hin) as (a & fs & p & -> & Ha & _).
  erewrite bind_eval by (apply getp_eval, js_get_map; exact Ha).
  unfold enabledIn. rewrite (js_get_map _ _ _ _ Ha). reflexivity.
Qed.

Lemma checkEndpoint_record (w : world) openApiSpec pa pfs ep :
  js_get (w_heap w) openApiSpec "paths" = Ok (VObj pa) ->
  w_heap w !! pa = Some (OMap pfs) ->
  endpointRecord (w_heap w) ep ->
  checkEndpoint openApiSpec ep w = (Ok tt, w)
  \/ exists msg, checkEndpoint openApiSpec ep w = (Fail (Thrown msg), w).
Proof.
  intros Hpaths Hpa (a & fs & p & -> & Ha & Hp). unfold checkEndpoint.
  erewrite bind_eval by (apply getp_eval; exact Hpaths).
  erewrite bind_eval by (apply getp_eval, js_get_map; exact Ha). rewrite Hp.
  erewrite bind_eval by reflexivity.
  erewrite bind_eval by (apply getp_eval, js_get_map; exact Hpa).
  destruct (truthy (fget pfs p)); [left; reflexivity | right; eexists; reflexivity].
Qed.

Lemma checkEndpoint_missing (w : world) openApiSpec pa pfs ep p :
  js_get (w_heap w) openApiSpec "paths" = Ok (VObj pa) ->
  w_heap w !! pa = Some (OMap pfs) ->
  js_get (w_heap w) ep "pathPattern" = Ok (VStr p) ->
  fhas pfs p = false ->
  exists msg, checkEndpoint openApiSpec ep w = (Fail (Thrown msg), w).
Proof.
  intros Hpaths Hpa Hp Hmiss. unfold checkEndpoint.
  erewrite bind_eval by (apply getp_eval; exact Hpaths).
  erewrite bind_eval by (apply getp_eval; exact Hp).
  erewrite bind_eval by reflexivity.
  erewrite bind_eval by (apply getp_eval, js_get_map; exact Hpa).
  rewrite (fget_none _ _ Hmiss). eexists; reflexivity.
Qed.

Lemma checkEndpoints_missing (w : world) openApiSpec pa pfs eps ep p :
  js_get (w_heap w) openApiSpec "paths" = Ok (VObj pa) ->
  w_heap w !! pa = Some (OMap pfs) ->
  Forall (endpointRecord (w_heap w)) eps ->
  In ep eps ->
  js_get (w_heap w) ep "pathPattern" = Ok (VStr p) ->
  fhas pfs p = false ->
  exists msg, checkEndpoints openApiSpec eps w = (Fail (Thrown msg), w).
Proof.
  intros Hpaths Hpa Hrec Hin Hp Hmiss. unfold checkEndpoints.
  induction eps as [|x eps IH]; [destruct Hin|].
  apply List.Forall_cons_iff in Hrec. destruct Hrec as [Hx Hrec]. simpl.
  destruct (checkEndpoint_record w openApiSpec pa pfs x Hpaths Hpa Hx) as [Hok | [msg Hthrow]].
  - erewrite bind_eval by exact Hok.
    destruct Hin as [->|Hin].
    + destruct (checkEndpoint_missing w openApiSpec pa pfs ep p Hpaths Hpa Hp Hmiss)
        as [msg Hthrow]. rewrite Hthrow in Hok. discriminate Hok.
    + apply IH; assumption.
  - exists msg. erewrite bind_fail by exact Hthrow. reflexivity.
Qed.



(** ** C7: pointers that do not resolve *)



(** ** C6: a second pass of the normalizer *)


Lemma allCanonical_lookup (h : heap) a fs r :
  allCanonical h = true -> h !! a = Some (OMap fs) -> fget fs "$ref" = VStr r ->
  shouldHoistRef (VStr r) = false.
Proof.
  intros Hall Ha Hr. unfold allCanonical in Hall. rewrite forallb_forall in Hall.
  assert (Hin : In (OMap fs) h).
  { apply list_elem_of_In. eapply list_elem_of_lookup_2; eauto. }
  specialize (Hall _ Hin). simpl in Hall. rewrite Hr in Hall.
  destruct (shouldHoistRef (VStr r)); [discriminate | reflexivity].
Qed.

Lemma js_get_ref_string (h : heap) a r :
  js_get h (VObj a) "$ref" = Ok (VStr r) ->
  exists fs, h !! a = Some (OMap fs) /\ fget fs "$ref" = VStr r.
Proof.
  simpl. destruct (h !! a) as [[fs|xs]|]; [| |discriminate].
  - intros [= Hr]. exists fs; split; [reflexivity | exact Hr].
  - unfold indexed_get. simpl. discriminate.
Qed.

Section Canonical.
Variable h : heap.
Variable openApiSpec : val.
Hypothesis Hcanon : allCanonical h = true.

Lemma inv_markVisited a : inv (untouched h) (markVisited a).
Proof. intros s Hs. exact Hs. Qed.

Lemma hoistRef_canonical fuel a contextName s r :
  untouched h s ->
  js_get (n_heap s) (VObj a) "$ref" = Ok (VStr r) ->
  hoistRef fuel openApiSpec (VObj a) contextName s = (Ok None, s)
  \/ hoistRef fuel openApiSpec (VObj a) contextName s = (Fail OutOfFuel, s).
Proof.
  intros (Hh & _ & _) Hr. destruct fuel as [|fuel]; [right; reflexivity|]. left.
  cbn [hoistRef]. erewrite bind_eval by (apply getp_eval; exact Hr).
  rewrite Hh in Hr. destruct (js_get_ref_string _ _ _ Hr) as (fs & Ha & Hfs).
  rewrite (allCanonical_lookup h a fs r Hcanon Ha Hfs). reflexivity.
Qed.

Lemma rewriteRef_canonical fuel a contextName :
  inv (untouched h) (rewriteRef (VObj a) (hoistRef fuel openApiSpec (VObj a) contextName)).
Proof.
  unfold rewriteRef. apply inv_bind_with; [apply inv_readonly, readonly_getp|].
  intros s refv s' Hs Hget.
  assert (Hs' : s' = s) by (pose proof (readonly_getp (St := nstate) (VObj a) "$ref" s) as Hro;
                            rewrite Hget in Hro; exact Hro).
  subst s'. destruct refv as [| | | |r|]; try exact Hs. cbn [typeof_string].
  assert (Hr : js_get (n_heap s) (VObj a) "$ref" = Ok (VStr r)).
  { unfold getp, reading in Hget. cbn [heap_of nstate_Store] in Hget.
    destruct (js_get (n_heap s) (VObj a) "$ref"); congruence. }
  destruct (hoistRef_canonical fuel a contextName s r Hs Hr) as [Hn | Hf].
  - erewrite bind_eval by exact Hn. exact Hs.
  - erewrite bind_fail by exact Hf. exact Hs.
Qed.

Lemma processSchema_canonical fuel schema contextName :
  inv (untouched h) (processSchema fuel openApiSpec schema contextName).
Proof.
  revert schema contextName. induction fuel as [|fuel IH]; intros schema contextName.
  - apply inv_fail.
  - cbn [processSchema]. destruct schema as [| | | | |a]; try apply inv_ret.
    apply inv_bind; [intros s Hs; exact Hs|]. intros s0.
    apply inv_if; [apply inv_ret|].
    apply inv_bind; [apply inv_markVisited|]. intros _.
    apply inv_bind; [apply rewriteRef_canonical|]. intros _.
    apply inv_descend. intros sub. apply IH.
Qed.

End Canonical.

Lemma nstate_with_same_heap (s : nstate) : with_heap (n_heap s) s = s.
Proof. destruct s; reflexivity. Qed.

Lemma setp_same_nstate (s : nstate) a fs k :
  n_heap s !! a = Some (OMap fs) -> truthy (fget fs k) = true ->
  setp (VObj a) k (fget fs k) s = (Ok tt, s).
Proof.
  intros Ha Ht. unfold setp, writing. cbn [heap_of nstate_Store].
  rewrite (js_set_same _ _ _ _ Ha Ht).
  change (mkN (n_heap s) (pointerToComponent s) (existingNames s) (visitedSchemas s)
              (hoistedCount s)) with (with_heap (n_heap s) s).
  rewrite nstate_with_same_heap. reflexivity.
Qed.

(** With the registry in place, [ensureRegistry] only notes its keys. *)
Lemma ensureRegistry_present (s : nstate) r rfs c cfs g gfs :
  n_heap s !! r = Some (OMap rfs) ->
  fget rfs "components" = VObj c ->
  n_heap s !! c = Some (OMap cfs) ->
  fget cfs "schemas" = VObj g ->
  n_heap s !! g = Some (OMap gfs) ->
  ensureRegistry (VObj r) s
  = (Ok tt, mkN (n_heap s) (pointerToComponent s) (fkeys gfs) (visitedSchemas s)
                (hoistedCount s)).
Proof.
  intros Hr Hc Hcs Hg Hgs. unfold ensureRegistry.
  assert (Hgr : getp (VObj r) "components" s = (Ok (VObj c), s)).
  { apply getp_eval. cbn [heap_of nstate_Store].
    rewrite (js_get_map _ _ _ _ Hr), Hc. reflexivity. }
  assert (Hgc : getp (VObj c) "schemas" s = (Ok (VObj g), s)).
  { apply getp_eval. cbn [heap_of nstate_Store].
    rewrite (js_get_map _ _ _ _ Hcs), Hg. reflexivity. }
  erewrite bind_eval by exact Hgr. cbn [truthy].
  erewrite bind_eval by reflexivity.
  erewrite bind_eval.
  2:{ rewrite <- Hc. apply setp_same_nstate with (fs := rfs); [exact Hr | rewrite Hc; reflexivity]. }
  erewrite bind_eval by exact Hgr.
  erewrite bind_eval by exact Hgc. cbn [truthy].
  erewrite bind_eval by reflexivity.
  erewrite bind_eval.
  2:{ rewrite <- Hg. apply setp_same_nstate with (fs := cfs); [exact Hcs | rewrite Hg; reflexivity]. }
  erewrite bind_eval by exact Hgr.
  erewrite bind_eval by exact Hgc.
  erewrite bind_eval.
  2:{ unfold keys. erewrite bind_eval
        by (unfold entries, reading; cbn [heap_of nstate_Store js_entries]; rewrite Hgs;
            reflexivity).
      reflexivity. }
  reflexivity.
Qed.



(** ** C10: what the endpoint filter leaves in a path item *)

Lemma memb_In a xs : memb a xs = true <-> In a xs.
Proof.
  unfold memb. rewrite existsb_exists. split.
  - intros (x & Hx & E). apply Nat.eqb_eq in E. subst; exact Hx.
  - intros Hin. exists a; split; [exact Hin | apply Nat.eqb_refl].
Qed.

Lemma memb_false a xs : memb a xs = false <-> ~ In a xs.
Proof.
  rewrite <- memb_In. destruct (memb a xs); intuition congruence.
Qed.

Lemma objAddrs_In a vs : In a (objAddrs vs) <-> In (VObj a) vs.
Proof.
  unfold objAddrs. rewrite in_flat_map. split.
  - intros (v & Hv & Ha). destruct v; simpl in Ha; try tauto.
    destruct Ha as [->|[]]. exact Hv.
  - intros Hin. exists (VObj a). split; [exact Hin | left; reflexivity].
Qed.

Lemma fkeys_incl fs1 fs2 k : incl fs2 fs1 -> In k (fkeys fs2) -> In k (fkeys fs1).
Proof.
  unfold fkeys. intros Hincl Hin. apply in_map_iff in Hin.
  destruct Hin as ((k' & v) & <- & Hin). apply in_map_iff.
  exists (k', v). split; [reflexivity | apply Hincl; exact Hin].
Qed.

Lemma fdel_incl fs k : incl (fdel fs k) fs.
Proof. unfold fdel. intros x Hx. apply List.filter_In in Hx. tauto. Qed.

Lemma fdel_not_key fs k : ~ In k (fkeys (fdel fs k)).
Proof.
  unfold fkeys, fdel. intros Hin. apply in_map_iff in Hin.
  destruct Hin as ((k' & v) & Hk & Hin). simpl in Hk. subst k'.
  apply List.filter_In in Hin. destruct Hin as [_ Hne]. simpl in Hne.
  rewrite String.eqb_refl in Hne. discriminate Hne.
Qed.

Section Filter.
Variable prot : list nat.
Variable endpoints : list val.
Variable r : nat.

Local Abbreviation evolving := (evolves prot endpoints r).
Local Abbreviation valid := (allocated prot endpoints r).

Lemma evolves_refl h : evolving h h.
Proof.
  repeat split; auto.
  - intros a fs2 _ Ha. exists fs2. split; [exact Ha | apply incl_refl].
  - intros a fs1 _ Ha. exists fs1. exact Ha.
Qed.

Lemma evolves_trans h1 h2 h3 : evolving h1 h2 -> evolving h2 h3 -> evolving h1 h3.
Proof.
  intros (L1 & P1 & F1 & E1 & R1) (L2 & P2 & F2 & E2 & R2). repeat split.
  - lia.
  - intros a fs3 Ha H3. destruct (P2 a fs3 Ha H3) as (fs2 & H2 & I2).
    destruct (P1 a fs2 Ha H2) as (fs1 & H1 & I1).
    exists fs1. split; [exact H1 | eapply incl_tran; eauto].
  - intros a fs1 Ha H1. destruct (F1 a fs1 Ha H1) as (fs2 & H2).
    apply (F2 a fs2 Ha H2).
  - intros ep k Hep Hk. rewrite E2, E1 by assumption. reflexivity.
  - congruence.
Qed.

Lemma valid_evolves h1 h2 : valid h1 -> evolving h1 h2 -> valid h2.
Proof. intros Hv (L & _) a Ha. specialize (Hv a Ha). lia. Qed.

Lemma js_get_app (h : heap) o v k :
  (forall a, v = VObj a -> a < List.length h) ->
  js_get (h ++ [o]) v k = js_get h v k.
Proof.
  intros Hv. destruct v as [| | | | |a]; try reflexivity. simpl.
  rewrite lookup_app_l by (apply Hv; reflexivity). reflexivity.
Qed.

Lemma evolves_alloc h o : valid h -> evolving h (h ++ [o]).
Proof.
  intros Hv. repeat split.
  - rewrite length_app. lia.
  - intros a fs2 Ha H2. exists fs2. split; [|apply incl_refl].
    rewrite lookup_app_l in H2; [exact H2|].
    apply Hv. right. apply in_or_app. left; exact Ha.
  - intros a fs1 Ha H1. exists fs1. rewrite lookup_app_l; [exact H1|].
    eapply heap_lookup_lt; eauto.
  - intros ep k Hep _. apply js_get_app. intros a ->. apply Hv.
    right. apply in_or_app. right. apply objAddrs_In. exact Hep.
  - apply js_get_app. intros a [= <-]. apply Hv. left; reflexivity.
Qed.

Lemma js_get_insert_other (h : heap) a fs fs' v k :
  h !! a = Some (OMap fs) ->
  (v = VObj a -> fget fs' k = fget fs k) ->
  js_get (<[a := OMap fs']> h) v k = js_get h v k.
Proof.
  intros Ha Hk. destruct v as [| | | | |b]; try reflexivity. simpl.
  destruct (Nat.eq_dec b a) as [->|Hne].
  - rewrite heap_insert_same by (eapply heap_lookup_lt; eauto).
    rewrite Ha, Hk by reflexivity. reflexivity.
  - rewrite list_lookup_insert_ne by auto. reflexivity.
Qed.

(** Writing a property other than the ones the filter reads, on an object
    that is not protected. *)
Lemma evolves_set h a fs k x :
  h !! a = Some (OMap fs) -> ~ In a prot ->
  k <> "pathPattern" -> k <> "method" -> k <> "paths" ->
  evolving h (<[a := OMap (fset fs k x)]> h).
Proof.
  intros Ha Hnp N1 N2 N3. repeat split.
  - rewrite length_insert. lia.
  - intros b fs2 Hb H2. exists fs2. split; [|apply incl_refl].
    rewrite list_lookup_insert_ne in H2; [exact H2|]. intros ->; contradiction.
  - intros b fs1 Hb H1. exists fs1.
    rewrite list_lookup_insert_ne; [exact H1|]. intros ->; contradiction.
  - intros ep k' _ [-> | ->]; apply (js_get_insert_other _ _ _ _ _ _ Ha);
      intros _; apply fget_fset_ne; assumption.
  - apply (js_get_insert_other _ _ _ _ _ _ Ha). intros _. apply fget_fset_ne; assumption.
Qed.

(** Deleting a property of a protected object. *)
Lemma evolves_del h a fs k :
  h !! a = Some (OMap fs) -> a <> r -> ~ In (VObj a) endpoints ->
  evolving h (<[a := OMap (fdel fs k)]> h).
Proof.
  intros Ha Hr Hep. repeat split.
  - rewrite length_insert. lia.
  - intros b fs2 Hb H2. destruct (Nat.eq_dec b a) as [->|Hne].
    + rewrite heap_insert_same in H2 by (eapply heap_lookup_lt; eauto).
      injection H2 as <-. exists fs. split; [exact Ha | apply fdel_incl].
    + rewrite list_lookup_insert_ne in H2 by auto.
      exists fs2. split; [exact H2 | apply incl_refl].
  - intros b fs1 Hb H1. destruct (Nat.eq_dec b a) as [->|Hne].
    + rewrite heap_insert_same by (eapply heap_lookup_lt; eauto). eexists; reflexivity.
    + rewrite list_lookup_insert_ne by auto. exists fs1; exact H1.
  - intros ep k' Hin _. apply (js_get_insert_other _ _ _ _ _ _ Ha).
    intros ->. contradiction.
  - apply (js_get_insert_other _ _ _ _ _ _ Ha). intros [= <-]. contradiction.
Qed.

Lemma inv_alloc h0 o : valid h0 -> inv (evolving h0) (alloc (St := heap) o).
Proof.
  intros Hv s Hs. cbn. eapply evolves_trans; [exact Hs|].
  apply evolves_alloc. eapply valid_evolves; eauto.
Qed.

Lemma inv_setp_other h0 operation k x :
  (forall c, operation = VObj c -> ~ In c prot) ->
  index_of_key k = None ->
  k <> "pathPattern" -> k <> "method" -> k <> "paths" ->
  inv (evolving h0) (setp (St := heap) operation k x).
Proof.
  intros Hop Hidx N1 N2 N3 s Hs. unfold setp, writing. cbn [heap_of with_heap heap_Store].
  destruct operation as [| | | | |a]; try exact Hs. cbn [js_set].
  destruct (s !! a) as [[fs|xs]|] eqn:Ha; try exact Hs.
  - cbn. eapply evolves_trans; [exact Hs|].
    apply evolves_set; auto.
  - rewrite Hidx. exact Hs.
Qed.

Lemma inv_delp_protected h0 b k :
  b <> r -> ~ In (VObj b) endpoints ->
  inv (evolving h0) (delp (St := heap) (VObj b) k).
Proof.
  intros Hr Hep s Hs. unfold delp, writing. cbn [heap_of with_heap heap_Store js_delete].
  destruct (s !! b) as [[fs|xs]|] eqn:Hb; try exact Hs.
  - cbn. eapply evolves_trans; [exact Hs|]. apply evolves_del; auto.
  - destruct (String.eqb k "length"); [exact Hs|].
    destruct (index_of_key k) as [n|]; [|exact Hs].
    destruct (Nat.ltb n (List.length xs)); exact Hs.
Qed.

Lemma inv_map_of {A B : Type} (I : heap -> Prop) (xs : list A) (f : A -> M heap B) :
  (forall x, inv I (f x)) -> inv I (map_of xs f).
Proof.
  intros Hf. induction xs as [|x xs IH]; simpl; [apply inv_ret|].
  apply inv_bind; [apply Hf|]. intros y.
  apply inv_bind; [apply IH|]. intros rest. apply inv_ret.
Qed.

Lemma readonly_find_of (xs : list val) (p : val -> M heap bool) :
  (forall x, readonly (p x)) -> readonly (find_of xs p).
Proof.
  intros Hp. induction xs as [|x xs IH]; simpl; [apply readonly_ret|].
  apply readonly_bind; [apply Hp|]. intros b. destruct b; [apply readonly_ret | exact IH].
Qed.

Lemma readonly_filter_of {A : Type} (xs : list A) (p : A -> M heap bool) :
  (forall x, readonly (p x)) -> readonly (filter_of xs p).
Proof.
  intros Hp. induction xs as [|x xs IH]; simpl; [apply readonly_ret|].
  apply readonly_bind; [apply Hp|]. intros b.
  apply readonly_bind; [exact IH|]. intros rest. apply readonly_ret.
Qed.

Lemma readonly_methodMatches method ep : readonly (methodMatches (St := heap) method ep).
Proof.
  unfold methodMatches. apply readonly_bind; [apply readonly_getp|].
  intros m. destruct m; intros st; reflexivity.
Qed.

Lemma readonly_pathMatches key ep : readonly (pathMatches (St := heap) key ep).
Proof.
  unfold pathMatches. apply readonly_bind; [apply readonly_getp|].
  intros pp. apply readonly_ret.
Qed.

Lemma inv_resolveParameter h0 openApiSpec param :
  valid h0 -> inv (evolving h0) (resolveParameter (St := heap) openApiSpec param).
Proof.
  intros Hv. unfold resolveParameter.
  apply inv_bind; [apply inv_readonly, readonly_getp|]. intros rv.
  apply inv_if; [|apply inv_ret].
  destruct rv; try apply inv_fail.
  apply inv_if; [|apply inv_ret].
  apply inv_bind; [apply inv_readonly, readonly_getp|]. intros comps.
  apply inv_bind; [apply inv_readonly, readonly_getp_opt|]. intros params.
  apply inv_bind; [apply inv_readonly, readonly_getp_opt|]. intros resolved.
  apply inv_if; [|apply inv_ret].
  apply inv_bind; [apply inv_readonly, readonly_entries|]. intros es.
  apply inv_alloc; exact Hv.
Qed.

Lemma inv_filterOperation h0 openApiSpec e b method operation :
  valid h0 -> b <> r -> ~ In (VObj b) endpoints ->
  (forall c, operation = VObj c -> ~ In c prot) ->
  inv (evolving h0) (filterOperation (St := heap) openApiSpec e (VObj b) method operation).
Proof.
  intros Hv Hr Hep Hop. unfold filterOperation.
  apply inv_bind.
  { apply inv_readonly, readonly_find_of. intros x. apply readonly_methodMatches. }
  intros eo. apply inv_if; [|apply inv_delp_protected; assumption].
  apply inv_bind; [apply inv_readonly, readonly_getp|]. intros toolName.
  apply inv_bind; [apply inv_setp_other; first [assumption | reflexivity | discriminate]|].
  intros _.
  apply inv_bind; [apply inv_readonly, readonly_getp|]. intros d.
  apply inv_bind; [apply inv_readonly, readonly_getp|]. intros sm.
  apply inv_bind.
  { apply inv_when, inv_setp_other; first [assumption | reflexivity | discriminate]. }
  intros _.
  apply inv_bind; [apply inv_readonly, readonly_getp|]. intros ps.
  apply inv_when.
  apply inv_bind; [apply inv_readonly, readonly_items_of|]. intros xs.
  apply inv_bind; [apply inv_map_of; intros x; apply inv_resolveParameter; exact Hv|].
  intros ys.
  apply inv_bind; [apply inv_alloc; exact Hv|]. intros arr.
  apply inv_setp_other; first [assumption | reflexivity | discriminate].
Qed.

Lemma bind_ok_inv {St A B : Type} (m : M St A) (k : A -> M St B) s b s' :
  bind m k s = (Ok b, s') ->
  exists a s1, m s = (Ok a, s1) /\ k a s1 = (Ok b, s').
Proof.
  unfold bind. destruct (m s) as [[a|e] s1]; [|discriminate].
  intros Hk. exists a, s1. split; [reflexivity | exact Hk].
Qed.

Lemma readonly_run {St A : Type} (m : M St A) s o s' :
  readonly m -> m s = (o, s') -> s' = s.
Proof. intros Hro Hm. specialize (Hro s). rewrite Hm in Hro. exact Hro. Qed.

Lemma val_eqb_str v k : val_eqb v (VStr k) = true -> v = VStr k.
Proof.
  destruct v; simpl; try discriminate. intros E. apply String.eqb_eq in E. congruence.
Qed.

Lemma getp_ok (v : val) (k : string) (s s' : heap) x :
  getp v k s = (Ok x, s') -> s' = s /\ js_get s v k = Ok x.
Proof.
  unfold getp, reading. cbn [heap_of heap_Store].
  destruct (js_get s v k); intros [= <- <-]; split; reflexivity.
Qed.

Lemma find_of_methodMatches (e : list val) method (s s' : heap) eo :
  find_of e (methodMatches method) s = (Ok eo, s') ->
  truthy eo = true ->
  In eo e /\ exists m, js_get s eo "method" = Ok (VStr m) /\ Str.toLowerCase m = method.
Proof.
  induction e as [|ep e IH]; simpl.
  - intros [= <- _] Ht. discriminate Ht.
  - intros Hrun Ht. apply bind_ok_inv in Hrun. destruct Hrun as (b & s1 & Hm & Hk).
    unfold methodMatches in Hm. apply bind_ok_inv in Hm.
    destruct Hm as (mv & s2 & Hg & Hmv). apply getp_ok in Hg. destruct Hg as [-> Hg].
    destruct mv as [| | | |m|]; try discriminate Hmv. injection Hmv as <- <-.
    destruct (String.eqb (Str.toLowerCase m) method) eqn:E.
    + injection Hk as <- _. split; [left; reflexivity|].
      exists m. split; [exact Hg | apply String.eqb_eq; exact E].
    + destruct (IH Hk Ht) as [Hin Hex]. split; [right; exact Hin | exact Hex].
Qed.

Lemma filter_of_pathMatches (eps : list val) key (s s' : heap) e :
  filter_of eps (pathMatches key) s = (Ok e, s') ->
  s' = s /\ forall ep, In ep e -> In ep eps /\ js_get s ep "pathPattern" = Ok (VStr key).
Proof.
  revert e s'. induction eps as [|x eps IH]; simpl; intros e s' Hrun.
  - injection Hrun as <- <-. split; [reflexivity | intros ep []].
  - apply bind_ok_inv in Hrun. destruct Hrun as (b & s1 & Hp & Hk).
    unfold pathMatches in Hp. apply bind_ok_inv in Hp.
    destruct Hp as (pp & s2 & Hg & Hpp). apply getp_ok in Hg. destruct Hg as [-> Hg].
    injection Hpp as <- <-.
    apply bind_ok_inv in Hk. destruct Hk as (rest & s3 & Hrest & Hret).
    destruct (IH _ _ Hrest) as [-> Hall]. injection Hret as <- <-.
    split; [reflexivity|]. intros ep Hin.
    destruct (val_eqb pp (VStr key)) eqn:E.
    + destruct Hin as [<- | Hin].
      * split; [left; reflexivity|]. apply val_eqb_str in E. rewrite <- E. exact Hg.
      * destruct (Hall ep Hin) as [H1 H2]. split; [right; exact H1 | exact H2].
    + destruct (Hall ep Hin) as [H1 H2]. split; [right; exact H1 | exact H2].
Qed.

End Filter.

Lemma fget_In fs k v : fget fs k = v -> v <> VUndef -> In (k, v) fs.
Proof.
  induction fs as [|[k' v'] fs IH]; simpl; [congruence|].
  destruct (String.eqb k' k) eqn:E.
  - intros -> _. apply String.eqb_eq in E. subst. left; reflexivity.
  - intros Hg Hv. right. apply IH; assumption.
Qed.

Lemma In_fkeys fs k v : In (k, v) fs -> In k (fkeys fs).
Proof. intros Hin. unfold fkeys. apply in_map_iff. exists (k, v). split; [reflexivity | exact Hin]. Qed.

Section FilterPaths.
Variable h : heap.
Variables r pa : nat.
Variable endpoints : list val.
Variables rfs pfs : list (string * val).
Hypothesis Hsep : separate h r pa endpoints = true.
Hypothesis Hr : h !! r = Some (OMap rfs).
Hypothesis Hpaths : fget rfs "paths" = VObj pa.
Hypothesis Hpa : h !! pa = Some (OMap pfs).

Local Abbreviation prot := (pa :: fieldAddrs h pa).
Local Abbreviation evolving := (evolves prot endpoints r).

Lemma sep_root : ~ In r prot.
Proof.
  pose proof Hsep as Hs. unfold separate in Hs. rewrite !andb_true_iff in Hs.
  destruct Hs as ((((Hroot & _) & _) & _) & _).
  apply memb_false. destruct (memb r prot); [discriminate | reflexivity].
Qed.

Lemma sep_items v : In v (List.map snd pfs) -> isMapIn h v = true.
Proof.
  pose proof Hsep as Hs. unfold separate in Hs. rewrite !andb_true_iff in Hs.
  destruct Hs as ((((_ & Hitems) & _) & _) & _).
  rewrite forallb_forall in Hitems. unfold pathItems in Hitems. rewrite Hpa in Hitems.
  apply Hitems.
Qed.

Lemma sep_operations b c : In b (fieldAddrs h pa) -> In c (fieldAddrs h b) -> ~ In c prot.
Proof.
  pose proof Hsep as Hs. unfold separate in Hs. rewrite !andb_true_iff in Hs.
  destruct Hs as ((((_ & _) & Hops) & _) & _).
  rewrite forallb_forall in Hops. intros Hb Hc. specialize (Hops b Hb).
  rewrite forallb_forall in Hops. specialize (Hops c Hc).
  apply memb_false. destruct (memb c prot); [discriminate | reflexivity].
Qed.

Lemma sep_endpoints e : In (VObj e) endpoints -> ~ In e prot /\ e < List.length h.
Proof.
  pose proof Hsep as Hs. unfold separate in Hs. rewrite !andb_true_iff in Hs.
  destruct Hs as ((((_ & _) & _) & Heps) & _).
  rewrite forallb_forall in Heps. intros He. apply objAddrs_In in He.
  specialize (Heps e He). rewrite andb_true_iff in Heps. destruct Heps as [H1 H2].
  split; [|apply Nat.ltb_lt; exact H2].
  apply memb_false. destruct (memb e prot); [discriminate | reflexivity].
Qed.

Lemma sep_allocated : allocated prot endpoints r h.
Proof.
  pose proof Hsep as Hs. unfold separate in Hs. rewrite !andb_true_iff in Hs.
  destruct Hs as ((((_ & _) & _) & _) & Hval).
  rewrite forallb_forall in Hval. intros a Ha.
  change (r :: prot ++ objAddrs endpoints) with ((r :: prot) ++ objAddrs endpoints) in Ha.
  apply in_app_or in Ha. destruct Ha as [Ha | Ha].
  - apply Nat.ltb_lt. apply Hval. exact Ha.
  - apply objAddrs_In in Ha. apply sep_endpoints in Ha. tauto.
Qed.

Lemma item_protected key b : In (key, VObj b) pfs -> In b (fieldAddrs h pa).
Proof.
  intros Hin. unfold fieldAddrs. rewrite Hpa. apply objAddrs_In.
  apply in_map_iff. exists (key, VObj b). split; [reflexivity | exact Hin].
Qed.

Lemma protected_apart b : In b prot -> b <> r /\ ~ In (VObj b) endpoints.
Proof.
  intros Hb. split.
  - intros ->. apply sep_root. exact Hb.
  - intros Hep. apply sep_endpoints in Hep. tauto.
Qed.

Lemma filterOperation_post (hc hc' : heap) e p b method operation :
  evolving h hc ->
  (forall ep, In ep e -> In ep endpoints /\ js_get hc ep "pathPattern" = Ok (VStr p)) ->
  filterOperation (VObj r) e (VObj b) method operation hc = (Ok tt, hc') ->
  allowListed h endpoints p method
  \/ (forall fs, hc' !! b = Some (OMap fs) -> ~ In method (fkeys fs)).
Proof.
  intros Hev He Hrun. unfold filterOperation in Hrun.
  apply bind_ok_inv in Hrun. destruct Hrun as (eo & s1 & Hfind & Hk).
  assert (Hs1 : s1 = hc).
  { eapply readonly_run; [|exact Hfind]. apply readonly_find_of.
    intros x. apply readonly_methodMatches. }
  subst s1. destruct (truthy eo) eqn:Ht.
  - left. destruct (find_of_methodMatches _ _ _ _ _ Hfind Ht) as (Hin & m & Hm & Hlow).
    destruct (He eo Hin) as [Hep Hpp].
    destruct Hev as (_ & _ & _ & Hreads & _).
    exists eo, m. repeat split; [exact Hep | | | exact Hlow].
    + rewrite <- (Hreads eo "pathPattern" Hep) by (left; reflexivity). exact Hpp.
    + rewrite <- (Hreads eo "method" Hep) by (right; reflexivity). exact Hm.
  - right. unfold delp, writing in Hk. cbn [heap_of with_heap heap_Store js_delete] in Hk.
    intros fs Hfs. destruct (hc !! b) as [[fs0|xs]|] eqn:Hb; [| |discriminate Hk].
    + injection Hk as <-.
      rewrite heap_insert_same in Hfs by (eapply heap_lookup_lt; eauto).
      injection Hfs as <-. apply fdel_not_key.
    + destruct (String.eqb method "length"); [discriminate Hk|].
      destruct (index_of_key method) as [n|].
      * destruct (Nat.ltb n (List.length xs)); [discriminate Hk|].
        injection Hk as <-. congruence.
      * injection Hk as <-. congruence.
Qed.

Lemma operations_loop (ms : list (string * val)) :
  forall (hc hc' : heap) e p b,
    evolving h hc -> In b prot ->
    (forall k c, In (k, VObj c) ms -> ~ In c prot) ->
    (forall ep, In ep e -> In ep endpoints /\ js_get h ep "pathPattern" = Ok (VStr p)) ->
    forEach ms (fun mo => filterOperation (VObj r) e (VObj b) (fst mo) (snd mo)) hc
    = (Ok tt, hc') ->
    evolving hc hc'
    /\ forall k, In k (List.map fst ms) ->
         allowListed h endpoints p k
         \/ (forall fs, hc' !! b = Some (OMap fs) -> ~ In k (fkeys fs)).
Proof.
  induction ms as [|[method operation] ms IH]; intros hc hc' e p b Hev Hb Hops He Hrun.
  - injection Hrun as <-. split; [apply evolves_refl | intros k []].
  - simpl in Hrun. apply bind_ok_inv in Hrun. destruct Hrun as ([] & hc1 & Hop & Hrest).
    destruct (protected_apart b Hb) as [Hbr Hbe].
    assert (Hvalid : allocated prot endpoints r hc)
      by (eapply valid_evolves; [apply sep_allocated | exact Hev]).
    assert (Hev1 : evolving hc hc1).
    { pose proof (inv_filterOperation prot endpoints r hc (VObj r) e b method operation
                    Hvalid Hbr Hbe) as Hinv.
      assert (Hc : forall c, operation = VObj c -> ~ In c prot).
      { intros c ->. apply (Hops method c). left; reflexivity. }
      specialize (Hinv Hc hc (evolves_refl _ _ _ _)). rewrite Hop in Hinv. exact Hinv. }
    assert (He' : forall ep, In ep e ->
                    In ep endpoints /\ js_get hc ep "pathPattern" = Ok (VStr p)).
    { intros ep Hin. destruct (He ep Hin) as [H1 H2]. split; [exact H1|].
      destruct Hev as (_ & _ & _ & Hreads & _).
      rewrite (Hreads ep "pathPattern" H1) by (left; reflexivity). exact H2. }
    pose proof (filterOperation_post hc hc1 e p b method operation Hev He' Hop) as Hpost.
    destruct (IH hc1 hc' e p b) as [Hev2 Hall]; auto.
    { eapply evolves_trans; eauto. }
    { intros k c Hin. apply (Hops k c). right; exact Hin. }
    split; [eapply evolves_trans; eauto|].
    intros k [<- | Hin]; [|apply Hall; exact Hin].
    destruct Hpost as [Hallow | Hdel]; [left; exact Hallow|]. right.
    intros fs Hfs Hk. destruct Hev2 as (_ & Hback & _).
    destruct (Hback b fs Hb Hfs) as (fs1 & Hfs1 & Hincl).
    apply (Hdel fs1 Hfs1). eapply fkeys_incl; eauto.
Qed.

Lemma settled_stable (hx hy : heap) key value :
  evolving hx hy -> In (key, value) pfs ->
  settled h endpoints pa hx key value -> settled h endpoints pa hy key value.
Proof.
  intros (_ & Hback & _) Hin [Hgone | Hkept].
  - left. intros fs Hfs Hk.
    destruct (Hback pa fs (or_introl eq_refl) Hfs) as (fs1 & Hfs1 & Hincl).
    apply (Hgone fs1 Hfs1). eapply fkeys_incl; eauto.
  - right. intros b fs k -> Hfs Hk.
    assert (Hb : In b prot) by (right; eapply item_protected; eauto).
    destruct (Hback b fs Hb Hfs) as (fs1 & Hfs1 & Hincl).
    apply (Hkept b fs1 k eq_refl Hfs1). eapply fkeys_incl; eauto.
Qed.

Lemma filterPath_post (hc hc1 : heap) key value :
  evolving h hc -> In (key, value) pfs ->
  filterPath (VObj r) endpoints (key, value) hc = (Ok tt, hc1) ->
  evolving hc hc1 /\ settled h endpoints pa hc1 key value.
Proof.
  intros Hev Hin Hrun. unfold filterPath in Hrun. cbn [fst snd] in Hrun.
  apply bind_ok_inv in Hrun. destruct Hrun as (e & s1 & Hfilter & Hk).
  destruct (filter_of_pathMatches _ _ _ _ _ Hfilter) as [-> He].
  assert (Hvalid : allocated prot endpoints r hc)
    by (eapply valid_evolves; [apply sep_allocated | exact Hev]).
  pose proof Hev as (_ & Hback & Hfwd & Hreads & Hroot).
  destruct e as [|ep0 e'].
  - apply bind_ok_inv in Hk. destruct Hk as (paths & s2 & Hg & Hdel).
    apply getp_ok in Hg. destruct Hg as [-> Hg].
    rewrite Hroot, (js_get_map _ _ _ _ Hr), Hpaths in Hg. injection Hg as <-.
    destruct (protected_apart pa (or_introl eq_refl)) as [Hpr Hpe].
    split.
    + pose proof (inv_delp_protected prot endpoints r hc pa key Hpr Hpe hc
                    (evolves_refl _ _ _ _)) as Hinv.
      rewrite Hdel in Hinv. exact Hinv.
    + left. destruct (Hfwd pa pfs (or_introl eq_refl) Hpa) as (fs0 & Hfs0).
      unfold delp, writing in Hdel. cbn [heap_of with_heap heap_Store] in Hdel.
      rewrite (js_delete_map _ _ _ _ Hfs0) in Hdel. injection Hdel as <-.
      intros fs Hfs. rewrite heap_insert_same in Hfs by (eapply heap_lookup_lt; eauto).
      injection Hfs as <-. apply fdel_not_key.
  - assert (Hmap : isMapIn h value = true).
    { apply sep_items. apply in_map_iff. exists (key, value). split; [reflexivity | exact Hin]. }
    destruct value as [| | | | |b]; try discriminate Hmap. simpl in Hmap.
    destruct (h !! b) as [[fs0|]|] eqn:Hb0; try discriminate Hmap.
    assert (Hb : In b prot) by (right; eapply item_protected; eauto).
    destruct (Hfwd b fs0 Hb Hb0) as (fsb & Hfsb).
    apply bind_ok_inv in Hk. destruct Hk as (ms & s2 & Hent & Hloop).
    unfold entries, reading in Hent. cbn [heap_of heap_Store js_entries] in Hent.
    rewrite Hfsb in Hent. injection Hent as <- <-.
    destruct (operations_loop fsb hc hc1 (ep0 :: e') key b) as [Hev1 Hall]; auto.
    { intros k c Hkc. destruct (Hback b fsb Hb Hfsb) as (fs1 & Hfs1 & Hincl).
      rewrite Hb0 in Hfs1. injection Hfs1 as <-.
      apply (sep_operations b c); [eapply item_protected; eauto|].
      unfold fieldAddrs. rewrite Hb0. apply objAddrs_In.
      apply in_map_iff. exists (k, VObj c). split; [reflexivity | apply Hincl; exact Hkc]. }
    { intros ep Hep. destruct (He ep Hep) as [H1 H2]. split; [exact H1|].
      rewrite <- (Hreads ep "pathPattern" H1) by (left; reflexivity). exact H2. }
    split; [exact Hev1|]. right. intros b' fs k [= <-] Hfs Hkin.
    destruct Hev1 as (_ & Hback1 & _).
    destruct (Hback1 b fs Hb Hfs) as (fs1 & Hfs1 & Hincl).
    rewrite Hfsb in Hfs1. injection Hfs1 as <-.
    destruct (Hall k) as [Hallow | Hdel].
    + apply in_map_iff. eapply fkeys_incl in Hkin; [|exact Hincl].
      unfold fkeys in Hkin. apply in_map_iff in Hkin. exact Hkin.
    + exact Hallow.
    + exfalso. apply (Hdel fs Hfs). exact Hkin.
Qed.

Lemma paths_loop (es : list (string * val)) :
  forall (hc h' : heap),
    (forall kv, In kv es -> In kv pfs) ->
    evolving h hc ->
    forEach es (filterPath (VObj r) endpoints) hc = (Ok tt, h') ->
    evolving hc h'
    /\ forall key value, In (key, value) es -> settled h endpoints pa h' key value.
Proof.
  induction es as [|[key value] es IH]; intros hc h' Hsub Hev Hrun.
  - injection Hrun as <-. split; [apply evolves_refl | intros k v []].
  - simpl in Hrun. apply bind_ok_inv in Hrun. destruct Hrun as ([] & hc1 & Hpath & Hrest).
    assert (Hin : In (key, value) pfs) by (apply Hsub; left; reflexivity).
    destruct (filterPath_post hc hc1 key value Hev Hin Hpath) as [Hev1 Hset].
    destruct (IH hc1 h') as [Hev2 Hall]; auto.
    { intros kv Hkv. apply Hsub. right; exact Hkv. }
    { eapply evolves_trans; eauto. }
    split; [eapply evolves_trans; eauto|].
    intros k v [[= <- <-] | Hkv]; [|apply Hall; exact Hkv].
    eapply settled_stable; eauto.
Qed.

End FilterPaths.

(** C10: after the endpoint filter, every key left in a path item that
    survives is an allow-listed method for that path, in lower case; any
    other entry of the path item, the shared [parameters], [summary] and
    [description] among them, is deleted. *)
Theorem C10_filter_leaves_allowed_methods (h h' : heap) (r pa : nat)
    (endpoints : list val) rfs pfs :
  h !! r = Some (OMap rfs) ->
  fget rfs "paths" = VObj pa ->
  h !! pa = Some (OMap pfs) ->
  separate h r pa endpoints = true ->
  filterPaths (VObj r) endpoints h = (Ok tt, h') ->
  forall p b pfs' ifs k,
    h' !! pa = Some (OMap pfs') -> fget pfs' p = VObj b ->
    h' !! b = Some (OMap ifs) -> In k (fkeys ifs) ->
    allowListed h endpoints p k.
Proof.
  intros Hr Hpaths Hpa Hsep Hrun p b pfs' ifs k Hpa' Hp Hb Hk.
  unfold filterPaths in Hrun.
  erewrite bind_eval in Hrun
    by (apply getp_eval; cbn [heap_of heap_Store]; rewrite (js_get_map _ _ _ _ Hr), Hpaths;
        reflexivity).
  erewrite bind_eval in Hrun
    by (unfold entries, reading; cbn [heap_of heap_Store js_entries]; rewrite Hpa; reflexivity).
  destruct (paths_loop h r pa endpoints rfs pfs Hsep Hr Hpaths Hpa pfs h h')
    as [Hev Hall]; auto.
  { apply evolves_refl. }
  destruct Hev as (_ & Hback & _).
  destruct (Hback pa pfs' (or_introl eq_refl) Hpa') as (pfs0 & Hpfs0 & Hincl).
  rewrite Hpa in Hpfs0. injection Hpfs0 as <-.
  assert (Hin' : In (p, VObj b) pfs') by (apply fget_In; [exact Hp | discriminate]).
  destruct (Hall p (VObj b) (Hincl _ Hin')) as [Hgone | Hkept].
  - exfalso. apply (Hgone pfs' Hpa'). eapply In_fkeys; eauto.
  - apply (Hkept b ifs k eq_refl Hb Hk).
Qed.

Lemma C10_filter_leaves_allowed_methods_witness :
  let h := snd (load filterDocument (snd (load testEndpoints []))) in
  let h' := snd (filterPaths (VObj 12) [VObj 0] h) in
  h' !! 6 = Some (OMap [("get", VObj 4)])
  /\ allowListed h [VObj 0] "/test" "get".
Proof.
  cbv zeta. split; [reflexivity|].
  apply (C10_filter_leaves_allowed_methods
           (snd (load filterDocument (snd (load testEndpoints []))))
           (snd (filterPaths (VObj 12) [VObj 0]
                             (snd (load filterDocument (snd (load testEndpoints []))))))
           12 9 [VObj 0]
           [("paths", VObj 9); ("components", VObj 11)]
           [("/test", VObj 6); ("/other", VObj 8)])
    with (b := 6) (pfs' := [("/test", VObj 6)]) (ifs := [("get", VObj 4)]).
  - reflexivity.
  - reflexivity.
  - reflexivity.
  - reflexivity.
  - vm_compute. reflexivity.
  - reflexivity.
  - reflexivity.
  - reflexivity.
  - left; reflexivity.
Defined.

(** ** [cloneSchema] *)

Lemma seen_get_In seen a a' : seen_get seen a = Some a' -> In (a, a') seen.
Proof.
  induction seen as [|[k v] seen IH]; simpl; [discriminate|].
  destruct (Nat.eqb k a) eqn:E.
  - intros [= ->]. apply Nat.eqb_eq in E. subst. left; reflexivity.
  - intros Hg. right. apply IH; exact Hg.
Qed.

Lemma Forall2_right_In {A B : Type} (R : A -> B -> Prop) xs ys y :
  Forall2 R xs ys -> In y ys -> exists x, In x xs /\ R x y.
Proof.
  induction 1 as [|x0 y0 xs ys Hxy _ IH]; intros Hin; [destruct Hin|].
  destruct Hin as [<- | Hin].
  - exists x0. split; [left; reflexivity | exact Hxy].
  - destruct (IH Hin) as (x & Hx & Hr). exists x. split; [right; exact Hx | exact Hr].
Qed.

Lemma fget_cloned base (fs fs' : list (string * val)) :
  Forall2 (fun kv kv' => fst kv' = fst kv /\ clonedAs base (snd kv) (snd kv')) fs fs' ->
  forall k x, fget fs' k = VStr x -> fget fs k = VStr x.
Proof.
  induction 1 as [|[k0 v0] [k1 v1] fs fs' [Hk Hv] _ IH]; intros k x; simpl; [tauto|].
  simpl in Hk, Hv. subst k1. destruct (String.eqb k0 k); [|apply IH].
  intros ->. destruct v0; simpl in Hv; try congruence.
  destruct Hv as (b & Hb & _). discriminate Hb.
Qed.

Lemma cloneFields_ok (h0 : heap) (rec : cloner) :
  clonerOK h0 rec ->
  forall fs h seen h' seen' fs',
    cloning h0 h seen -> cloneFields rec fs h seen = Ok (h', seen', fs') ->
    cloning h0 h' seen' /\ List.length h <= List.length h'
    /\ Forall2 (fun kv kv' => fst kv' = fst kv
                              /\ clonedAs (List.length h0) (snd kv) (snd kv')) fs fs'.
Proof.
  intros Hrec. induction fs as [|[k v] fs IH]; intros h seen h' seen' fs' Hc Hrun; simpl in Hrun.
  - injection Hrun as <- <- <-. split; [exact Hc | split; [lia | constructor]].
  - destruct (rec h seen v) as [[[h1 seen1] v1]|e] eqn:Hv; [|discriminate].
    destruct (cloneFields rec fs h1 seen1) as [[[h2 seen2] fs2]|e] eqn:Hfs; [|discriminate].
    injection Hrun as <- <- <-.
    destruct (Hrec _ _ _ _ _ _ Hc Hv) as (Hc1 & Hl1 & Hv1).
    destruct (IH _ _ _ _ _ Hc1 Hfs) as (Hc2 & Hl2 & Hall).
    split; [exact Hc2 | split; [lia|]]. constructor; [split; [reflexivity | exact Hv1] | exact Hall].
Qed.

Lemma cloneItems_ok (h0 : heap) (rec : cloner) :
  clonerOK h0 rec ->
  forall xs h seen h' seen' xs',
    cloning h0 h seen -> cloneItems rec xs h seen = Ok (h', seen', xs') ->
    cloning h0 h' seen' /\ List.length h <= List.length h'
    /\ Forall2 (clonedAs (List.length h0)) xs xs'.
Proof.
  intros Hrec. induction xs as [|v xs IH]; intros h seen h' seen' xs' Hc Hrun; simpl in Hrun.
  - injection Hrun as <- <- <-. split; [exact Hc | split; [lia | constructor]].
  - destruct (rec h seen v) as [[[h1 seen1] v1]|e] eqn:Hv; [|discriminate].
    destruct (cloneItems rec xs h1 seen1) as [[[h2 seen2] xs2]|e] eqn:Hxs; [|discriminate].
    injection Hrun as <- <- <-.
    destruct (Hrec _ _ _ _ _ _ Hc Hv) as (Hc1 & Hl1 & Hv1).
    destruct (IH _ _ _ _ _ Hc1 Hxs) as (Hc2 & Hl2 & Hall).
    split; [exact Hc2 | split; [lia|]]. constructor; assumption.
Qed.

(** Reserving the address of a copy. *)
Lemma cloning_reserve (h0 h : heap) seen a o :
  cloning h0 h seen -> freshObj (List.length h0) o ->
  (forall fs, o = OMap fs -> goodRefs fs) ->
  cloning h0 (h ++ [o]) ((a, List.length h) :: seen).
Proof.
  intros (Hlen & Hold & Hseen & Hfresh & Hgood) Ho Hog. repeat split.
  - rewrite length_app. lia.
  - intros b Hb. rewrite lookup_app_l by lia. apply Hold; exact Hb.
  - intros o' n [[= <- <-] | Hin]; [exact Hlen | eapply Hseen; eauto].
  - intros b o' Hb Hlook. destruct (Nat.lt_ge_cases b (List.length h)) as [Hlt | Hge].
    + rewrite lookup_app_l in Hlook by exact Hlt. eapply Hfresh; eauto.
    + rewrite lookup_app_r in Hlook by exact Hge.
      destruct (b - List.length h) as [|n]; simpl in Hlook; [|discriminate].
      injection Hlook as <-. exact Ho.
  - intros b fs Hlook. destruct (Nat.lt_ge_cases b (List.length h)) as [Hlt | Hge].
    + rewrite lookup_app_l in Hlook by exact Hlt. eapply Hgood; eauto.
    + rewrite lookup_app_r in Hlook by exact Hge.
      destruct (b - List.length h) as [|n]; simpl in Hlook; [|discriminate].
      injection Hlook as Heq. apply Hog. exact Heq.
Qed.

(** Filling in a copy. *)
Lemma cloning_fill (h0 h : heap) seen a' o :
  cloning h0 h seen -> List.length h0 <= a' ->
  freshObj (List.length h0) o ->
  (forall fs, o = OMap fs -> goodRefs fs) ->
  cloning h0 (<[a' := o]> h) seen.
Proof.
  intros (Hlen & Hold & Hseen & Hfresh & Hgood) Ha Ho Hog. repeat split.
  - rewrite length_insert. exact Hlen.
  - intros b Hb. rewrite list_lookup_insert_ne by lia. apply Hold; exact Hb.
  - exact Hseen.
  - intros b o' Hb Hlook. destruct (Nat.eq_dec b a') as [->|Hne].
    + destruct (Nat.lt_ge_cases a' (List.length h)) as [Hlt | Hge].
      * rewrite heap_insert_same in Hlook by exact Hlt. injection Hlook as <-. exact Ho.
      * rewrite list_insert_ge in Hlook by exact Hge. eapply Hfresh; eauto.
    + rewrite list_lookup_insert_ne in Hlook by auto. eapply Hfresh; eauto.
  - intros b fs Hlook. destruct (Nat.eq_dec b a') as [->|Hne].
    + destruct (Nat.lt_ge_cases a' (List.length h)) as [Hlt | Hge].
      * rewrite heap_insert_same in Hlook by exact Hlt. injection Hlook as Heq.
        apply Hog; exact Heq.
      * rewrite list_insert_ge in Hlook by exact Hge. eapply Hgood; eauto.
    + rewrite list_lookup_insert_ne in Hlook by auto. eapply Hgood; eauto.
Qed.

Lemma cloneValue_ok (h0 : heap) (fuel : nat) : clonerOK h0 (cloneValue fuel).
Proof.
  induction fuel as [|fuel IH]; intros h seen v h' seen' v' Hc Hrun; simpl in Hrun;
    [discriminate|].
  destruct v as [| | | | |a];
    try (injection Hrun as <- <- <-; split; [exact Hc | split; [lia | reflexivity]]).
  destruct (seen_get seen a) as [a'|] eqn:Hseen.
  { injection Hrun as <- <- <-. split; [exact Hc | split; [lia|]].
    exists a'. split; [reflexivity|].
    destruct Hc as (_ & _ & Hs & _). eapply Hs. apply seen_get_In; eauto. }
  pose proof Hc as (Hlen & _ & _ & _ & Hgood).
  destruct (h !! a) as [[fs|xs]|] eqn:Ha; [| |discriminate].
  - destruct (cloneFields (cloneValue fuel) fs (h ++ [OMap []]) ((a, List.length h) :: seen))
      as [[[h2 seen2] fs']|e] eqn:Hfs; [|discriminate].
    injection Hrun as <- <- <-.
    assert (Hc1 : cloning h0 (h ++ [OMap []]) ((a, List.length h) :: seen)).
    { apply cloning_reserve; [exact Hc | intros k b [] |].
      intros fs0 [= <-] x Hx. discriminate Hx. }
    destruct (cloneFields_ok h0 _ IH _ _ _ _ _ _ Hc1 Hfs) as (Hc2 & Hl2 & Hall).
    rewrite length_app in Hl2. simpl in Hl2.
    split; [|split].
    + apply cloning_fill; [exact Hc2 | exact Hlen | |].
      * intros k b Hin. apply (Forall2_right_In _ _ _ _ Hall) in Hin.
        destruct Hin as ((k0 & v0) & _ & Hk & Hv). simpl in Hk, Hv.
        destruct v0; simpl in Hv; try discriminate Hv.
        destruct Hv as (b' & [= ->] & Hb'). exact Hb'.
      * intros fs0 [= <-] x Hx. apply (Hgood a fs Ha).
        eapply fget_cloned; eauto.
    + rewrite length_insert. lia.
    + exists (List.length h). split; [reflexivity | exact Hlen].
  - destruct (cloneItems (cloneValue fuel) xs (h ++ [OArr []]) ((a, List.length h) :: seen))
      as [[[h2 seen2] xs']|e] eqn:Hxs; [|discriminate].
    injection Hrun as <- <- <-.
    assert (Hc1 : cloning h0 (h ++ [OArr []]) ((a, List.length h) :: seen)).
    { apply cloning_reserve; [exact Hc | intros b [] | intros fs0 [=]]. }
    destruct (cloneItems_ok h0 _ IH _ _ _ _ _ _ Hc1 Hxs) as (Hc2 & Hl2 & Hall).
    rewrite length_app in Hl2. simpl in Hl2.
    split; [|split].
    + apply cloning_fill; [exact Hc2 | exact Hlen | | intros fs0 [=]].
      intros b Hin. apply (Forall2_right_In _ _ _ _ Hall) in Hin.
      destruct Hin as (v0 & _ & Hv).
      destruct v0; simpl in Hv; try discriminate Hv.
      destruct Hv as (b' & [= ->] & Hb'). exact Hb'.
    + rewrite length_insert. lia.
    + exists (List.length h). split; [reflexivity | exact Hlen].
Qed.

(** ** The bookkeeping of the normalizer *)

Lemma grows_refl h : grows h h.
Proof. intros a fs Ha. exists fs. split; [exact Ha | auto]. Qed.

Lemma grows_trans h1 h2 h3 : grows h1 h2 -> grows h2 h3 -> grows h1 h3.
Proof.
  intros H12 H23 a fs1 Ha. destruct (H12 a fs1 Ha) as (fs2 & H2 & K2).
  destruct (H23 a fs2 H2) as (fs3 & H3 & K3). exists fs3. split; [exact H3 | auto].
Qed.

Lemma fhas_freplace fs k v k' : fhas (freplace fs k v) k' = fhas fs k'.
Proof.
  induction fs as [|[k0 v0] fs IH]; simpl; [reflexivity|].
  destruct (String.eqb k0 k); simpl; [reflexivity | rewrite IH; reflexivity].
Qed.

Lemma fhas_finsert_index fs n k v k' :
  fhas (finsert_index fs n k v) k' = String.eqb k k' || fhas fs k'.
Proof.
  induction fs as [|[k0 v0] fs IH]; simpl.
  - destruct (String.eqb k k'); reflexivity.
  - destruct (index_of_key k0) as [n'|]; [destruct (Nat.ltb n n')|]; simpl;
      try reflexivity.
    rewrite IH. destruct (String.eqb k0 k'), (String.eqb k k'); reflexivity.
Qed.

Lemma fhas_app fs gs k : fhas (fs ++ gs) k = fhas fs k || fhas gs k.
Proof.
  induction fs as [|[k0 v0] fs IH]; simpl; [reflexivity|].
  destruct (String.eqb k0 k); [reflexivity | exact IH].
Qed.

Lemma fhas_fset fs k v k' : fhas (fset fs k v) k' = String.eqb k k' || fhas fs k'.
Proof.
  unfold fset. destruct (fhas fs k) eqn:E.
  - rewrite fhas_freplace. destruct (String.eqb k k') eqn:E'; [|reflexivity].
    apply String.eqb_eq in E'. subst. rewrite E. reflexivity.
  - destruct (index_of_key k).
    + apply fhas_finsert_index.
    + rewrite fhas_app. simpl. destruct (String.eqb k k'), (fhas fs k'); reflexivity.
Qed.

Lemma fhas_In fs k : fhas fs k = true <-> In k (fkeys fs).
Proof.
  unfold fkeys. induction fs as [|[k0 v0] fs IH]; simpl; [split; [discriminate | tauto]|].
  destruct (String.eqb k0 k) eqn:E.
  - apply String.eqb_eq in E. subst. split; [left; reflexivity | reflexivity].
  - rewrite IH. split; [right; assumption|].
    intros [-> | Hin]; [rewrite String.eqb_refl in E; discriminate | exact Hin].
Qed.

Lemma length_freplace fs k v : List.length (freplace fs k v) = List.length fs.
Proof.
  induction fs as [|[k0 v0] fs IH]; simpl; [reflexivity|].
  destruct (String.eqb k0 k); simpl; [reflexivity | rewrite IH; reflexivity].
Qed.

Lemma length_finsert_index fs n k v : List.length (finsert_index fs n k v) = S (List.length fs).
Proof.
  induction fs as [|[k0 v0] fs IH]; simpl; [reflexivity|].
  destruct (index_of_key k0) as [n'|]; [destruct (Nat.ltb n n')|]; simpl;
    try reflexivity. rewrite IH. reflexivity.
Qed.

Lemma length_fset fs k v :
  List.length (fset fs k v) = if fhas fs k then List.length fs else S (List.length fs).
Proof.
  unfold fset. destruct (fhas fs k).
  - apply length_freplace.
  - destruct (index_of_key k); [apply length_finsert_index|].
    rewrite length_app. simpl. lia.
Qed.

Lemma In_freplace fs k v k' v' :
  In (k', v') (freplace fs k v) -> (k', v') = (k, v) \/ In (k', v') fs.
Proof.
  induction fs as [|[k0 v0] fs IH]; simpl; [tauto|].
  destruct (String.eqb k0 k) eqn:E; simpl.
  - apply String.eqb_eq in E. subst. intros [Heq | Hin]; [left; exact (eq_sym Heq) | right; right; exact Hin].
  - intros [Heq | Hin]; [right; left; exact Heq|].
    destruct (IH Hin) as [H1 | H2]; [left; exact H1 | right; right; exact H2].
Qed.

Lemma In_finsert_index fs n k v k' v' :
  In (k', v') (finsert_index fs n k v) -> (k', v') = (k, v) \/ In (k', v') fs.
Proof.
  induction fs as [|[k0 v0] fs IH]; simpl.
  - intros [Heq | []]. left; exact (eq_sym Heq).
  - destruct (index_of_key k0) as [n'|]; [destruct (Nat.ltb n n')|]; simpl.
    + intros [Heq | Hin]; [left; exact (eq_sym Heq) | right; exact Hin].
    + intros [Heq | Hin]; [right; left; exact Heq|].
      destruct (IH Hin) as [H1 | H2]; [left; exact H1 | right; right; exact H2].
    + intros [Heq | Hin]; [left; exact (eq_sym Heq) | right; exact Hin].
Qed.

Lemma In_fset fs k v k' v' :
  In (k', v') (fset fs k v) -> (k', v') = (k, v) \/ In (k', v') fs.
Proof.
  unfold fset. destruct (fhas fs k).
  - apply In_freplace.
  - destruct (index_of_key k); [apply In_finsert_index|].
    intros Hin. apply in_app_or in Hin. destruct Hin as [Hin | [Heq | []]];
      [right; exact Hin | left; exact (eq_sym Heq)].
Qed.

Lemma grows_set h a fs k v :
  h !! a = Some (OMap fs) -> grows h (<[a := OMap (fset fs k v)]> h).
Proof.
  intros Ha b fs1 Hb. destruct (Nat.eq_dec b a) as [->|Hne].
  - rewrite Ha in Hb. injection Hb as <-.
    exists (fset fs k v). split; [apply heap_insert_same; eapply heap_lookup_lt; eauto|].
    intros k' Hk. rewrite fhas_fset, Hk. apply orb_true_r.
  - exists fs1. split; [rewrite list_lookup_insert_ne by auto; exact Hb | auto].
Qed.

Lemma grows_set_item h a xs n v :
  h !! a = Some (OArr xs) -> grows h (<[a := OArr (<[n := v]> xs)]> h).
Proof.
  intros Ha b fs1 Hb. assert (Hne : b <> a) by (intros ->; congruence).
  exists fs1. split; [rewrite list_lookup_insert_ne by auto; exact Hb | auto].
Qed.

Lemma grows_alloc h o : grows h (h ++ [o]).
Proof.
  intros b fs1 Hb. exists fs1. split; [|auto].
  rewrite lookup_app_l by (eapply heap_lookup_lt; eauto). exact Hb.
Qed.

Lemma grows_prefix (h h' : heap) :
  (forall a, a < List.length h -> h' !! a = h !! a) -> grows h h'.
Proof.
  intros Hold b fs1 Hb. exists fs1. split; [|auto].
  rewrite Hold by (eapply heap_lookup_lt; eauto). exact Hb.
Qed.

Lemma split_not_nil c s : Str.split c s <> [].
Proof.
  destruct s as [|a s]; simpl; [discriminate|].
  destruct (Ascii.eqb a c); [discriminate|].
  destruct (Str.split c s); discriminate.
Qed.

(** A reference to a component schema is no bad pointer. *)
Lemma prefixed_good x : Str.startsWith x schemasPrefix = true -> badPointer x = false.
Proof.
  intros Hp. apply prefix_inv in Hp. destruct Hp as [t ->].
  unfold badPointer, pointerSegments, schemasPrefix. cbn.
  pose proof (split_not_nil "/" t) as Hne.
  destruct (Str.split "/" t) as [|w ws]; [contradiction|]. reflexivity.
Qed.

Lemma indexed_get_In xs k b : indexed_get xs k = VObj b -> In (VObj b) xs.
Proof.
  unfold indexed_get. destruct (String.eqb k "length"); [discriminate|].
  destruct (index_of_key k) as [n|]; [|discriminate].
  unfold nth_val. destruct (xs !! n) as [v|] eqn:E; [|discriminate].
  intros ->. apply list_elem_of_In. eapply list_elem_of_lookup_2; eauto.
Qed.

Lemma chars_no_object s b : ~ In (VObj b) (chars s).
Proof. induction s as [|c s IH]; simpl; [tauto|]. intros [H|H]; [discriminate | auto]. Qed.

(** What a property read can return, on a heap whose edges are apart. *)
Lemma js_get_edge r c (h : heap) cur k b :
  edgesApart r c h -> js_get h cur k = Ok (VObj b) ->
  exists a, cur = VObj a /\ b <> r /\ (b = c -> a = r /\ k = "components").
Proof.
  intros Hedges Hget. destruct cur as [| | | |s|a]; simpl in Hget; try discriminate.
  - injection Hget as Hget. apply indexed_get_In in Hget.
    exfalso. eapply chars_no_object; eauto.
  - exists a. split; [reflexivity|].
    destruct (h !! a) as [[fs|xs]|] eqn:Ha; [| |discriminate]; injection Hget as Hget.
    + specialize (Hedges a _ Ha). simpl in Hedges.
      apply (Hedges k (VObj b)); [|reflexivity].
      apply fget_In; [exact Hget | discriminate].
    + apply indexed_get_In in Hget. specialize (Hedges a _ Ha). simpl in Hedges.
      destruct (Hedges (VObj b) Hget b eq_refl) as [H1 H2]. split; [exact H1|].
      intros Hbc. destruct (H2 Hbc) as [_ Hk]. discriminate Hk.
Qed.

Section Walk.
Variables r c : nat.
Variable h : heap.
Hypothesis Hedges : edgesApart r c h.
Hypothesis Hrc : r <> c.

Lemma walk_inside segs :
  forall cur par key p k v,
    cur <> VObj r -> cur <> VObj c -> segs <> [] ->
    walkPointer h segs cur par key = Ok (Some (p, k, v)) ->
    p <> VObj r /\ p <> VObj c /\ js_get h p k = Ok v.
Proof.
  induction segs as [|s rest IH]; intros cur par key p k v Hr Hc Hne Hwalk; [contradiction|].
  simpl in Hwalk.
  assert (Hstep : exists next, js_get h cur s = Ok next
                               /\ walkPointer h rest next cur s = Ok (Some (p, k, v))).
  { destruct cur; try discriminate Hwalk;
      (destruct (js_get h _ s) as [next|e] eqn:Hg; [|discriminate Hwalk]);
      exists next; (split; [reflexivity | exact Hwalk]). }
  destruct Hstep as (next & Hg & Hrest). clear Hwalk.
  destruct rest as [|s2 rest2].
  - simpl in Hrest.
    destruct (negb (truthy cur) || negb (typeof_object cur)); [discriminate|].
    injection Hrest as <- <- <-. auto.
  - apply (IH next cur s p k v); [| |discriminate | exact Hrest].
    + intros ->. destruct (js_get_edge r c h cur s r Hedges Hg) as (a & _ & Hbad & _).
      contradiction.
    + intros ->. destruct (js_get_edge r c h cur s c Hedges Hg) as (a & -> & _ & Hfrom).
      destruct (Hfrom eq_refl) as [-> _]. contradiction.
Qed.

Lemma walk_from_root segs p k v :
  walkPointer h segs (VObj r) VNull EmptyString = Ok (Some (p, k, v)) ->
  js_get h p k = Ok v
  /\ (p = VObj r -> segs = [k])
  /\ (p = VObj c -> segs = ["components"; k]).
Proof.
  intros Hwalk. destruct segs as [|s rest]; cbn [walkPointer] in Hwalk; [discriminate|].
  destruct (js_get h (VObj r) s) as [next|e] eqn:Hg; [|discriminate].
  destruct rest as [|s2 rest2].
  - simpl in Hwalk. injection Hwalk as <- <- <-.
    split; [exact Hg|]. split; [reflexivity|]. intros [= Heq]. contradiction.
  - destruct (val_eqb next (VObj c)) eqn:Enext.
    + assert (next = VObj c) by (destruct next; simpl in Enext; try discriminate;
                                 apply Nat.eqb_eq in Enext; congruence).
      subst next.
      destruct (js_get_edge r c h _ s c Hedges Hg) as (a & _ & _ & Hfrom).
      destruct (Hfrom eq_refl) as [_ ->].
      cbn [walkPointer] in Hwalk.
      destruct (js_get h (VObj c) s2) as [next2|e] eqn:Hg2; [|discriminate].
      destruct rest2 as [|s3 rest3].
      * simpl in Hwalk. injection Hwalk as <- <- <-.
        split; [exact Hg2|]. split; [intros [= Heq]; congruence | reflexivity].
      * destruct (walk_inside (s3 :: rest3) next2 (VObj c) s2 p k v) as (H1 & H2 & H3);
          [| |discriminate | exact Hwalk | ].
        -- intros ->. destruct (js_get_edge r c h _ s2 r Hedges Hg2) as (a2 & _ & Hbad & _).
           contradiction.
        -- intros ->. destruct (js_get_edge r c h _ s2 c Hedges Hg2) as (a2 & [= <-] & _ & Hfrom2).
           destruct (Hfrom2 eq_refl) as [Heq _]. congruence.
        -- split; [exact H3|]. split; intros ->; contradiction.
    + destruct (walk_inside (s2 :: rest2) next (VObj r) s p k v) as (H1 & H2 & H3);
        [| |discriminate | exact Hwalk | ].
      * intros ->. destruct (js_get_edge r c h _ s r Hedges Hg) as (a & _ & Hbad & _).
        contradiction.
      * intros ->. simpl in Enext. rewrite Nat.eqb_refl in Enext. discriminate.
      * split; [exact H3|]. split; intros ->; contradiction.
Qed.

End Walk.

(** The place a hoistable pointer resolves to is neither the components
    object in the root nor the registry in the components object. *)
Lemma resolved_place r c (h : heap) ref parent key value :
  edgesApart r c h -> r <> c -> badPointer ref = false ->
  resolveJsonPointerWithParent h (VObj r) (VStr ref) = Ok (Some (parent, key, value)) ->
  js_get h parent key = Ok value
  /\ ~ (parent = VObj r /\ key = "components")
  /\ ~ (parent = VObj c /\ key = "schemas").
Proof.
  intros Hedges Hrc Hgood Hres. unfold resolveJsonPointerWithParent in Hres.
  destruct (negb (Str.startsWith ref "#/")); [discriminate|].
  destruct (walk_from_root r c h Hedges Hrc _ _ _ _ Hres) as (Hget & Hroot & Hcomps).
  split; [exact Hget|]. unfold badPointer in Hgood. split.
  - intros [-> ->]. rewrite (Hroot eq_refl) in Hgood. discriminate Hgood.
  - intros [-> ->]. rewrite (Hcomps eq_refl) in Hgood. discriminate Hgood.
Qed.

(** ** The steps of the normalizer keep its bookkeeping *)

Lemma memo_get_None_notin m ref : memo_get m ref = None -> ~ In ref (List.map fst m).
Proof.
  induction m as [|[k v] m IH]; simpl; [tauto|].
  destruct (String.eqb k ref) eqn:E; [discriminate|].
  intros Hm [Heq | Hin]; [subst; rewrite String.eqb_refl in E; discriminate | exact (IH Hm Hin)].
Qed.

Lemma memo_set_miss m ref name :
  memo_get m ref = None -> memo_set m ref name = m ++ [(ref, name)].
Proof.
  induction m as [|[k v] m IH]; simpl; [reflexivity|].
  destruct (String.eqb k ref); [discriminate|]. intros Hm. rewrite (IH Hm). reflexivity.
Qed.

Lemma memo_get_app m ref name p k :
  memo_get m p = Some k -> memo_get (m ++ [(ref, name)]) p = Some k.
Proof.
  induction m as [|[k0 v0] m IH]; simpl; [discriminate|].
  destruct (String.eqb k0 p); [tauto | exact IH].
Qed.

Lemma memo_get_last m ref name :
  memo_get m ref = None -> memo_get (m ++ [(ref, name)]) ref = Some name.
Proof.
  induction m as [|[k0 v0] m IH]; simpl; [rewrite String.eqb_refl; reflexivity|].
  destruct (String.eqb k0 ref); [discriminate | exact IH].
Qed.

Lemma NoDup_memo_add (m : list (string * string)) ref name :
  NoDup (List.map fst m) -> memo_get m ref = None ->
  NoDup (List.map fst (m ++ [(ref, name)])).
Proof.
  intros Hnd Hmiss. rewrite map_app. simpl. apply NoDup_app.
  split; [exact Hnd|]. split; [|apply NoDup_singleton].
  intros x Hx Hin. apply list_elem_of_In in Hx. apply list_elem_of_In in Hin.
  destruct Hin as [<- | []]. exact (memo_get_None_notin _ _ Hmiss Hx).
Qed.

Lemma fkeys_freplace fs k v : fkeys (freplace fs k v) = fkeys fs.
Proof.
  unfold fkeys. induction fs as [|[k0 v0] fs IH]; simpl; [reflexivity|].
  destruct (String.eqb k0 k); simpl; [reflexivity | rewrite IH; reflexivity].
Qed.

Lemma mem_string_app k xs ys : mem_string k (xs ++ ys) = mem_string k xs || mem_string k ys.
Proof. unfold mem_string. apply existsb_app. Qed.

Lemma In_list_insert (xs : list val) n v y : In y (<[n := v]> xs) -> y = v \/ In y xs.
Proof.
  revert n. induction xs as [|x xs IH]; intros n; [simpl; tauto|].
  destruct n as [|n]; simpl.
  - intros [H|H]; [left; congruence | right; right; exact H].
  - intros [H|H]; [right; left; exact H|]. destruct (IH n H); [left | right; right]; assumption.
Qed.

Section Steps.
Variables r c g : nat.
Variable keys0 : list string.
Variable n0 : nat.

Lemma wf_apart s : wf r c g keys0 n0 s -> r <> c /\ g <> r /\ g <> c.
Proof.
  intros W. destruct (wf_root _ _ _ _ _ _ W) as (rfs & Hr & Hrc).
  destruct (wf_comps _ _ _ _ _ _ W) as (cfs & Hc & Hcg).
  pose proof (wf_edges _ _ _ _ _ _ W) as He.
  assert (H1 : c <> r).
  { apply (He r _ Hr "components" (VObj c)); [|reflexivity].
    apply fget_In; [exact Hrc | discriminate]. }
  assert (H2 : g <> r /\ (g = c -> c = r /\ "schemas" = "components")).
  { apply (He c _ Hc "schemas" (VObj g)); [|reflexivity].
    apply fget_In; [exact Hcg | discriminate]. }
  destruct H2 as [H2 H3]. split; [congruence|]. split; [exact H2|].
  intros Hgc. destruct (H3 Hgc) as [Hcr _]. contradiction.
Qed.

Lemma wf_bounds s :
  wf r c g keys0 n0 s -> r < List.length (n_heap s) /\ c < List.length (n_heap s).
Proof.
  intros W. destruct (wf_root _ _ _ _ _ _ W) as (rfs & Hr & _).
  destruct (wf_comps _ _ _ _ _ _ W) as (cfs & Hc & _).
  split; eapply heap_lookup_lt; eauto.
Qed.

(** A change of the heap that keeps the three distinguished objects and
    the two conditions on the heap keeps the bookkeeping. *)
Lemma wf_heap_change s h' :
  wf r c g keys0 n0 s ->
  (exists rfs, h' !! r = Some (OMap rfs) /\ fget rfs "components" = VObj c) ->
  (exists cfs, h' !! c = Some (OMap cfs) /\ fget cfs "schemas" = VObj g) ->
  (forall gfs, n_heap s !! g = Some (OMap gfs) ->
     exists gfs', h' !! g = Some (OMap gfs') /\ fkeys gfs' = fkeys gfs) ->
  edgesApart r c h' -> allGoodRefs h' ->
  wf r c g keys0 n0
     (mkN h' (pointerToComponent s) (existingNames s) (visitedSchemas s) (hoistedCount s)).
Proof.
  intros W Hr Hc Hg He Hgood.
  destruct (wf_registry _ _ _ _ _ _ W) as (gfs & Hgs & Hnames & Hlen & Hkeys).
  destruct (Hg gfs Hgs) as (gfs' & Hgs' & Hk).
  constructor; cbn [n_heap pointerToComponent existingNames hoistedCount];
    try assumption; try (eapply wf_memo; eauto); try (eapply wf_count; eauto).
  exists gfs'. split; [exact Hgs'|]. split; [|split].
  - intros k Hhas. apply Hnames. apply fhas_In. rewrite <- Hk. apply fhas_In. exact Hhas.
  - rewrite <- Hlen. unfold fkeys in Hk.
    rewrite <- (length_map fst gfs'), Hk, length_map. reflexivity.
  - intros k Hin. rewrite Hk in Hin. apply Hkeys. exact Hin.
Qed.

Lemma wf_setp s pa key v s' :
  wf r c g keys0 n0 s ->
  setp (VObj pa) key v s = (Ok tt, s') ->
  (forall b, v = VObj b -> b <> r /\ b <> c) ->
  (forall x, v = VStr x -> badPointer x = false) ->
  ~ (pa = r /\ key = "components") ->
  ~ (pa = c /\ key = "schemas") ->
  (forall gfs, pa = g -> n_heap s !! g = Some (OMap gfs) -> fhas gfs key = true) ->
  wf r c g keys0 n0 s' /\ grows (n_heap s) (n_heap s').
Proof.
  intros W Hset Hv Hstr Hnr Hnc Hg.
  destruct (wf_root _ _ _ _ _ _ W) as (rfs & Hr & Hrc).
  destruct (wf_comps _ _ _ _ _ _ W) as (cfs & Hc & Hcg).
  pose proof (wf_edges _ _ _ _ _ _ W) as He.
  pose proof (wf_refs _ _ _ _ _ _ W) as Hgood.
  assert (Hedge : forall k, edgeOk r c pa k v).
  { intros k b ->. destruct (Hv b eq_refl) as [H1 H2]. split; [exact H1 | contradiction]. }
  unfold setp, writing in Hset. cbn [heap_of with_heap nstate_Store] in Hset.
  unfold js_set in Hset.
  destruct (n_heap s !! pa) as [[fs|xs]|] eqn:Hpa; [| |discriminate].
  - injection Hset as <-. cbn [n_heap]. split; [|apply grows_set; exact Hpa].
    assert (Hlt : pa < List.length (n_heap s)) by (eapply heap_lookup_lt; eauto).
    apply wf_heap_change; [exact W | | | | |].
    + destruct (Nat.eq_dec pa r) as [->|Hne].
      * rewrite Hr in Hpa. injection Hpa as <-. exists (fset rfs key v).
        split; [apply heap_insert_same; exact Hlt|].
        rewrite fget_fset_ne; [exact Hrc | intros ->; apply Hnr; split; reflexivity].
      * exists rfs. split; [rewrite list_lookup_insert_ne by exact Hne; exact Hr | exact Hrc].
    + destruct (Nat.eq_dec pa c) as [->|Hne].
      * rewrite Hc in Hpa. injection Hpa as <-. exists (fset cfs key v).
        split; [apply heap_insert_same; exact Hlt|].
        rewrite fget_fset_ne; [exact Hcg | intros ->; apply Hnc; split; reflexivity].
      * exists cfs. split; [rewrite list_lookup_insert_ne by exact Hne; exact Hc | exact Hcg].
    + intros gfs Hgs. destruct (Nat.eq_dec pa g) as [->|Hne].
      * rewrite Hgs in Hpa. injection Hpa as <-. exists (fset gfs key v).
        split; [apply heap_insert_same; exact Hlt|].
        unfold fset. rewrite (Hg gfs eq_refl Hgs). apply fkeys_freplace.
      * exists gfs. split; [rewrite list_lookup_insert_ne by exact Hne; exact Hgs | reflexivity].
    + intros a o Ha. destruct (Nat.eq_dec a pa) as [->|Hne].
      * rewrite heap_insert_same in Ha by exact Hlt. injection Ha as <-.
        intros k' v' Hin. apply In_fset in Hin. destruct Hin as [[= -> ->] | Hin].
        -- apply Hedge.
        -- exact (He pa _ Hpa k' v' Hin).
      * rewrite list_lookup_insert_ne in Ha by auto. exact (He a o Ha).
    + intros a afs Ha. destruct (Nat.eq_dec a pa) as [->|Hne].
      * rewrite heap_insert_same in Ha by exact Hlt. injection Ha as <-.
        intros x Hx. destruct (String.eqb key "$ref") eqn:E.
        -- apply String.eqb_eq in E. subst key. rewrite fget_fset_eq in Hx.
           apply Hstr. exact Hx.
        -- apply String.eqb_neq in E. rewrite fget_fset_ne in Hx by exact E.
           exact (Hgood pa fs Hpa x Hx).
      * rewrite list_lookup_insert_ne in Ha by auto. exact (Hgood a afs Ha).
  - destruct (index_of_key key) as [n|]; [|discriminate].
    destruct (Nat.ltb n (List.length xs)); [|discriminate].
    injection Hset as <-. cbn [n_heap]. split; [|apply grows_set_item; exact Hpa].
    assert (Hlt : pa < List.length (n_heap s)) by (eapply heap_lookup_lt; eauto).
    apply wf_heap_change; [exact W | | | | |].
    + exists rfs. split; [|exact Hrc].
      rewrite list_lookup_insert_ne by (intros ->; congruence). exact Hr.
    + exists cfs. split; [|exact Hcg].
      rewrite list_lookup_insert_ne by (intros ->; congruence). exact Hc.
    + intros gfs Hgs. exists gfs. split; [|reflexivity].
      rewrite list_lookup_insert_ne by (intros ->; congruence). exact Hgs.
    + intros a o Ha. destruct (Nat.eq_dec a pa) as [->|Hne].
      * rewrite heap_insert_same in Ha by exact Hlt. injection Ha as <-.
        intros v' Hin. apply In_list_insert in Hin. destruct Hin as [-> | Hin].
        -- apply Hedge.
        -- exact (He pa _ Hpa v' Hin).
      * rewrite list_lookup_insert_ne in Ha by auto. exact (He a o Ha).
    + intros a afs Ha. destruct (Nat.eq_dec a pa) as [->|Hne].
      * rewrite heap_insert_same in Ha by exact Hlt. discriminate Ha.
      * rewrite list_lookup_insert_ne in Ha by auto. exact (Hgood a afs Ha).
Qed.

(** A new object that refers to neither the root nor the components. *)
Lemma wf_alloc s o :
  wf r c g keys0 n0 s ->
  objectApart r c (List.length (n_heap s)) o ->
  (forall fs, o = OMap fs -> goodRefs fs) ->
  wf r c g keys0 n0
     (mkN (n_heap s ++ [o]) (pointerToComponent s) (existingNames s) (visitedSchemas s)
          (hoistedCount s)).
Proof.
  intros W Ho Hgo.
  destruct (wf_root _ _ _ _ _ _ W) as (rfs & Hr & Hrc).
  destruct (wf_comps _ _ _ _ _ _ W) as (cfs & Hc & Hcg).
  pose proof (wf_edges _ _ _ _ _ _ W) as He.
  pose proof (wf_refs _ _ _ _ _ _ W) as Hgood.
  assert (Hold : forall a x, n_heap s !! a = Some x -> (n_heap s ++ [o]) !! a = Some x).
  { intros a x Ha. rewrite lookup_app_l by (eapply heap_lookup_lt; eauto). exact Ha. }
  assert (Hnew : forall a x, (n_heap s ++ [o]) !! a = Some x ->
                             n_heap s !! a = Some x \/ (a = List.length (n_heap s) /\ x = o)).
  { intros a x Ha. destruct (Nat.lt_ge_cases a (List.length (n_heap s))) as [Hlt|Hge].
    - rewrite lookup_app_l in Ha by exact Hlt. left; exact Ha.
    - rewrite lookup_app_r in Ha by exact Hge. right.
      destruct (a - List.length (n_heap s)) as [|d] eqn:Ed; simpl in Ha; [|discriminate].
      injection Ha as <-. split; [lia | reflexivity]. }
  apply wf_heap_change; [exact W | | | | |].
  - exists rfs. split; [apply Hold; exact Hr | exact Hrc].
  - exists cfs. split; [apply Hold; exact Hc | exact Hcg].
  - intros gfs Hgs. exists gfs. split; [apply Hold; exact Hgs | reflexivity].
  - intros a x Ha. destruct (Hnew a x Ha) as [Ha' | [-> ->]]; [exact (He a x Ha') | exact Ho].
  - intros a fs Ha. destruct (Hnew a _ Ha) as [Ha' | [-> Heq]];
      [exact (Hgood a fs Ha') | apply Hgo; symmetry; exact Heq].
Qed.

(** What [structuredClone] leaves. *)
Lemma wf_clone s h' seen :
  wf r c g keys0 n0 s -> cloning (n_heap s) h' seen ->
  wf r c g keys0 n0
     (mkN h' (pointerToComponent s) (existingNames s) (visitedSchemas s) (hoistedCount s))
  /\ grows (n_heap s) h'.
Proof.
  intros W (Hlen & Hold & _ & Hfresh & Hgood).
  destruct (wf_root _ _ _ _ _ _ W) as (rfs & Hr & Hrc).
  destruct (wf_comps _ _ _ _ _ _ W) as (cfs & Hc & Hcg).
  pose proof (wf_edges _ _ _ _ _ _ W) as He.
  destruct (wf_bounds s W) as [Hrlt Hclt].
  assert (Hkeep : forall a x, n_heap s !! a = Some x -> h' !! a = Some x).
  { intros a x Ha. rewrite Hold by (eapply heap_lookup_lt; eauto). exact Ha. }
  split; [|apply grows_prefix; exact Hold].
  apply wf_heap_change; [exact W | | | | |].
  - exists rfs. split; [apply Hkeep; exact Hr | exact Hrc].
  - exists cfs. split; [apply Hkeep; exact Hc | exact Hcg].
  - intros gfs Hgs. exists gfs. split; [apply Hkeep; exact Hgs | reflexivity].
  - intros a o Ha. destruct (Nat.lt_ge_cases a (List.length (n_heap s))) as [Hlt|Hge].
    + rewrite Hold in Ha by exact Hlt. exact (He a o Ha).
    + specialize (Hfresh a o Hge Ha). destruct o as [fs|xs]; simpl in *.
      * intros k v Hin b ->. specialize (Hfresh k b Hin). split; [lia | intros ->; lia].
      * intros v Hin b ->. specialize (Hfresh b Hin). split; [lia | intros ->; lia].
  - exact Hgood.
Qed.

(** More names in use, other objects visited. *)
Lemma wf_names s names visited :
  wf r c g keys0 n0 s ->
  (forall k, mem_string k (existingNames s) = true -> mem_string k names = true) ->
  wf r c g keys0 n0 (mkN (n_heap s) (pointerToComponent s) names visited (hoistedCount s)).
Proof.
  intros W Hsub. destruct (wf_registry _ _ _ _ _ _ W) as (gfs & Hgs & Hnames & Hlen & Hkeys).
  constructor; cbn [n_heap pointerToComponent existingNames hoistedCount].
  - eapply wf_root; eauto.
  - eapply wf_comps; eauto.
  - exists gfs. split; [exact Hgs|]. split; [|split]; [|exact Hlen | exact Hkeys].
    intros k Hk. apply Hsub, Hnames, Hk.
  - eapply wf_memo; eauto.
  - eapply wf_count; eauto.
  - eapply wf_edges; eauto.
  - eapply wf_refs; eauto.
Qed.

(** A pointer recorded as another name for a component: no component is
    made. *)
Lemma wf_alias s ref name :
  wf r c g keys0 n0 s -> memo_get (pointerToComponent s) ref = None ->
  wf r c g keys0 n0
     (mkN (n_heap s) (memo_set (pointerToComponent s) ref name) (existingNames s)
          (visitedSchemas s) (hoistedCount s)).
Proof.
  intros W Hmiss. destruct (wf_registry _ _ _ _ _ _ W) as (gfs & Hgs & Hnames & Hlen & Hkeys).
  rewrite (memo_set_miss _ _ _ Hmiss).
  constructor; cbn [n_heap pointerToComponent existingNames hoistedCount].
  - eapply wf_root; eauto.
  - eapply wf_comps; eauto.
  - exists gfs. split; [exact Hgs|]. split; [exact Hnames|]. split; [exact Hlen|].
    intros k Hk. destruct (Hkeys k Hk) as [H0 | [p Hp]]; [left; exact H0|].
    right. exists p. apply memo_get_app. exact Hp.
  - apply NoDup_memo_add; [eapply wf_memo; eauto | exact Hmiss].
  - rewrite length_app. simpl. pose proof (wf_count _ _ _ _ _ _ W). lia.
  - eapply wf_edges; eauto.
  - eapply wf_refs; eauto.
Qed.

(** A pointer recorded with its new component, installed under a name that
    was not in use, and counted. *)
Lemma wf_register s ref name b gfs :
  wf r c g keys0 n0 s -> memo_get (pointerToComponent s) ref = None ->
  n_heap s !! g = Some (OMap gfs) -> fhas gfs name = false ->
  mem_string name (existingNames s) = true ->
  b <> r -> b <> c ->
  wf r c g keys0 n0
     (mkN (<[g := OMap (fset gfs name (VObj b))]> (n_heap s))
          (memo_set (pointerToComponent s) ref name) (existingNames s)
          (visitedSchemas s) (S (hoistedCount s))).
Proof.
  intros W Hmiss Hgs Hfresh Hname Hbr Hbc.
  destruct (wf_root _ _ _ _ _ _ W) as (rfs & Hr & Hrc).
  destruct (wf_comps _ _ _ _ _ _ W) as (cfs & Hc & Hcg).
  destruct (wf_registry _ _ _ _ _ _ W) as (gfs0 & Hgs0 & Hnames & Hlen & Hkeys).
  rewrite Hgs in Hgs0. injection Hgs0 as <-.
  pose proof (wf_edges _ _ _ _ _ _ W) as He.
  pose proof (wf_refs _ _ _ _ _ _ W) as Hgood.
  destruct (wf_apart s W) as (Hrc' & Hgr & Hgc).
  assert (Hlt : g < List.length (n_heap s)) by (eapply heap_lookup_lt; eauto).
  rewrite (memo_set_miss _ _ _ Hmiss).
  constructor; cbn [n_heap pointerToComponent existingNames hoistedCount].
  - exists rfs. split; [rewrite list_lookup_insert_ne by exact Hgr; exact Hr | exact Hrc].
  - exists cfs. split; [rewrite list_lookup_insert_ne by exact Hgc; exact Hc | exact Hcg].
  - exists (fset gfs name (VObj b)). split; [apply heap_insert_same; exact Hlt|].
    split; [|split].
    + intros k Hk. rewrite fhas_fset in Hk. apply orb_true_iff in Hk.
      destruct Hk as [Hk | Hk]; [apply String.eqb_eq in Hk; subst; exact Hname | auto].
    + rewrite length_fset, Hfresh, Hlen. lia.
    + intros k Hk. apply fhas_In in Hk. rewrite fhas_fset in Hk. apply orb_true_iff in Hk.
      destruct Hk as [Hk | Hk].
      * apply String.eqb_eq in Hk. subst k. right. exists ref. apply memo_get_last. exact Hmiss.
      * apply fhas_In in Hk. destruct (Hkeys k Hk) as [H0 | [p Hp]]; [left; exact H0|].
        right. exists p. apply memo_get_app. exact Hp.
  - apply NoDup_memo_add; [eapply wf_memo; eauto | exact Hmiss].
  - rewrite length_app. simpl. pose proof (wf_count _ _ _ _ _ _ W). lia.
  - intros a o Ha. destruct (Nat.eq_dec a g) as [->|Hne].
    + rewrite heap_insert_same in Ha by exact Hlt. injection Ha as <-.
      intros k' v' Hin. apply In_fset in Hin. destruct Hin as [[= -> ->] | Hin].
      * intros b' [= <-]. split; [exact Hbr | contradiction].
      * exact (He g _ Hgs k' v' Hin).
    + rewrite list_lookup_insert_ne in Ha by auto. exact (He a o Ha).
  - intros a afs Ha. destruct (Nat.eq_dec a g) as [->|Hne].
    + rewrite heap_insert_same in Ha by exact Hlt. injection Ha as <-.
      intros x Hx. destruct (String.eqb name "$ref") eqn:E.
      * apply String.eqb_eq in E. subst name. rewrite fget_fset_eq in Hx. discriminate Hx.
      * apply String.eqb_neq in E. rewrite fget_fset_ne in Hx by exact E.
        exact (Hgood g gfs Hgs x Hx).
    + rewrite list_lookup_insert_ne in Ha by auto. exact (Hgood a afs Ha).
Qed.

End Steps.

(** ** [generateComponentName] and [installComponent] *)

Lemma uniqueName_fresh fuel candidate counter u0 names u :
  uniqueName fuel candidate counter u0 names = Ok u -> mem_string u names = false.
Proof.
  revert counter u0. induction fuel as [|fuel IH]; intros counter u0; simpl.
  - destruct (mem_string u0 names) eqn:E; [discriminate | intros [= <-]; exact E].
  - destruct (mem_string u0 names) eqn:E; [apply IH | intros [= <-]; exact E].
Qed.

Lemma readonly_toPascalCase (v : val) : readonly (toPascalCase (St := nstate) v).
Proof.
  unfold toPascalCase. destruct (negb (truthy v)); [apply readonly_ret|].
  apply readonly_bind; [apply readonly_to_string | intros x; apply readonly_ret].
Qed.

(** The name is not in use, and is then added to the names in use; on a
    failure nothing has changed. *)
Lemma generateComponentName_spec fuel contextName pointer s :
  match generateComponentName fuel contextName pointer s with
  | (Ok name, s') =>
      mem_string name (existingNames s) = false
      /\ s' = mkN (n_heap s) (pointerToComponent s) (existingNames s ++ [name])
                  (visitedSchemas s) (hoistedCount s)
  | (Fail _, s') => s' = s
  end.
Proof.
  unfold generateComponentName. unfold bind at 1.
  pose proof (readonly_toPascalCase (js_or contextName (VStr EmptyString)) s) as Hro.
  destruct (toPascalCase (js_or contextName (VStr EmptyString)) s) as [[cs|e] s1];
    simpl in Hro; subst s1; [|reflexivity].
  cbv zeta. unfold bind, get_state, of_outcome.
  match goal with |- context [uniqueName ?f ?c ?n ?u ?ns] =>
    destruct (uniqueName f c n u ns) as [u1|e] eqn:Hu end; [|reflexivity].
  apply uniqueName_fresh in Hu. unfold addName, modify, ret.
  cbn [existingNames n_heap pointerToComponent visitedSchemas hoistedCount].
  rewrite Hu. split; reflexivity.
Qed.

Lemma fget_fhas fs k v : fget fs k = v -> v <> VUndef -> fhas fs k = true.
Proof. intros Hg Hv. apply fhas_In. eapply In_fkeys. apply fget_In; eauto. Qed.

Lemma setp_fails {St : Type} `{Store St} v k x (s s' : St) e :
  setp v k x s = (Fail e, s') -> s' = s.
Proof.
  unfold setp, writing. destruct (js_set (heap_of s) v k x); intros [= ]; congruence.
Qed.

Lemma cloning_init (h : heap) : allGoodRefs h -> cloning h h [].
Proof.
  intros Hgood. split; [lia|]. split; [reflexivity|]. split; [intros o n []|].
  split; [|exact Hgood].
  intros a o Hge Ha. apply heap_lookup_lt in Ha. lia.
Qed.

Lemma prefixed_name name :
  Str.startsWith (String.append schemasPrefix name) schemasPrefix = true.
Proof. apply prefix_app. Qed.

Lemma goodRefs_stub y :
  Str.startsWith y schemasPrefix = true -> goodRefs [("$ref", VStr y)].
Proof. intros Hy x Hx. simpl in Hx. injection Hx as <-. apply prefixed_good. exact Hy. Qed.

Section Install.
Variables r c g : nat.
Variable keys0 : list string.
Variable n0 : nat.

(** [installComponent] on a state whose bookkeeping is in order, for a
    pointer not recorded yet, a clone [b] and the place [key] of [pa]
    where the schema was found. *)
Lemma install_keeps s fuel ref contextName pa key b :
  wf r c g keys0 n0 s -> memo_get (pointerToComponent s) ref = None ->
  b <> r -> b <> c ->
  ~ (pa = r /\ key = "components") -> ~ (pa = c /\ key = "schemas") ->
  (forall fs, n_heap s !! pa = Some (OMap fs) -> fhas fs key = true) ->
  keeps r c g keys0 n0 s
        (snd (installComponent fuel (VObj r) ref contextName (VObj pa) key (VObj b) s)).
Proof.
  intros W Hmiss Hbr Hbc Hnr Hnc Hkey.
  destruct (wf_root _ _ _ _ _ _ W) as (rfs & Hr & Hrc).
  destruct (wf_comps _ _ _ _ _ _ W) as (cfs & Hc & Hcg).
  destruct (wf_registry _ _ _ _ _ _ W) as (gfs & Hgs & Hnames & _).
  destruct (wf_apart r c g keys0 n0 s W) as (Hrc' & Hgr & Hgc).
  assert (Hglt : g < List.length (n_heap s)) by (eapply heap_lookup_lt; eauto).
  unfold installComponent. unfold bind at 1.
  pose proof (generateComponentName_spec fuel (deriveContext contextName ref) ref s) as Hgen.
  destruct (generateComponentName fuel (deriveContext contextName ref) ref s)
    as [[name|e] s1]; cbv beta iota;
    [|subst s1; cbn [snd]; split; [exact W | apply grows_refl]].
  destruct Hgen as [Hfresh ->].
  assert (Hnot : fhas gfs name = false).
  { destruct (fhas gfs name) eqn:E; [|reflexivity].
    rewrite (Hnames name E) in Hfresh. discriminate. }
  set (names1 := existingNames s ++ [name]).
  set (s1 := mkN (n_heap s) (pointerToComponent s) names1 (visitedSchemas s) (hoistedCount s)).
  assert (W1 : wf r c g keys0 n0 s1).
  { apply wf_names; [exact W|]. intros k Hk. unfold names1.
    rewrite mem_string_app, Hk. reflexivity. }
  pose proof (wf_register r c g keys0 n0 s1 ref name b gfs W1 Hmiss Hgs Hnot) as W4.
  cbn [n_heap pointerToComponent existingNames visitedSchemas hoistedCount s1] in W4.
  specialize (W4 ltac:(unfold names1; rewrite mem_string_app; simpl;
                       rewrite String.eqb_refl; apply orb_true_r) Hbr Hbc).
  set (h4 := <[g := OMap (fset gfs name (VObj b))]> (n_heap s)) in *.
  set (s4 := mkN h4 (memo_set (pointerToComponent s) ref name) names1 (visitedSchemas s)
                 (S (hoistedCount s))) in *.
  set (stub := refStub (String.append schemasPrefix name)).
  assert (W5 : wf r c g keys0 n0
                  (mkN (h4 ++ [stub]) (memo_set (pointerToComponent s) ref name) names1
                       (visitedSchemas s) (S (hoistedCount s)))).
  { apply (wf_alloc r c g keys0 n0 s4 stub W4).
    - intros k v [[= <- <-] | []] b' Hb'. discriminate Hb'.
    - intros fs [= <-]. apply goodRefs_stub, prefixed_name. }
  set (s5 := mkN (h4 ++ [stub]) (memo_set (pointerToComponent s) ref name) names1
                 (visitedSchemas s) (S (hoistedCount s))) in *.
  assert (G5 : grows (n_heap s) (n_heap s5)).
  { eapply grows_trans; [apply (grows_set _ _ _ name (VObj b) Hgs) | apply grows_alloc]. }
  assert (Hrun : forall k : unit -> M nstate string,
            bind (setPointer ref name)
              (fun _ => bind (getp (VObj r) "components")
                (fun comps => bind (getp comps "schemas")
                  (fun schemas => bind (setp schemas name (VObj b))
                    (fun _ => bind countHoist
                      (fun _ => bind (alloc stub)
                        (fun st => bind (setp (VObj pa) key st) k)))))) s1
            = bind (setp (VObj pa) key (VObj (List.length h4))) k s5).
  { intros k. erewrite bind_eval by reflexivity.
    erewrite bind_eval
      by (apply getp_eval; cbn [heap_of nstate_Store n_heap];
          rewrite (js_get_map _ _ _ _ Hr), Hrc; reflexivity).
    erewrite bind_eval
      by (apply getp_eval; cbn [heap_of nstate_Store n_heap];
          rewrite (js_get_map _ _ _ _ Hc), Hcg; reflexivity).
    erewrite bind_eval
      by (unfold setp, writing; cbn [heap_of with_heap nstate_Store n_heap];
          rewrite (js_set_map _ _ _ _ _ Hgs); reflexivity).
    erewrite bind_eval by reflexivity.
    erewrite bind_eval by reflexivity. reflexivity. }
  rewrite Hrun. unfold bind.
  destruct (setp (VObj pa) key (VObj (List.length h4)) s5) as [[[]|e] s6] eqn:Hset.
  - cbn [snd ret].
    destruct (wf_bounds r c g keys0 n0 s4 W4) as [Hrlt Hclt]. cbn [n_heap s4] in Hrlt, Hclt.
    destruct (wf_setp r c g keys0 n0 s5 pa key _ s6 W5 Hset) as [W6 G6].
    + intros b' [= <-]. lia.
    + intros x Hx. discriminate Hx.
    + exact Hnr.
    + exact Hnc.
    + intros gfs5 -> Hg5. cbn [n_heap s5] in Hg5.
      rewrite lookup_app_l in Hg5 by (unfold h4; rewrite length_insert; exact Hglt).
      unfold h4 in Hg5. rewrite heap_insert_same in Hg5 by exact Hglt.
      injection Hg5 as <-. rewrite fhas_fset, (Hkey gfs Hgs). apply orb_true_r.
    + split; [exact W6 | eapply grows_trans; eauto].
  - cbn [snd]. apply setp_fails in Hset. subst s6. split; [exact W5 | exact G5].
Qed.

End Install.

Lemma getp_run {St : Type} `{Store St} v k (s s' : St) o :
  getp v k s = (o, s') -> s' = s /\ js_get (heap_of s) v k = o.
Proof. unfold getp, reading. intros [= <- <-]. split; reflexivity. Qed.

Lemma aliasTarget_prefixed vref vr :
  aliasTarget vref = Some vr -> Str.startsWith vr schemasPrefix = true.
Proof.
  unfold aliasTarget. destruct vref as [| | | |x|]; try discriminate.
  destruct (Str.nonempty x && negb (shouldHoistRef (VStr x))
            && Str.startsWith x schemasPrefix) eqn:E; [|discriminate].
  intros [= <-]. apply andb_true_iff in E. apply E.
Qed.

Section Hoist.
Variables r c g : nat.
Variable keys0 : list string.
Variable n0 : nat.

Lemma keeps_refl s : wf r c g keys0 n0 s -> keeps r c g keys0 n0 s s.
Proof. intros W. split; [exact W | apply grows_refl]. Qed.

Lemma keeps_trans s1 s2 s3 :
  keeps r c g keys0 n0 s1 s2 -> keeps r c g keys0 n0 s2 s3 -> keeps r c g keys0 n0 s1 s3.
Proof. intros [_ G1] [W G2]. split; [exact W | eapply grows_trans; eauto]. Qed.

Lemma keeps_inv {A : Type} (m : M nstate A) :
  (forall s, wf r c g keys0 n0 s -> keeps r c g keys0 n0 s (snd (m s))) ->
  forall s1, inv (keeps r c g keys0 n0 s1) m.
Proof. intros Hm s1 s Hs. eapply keeps_trans; [exact Hs | apply Hm, Hs]. Qed.

Lemma inv_keeps {A : Type} (m : M nstate A) :
  (forall s1, inv (keeps r c g keys0 n0 s1) m) ->
  forall s, wf r c g keys0 n0 s -> keeps r c g keys0 n0 s (snd (m s)).
Proof. intros Hm s W. apply (Hm s s). apply keeps_refl. exact W. Qed.

Lemma hoisted_nothing s (o : outcome (option string)) :
  wf r c g keys0 n0 s -> (forall x, o <> Ok (Some x)) -> hoisted r c g keys0 n0 s (o, s).
Proof.
  intros W Ho. split; [apply keeps_refl; exact W|]. intros x Hx. exact (False_ind _ (Ho x Hx)).
Qed.

Variable fuel : nat.
Hypothesis IHps : forall schema contextName s,
  wf r c g keys0 n0 s ->
  keeps r c g keys0 n0 s (snd (processSchema fuel (VObj r) schema contextName s)).

Lemma hoistRef_step a contextName s :
  wf r c g keys0 n0 s ->
  hoisted r c g keys0 n0 s (hoistRef (S fuel) (VObj r) (VObj a) contextName s).
Proof.
  intros W. cbn [hoistRef]. unfold bind at 1.
  destruct (getp (VObj a) "$ref" s) as [[refv|e] s'] eqn:Hget;
    apply getp_run in Hget; destruct Hget as [-> Hget];
    [|apply hoisted_nothing; [exact W | discriminate]].
  destruct refv as [| | | |ref|]; try (apply hoisted_nothing; [exact W | discriminate]).
  destruct (negb (shouldHoistRef (VStr ref)));
    [apply hoisted_nothing; [exact W | discriminate]|].
  unfold bind at 1, get_state. cbv beta iota.
  destruct (memo_get (pointerToComponent s) ref) as [cn|] eqn:Hmemo.
  { split; [apply keeps_refl; exact W|]. intros x [= <-]. apply prefixed_name. }
  unfold bind at 1, reading. cbn [heap_of nstate_Store].
  destruct (resolveJsonPointerWithParent (n_heap s) (VObj r) (VStr ref))
    as [[[[parent key] value]|]|e] eqn:Hres; cbv beta iota;
    try (apply hoisted_nothing; [exact W | discriminate]).
  destruct (negb (truthy value) || negb (typeof_object value)) eqn:Hobj;
    [apply hoisted_nothing; [exact W | discriminate]|].
  destruct value as [| | | | |va];
    try (simpl in Hobj; rewrite ?orb_true_r in Hobj; discriminate Hobj). clear Hobj.
  cbn [heap_of nstate_Store] in Hget.
  destruct (js_get_ref_string _ _ _ Hget) as (fs & Ha & Hfs).
  pose proof (wf_refs _ _ _ _ _ _ W a fs Ha ref Hfs) as Hbad.
  pose proof (wf_edges _ _ _ _ _ _ W) as Hedges.
  destruct (wf_apart r c g keys0 n0 s W) as (Hrc & _ & _).
  destruct (wf_bounds r c g keys0 n0 s W) as [Hrlt Hclt].
  destruct (resolved_place r c _ ref parent key _ Hedges Hrc Hbad Hres) as (Hjs & Hnr & Hnc).
  destruct (js_get_edge r c _ parent key va Hedges Hjs) as (pa & -> & Hvar & Hvac).
  assert (Hvc : va <> c).
  { intros ->. destruct (Hvac eq_refl) as [-> ->]. apply Hnr. split; reflexivity. }
  unfold bind at 1.
  destruct (getp (VObj va) "$ref" s) as [[vref|e] s'] eqn:Hget2;
    apply getp_run in Hget2; destruct Hget2 as [-> Hget2];
    [|apply hoisted_nothing; [exact W | discriminate]].
  destruct (aliasTarget vref) as [vr|] eqn:Halias.
  { unfold bind, setPointer, modify, ret. cbn [fst snd]. split.
    - split; [apply wf_alias; assumption | apply grows_refl].
    - intros x [= <-]. eapply aliasTarget_prefixed; eauto. }
  unfold bind at 1, cloneSchema. cbn [heap_of with_heap nstate_Store].
  destruct (cloneValue fuel (n_heap s) [] (VObj va)) as [[[h' seen'] v']|e] eqn:Hclone;
    [|apply hoisted_nothing; [exact W | discriminate]].
  destruct (cloneValue_ok (n_heap s) fuel _ _ _ _ _ _
              (cloning_init _ (wf_refs _ _ _ _ _ _ W)) Hclone) as (Hcl & _ & (b & -> & Hb)).
  destruct (wf_clone r c g keys0 n0 s h' seen' W Hcl) as [W1 G1].
  set (s1 := mkN h' (pointerToComponent s) (existingNames s) (visitedSchemas s)
                 (hoistedCount s)) in *.
  assert (Hkey : forall pfs, n_heap s1 !! pa = Some (OMap pfs) -> fhas pfs key = true).
  { intros pfs Hpa. cbn [n_heap s1] in Hpa.
    assert (Hpa0 : n_heap s !! pa = Some (OMap pfs)).
    { destruct Hcl as (_ & Hold & _). rewrite <- Hold; [exact Hpa|].
      simpl in Hjs. destruct (n_heap s !! pa) eqn:E; [|discriminate].
      eapply heap_lookup_lt; eauto. }
    rewrite (js_get_map _ _ _ _ Hpa0) in Hjs. injection Hjs as Hjs.
    eapply fget_fhas; [exact Hjs | discriminate]. }
  pose proof (install_keeps r c g keys0 n0 s1 fuel ref contextName pa key b W1 Hmemo
                ltac:(lia) ltac:(lia)
                ltac:(intros [-> ->]; apply Hnr; split; reflexivity)
                ltac:(intros [-> ->]; apply Hnc; split; reflexivity) Hkey) as [W2 G2].
  unfold bind at 1.
  destruct (installComponent fuel (VObj r) ref contextName (VObj pa) key (VObj b) s1)
    as [[name|e] s2]; cbn [snd n_heap s1] in W2, G2; cbv beta iota.
  - unfold bind at 1.
    pose proof (IHps (VObj b) (VStr name) s2 W2) as [W3 G3].
    destruct (processSchema fuel (VObj r) (VObj b) (VStr name) s2) as [[[]|e] s3];
      cbn [snd] in W3, G3; cbv beta iota.
    + split; [split; [exact W3 | eauto using grows_trans]|].
      intros x [= <-]. apply prefixed_name.
    + split; [split; [exact W3 | eauto using grows_trans] | discriminate].
  - split; [split; [exact W2 | eauto using grows_trans] | discriminate].
Qed.

End Hoist.

(** ** [processSchema] and [hoistRef] keep the bookkeeping *)

Section Process.
Variables r c g : nat.
Variable keys0 : list string.
Variable n0 : nat.
Variable fuel : nat.
Hypothesis IHps : forall schema contextName s,
  wf r c g keys0 n0 s ->
  keeps r c g keys0 n0 s (snd (processSchema fuel (VObj r) schema contextName s)).
Hypothesis IHhoist : forall a contextName s,
  wf r c g keys0 n0 s ->
  hoisted r c g keys0 n0 s (hoistRef fuel (VObj r) (VObj a) contextName s).

Lemma rewriteRef_keeps a contextName s :
  wf r c g keys0 n0 s ->
  keeps r c g keys0 n0 s
        (snd (rewriteRef (VObj a) (hoistRef fuel (VObj r) (VObj a) contextName) s)).
Proof.
  intros W. unfold rewriteRef. unfold bind at 1.
  destruct (getp (VObj a) "$ref" s) as [[refv|e] s'] eqn:Hget;
    apply getp_run in Hget; destruct Hget as [-> Hget];
    [|apply keeps_refl; exact W].
  destruct refv as [| | | |ref|]; try (apply keeps_refl; exact W).
  cbn [typeof_string]. unfold bind at 1.
  destruct (IHhoist a contextName s W) as [[W2 G2] Hres].
  destruct (hoistRef fuel (VObj r) (VObj a) contextName s) as [[[x|]|e] s2];
    cbn [fst snd] in *; try (split; assumption).
  unfold when. destruct (Str.nonempty x); [|split; assumption].
  destruct (setp (VObj a) "$ref" (VStr x) s2) as [[[]|e] s3] eqn:Hset; cbn [snd].
  - destruct (wf_setp r c g keys0 n0 s2 a "$ref" (VStr x) s3 W2 Hset) as [W3 G3].
    + intros b Hb. discriminate Hb.
    + intros y [= <-]. apply prefixed_good. apply Hres. reflexivity.
    + intros [_ Hk]. discriminate Hk.
    + intros [_ Hk]. discriminate Hk.
    + intros gfs2 -> Hg2. cbn [heap_of nstate_Store] in Hget.
      destruct (js_get_ref_string _ _ _ Hget) as (fs & Ha & Hfs).
      destruct (G2 g fs Ha) as (fs2 & H2 & Hk). rewrite Hg2 in H2. injection H2 as <-.
      apply Hk. eapply fget_fhas; [exact Hfs | discriminate].
    + split; [exact W3 | eapply grows_trans; eauto].
  - apply setp_fails in Hset. subst s3. split; assumption.
Qed.

Lemma processSchema_step schema contextName s :
  wf r c g keys0 n0 s ->
  keeps r c g keys0 n0 s (snd (processSchema (S fuel) (VObj r) schema contextName s)).
Proof.
  revert s. apply inv_keeps. intros s1.
  cbn [processSchema]. destruct schema as [| | | | |a]; try apply inv_ret.
  apply inv_bind; [intros s Hs; exact Hs|]. intros s0.
  apply inv_if; [apply inv_ret|].
  apply inv_bind.
  { apply keeps_inv. intros s W. split; [|apply grows_refl].
    apply (wf_names r c g keys0 n0 s (existingNames s)); [exact W | auto]. }
  intros _. apply inv_bind; [apply keeps_inv; intros s W; apply rewriteRef_keeps; exact W|].
  intros _. apply inv_descend. intros sub. apply keeps_inv. intros s W. apply IHps. exact W.
Qed.

End Process.

Lemma normalizer_keeps r c g keys0 n0 fuel :
  (forall schema contextName s,
     wf r c g keys0 n0 s ->
     keeps r c g keys0 n0 s (snd (processSchema fuel (VObj r) schema contextName s)))
  /\ (forall a contextName s,
        wf r c g keys0 n0 s ->
        hoisted r c g keys0 n0 s (hoistRef fuel (VObj r) (VObj a) contextName s)).
Proof.
  induction fuel as [|fuel [IHp IHh]].
  - split.
    + intros schema contextName s W. apply keeps_refl. exact W.
    + intros a contextName s W. apply hoisted_nothing; [exact W | discriminate].
  - split.
    + intros schema contextName s W. apply processSchema_step; assumption.
    + intros a contextName s W. apply hoistRef_step; assumption.
Qed.

(** ** The two conditions on the heap, from their checks *)

Lemma In_combine_seq (h : heap) :
  forall a o base, h !! a = Some o -> In (base + a, o) (combine (seq base (List.length h)) h).
Proof.
  induction h as [|x h IH]; intros a o base Ha; [discriminate|].
  destruct a as [|a]; simpl in *.
  - injection Ha as <-. left. f_equal. lia.
  - right. replace (base + S a) with (S base + a) by lia. apply IH. exact Ha.
Qed.

Lemma edgeOkb_sound r c a k v : edgeOkb r c a k v = true -> edgeOk r c a k v.
Proof.
  intros H b ->. simpl in H. apply andb_true_iff in H. destruct H as [H1 H2].
  apply negb_true_iff, Nat.eqb_neq in H1. split; [exact H1|].
  intros ->. rewrite Nat.eqb_refl in H2. simpl in H2.
  apply andb_true_iff in H2. destruct H2 as [Ha Hk].
  apply Nat.eqb_eq in Ha. apply String.eqb_eq in Hk. split; assumption.
Qed.

Lemma edgesApartb_sound r c (h : heap) : edgesApartb r c h = true -> edgesApart r c h.
Proof.
  intros H a o Ha. unfold edgesApartb in H. rewrite forallb_forall in H.
  specialize (H (a, o) (In_combine_seq h a o 0 Ha)). unfold objectApartb in H. simpl in H.
  destruct o as [fs|xs]; simpl; rewrite forallb_forall in H.
  - intros k v Hin. apply edgeOkb_sound. exact (H (k, v) Hin).
  - intros v Hin. apply edgeOkb_sound. exact (H v Hin).
Qed.

Lemma allGoodRefsb_sound (h : heap) : allGoodRefsb h = true -> allGoodRefs h.
Proof.
  intros H a fs Ha x Hx. unfold allGoodRefsb in H. rewrite forallb_forall in H.
  assert (Hin : In (OMap fs) h)
    by (apply list_elem_of_In; eapply list_elem_of_lookup_2; eauto).
  specialize (H _ Hin). simpl in H. rewrite Hx in H. apply negb_true_iff in H. exact H.
Qed.

(** ** C5, C3: what a run of the normalizer adds to the registry *)

Lemma mem_string_In k xs : In k xs -> mem_string k xs = true.
Proof.
  intros Hin. unfold mem_string. apply existsb_exists. exists k.
  split; [exact Hin | apply String.eqb_refl].
Qed.

(** The bookkeeping is in order when a run ends, whether it returns or
    fails, on a document whose registry exists. *)
Lemma normalizeRun_wf fuel (h : heap) r rfs c cfs g gfs :
  h !! r = Some (OMap rfs) -> fget rfs "components" = VObj c ->
  h !! c = Some (OMap cfs) -> fget cfs "schemas" = VObj g ->
  h !! g = Some (OMap gfs) ->
  edgesApartb r c h = true -> allGoodRefsb h = true ->
  wf r c g (fkeys gfs) (List.length gfs) (snd (normalizeRun fuel (VObj r) h)).
Proof.
  intros Hr Hrc Hc Hcg Hg He Hgood.
  unfold normalizeRun. cbn [truthy typeof_object negb orb]. unfold normalizeBody.
  erewrite bind_eval by (eapply ensureRegistry_present; eassumption).
  unfold initialNstate. cbn [n_heap pointerToComponent visitedSchemas hoistedCount].
  set (s0 := mkN h [] (fkeys gfs) [] 0).
  assert (W0 : wf r c g (fkeys gfs) (List.length gfs) s0).
  { constructor; cbn [s0 n_heap pointerToComponent existingNames hoistedCount].
    - exists rfs. split; assumption.
    - exists cfs. split; assumption.
    - exists gfs. split; [exact Hg|]. split; [|split].
      + intros k Hk. apply mem_string_In, fhas_In, Hk.
      + lia.
      + intros k Hk. left. exact Hk.
    - constructor.
    - simpl. lia.
    - apply edgesApartb_sound. exact He.
    - apply allGoodRefsb_sound. exact Hgood. }
  assert (Hps : forall f schema contextName,
            inv (keeps r c g (fkeys gfs) (List.length gfs) s0)
                (processSchema f (VObj r) schema contextName)).
  { intros f schema contextName. apply keeps_inv. intros s W.
    apply (proj1 (normalizer_keeps r c g (fkeys gfs) (List.length gfs) f)). exact W. }
  destruct (inv_traverseDocument _ (VObj r) Hps fuel s0
              (keeps_refl r c g (fkeys gfs) (List.length gfs) s0 W0)) as [W _].
  exact W.
Qed.

Lemma registryOf_wf r c g keys0 n0 s gfs :
  wf r c g keys0 n0 s -> n_heap s !! g = Some (OMap gfs) ->
  registryOf (n_heap s) (VObj r) = Ok gfs.
Proof.
  intros W Hg. destruct (wf_root _ _ _ _ _ _ W) as (rfs & Hr & Hrc).
  destruct (wf_comps _ _ _ _ _ _ W) as (cfs & Hc & Hcg).
  unfold registryOf. rewrite (js_get_map _ _ _ _ Hr), Hrc, (js_get_map _ _ _ _ Hc), Hcg.
  simpl. rewrite Hg. reflexivity.
Qed.





(** A schema whose pointer is recorded takes the recorded component, and
    nothing else changes. *)
Lemma rewriteRef_memoized fuel openApiSpec a contextName (s : nstate) fs ref name :
  n_heap s !! a = Some (OMap fs) -> fget fs "$ref" = VStr ref ->
  shouldHoistRef (VStr ref) = true ->
  memo_get (pointerToComponent s) ref = Some name ->
  rewriteRef (VObj a) (hoistRef (S fuel) openApiSpec (VObj a) contextName) s
  = (Ok tt,
     mkN (<[a := OMap (freplace fs "$ref" (VStr (String.append schemasPrefix name)))]> (n_heap s))
         (pointerToComponent s) (existingNames s) (visitedSchemas s) (hoistedCount s)).
Proof.
  intros Ha Hfs Hsh Hmemo.
  assert (Hget : getp (VObj a) "$ref" s = (Ok (VStr ref), s)).
  { apply getp_eval. cbn [heap_of nstate_Store]. rewrite (js_get_map _ _ _ _ Ha), Hfs.
    reflexivity. }
  assert (Hhoist : hoistRef (S fuel) openApiSpec (VObj a) contextName s
                   = (Ok (Some (String.append schemasPrefix name)), s)).
  { cbn [hoistRef]. erewrite bind_eval by exact Hget. rewrite Hsh. cbn [negb].
    erewrite bind_eval by reflexivity. rewrite Hmemo. reflexivity. }
  unfold rewriteRef. erewrite bind_eval by exact Hget. cbn [typeof_string].
  erewrite bind_eval by exact Hhoist.
  assert (Hne : Str.nonempty (String.append schemasPrefix name) = true) by reflexivity.
  cbv beta iota. rewrite Hne. unfold when, setp, writing. cbn [heap_of with_heap nstate_Store].
  rewrite (js_set_map _ _ _ _ _ Ha). unfold fset.
  rewrite (fget_fhas fs "$ref" (VStr ref) Hfs) by discriminate. reflexivity.
Qed.



(** ** C1: the references the pipeline leaves *)


Lemma existsb_eqb_false a (l : list nat) : existsb (Nat.eqb a) l = false -> ~ In a l.
Proof.
  intros E Hin. assert (Ht : existsb (Nat.eqb a) l = true).
  { apply existsb_exists. exists a. split; [exact Hin | apply Nat.eqb_refl]. }
  congruence.
Qed.

Lemma isBroken_eval R rfs x (s : cstate) :
  c_heap s !! R = Some (OMap rfs) ->
  isBroken (VObj R) x s = (Ok (brokenRef rfs x), s).
Proof.
  intros HR. unfold isBroken.
  erewrite bind_eval
    by (apply getp_eval; cbn [heap_of cstate_Store]; rewrite (js_get_map _ _ _ _ HR);
        reflexivity).
  reflexivity.
Qed.

Lemma pending_skip rfs k v rem fsa :
  pending rfs ((k, v) :: rem) fsa ->
  (forall x, (k, v) = ("$ref", VStr x) -> Str.startsWith x schemasPrefix = true ->
             brokenRef rfs x = true -> False) ->
  pending rfs rem fsa.
Proof.
  intros Hp Hno x Hx Hpre Hb. destruct (Hp x Hx Hpre Hb) as [Heq | Hin]; [|exact Hin].
  exfalso. exact (Hno x Heq Hpre Hb).
Qed.

Lemma pending_none rfs rem fsa : fget fsa "$ref" = VUndef -> pending rfs rem fsa.
Proof. intros Hu x Hx. congruence. Qed.

Section Sweep.
Variable R : nat.
Variable rfs : list (string * val).
Hypothesis Hnoref : fhas rfs "$ref" = false.

Lemma sweeping_refl s : c_heap s !! R = Some (OMap rfs) -> sweeping R rfs [] s s.
Proof.
  intros HR. split; [exact HR|]. split; [auto|]. split; [auto|].
  split; [intros b o Hin Hnot; contradiction | intros b fs k d Hin Hnot; contradiction].
Qed.

Lemma sweeping_visit s0 a :
  c_heap s0 !! R = Some (OMap rfs) ->
  sweeping R rfs [a] s0 (mkC (c_heap s0) (a :: c_visited s0)).
Proof.
  intros HR. split; [exact HR|]. split; [intros b Hb; right; exact Hb|]. split; [auto|].
  split.
  - intros b o [<- | Hin] Hnot Hskip; [exfalso; apply Hskip; left; reflexivity | contradiction].
  - intros b fs k d [<- | Hin] Hnot Hskip;
      [exfalso; apply Hskip; left; reflexivity | contradiction].
Qed.

Lemma sweeping_call skip s0 s s' :
  sweeping R rfs skip s0 s -> sweeping R rfs [] s s' ->
  sweeping R rfs skip s0 s'.
Proof.
  intros (A1 & B1 & C1 & D1 & E1) (A2 & B2 & C2 & D2 & E2).
  split; [exact A2|]. split; [auto|]. split; [|split].
  - intros b Hb. rewrite (C2 b (B1 b Hb)). apply C1. exact Hb.
  - intros b o Hin Hnot Hskip Hb.
    destruct (in_dec Nat.eq_dec b (c_visited s)) as [Hold | Hnew].
    + rewrite (C2 b Hold) in Hb. exact (D1 b o Hold Hnot Hskip Hb).
    + apply (D2 b o Hin Hnew); [tauto | exact Hb].
  - intros b fs k d Hin Hnot Hskip Hb Hkd.
    destruct (in_dec Nat.eq_dec b (c_visited s)) as [Hold | Hnew].
    + rewrite (C2 b Hold) in Hb. apply B2. exact (E1 b fs k d Hold Hnot Hskip Hb Hkd).
    + apply (E2 b fs k d Hin Hnew); [tauto | exact Hb | exact Hkd].
Qed.

Lemma sweeping_update a o s0 s :
  sweeping R rfs [a] s0 s -> ~ In a (c_visited s0) -> a <> R ->
  sweeping R rfs [a] s0 (mkC (<[a := o]> (c_heap s)) (c_visited s)).
Proof.
  intros (A1 & B1 & C1 & D1 & E1) Hnot HaR. unfold sweeping. cbn [c_heap c_visited].
  split; [rewrite list_lookup_insert_ne by exact HaR; exact A1|].
  split; [exact B1|]. split; [|split].
  - intros b Hb. rewrite list_lookup_insert_ne by (intros ->; contradiction). apply C1, Hb.
  - intros b o' Hin Hn Hskip Hb.
    rewrite list_lookup_insert_ne in Hb by (intros ->; apply Hskip; left; reflexivity).
    exact (D1 b o' Hin Hn Hskip Hb).
  - intros b fs k d Hin Hn Hskip Hb Hkd.
    rewrite list_lookup_insert_ne in Hb by (intros ->; apply Hskip; left; reflexivity).
    exact (E1 b fs k d Hin Hn Hskip Hb Hkd).
Qed.

Lemma sweeping_done a s0 s :
  sweeping R rfs [a] s0 s ->
  (forall o, c_heap s !! a = Some o -> cleanNode rfs o) ->
  (forall fs k d, c_heap s !! a = Some (OMap fs) -> In (k, VObj d) fs -> In d (c_visited s)) ->
  sweeping R rfs [] s0 s.
Proof.
  intros (A1 & B1 & C1 & D1 & E1) Ha Hch.
  split; [exact A1|]. split; [exact B1|]. split; [exact C1|]. split.
  - intros b o Hin Hn _ Hb. destruct (Nat.eq_dec b a) as [->|Hne]; [exact (Ha o Hb)|].
    apply (D1 b o Hin Hn); [intros [Heq | []]; congruence | exact Hb].
  - intros b fs k d Hin Hn _ Hb Hkd.
    destruct (Nat.eq_dec b a) as [->|Hne]; [exact (Hch fs k d Hb Hkd)|].
    apply (E1 b fs k d Hin Hn); [intros [Heq | []]; congruence | exact Hb | exact Hkd].
Qed.

Section Frame.
Variable rec : val -> M cstate unit.
Hypothesis Hrec : forall v t t',
  c_heap t !! R = Some (OMap rfs) -> rec v t = (Ok tt, t') ->
  sweeping R rfs [] t t' /\ (forall d, v = VObj d -> In d (c_visited t')).

(** A recursive call made while [a] is in progress. *)
Lemma rec_call a s0 s s' v :
  sweeping R rfs [a] s0 s -> In a (c_visited s) ->
  rec v s = (Ok tt, s') ->
  sweeping R rfs [a] s0 s' /\ In a (c_visited s') /\ c_heap s' !! a = c_heap s !! a
  /\ (forall d, In d (c_visited s) -> In d (c_visited s'))
  /\ (forall d, v = VObj d -> In d (c_visited s')).
Proof.
  intros Hs Ha Hrun. destruct (Hrec v s s') as [Hsw Hv]; [apply Hs | exact Hrun|].
  split; [eapply sweeping_call; eauto|].
  destruct Hsw as (_ & B2 & C2 & _).
  split; [apply B2, Ha|]. split; [apply C2, Ha|]. split; [exact B2 | exact Hv].
Qed.

(** One entry of the map [a]. *)
Lemma cleanEntry_step a s0 kv rem s s' fsa :
  sweeping R rfs [a] s0 s -> In a (c_visited s) -> ~ In a (c_visited s0) ->
  c_heap s !! a = Some (OMap fsa) ->
  pending rfs (kv :: rem) fsa -> awaiting (c_visited s) (kv :: rem) fsa ->
  (a = R -> fst kv <> "$ref") ->
  cleanEntry rec (VObj a) (VObj R) kv s = (Ok tt, s') ->
  sweeping R rfs [a] s0 s' /\ In a (c_visited s')
  /\ exists fsa', c_heap s' !! a = Some (OMap fsa') /\ pending rfs rem fsa'
                  /\ awaiting (c_visited s') rem fsa'.
Proof.
  intros Hs Ha Hnot Hfsa Hpend Hwait HaR Hrun. destruct kv as [k v].
  unfold cleanEntry in Hrun. cbn [fst snd] in Hrun, HaR.
  assert (Hsame : s' = s -> (forall d, v <> VObj d) -> pending rfs rem fsa ->
            sweeping R rfs [a] s0 s' /\ In a (c_visited s')
            /\ exists fsa', c_heap s' !! a = Some (OMap fsa') /\ pending rfs rem fsa'
                            /\ awaiting (c_visited s') rem fsa').
  { intros -> Hv Hp. split; [exact Hs|]. split; [exact Ha|]. exists fsa.
    split; [exact Hfsa|]. split; [exact Hp|].
    intros k' d Hin. destruct (Hwait k' d Hin) as [Hd | [Heq | Hrem]]; [left; exact Hd | | right; exact Hrem].
    injection Heq as _ Hvd. exfalso. exact (Hv d Hvd). }
  assert (Hcall : (forall x, v <> VStr x) -> rec v s = (Ok tt, s') ->
            sweeping R rfs [a] s0 s' /\ In a (c_visited s')
            /\ exists fsa', c_heap s' !! a = Some (OMap fsa') /\ pending rfs rem fsa'
                            /\ awaiting (c_visited s') rem fsa').
  { intros Hv Hw. destruct (rec_call a s0 s s' v Hs Ha Hw) as (Hs' & Ha' & Heq & Hmono & Hvis).
    split; [exact Hs'|]. split; [exact Ha'|]. exists fsa. split; [rewrite Heq; exact Hfsa|].
    split.
    - apply (pending_skip rfs k v); [exact Hpend|].
      intros x Hkv _ _. injection Hkv as _ Hx. exact (Hv x Hx).
    - intros k' d Hin. destruct (Hwait k' d Hin) as [Hd | [Hkv | Hrem]];
        [left; apply Hmono; exact Hd | | right; exact Hrem].
      injection Hkv as _ Hvd. left. apply Hvis. exact Hvd. }
  destruct v as [| | | |value|b]; cbn [typeof_object when] in Hrun;
    try (injection Hrun as <-; apply Hsame; [reflexivity | intros d; discriminate |];
         apply (pending_skip rfs k _ rem fsa Hpend); intros x [= ]);
    try (apply Hcall; [intros x; discriminate | exact Hrun]).
  assert (Hwait' : forall fsa', (forall k' d, In (k', VObj d) fsa' -> In (k', VObj d) fsa) ->
                                awaiting (c_visited s) rem fsa').
  { intros fsa' Hsub k' d Hin. destruct (Hwait k' d (Hsub k' d Hin)) as [Hd | [Hkv | Hrem]];
      [left; exact Hd | discriminate Hkv | right; exact Hrem]. }
  destruct (String.eqb k "$ref" && Str.startsWith value schemasPrefix) eqn:E.
  - apply andb_true_iff in E. destruct E as [Ek Epre]. apply String.eqb_eq in Ek. subst k.
    erewrite bind_eval in Hrun by (apply isBroken_eval; apply Hs).
    destruct (brokenRef rfs value) eqn:Hb; cbn [when] in Hrun.
    + assert (HneR : a <> R) by (intros Heq; exact (HaR Heq eq_refl)).
      assert (Hdel : delp (VObj a) "$ref" s
                     = (Ok tt, mkC (<[a := OMap (fdel fsa "$ref")]> (c_heap s)) (c_visited s))).
      { unfold delp, writing. cbn [heap_of with_heap cstate_Store].
        rewrite (js_delete_map _ _ _ _ Hfsa). reflexivity. }
      erewrite bind_eval in Hrun by exact Hdel.
      assert (Hlt : a < List.length (c_heap s)) by (eapply heap_lookup_lt; eauto).
      assert (Hkeys : keys (VObj a)
                        (mkC (<[a := OMap (fdel fsa "$ref")]> (c_heap s)) (c_visited s))
                      = (Ok (List.map fst (fdel fsa "$ref")),
                         mkC (<[a := OMap (fdel fsa "$ref")]> (c_heap s)) (c_visited s))).
      { unfold keys. erewrite bind_eval; [reflexivity|].
        unfold entries, reading. cbn [heap_of cstate_Store c_heap js_entries].
        rewrite heap_insert_same by exact Hlt. reflexivity. }
      erewrite bind_eval in Hrun by exact Hkeys.
      assert (Hsubdel : forall k' d, In (k', VObj d) (fdel fsa "$ref") -> In (k', VObj d) fsa).
      { intros k' d Hin. unfold fdel in Hin. apply filter_In in Hin. apply Hin. }
      destruct (Nat.eqb (List.length (List.map fst (fdel fsa "$ref"))) 0); cbn [when] in Hrun.
      * unfold setp, writing in Hrun. cbn [heap_of with_heap cstate_Store c_heap] in Hrun.
        rewrite (js_set_map _ a (fdel fsa "$ref")) in Hrun
          by (apply heap_insert_same; exact Hlt).
        rewrite heap_insert_insert in Hrun. injection Hrun as <-.
        split; [apply sweeping_update; assumption|]. split; [exact Ha|].
        eexists. split; [cbn [c_heap]; apply heap_insert_same; exact Hlt|]. split.
        -- apply pending_none. rewrite fget_fset_ne by discriminate. apply fget_fdel_eq.
        -- cbn [c_visited]. apply Hwait'. intros k' d Hin. apply Hsubdel.
           apply In_fset in Hin. destruct Hin as [Heq | Hin]; [discriminate Heq | exact Hin].
      * injection Hrun as <-.
        split; [apply sweeping_update; assumption|]. split; [exact Ha|].
        eexists. split; [cbn [c_heap]; apply heap_insert_same; exact Hlt|]. split.
        -- apply pending_none. apply fget_fdel_eq.
        -- cbn [c_visited]. apply Hwait'. exact Hsubdel.
    + injection Hrun as <-. apply Hsame; [reflexivity | intros d; discriminate |].
      apply (pending_skip rfs "$ref" (VStr value)); [exact Hpend|].
      intros x [= <-] _ Hbx. congruence.
  - injection Hrun as <-. apply Hsame; [reflexivity | intros d; discriminate |].
    apply (pending_skip rfs k (VStr value)); [exact Hpend|].
    intros x [= -> <-] Hpre _. rewrite Hpre in E. discriminate E.
Qed.

Lemma cleanEntries_loop a s0 rem :
  forall s s' fsa,
    sweeping R rfs [a] s0 s -> In a (c_visited s) -> ~ In a (c_visited s0) ->
    c_heap s !! a = Some (OMap fsa) ->
    pending rfs rem fsa -> awaiting (c_visited s) rem fsa ->
    (a = R -> forall kv, In kv rem -> fst kv <> "$ref") ->
    forEach rem (cleanEntry rec (VObj a) (VObj R)) s = (Ok tt, s') ->
    sweeping R rfs [a] s0 s' /\ In a (c_visited s')
    /\ exists fsa', c_heap s' !! a = Some (OMap fsa') /\ pending rfs [] fsa'
                    /\ awaiting (c_visited s') [] fsa'.
Proof.
  induction rem as [|kv rem IH]; intros s s' fsa Hs Ha Hnot Hfsa Hpend Hwait HaR Hrun.
  - injection Hrun as <-. split; [exact Hs|]. split; [exact Ha|]. exists fsa.
    split; [exact Hfsa|]. split; assumption.
  - cbn [forEach] in Hrun. apply bind_ok_inv in Hrun. destruct Hrun as ([] & s1 & H1 & H2).
    destruct (cleanEntry_step a s0 kv rem s s1 fsa Hs Ha Hnot Hfsa Hpend Hwait
                (fun Heq => HaR Heq kv (or_introl eq_refl)) H1)
      as (Hs1 & Ha1 & fsa1 & Hfsa1 & Hpend1 & Hwait1).
    apply (IH s1 s' fsa1); try assumption.
    intros Heq kv' Hin. apply (HaR Heq). right. exact Hin.
Qed.

Lemma cleanArray_loop a s0 n :
  forall s s',
    sweeping R rfs [a] s0 s -> In a (c_visited s) -> ~ In a (c_visited s0) ->
    (exists xs, c_heap s !! a = Some (OArr xs)) ->
    cleanArray rec (VObj a) (VObj R) n s = (Ok tt, s') ->
    sweeping R rfs [a] s0 s' /\ In a (c_visited s')
    /\ exists xs', c_heap s' !! a = Some (OArr xs').
Proof.
  induction n as [|i IH]; intros s s' Hs Ha Hnot Harr Hrun.
  - injection Hrun as <-. split; [exact Hs|]. split; assumption.
  - cbn [cleanArray] in Hrun. apply bind_ok_inv in Hrun.
    destruct Hrun as (xs & s1 & Hitems & Hrun).
    apply (readonly_run _ _ _ _ (readonly_items_of (VObj a))) in Hitems. subst s1.
    apply bind_ok_inv in Hrun. destruct Hrun as ([] & s2 & Hbody & Hrest).
    assert (Hstep : sweeping R rfs [a] s0 s2 /\ In a (c_visited s2)
                    /\ exists xs', c_heap s2 !! a = Some (OArr xs')).
    { assert (Hcall : forall w, rec w s = (Ok tt, s2) ->
                sweeping R rfs [a] s0 s2 /\ In a (c_visited s2)
                /\ exists xs', c_heap s2 !! a = Some (OArr xs')).
      { intros w Hw. destruct (rec_call a s0 s s2 w Hs Ha Hw) as (Hs' & Ha' & Heq & _).
        split; [exact Hs'|]. split; [exact Ha'|]. rewrite Heq. exact Harr. }
      destruct (truthy (nth_val xs i) && typeof_object (nth_val xs i)).
      - apply bind_ok_inv in Hbody. destruct Hbody as (rv & s3 & Hget & Hbody).
        apply getp_run in Hget. destruct Hget as [-> _].
        destruct (truthy rv); [|apply (Hcall _ Hbody)].
        destruct rv as [| | | |rs|]; try discriminate Hbody.
        erewrite bind_eval in Hbody by (apply isBroken_eval; apply Hs).
        destruct (brokenRef rfs rs); cbn [when] in Hbody.
        + destruct Harr as (ys & Hys).
          unfold writing, js_splice1 in Hbody. cbn [heap_of with_heap cstate_Store] in Hbody.
          rewrite Hys in Hbody. injection Hbody as <-.
          split; [apply sweeping_update; [exact Hs | exact Hnot |]|].
          * intros ->. destruct Hs as (HR & _). congruence.
          * split; [exact Ha|]. eexists. cbn [c_heap]. apply heap_insert_same.
            eapply heap_lookup_lt; eauto.
        + injection Hbody as <-. split; [exact Hs|]. split; assumption.
      - destruct (typeof_object (nth_val xs i)); cbn [when] in Hbody;
          [apply (Hcall _ Hbody)|].
        injection Hbody as <-. split; [exact Hs|]. split; assumption. }
    destruct Hstep as (Hs2 & Ha2 & Harr2). exact (IH s2 s' Hs2 Ha2 Hnot Harr2 Hrest).
Qed.

End Frame.

(** A sweep that returns has visited the object it was given and the
    objects held in the fields of the maps it visited, has left every
    object it visited clean, and the registry as it was. *)
Lemma cleanBrokenRefs_swept fuel :
  forall obj s0 s,
    c_heap s0 !! R = Some (OMap rfs) ->
    cleanBrokenRefs fuel (VObj R) obj s0 = (Ok tt, s) ->
    sweeping R rfs [] s0 s /\ (forall d, obj = VObj d -> In d (c_visited s)).
Proof.
  induction fuel as [|fuel IH]; intros obj s0 s HR Hrun; [discriminate Hrun|].
  cbn [cleanBrokenRefs] in Hrun.
  destruct obj as [| | | | |a];
    try (injection Hrun as <-; split; [apply sweeping_refl; exact HR | intros d; discriminate]).
  unfold bind at 1, get_state in Hrun. cbv beta iota in Hrun.
  destruct (existsb (Nat.eqb a) (c_visited s0)) eqn:Evis.
  { injection Hrun as <-. split; [apply sweeping_refl; exact HR|].
    intros d [= <-]. apply existsb_exists in Evis. destruct Evis as (x & Hx & Hax).
    apply Nat.eqb_eq in Hax. subst x. exact Hx. }
  assert (Hnot : ~ In a (c_visited s0)) by (apply existsb_eqb_false; exact Evis).
  assert (Hv : visit a s0 = (Ok tt, mkC (c_heap s0) (a :: c_visited s0))).
  { unfold visit, modify. rewrite Evis. reflexivity. }
  erewrite bind_eval in Hrun by exact Hv.
  erewrite bind_eval in Hrun by apply isArray_eval.
  cbn [heap_of cstate_Store c_heap] in Hrun.
  pose proof (sweeping_visit s0 a HR) as Hs1.
  set (s1 := mkC (c_heap s0) (a :: c_visited s0)) in *.
  assert (Ha1 : In a (c_visited s1)) by (left; reflexivity).
  destruct (is_array (c_heap s0) (VObj a)) eqn:Earr.
  - apply bind_ok_inv in Hrun. destruct Hrun as (n & s2 & Hlen & Hrun).
    assert (s2 = s1).
    { unfold lengthOf in Hlen. apply bind_ok_inv in Hlen.
      destruct Hlen as (xs & s3 & Hitems & Hret).
      apply (readonly_run _ _ _ _ (readonly_items_of (VObj a))) in Hitems.
      injection Hret as _ <-. exact Hitems. }
    subst s2.
    assert (Harr : exists xs, c_heap s1 !! a = Some (OArr xs)).
    { cbn [s1 c_heap]. simpl in Earr.
      destruct (c_heap s0 !! a) as [[fs|xs]|]; try discriminate. exists xs. reflexivity. }
    destruct (cleanArray_loop _ IH a s0 n s1 s Hs1 Ha1 Hnot Harr Hrun)
      as (Hs & Ha & xs' & Hxs).
    split; [|intros d [= <-]; exact Ha].
    apply (sweeping_done a s0 s Hs).
    + intros o Ho. rewrite Hxs in Ho. injection Ho as <-. exact I.
    + intros fs k d Ho. rewrite Hxs in Ho. discriminate Ho.
  - apply bind_ok_inv in Hrun. destruct Hrun as (es & s2 & Hes & Hrun).
    unfold entries, reading in Hes. cbn [heap_of cstate_Store s1 c_heap js_entries] in Hes.
    simpl in Earr.
    destruct (c_heap s0 !! a) as [[fs|xs]|] eqn:Hfs; try discriminate.
    injection Hes as <- <-.
    destruct (cleanEntries_loop _ IH a s0 fs s1 s fs Hs1 Ha1 Hnot Hfs)
      as (Hs & Ha & fsa' & Hfsa' & Hp & Hw); [| | |exact Hrun|].
    + intros x Hx _ _. apply fget_In; [exact Hx | discriminate].
    + intros k d Hin. right. exact Hin.
    + intros -> kv Hin Hk. rewrite HR in Hfs. injection Hfs as <-.
      destruct kv as [k v]. simpl in Hk. subst k.
      apply In_fkeys in Hin. apply fhas_In in Hin. congruence.
    + split; [|intros d [= <-]; exact Ha].
      apply (sweeping_done a s0 s Hs).
      * intros o Ho. rewrite Hfsa' in Ho. injection Ho as <-.
        intros x Hx Hpre. destruct (brokenRef rfs x) eqn:Hb; [|reflexivity].
        destruct (Hp x Hx Hpre Hb).
      * intros fs' k d Ho Hin. rewrite Hfsa' in Ho. injection Ho as <-.
        destruct (Hw k d Hin) as [Hd | []]. exact Hd.
Qed.

End Sweep.



(** ** JSON pointers: [decodePointerSegment] and [resolveJsonPointerWithParent] *)

Lemma replace_tilde1_plain s : Str.includes "~" s = false -> Str.replace_tilde1 s = s.
Proof.
  induction s as [|a s IH]; [reflexivity|]. cbn [Str.includes].
  destruct (Ascii.eqb a "~") eqn:E; [discriminate|]. intros Hs.
  assert (Hstep : Str.replace_tilde1 (String a s) = String a (Str.replace_tilde1 s)).
  { destruct a as [[] [] [] [] [] [] [] []]; try reflexivity. discriminate E. }
  rewrite Hstep, (IH Hs). reflexivity.
Qed.

Lemma replace_tilde0_plain s : Str.includes "~" s = false -> Str.replace_tilde0 s = s.
Proof.
  induction s as [|a s IH]; [reflexivity|]. cbn [Str.includes].
  destruct (Ascii.eqb a "~") eqn:E; [discriminate|]. intros Hs.
  assert (Hstep : Str.replace_tilde0 (String a s) = String a (Str.replace_tilde0 s)).
  { destruct a as [[] [] [] [] [] [] [] []]; try reflexivity. discriminate E. }
  rewrite Hstep, (IH Hs). reflexivity.
Qed.

(** X1: a pointer segment that holds no [~] is decoded to itself. *)
Theorem decodePointerSegment_plain (segment : string) :
  Str.includes "~" segment = false -> decodePointerSegment segment = segment.
Proof.
  intros Hs. unfold decodePointerSegment.
  rewrite (replace_tilde1_plain _ Hs). apply replace_tilde0_plain. exact Hs.
Qed.

Lemma decodePointerSegment_plain_witness :
  Str.includes "~" "properties" = false
  /\ decodePointerSegment "properties" = "properties".
Proof.
  split; [reflexivity|]. apply (decodePointerSegment_plain "properties"). reflexivity.
Defined.

Lemma split_plain c s : Str.includes c s = false -> Str.split c s = [s].
Proof.
  induction s as [|a s IH]; [reflexivity|]. cbn [Str.includes Str.split].
  destruct (Ascii.eqb a c); [discriminate|]. intros Hs. rewrite (IH Hs). reflexivity.
Qed.

Lemma walk_place (h : heap) segs :
  forall cur par key p k v,
    (segs = [] -> js_get h par key = Ok cur) ->
    walkPointer h segs cur par key = Ok (Some (p, k, v)) ->
    js_get h p k = Ok v /\ exists a, p = VObj a.
Proof.
  induction segs as [|s rest IH]; intros cur par key p k v Hlast Hwalk.
  - cbn [walkPointer] in Hwalk.
    destruct (negb (truthy par) || negb (typeof_object par)) eqn:E; [discriminate|].
    injection Hwalk as <- <- <-. split; [apply Hlast; reflexivity|].
    destruct par as [| | | | |a]; simpl in E; rewrite ?orb_true_r in E; try discriminate.
    exists a. reflexivity.
  - cbn [walkPointer] in Hwalk.
    assert (Hstep : exists next, js_get h cur s = Ok next
                                 /\ walkPointer h rest next cur s = Ok (Some (p, k, v))).
    { destruct cur; try discriminate Hwalk;
        (destruct (js_get h _ s) as [next|e] eqn:Hg; [|discriminate Hwalk]);
        exists next; (split; [reflexivity | exact Hwalk]). }
    destruct Hstep as (next & Hg & Hrest).
    apply (IH next cur s p k v); [intros _; exact Hg | exact Hrest].
Qed.





(** ** More on the normalizer: names, the registry, what is kept *)

Lemma uniqueName_nonempty fuel candidate counter u0 names u :
  Str.nonempty candidate = true -> Str.nonempty u0 = true ->
  uniqueName fuel candidate counter u0 names = Ok u -> Str.nonempty u = true.
Proof.
  intros Hc. revert counter u0. induction fuel as [|fuel IH]; intros counter u0 Hu0; simpl.
  - destruct (mem_string u0 names); [discriminate | intros [= <-]; exact Hu0].
  - destruct (mem_string u0 names); [|intros [= <-]; exact Hu0].
    apply IH. destruct candidate; [discriminate Hc | reflexivity].
Qed.

(** X4: the name [generateComponentName] returns is not empty and was not
    in use; it is then in use, and nothing else has changed. When the
    function fails, nothing has changed. *)
Theorem generateComponentName_fresh (fuel : nat) (contextName : val) (pointer : string)
    (s : nstate) :
  match generateComponentName fuel contextName pointer s with
  | (Ok name, s') =>
      Str.nonempty name = true
      /\ mem_string name (existingNames s) = false
      /\ s' = mkN (n_heap s) (pointerToComponent s) (existingNames s ++ [name])
                  (visitedSchemas s) (hoistedCount s)
  | (Fail _, s') => s' = s
  end.
Proof.
  unfold generateComponentName. unfold bind at 1.
  pose proof (readonly_toPascalCase (js_or contextName (VStr EmptyString)) s) as Hro.
  destruct (toPascalCase (js_or contextName (VStr EmptyString)) s) as [[cs|e] s1];
    simpl in Hro; subst s1; [|reflexivity].
  cbv zeta. unfold bind, get_state, of_outcome.
  match goal with |- context [uniqueName ?f ?c ?n ?u ?ns] =>
    assert (Hc : Str.nonempty c = true);
    [|destruct (uniqueName f c n u ns) as [u1|e] eqn:Hu; [|reflexivity]] end.
  { match goal with |- Str.nonempty (if Str.nonempty ?x then _ else _) = true =>
      destruct (Str.nonempty x) eqn:E; [exact E | reflexivity] end. }
  pose proof (uniqueName_nonempty _ _ _ _ _ _ Hc Hc Hu) as Hne.
  apply uniqueName_fresh in Hu. unfold addName, modify, ret.
  cbn [existingNames n_heap pointerToComponent visitedSchemas hoistedCount].
  rewrite Hu. split; [exact Hne|]. split; reflexivity.
Qed.

Lemma normalizeRun_keeps fuel (h : heap) r rfs c cfs g gfs :
  h !! r = Some (OMap rfs) -> fget rfs "components" = VObj c ->
  h !! c = Some (OMap cfs) -> fget cfs "schemas" = VObj g ->
  h !! g = Some (OMap gfs) ->
  edgesApartb r c h = true -> allGoodRefsb h = true ->
  grows h (n_heap (snd (normalizeRun fuel (VObj r) h))).
Proof.
  intros Hr Hrc Hc Hcg Hg He Hgood.
  unfold normalizeRun. cbn [truthy typeof_object negb orb]. unfold normalizeBody.
  erewrite bind_eval by (eapply ensureRegistry_present; eassumption).
  unfold initialNstate. cbn [n_heap pointerToComponent visitedSchemas hoistedCount].
  set (s0 := mkN h [] (fkeys gfs) [] 0).
  assert (W0 : wf r c g (fkeys gfs) (List.length gfs) s0).
  { constructor; cbn [s0 n_heap pointerToComponent existingNames hoistedCount].
    - exists rfs. split; assumption.
    - exists cfs. split; assumption.
    - exists gfs. split; [exact Hg|]. split; [|split].
      + intros k Hk. apply mem_string_In, fhas_In, Hk.
      + lia.
      + intros k Hk. left. exact Hk.
    - constructor.
    - simpl. lia.
    - apply edgesApartb_sound. exact He.
    - apply allGoodRefsb_sound. exact Hgood. }
  assert (Hps : forall f schema contextName,
            inv (keeps r c g (fkeys gfs) (List.length gfs) s0)
                (processSchema f (VObj r) schema contextName)).
  { intros f schema contextName. apply keeps_inv. intros s W.
    apply (proj1 (normalizer_keeps r c g (fkeys gfs) (List.length gfs) f)). exact W. }
  destruct (inv_traverseDocument _ (VObj r) Hps fuel s0
              (keeps_refl r c g (fkeys gfs) (List.length gfs) s0 W0)) as [_ G].
  exact G.
Qed.

(** X5: the normalizer removes no object and no property: on a document
    whose schema registry exists, in which nothing refers to the root or,
    but for the root, to the components object, and no [$ref] is
    [#/components] or [#/components/schemas], every object of the document
    is there when the normalizer ends, returning or failing, with every
    property name it had. *)
Theorem normalizer_removes_nothing (fuel : nat) (h : heap) r rfs c cfs g gfs a fs :
  h !! r = Some (OMap rfs) -> fget rfs "components" = VObj c ->
  h !! c = Some (OMap cfs) -> fget cfs "schemas" = VObj g ->
  h !! g = Some (OMap gfs) ->
  edgesApartb r c h = true -> allGoodRefsb h = true ->
  h !! a = Some (OMap fs) ->
  exists fs',
    n_heap (snd (normalizeRun fuel (VObj r) h)) !! a = Some (OMap fs')
    /\ forall k, fhas fs k = true -> fhas fs' k = true.
Proof.
  intros Hr Hrc Hc Hcg Hg He Hgood Ha.
  exact (normalizeRun_keeps fuel h r rfs c cfs g gfs Hr Hrc Hc Hcg Hg He Hgood a fs Ha).
Qed.

Lemma normalizer_removes_nothing_witness :
  fst (normalizeRun 50 (VObj 9) (snd (load sharedDocument []))) = Ok tt
  /\ exists fs',
       n_heap (snd (normalizeRun 50 (VObj 9) (snd (load sharedDocument [])))) !! 5
       = Some (OMap fs')
       /\ forall k, fhas [("p", VObj 3); ("q", VObj 4)] k = true -> fhas fs' k = true.
Proof.
  split; [vm_compute; reflexivity|].
  apply (normalizer_removes_nothing 50 (snd (load sharedDocument [])) 9
           [("components", VObj 8)] 8 [("schemas", VObj 7)] 7
           [("A", VObj 2); ("C", VObj 6)] 5 [("p", VObj 3); ("q", VObj 4)]); reflexivity.
Defined.

(** X6: [normalizeSchemaRefs] gives a document that has no [components] an
    empty schema registry: the root gets a new [components] object, which
    gets a new, empty [schemas] object; no name is in use, the other
    properties of the root and the other objects are as they were. *)
Theorem ensureRegistry_creates (s : nstate) (r : nat) (rfs : list (string * val)) :
  n_heap s !! r = Some (OMap rfs) ->
  truthy (fget rfs "components") = false ->
  exists s',
    ensureRegistry (VObj r) s = (Ok tt, s')
    /\ registryOf (n_heap s') (VObj r) = Ok []
    /\ existingNames s' = []
    /\ n_heap s' !! r
       = Some (OMap (fset rfs "components" (VObj (List.length (n_heap s)))))
    /\ (forall a, a < List.length (n_heap s) -> a <> r -> n_heap s' !! a = n_heap s !! a).
Proof.
  intros Hr Hfalsy.
  assert (Hrlt : r < List.length (n_heap s)) by (eapply heap_lookup_lt; eauto).
  set (c := List.length (n_heap s)).
  set (h1 := n_heap s ++ [OMap []]).
  set (h2 := <[r := OMap (fset rfs "components" (VObj c))]> h1).
  set (h3 := h2 ++ [OMap []]).
  set (h4 := <[c := OMap [("schemas", VObj (S c))]]> h3).
  assert (Hl1 : List.length h1 = S c) by (unfold h1; rewrite length_app; simpl; lia).
  assert (Hl2 : List.length h2 = S c) by (unfold h2; rewrite length_insert; exact Hl1).
  assert (Hl3 : List.length h3 = S (S c)) by (unfold h3; rewrite length_app; simpl; lia).
  assert (H1r : h1 !! r = Some (OMap rfs))
    by (unfold h1; rewrite lookup_app_l by exact Hrlt; exact Hr).
  assert (H2r : h2 !! r = Some (OMap (fset rfs "components" (VObj c))))
    by (unfold h2; apply heap_insert_same; lia).
  assert (H2c : h2 !! c = Some (OMap [])).
  { unfold h2. rewrite list_lookup_insert_ne by lia. unfold h1.
    rewrite lookup_app_r by (unfold c; lia). replace (c - List.length (n_heap s)) with 0
      by (unfold c; lia). reflexivity. }
  assert (H3r : h3 !! r = Some (OMap (fset rfs "components" (VObj c))))
    by (unfold h3; rewrite lookup_app_l by lia; exact H2r).
  assert (H3c : h3 !! c = Some (OMap []))
    by (unfold h3; rewrite lookup_app_l by lia; exact H2c).
  assert (H4r : h4 !! r = Some (OMap (fset rfs "components" (VObj c))))
    by (unfold h4; rewrite list_lookup_insert_ne by lia; exact H3r).
  assert (H4c : h4 !! c = Some (OMap [("schemas", VObj (S c))]))
    by (unfold h4; apply heap_insert_same; lia).
  assert (H4g : h4 !! S c = Some (OMap [])).
  { unfold h4. rewrite list_lookup_insert_ne by lia. unfold h3.
    rewrite lookup_app_r by lia. rewrite Hl2, Nat.sub_diag. reflexivity. }
  exists (mkN h4 (pointerToComponent s) [] (visitedSchemas s) (hoistedCount s)).
  split; [|split; [|split; [reflexivity | split; [exact H4r|]]]].
  - unfold ensureRegistry.
    erewrite bind_eval
      by (apply getp_eval; cbn [heap_of nstate_Store]; apply js_get_map; exact Hr).
    rewrite Hfalsy. erewrite bind_eval by reflexivity.
    erewrite bind_eval
      by (unfold setp, writing; cbn [heap_of with_heap nstate_Store n_heap];
          fold h1; rewrite (js_set_map _ _ _ _ _ H1r); reflexivity).
    fold c h2.
    erewrite bind_eval
      by (apply getp_eval; cbn [heap_of nstate_Store n_heap];
          rewrite (js_get_map _ _ _ _ H2r), fget_fset_eq; reflexivity).
    erewrite bind_eval
      by (apply getp_eval; cbn [heap_of nstate_Store n_heap];
          rewrite (js_get_map _ _ _ _ H2c); reflexivity).
    cbn [fget truthy]. erewrite bind_eval by reflexivity.
    cbn [heap_of with_heap nstate_Store n_heap pointerToComponent existingNames
         visitedSchemas hoistedCount]. fold h3. rewrite Hl2.
    erewrite bind_eval
      by (unfold setp, writing; cbn [heap_of with_heap nstate_Store n_heap];
          rewrite (js_set_map _ _ _ _ _ H3c); reflexivity).
    change (fset [] "schemas" (VObj (S c))) with [("schemas", VObj (S c))]. fold h4.
    cbn [n_heap pointerToComponent existingNames visitedSchemas hoistedCount].
    erewrite bind_eval
      by (apply getp_eval; cbn [heap_of nstate_Store n_heap];
          rewrite (js_get_map _ _ _ _ H4r), fget_fset_eq; reflexivity).
    erewrite bind_eval
      by (apply getp_eval; cbn [heap_of nstate_Store n_heap];
          rewrite (js_get_map _ _ _ _ H4c); reflexivity).
    change (fget [("schemas", VObj (S c))] "schemas") with (VObj (S c)).
    erewrite bind_eval
      by (unfold keys; erewrite bind_eval
            by (unfold entries, reading; cbn [heap_of nstate_Store n_heap js_entries];
                rewrite H4g; reflexivity);
          reflexivity).
    reflexivity.
  - unfold registryOf. cbn [n_heap].
    rewrite (js_get_map _ _ _ _ H4r), fget_fset_eq, (js_get_map _ _ _ _ H4c).
    change (fget [("schemas", VObj (S c))] "schemas") with (VObj (S c)).
    unfold js_entries. rewrite H4g. reflexivity.
  - intros a Halt Har. cbn [n_heap]. unfold h4, h3, h2, h1.
    rewrite list_lookup_insert_ne by (unfold c; lia).
    rewrite lookup_app_l by (rewrite length_insert, length_app; simpl; lia).
    rewrite list_lookup_insert_ne by auto.
    rewrite lookup_app_l by exact Halt. reflexivity.
Qed.

Lemma ensureRegistry_creates_witness :
  exists s',
    ensureRegistry (VObj 0) (mkN [OMap [("openapi", VStr "3.0.0")]] [] [] [] 0) = (Ok tt, s')
    /\ registryOf (n_heap s') (VObj 0) = Ok []
    /\ existingNames s' = []
    /\ n_heap s' !! 0
       = Some (OMap (fset [("openapi", VStr "3.0.0")] "components" (VObj 1)))
    /\ (forall a, a < 1 -> a <> 0 ->
          n_heap s' !! a = [OMap [("openapi", VStr "3.0.0")]] !! a).
Proof.
  apply (ensureRegistry_creates (mkN [OMap [("openapi", VStr "3.0.0")]] [] [] [] 0) 0
           [("openapi", VStr "3.0.0")]); reflexivity.
Defined.

(** ** [deleteUnused], the deletions of [pruneUnusedSchemas] *)

Lemma filter_filter {A : Type} (f g : A -> bool) (l : list A) :
  List.filter f (List.filter g l) = List.filter (fun x => g x && f x) l.
Proof.
  induction l as [|x l IH]; [reflexivity|]. simpl.
  destruct (g x); simpl; [destruct (f x); rewrite IH; reflexivity | exact IH].
Qed.

Lemma filter_all {A : Type} (f : A -> bool) (l : list A) :
  (forall x, In x l -> f x = true) -> List.filter f l = l.
Proof.
  induction l as [|x l IH]; intros Hf; [reflexivity|]. simpl.
  rewrite (Hf x (or_introl eq_refl)), IH; [reflexivity|].
  intros y Hy. apply Hf. right. exact Hy.
Qed.

Lemma mem_string_cons name k ks :
  mem_string name (k :: ks) = String.eqb name k || mem_string name ks.
Proof. reflexivity. Qed.

Lemma deleteUnused_loop (a : nat) (used ks : list string) :
  forall (h : heap) fsa,
    h !! a = Some (OMap fsa) ->
    forEach ks (fun name => when (negb (mem_string name used)) (delp (VObj a) name)) h
    = (Ok tt,
       <[a := OMap (List.filter (fun kv => mem_string (fst kv) used
                                           || negb (mem_string (fst kv) ks)) fsa)]> h).
Proof.
  induction ks as [|k ks IH]; intros h fsa Ha.
  - cbn [forEach]. rewrite filter_all by (intros x _; apply orb_true_r).
    rewrite list_insert_id by exact Ha. reflexivity.
  - cbn [forEach]. destruct (mem_string k used) eqn:Ek; cbn [negb when].
    + erewrite bind_eval by reflexivity. rewrite (IH h fsa Ha). f_equal. f_equal. f_equal.
      apply filter_ext. intros [name v]. cbn [fst]. rewrite (mem_string_cons name k ks).
      destruct (String.eqb name k) eqn:En; [|reflexivity].
      apply String.eqb_eq in En. subst name. rewrite Ek. reflexivity.
    + assert (Hdel : delp (VObj a) k h = (Ok tt, <[a := OMap (fdel fsa k)]> h)).
      { unfold delp, writing. cbn [heap_of with_heap heap_Store].
        rewrite (js_delete_map _ _ _ _ Ha). reflexivity. }
      erewrite bind_eval by exact Hdel.
      rewrite (IH _ (fdel fsa k))
        by (apply heap_insert_same; eapply heap_lookup_lt; eauto).
      rewrite heap_insert_insert. f_equal. f_equal. f_equal.
      unfold fdel. rewrite filter_filter. apply filter_ext. intros [name v]. cbn [fst].
      rewrite (mem_string_cons name k ks).
      destruct (String.eqb name k) eqn:En; [|reflexivity].
      apply String.eqb_eq in En. subst name. rewrite Ek. reflexivity.
Qed.

(** X7: [deleteUnused] leaves in a section exactly the entries whose names
    are in use, in their order and with their values, and changes no other
    object. *)
Theorem deleteUnused_keeps_used (h : heap) (a : nat) (fs : list (string * val))
    (used : list string) :
  h !! a = Some (OMap fs) ->
  deleteUnused (VObj a) used h
  = (Ok tt, <[a := OMap (List.filter (fun kv => mem_string (fst kv) used) fs)]> h).
Proof.
  intros Ha. unfold deleteUnused.
  assert (Hkeys : keys (VObj a) h = (Ok (List.map fst fs), h)).
  { unfold keys. erewrite bind_eval; [reflexivity|].
    unfold entries, reading. cbn [heap_of heap_Store js_entries]. rewrite Ha. reflexivity. }
  erewrite bind_eval by exact Hkeys.
  rewrite (deleteUnused_loop a used (List.map fst fs) h fs Ha). f_equal. f_equal. f_equal.
  apply filter_ext_in. intros [name v] Hin. cbn [fst].
  rewrite (mem_string_In name (List.map fst fs)); [apply orb_false_r|].
  apply in_map_iff. exists (name, v). split; [reflexivity | exact Hin].
Qed.

Lemma deleteUnused_keeps_used_witness :
  deleteUnused (VObj 7) ["C"] (snd (load sharedDocument []))
  = (Ok tt, <[7 := OMap [("C", VObj 6)]]> (snd (load sharedDocument []))).
Proof.
  apply (deleteUnused_keeps_used (snd (load sharedDocument [])) 7
           [("A", VObj 2); ("C", VObj 6)] ["C"]). reflexivity.
Defined.

(** ** The allow-list check, when every path is there *)

(** X8: when every record of the allow-list names a path that the
    document's [paths] holds, with a path item that is not falsy, the check
    of lines 11-15 passes and leaves everything as it was. *)
Theorem checkEndpoints_all_present (w : world) (openApiSpec : val) (pa : nat)
    (pfs : list (string * val)) (eps : list val) :
  js_get (w_heap w) openApiSpec "paths" = Ok (VObj pa) ->
  w_heap w !! pa = Some (OMap pfs) ->
  Forall (fun ep => exists p, js_get (w_heap w) ep "pathPattern" = Ok (VStr p)
                              /\ truthy (fget pfs p) = true) eps ->
  checkEndpoints openApiSpec eps w = (Ok tt, w).
Proof.
  intros Hpaths Hpa Hall. unfold checkEndpoints.
  induction eps as [|ep eps IH]; [reflexivity|].
  apply List.Forall_cons_iff in Hall. destruct Hall as [(p & Hp & Ht) Hall].
  cbn [forEach]. erewrite bind_eval; [exact (IH Hall)|].
  unfold checkEndpoint.
  erewrite bind_eval by (apply getp_eval; exact Hpaths).
  erewrite bind_eval by (apply getp_eval; exact Hp).
  erewrite bind_eval by reflexivity.
  erewrite bind_eval by (apply getp_eval, js_get_map; exact Hpa).
  rewrite Ht. reflexivity.
Qed.

Lemma checkEndpoints_all_present_witness :
  checkEndpoints (VObj 7) [VObj 0]
    (mkW (snd (load smallDocument (snd (load testEndpoints [])))) None)
  = (Ok tt, mkW (snd (load smallDocument (snd (load testEndpoints [])))) None).
Proof.
  apply (checkEndpoints_all_present
           (mkW (snd (load smallDocument (snd (load testEndpoints [])))) None)
           (VObj 7) 4 [("/test", VObj 3)] [VObj 0]).
  - reflexivity.
  - reflexivity.
  - constructor; [|constructor]. exists "/test". split; reflexivity.
Defined.

(** ** [removeODataTypeRecursively] *)

Lemma fdel_fdel fs k : fdel (fdel fs k) k = fdel fs k.
Proof.
  unfold fdel. rewrite filter_filter. apply filter_ext. intros x.
  destruct (negb (String.eqb (fst x) k)); reflexivity.
Qed.

Lemma stripped_refl h : stripped h h.
Proof. split; [reflexivity | intros a; left; reflexivity]. Qed.

Lemma stripped_delete h0 (h : heap) a fs :
  stripped h0 h -> h !! a = Some (OMap fs) ->
  stripped h0 (<[a := OMap (fdel fs "@odata.type")]> h).
Proof.
  intros [Hlen Hs] Ha. split; [rewrite length_insert; exact Hlen|].
  intros b. destruct (Nat.eq_dec b a) as [->|Hne].
  - right. rewrite heap_insert_same by (eapply heap_lookup_lt; eauto).
    destruct (Hs a) as [Heq | (fs0 & H0 & H1)].
    + exists fs. split; [rewrite <- Heq; exact Ha | reflexivity].
    + exists fs0. split; [exact H0|]. rewrite H1 in Ha. injection Ha as <-.
      rewrite fdel_fdel. reflexivity.
  - rewrite list_lookup_insert_ne by auto. apply Hs.
Qed.

Lemma stripped_trans h0 h1 h2 : stripped h0 h1 -> stripped h1 h2 -> stripped h0 h2.
Proof.
  intros [L1 S1] [L2 S2]. split; [congruence|]. intros a.
  destruct (S2 a) as [E2 | (fs1 & H1 & H2)].
  - rewrite E2. apply S1.
  - right. destruct (S1 a) as [E1 | (fs0 & H0 & H1')].
    + exists fs1. split; [rewrite <- E1; exact H1 | exact H2].
    + exists fs0. split; [exact H0|]. rewrite H1' in H1. injection H1 as <-.
      rewrite fdel_fdel in H2. exact H2.
Qed.

Lemma inv_delp_odata h0 (obj : val) :
  inv (stripped h0) (delp (St := list object) obj "@odata.type").
Proof.
  intros h Hh. unfold delp, writing. cbn [heap_of with_heap heap_Store].
  destruct (js_delete h obj "@odata.type") as [h'|e] eqn:E; cbn [snd]; [|exact Hh].
  destruct obj as [| | | |s|a]; simpl in E; try discriminate;
    try (injection E as <-; exact Hh).
  destruct (h !! a) as [[fs|xs]|] eqn:Ha; [| |discriminate].
  - injection E as <-. apply stripped_delete; assumption.
  - injection E as <-. exact Hh.
Qed.

Lemma removeOData_inv h0 (fuel : nat) :
  forall obj, inv (stripped h0) (removeODataTypeRecursively (St := list object) fuel obj).
Proof.
  induction fuel as [|fuel IH]; intros obj; cbn [removeODataTypeRecursively];
    [apply inv_fail|].
  apply inv_if; [apply inv_ret|].
  apply inv_bind; [apply inv_readonly, readonly_isArray|]. intros isarr.
  apply inv_if; [apply inv_forEach_live; exact IH|].
  apply inv_bind; [apply inv_readonly, readonly_keys|]. intros ks.
  apply inv_forEach. intros key.
  destruct (String.eqb key "@odata.type") eqn:E.
  - apply String.eqb_eq in E. subst key. apply inv_delp_odata.
  - apply inv_bind; [apply inv_readonly, readonly_getp | intros v; apply IH].
Qed.

(** X9: [removeODataTypeRecursively] does nothing but delete [@odata.type]
    properties: when it ends, returning or failing, every object is as it
    was or has lost its [@odata.type] properties only, and no object was
    made. *)
Theorem removeOData_only_strips (fuel : nat) (obj : val) (h : heap) :
  stripped h (snd (removeODataTypeRecursively fuel obj h)).
Proof. apply (removeOData_inv h fuel obj h). apply stripped_refl. Qed.

Lemma stripped_get h1 h2 a k c :
  stripped h1 h2 -> js_get h2 (VObj a) k = Ok (VObj c) -> js_get h1 (VObj a) k = Ok (VObj c).
Proof.
  intros [_ Hs] Hg. destruct (Hs a) as [E | (fs & H1 & H2)].
  - simpl in *. rewrite <- E. exact Hg.
  - rewrite (js_get_map _ _ _ _ H2) in Hg. rewrite (js_get_map _ _ _ _ H1).
    injection Hg as Hg. f_equal.
    destruct (String.eqb "@odata.type" k) eqn:Ek.
    + apply String.eqb_eq in Ek. subst k. rewrite fget_fdel_eq in Hg. discriminate Hg.
    + apply String.eqb_neq in Ek. rewrite fget_fdel_ne in Hg by exact Ek. exact Hg.
Qed.

Lemma stripped_reaches h1 h2 a b : stripped h1 h2 -> reaches h2 a b -> reaches h1 a b.
Proof.
  intros Hs Hr. induction Hr as [a | a k c b Hg _ IH]; [constructor|].
  eapply reaches_step; [eapply stripped_get; eauto | exact IH].
Qed.

Lemma stripped_lacks h1 h2 b : stripped h1 h2 -> lacksOData h1 b -> lacksOData h2 b.
Proof.
  intros [_ Hs] Hl fs Hb. destruct (Hs b) as [E | (fs1 & H1 & H2)].
  - rewrite E in Hb. exact (Hl fs Hb).
  - rewrite H2 in Hb. injection Hb as <-. apply fhas_fdel.
Qed.

Lemma stripped_cleared h1 h2 v : stripped h1 h2 -> cleared h1 v -> cleared h2 v.
Proof.
  intros Hs Hc c b Hv Hr. eapply stripped_lacks; [exact Hs|].
  apply (Hc c b Hv). eapply stripped_reaches; eauto.
Qed.

Lemma stripped_map h0 h1 a fs :
  stripped h0 h1 -> h0 !! a = Some (OMap fs) ->
  exists fs1, h1 !! a = Some (OMap fs1)
              /\ (forall k, k <> "@odata.type" -> fget fs1 k = fget fs k)
              /\ (fhas fs "@odata.type" = false -> fhas fs1 "@odata.type" = false).
Proof.
  intros [_ Hs] Ha. destruct (Hs a) as [E | (fs0 & H0 & H1)].
  - exists fs. split; [rewrite E; exact Ha|]. split; auto.
  - rewrite Ha in H0. injection H0 as <-. exists (fdel fs "@odata.type").
    split; [exact H1|]. split; [|intros _; apply fhas_fdel].
    intros k Hk. apply fget_fdel_ne. congruence.
Qed.

Lemma items_of_run (v : val) (h h' : list object) xs :
  items_of v h = (Ok xs, h') -> h' = h /\ array_items h v = Some xs.
Proof.
  unfold items_of, reading. cbn [heap_of heap_Store].
  destruct v; try discriminate;
    (destruct (array_items h _) as [ys|]; [|discriminate]);
    intros [= <- <-]; split; reflexivity.
Qed.

Section Clearing.
Variable fuel : nat.
Hypothesis IHfuel : forall obj (h h' : list object),
  removeODataTypeRecursively fuel obj h = (Ok tt, h') -> cleared h' obj.

Lemma odata_map_loop (h0 : list object) a fs :
  h0 !! a = Some (OMap fs) ->
  forall ks (h1 h' : list object),
    stripped h0 h1 ->
    forEach ks (fun key =>
      if String.eqb key "@odata.type" then delp (VObj a) key
      else let* v := getp (VObj a) key in removeODataTypeRecursively fuel v) h1
    = (Ok tt, h') ->
    (forall k, In k ks -> k <> "@odata.type" -> cleared h' (fget fs k))
    /\ (In "@odata.type" ks -> lacksOData h' a).
Proof.
  intros Ha. induction ks as [|k ks IH]; intros h1 h' Hs Hrun; [split; intros; contradiction|].
  cbn [forEach] in Hrun. apply bind_ok_inv in Hrun. destruct Hrun as ([] & h2 & Hbody & Hrest).
  assert (Hinv : forall hx key,
            inv (stripped hx)
                (if String.eqb key "@odata.type" then delp (St := list object) (VObj a) key
                 else let* v := getp (VObj a) key in removeODataTypeRecursively fuel v)).
  { intros hx key. destruct (String.eqb key "@odata.type") eqn:E.
    - apply String.eqb_eq in E. subst key. apply inv_delp_odata.
    - apply inv_bind; [apply inv_readonly, readonly_getp | intros v; apply removeOData_inv]. }
  assert (Hs2 : stripped h0 h2).
  { pose proof (Hinv h0 k h1 Hs) as H2. rewrite Hbody in H2. exact H2. }
  assert (Hs' : stripped h2 h').
  { pose proof (inv_forEach (stripped h2) ks _ (Hinv h2) h2 (stripped_refl h2)) as H2.
    rewrite Hrest in H2. exact H2. }
  destruct (IH h2 h' Hs2 Hrest) as [IHc IHl].
  destruct (stripped_map h0 h1 a fs Hs Ha) as (fs1 & Ha1 & Hget1 & _).
  destruct (String.eqb k "@odata.type") eqn:E.
  - apply String.eqb_eq in E. subst k. split.
    + intros k0 [<- | Hin] Hne; [contradiction | exact (IHc k0 Hin Hne)].
    + intros _. apply (stripped_lacks h2 h' a Hs').
      unfold delp, writing in Hbody. cbn [heap_of with_heap heap_Store] in Hbody.
      rewrite (js_delete_map _ _ _ _ Ha1) in Hbody. injection Hbody as <-.
      intros fs2 H2. rewrite heap_insert_same in H2 by (eapply heap_lookup_lt; eauto).
      injection H2 as <-. apply fhas_fdel.
  - apply String.eqb_neq in E. split.
    + intros k0 [<- | Hin] Hne; [|exact (IHc k0 Hin Hne)].
      apply bind_ok_inv in Hbody. destruct Hbody as (v & hx & Hget & Hrec).
      apply getp_run in Hget. destruct Hget as [-> Hget]. cbn [heap_of heap_Store] in Hget.
      rewrite (js_get_map _ _ _ _ Ha1) in Hget. injection Hget as <-.
      rewrite (Hget1 k E) in Hrec.
      apply (stripped_cleared h2 h' _ Hs'). exact (IHfuel _ _ _ Hrec).
    + intros [Heq | Hin]; [congruence | exact (IHl Hin)].
Qed.

Lemma odata_array_loop (h0 : list object) a xs :
  h0 !! a = Some (OArr xs) ->
  forall n i (h1 h' : list object),
    stripped h0 h1 ->
    forEach_from (VObj a) i n (removeODataTypeRecursively fuel) h1 = (Ok tt, h') ->
    forall j x, i <= j < i + n -> xs !! j = Some x -> cleared h' x.
Proof.
  intros Ha. induction n as [|n IH]; intros i h1 h' Hs Hrun j x Hj Hx; [lia|].
  cbn [forEach_from] in Hrun. apply bind_ok_inv in Hrun.
  destruct Hrun as (xs1 & hx & Hitems & Hrun).
  apply items_of_run in Hitems. destruct Hitems as [-> Hitems].
  assert (Hxs : xs1 = xs).
  { destruct Hs as [_ Hs]. simpl in Hitems. destruct (Hs a) as [E | (fs & H0 & _)];
      [|congruence]. rewrite E, Ha in Hitems. congruence. }
  subst xs1. apply bind_ok_inv in Hrun. destruct Hrun as ([] & h2 & Hbody & Hrest).
  assert (Hs2 : stripped h0 h2).
  { destruct (xs !! i) as [y|].
    - pose proof (removeOData_inv h0 fuel y h1 Hs) as H2. rewrite Hbody in H2. exact H2.
    - injection Hbody as <-. exact Hs. }
  destruct (Nat.eq_dec j i) as [->|Hne].
  - rewrite Hx in Hbody.
    assert (Hs' : stripped h2 h').
    { pose proof (inv_forEach_from (stripped h2) (VObj a) (S i) n _
                    (removeOData_inv h2 fuel) h2 (stripped_refl h2)) as H2.
      rewrite Hrest in H2. exact H2. }
    apply (stripped_cleared h2 h' _ Hs'). exact (IHfuel _ _ _ Hbody).
  - apply (IH (S i) h2 h' Hs2 Hrest j x); [lia | exact Hx].
Qed.

End Clearing.

(** X10: when [removeODataTypeRecursively] returns, no object that is
    reached from its argument by property reads has an [@odata.type]
    property. *)
Theorem removeOData_clears (fuel : nat) :
  forall (obj : val) (h h' : list object),
    removeODataTypeRecursively fuel obj h = (Ok tt, h') -> cleared h' obj.
Proof.
  induction fuel as [|fuel IH]; intros obj h h' Hrun; [discriminate Hrun|].
  cbn [removeODataTypeRecursively] in Hrun.
  destruct (negb (truthy obj) || negb (typeof_object obj)) eqn:E.
  { intros c b -> _. discriminate E. }
  destruct obj as [| | | | |a]; try (simpl in E; rewrite ?orb_true_r in E; discriminate E).
  clear E. erewrite bind_eval in Hrun by apply isArray_eval.
  cbn [heap_of heap_Store] in Hrun.
  assert (Hs : stripped h h').
  { pose proof (removeOData_inv h (S fuel) (VObj a) h (stripped_refl h)) as H2.
    cbn [removeODataTypeRecursively truthy typeof_object negb orb] in H2.
    erewrite bind_eval in H2 by apply isArray_eval. cbn [heap_of heap_Store] in H2.
    rewrite Hrun in H2. exact H2. }
  destruct (is_array h (VObj a)) eqn:Earr.
  - simpl in Earr. destruct (h !! a) as [[fs|xs]|] eqn:Ha; try discriminate.
    unfold forEach_live in Hrun. apply bind_ok_inv in Hrun.
    destruct Hrun as (xs1 & hx & Hitems & Hrun).
    apply items_of_run in Hitems. destruct Hitems as [-> Hitems].
    simpl in Hitems. rewrite Ha in Hitems. injection Hitems as <-.
    pose proof (odata_array_loop fuel IH h a xs Ha _ _ h h' (stripped_refl h) Hrun) as Hloop.
    assert (Ha' : h' !! a = Some (OArr xs)).
    { destruct Hs as [_ Hs]. destruct (Hs a) as [Eq | (fs & H0 & _)]; congruence. }
    intros c b [= <-] Hr. destruct Hr as [a | a k c b Hg Hr].
    + intros fs Hb. congruence.
    + simpl in Hg. rewrite Ha' in Hg. injection Hg as Hg.
      unfold indexed_get in Hg. destruct (String.eqb k "length"); [discriminate|].
      destruct (index_of_key k) as [j|]; [|discriminate].
      unfold nth_val in Hg. destruct (xs !! j) as [x|] eqn:Hj; [|discriminate]. subst x.
      assert (Hrange : 0 <= j < 0 + List.length xs)
        by (split; [lia|]; apply lookup_lt_Some in Hj; lia).
      exact (Hloop j (VObj c) Hrange Hj c b eq_refl Hr).
  - simpl in Earr. apply bind_ok_inv in Hrun. destruct Hrun as (ks & hx & Hkeys & Hrun).
    unfold keys in Hkeys. apply bind_ok_inv in Hkeys.
    destruct Hkeys as (es & hy & Hes & Hret). injection Hret as <- <-.
    unfold entries, reading in Hes. cbn [heap_of heap_Store js_entries] in Hes.
    destruct (h !! a) as [[fs|xs]|] eqn:Ha; try discriminate.
    injection Hes as <- <-.
    destruct (odata_map_loop fuel IH h a fs Ha _ h h' (stripped_refl h) Hrun) as [Hc Hl].
    destruct (stripped_map h h' a fs Hs Ha) as (fs' & Ha' & Hget' & Hno').
    assert (Hlack : lacksOData h' a).
    { destruct (fhas fs "@odata.type") eqn:Eh.
      - apply Hl. apply fhas_In. exact Eh.
      - intros fs2 H2. rewrite Ha' in H2. injection H2 as <-. apply Hno'. reflexivity. }
    intros c b [= <-] Hr. destruct Hr as [a | a k c b Hg Hr]; [exact Hlack|].
    rewrite (js_get_map _ _ _ _ Ha') in Hg. injection Hg as Hg.
    assert (Hk : k <> "@odata.type").
    { intros ->. pose proof (fget_fhas fs' _ _ Hg ltac:(discriminate)) as Hh.
      rewrite (Hlack fs' Ha') in Hh. discriminate Hh. }
    rewrite (Hget' k Hk) in Hg.
    assert (Hin : In k (List.map fst fs))
      by (apply fhas_In; eapply fget_fhas; [exact Hg | discriminate]).
    exact (Hc k Hin Hk c b Hg Hr).
Qed.

Lemma removeOData_clears_witness :
  removeODataTypeRecursively 10 (VObj 2) (snd (load odataDocument []))
  = (Ok tt, [OMap [("id", VNum 1)]; OArr [VObj 0]; OMap [("value", VObj 1)]])
  /\ cleared [OMap [("id", VNum 1)]; OArr [VObj 0]; OMap [("value", VObj 1)]] (VObj 2).
Proof.
  split; [vm_compute; reflexivity|].
  apply (removeOData_clears 10 (VObj 2) (snd (load odataDocument []))).
  vm_compute. reflexivity.
Defined.

(** ** [findRefsInObject] *)

(** X11: every reference [findRefsInObject] hands to its callback begins
    with [#/components/schemas/] and is the [$ref] of an object of the
    document; the objects that were visited before are still recorded as
    visited. *)
Theorem findRefsInObject_sound (fuel : nat) (h : heap) :
  forall (obj : val) (visited : list nat) refs visited',
    findRefsInObject fuel h obj visited = Ok (refs, visited') ->
    Forall (heldRef h) refs /\ incl visited visited'.
Proof.
  induction fuel as [|fuel IH]; intros obj visited refs visited' Hrun; [discriminate Hrun|].
  cbn [findRefsInObject] in Hrun.
  destruct obj as [| | | | |a];
    try (injection Hrun as <- <-; split; [constructor | apply incl_refl]).
  destruct (existsb (Nat.eqb a) visited);
    [injection Hrun as <- <-; split; [constructor | apply incl_refl]|].
  assert (Hscan : forall (isArr : bool) vs vis rs vis',
            (isArr = false -> exists fs, h !! a = Some (OMap fs) /\ incl vs fs) ->
            (fix scan (vs : list (string * val)) (isArr : bool) (visited : list nat)
               : outcome (list string * list nat) :=
               match vs with
               | [] => Ok ([], visited)
               | (key, value) :: vs' =>
                   match
                     match value with
                     | VStr r =>
                         if negb isArr && String.eqb key "$ref"
                            && Str.startsWith r schemasPrefix
                         then Ok ([r], visited) else Ok ([], visited)
                     | _ =>
                         if typeof_object value
                         then findRefsInObject fuel h value visited
                         else Ok ([], visited)
                     end
                   with
                   | Ok (refs1, visited1) =>
                       match scan vs' isArr visited1 with
                       | Ok (refs2, visited2) => Ok (refs1 ++ refs2, visited2)
                       | Fail e => Fail e
                       end
                   | Fail e => Fail e
                   end
               end) vs isArr vis = Ok (rs, vis') ->
            Forall (heldRef h) rs /\ incl vis vis').
  { intros isArr vs. induction vs as [|[key value] vs IHvs]; intros vis rs vis' Hfs Hs.
    - injection Hs as <- <-. split; [constructor | apply incl_refl].
    - match type of Hs with
      | match ?here with _ => _ end = _ => destruct here as [[refs1 visited1]|e] eqn:Hhere
      end; [|discriminate Hs].
      match type of Hs with
      | match ?rest with _ => _ end = _ => destruct rest as [[refs2 visited2]|e] eqn:Hrest
      end; [|discriminate Hs].
      injection Hs as <- <-.
      assert (Hfs' : isArr = false -> exists fs, h !! a = Some (OMap fs) /\ incl vs fs).
      { intros Hi. destruct (Hfs Hi) as (fs & Ha & Hincl). exists fs. split; [exact Ha|].
        intros x Hx. apply Hincl. right. exact Hx. }
      destruct (IHvs visited1 refs2 visited2 Hfs' Hrest) as [F2 I2].
      assert (H1 : Forall (heldRef h) refs1 /\ incl vis visited1).
      { destruct value as [| | | |r|b]; cbn [typeof_object] in Hhere;
          try (injection Hhere as <- <-; split; [constructor | apply incl_refl]);
          try (exact (IH _ _ _ _ Hhere)).
        destruct (negb isArr && String.eqb key "$ref" && Str.startsWith r schemasPrefix)
          eqn:E; injection Hhere as <- <-; (split; [|apply incl_refl]); [|constructor].
        apply andb_true_iff in E. destruct E as [E Epre].
        apply andb_true_iff in E. destruct E as [Earr Ekey].
        apply negb_true_iff in Earr. apply String.eqb_eq in Ekey. subst key.
        destruct (Hfs Earr) as (fs & Ha & Hincl).
        constructor; [|constructor]. split; [exact Epre|].
        exists a, fs. split; [exact Ha|]. apply Hincl. left. reflexivity. }
      destruct H1 as [F1 I1]. split; [apply Forall_app; split; assumption|].
      intros x Hx. apply I2, I1, Hx. }
  destruct (h !! a) as [[fs|xs]|] eqn:Ha; [| |discriminate Hrun].
  - destruct (Hscan false fs (a :: visited) refs visited') as [F I'];
      [intros _; exists fs; split; [reflexivity | apply incl_refl] | exact Hrun |].
    split; [exact F|]. intros x Hx. apply I'. right. exact Hx.
  - destruct (Hscan true (List.map (fun x => (EmptyString, x)) xs) (a :: visited)
                    refs visited') as [F I'];
      [intros Hf; discriminate Hf | exact Hrun |].
    split; [exact F|]. intros x Hx. apply I'. right. exact Hx.
Qed.

Lemma findRefsInObject_sound_witness :
  findRefsInObject 10 (snd (load sweptRegistry [])) (VObj 3) []
  = Ok (["#/components/schemas/Gone"; "#/components/schemas/A"], [1; 0; 2; 3])
  /\ Forall (heldRef (snd (load sweptRegistry [])))
            ["#/components/schemas/Gone"; "#/components/schemas/A"]
  /\ incl [] [1; 0; 2; 3].
Proof.
  split; [vm_compute; reflexivity|].
  apply (findRefsInObject_sound 10 (snd (load sweptRegistry [])) (VObj 3) []).
  vm_compute. reflexivity.
Defined.

(** ** [findUsedSchemas] *)

Lemma inv_of_outcome {St A : Type} (I : St -> Prop) (o : outcome A) : inv I (of_outcome o).
Proof. intros s Hs. exact Hs. Qed.

Lemma inv_get_state {St : Type} (I : St -> Prop) : inv I get_state.
Proof. intros s Hs. exact Hs. Qed.

Lemma inv_modify {St : Type} (I : St -> Prop) (f : St -> St) :
  (forall s, I s -> I (f s)) -> inv I (modify f).
Proof. intros Hf s Hs. apply Hf. exact Hs. Qed.

Lemma inv_when_plain {St : Type} (I : St -> Prop) (b : bool) (m : M St unit) :
  inv I m -> inv I (when b m).
Proof. intros Hm. destruct b; [exact Hm | apply inv_ret]. Qed.

Lemma inv_forEach_plain {St A : Type} (I : St -> Prop) (xs : list A) (f : A -> M St unit) :
  (forall x, inv I (f x)) -> inv I (forEach xs f).
Proof.
  intros Hf. induction xs as [|x xs IH]; simpl; [apply inv_ret|].
  apply inv_bind; [apply Hf | intros _; exact IH].
Qed.

Lemma In_add_string x y xs : In x (add_string y xs) -> x = y \/ In x xs.
Proof.
  unfold add_string. destruct (mem_string y xs); [right; assumption|].
  intros Hin. apply in_app_or in Hin. destruct Hin as [Hin | [-> | []]]; auto.
Qed.

Ltac used_step :=
  first
    [ apply inv_ret
    | apply inv_fail
    | apply inv_of_outcome
    | apply inv_get_state
    | apply inv_modify; intros ? ?; assumption
    | apply inv_when_plain
    | apply inv_forEach_plain; intros ?
    | apply inv_bind; [|intros ?]
    | match goal with
      | |- inv _ (if ?b then _ else _) => destruct b
      | |- inv _ (match ?x with _ => _ end) => destruct x
      end ].

Section UsedExist.
Variable h : list object.
Variables schemas responses requestBodies parameters : val.

Lemma inv_processSchemaRefs fuel schema :
  inv (usedExist h schemas) (processSchemaRefs h fuel schema).
Proof. unfold processSchemaRefs, enqueueSchemaRef. repeat used_step. Qed.

Lemma inv_processContent fuel holder :
  inv (usedExist h schemas) (processContent h fuel holder).
Proof.
  unfold processContent, getH, valuesH.
  repeat first [apply inv_processSchemaRefs | used_step].
Qed.

Lemma inv_processResponse fuel :
  forall response, inv (usedExist h schemas) (processResponse h responses fuel response).
Proof.
  induction fuel as [|fuel IH]; intros response; cbn [processResponse]; [apply inv_fail|].
  unfold refName, getH. repeat first [apply IH | apply inv_processContent | used_step].
Qed.

Lemma inv_processRequestBody fuel :
  forall requestBody,
    inv (usedExist h schemas) (processRequestBody h requestBodies fuel requestBody).
Proof.
  induction fuel as [|fuel IH]; intros requestBody; cbn [processRequestBody];
    [apply inv_fail|].
  unfold refName, getH. repeat first [apply IH | apply inv_processContent | used_step].
Qed.

Lemma inv_processParameterRefs fuel :
  forall parameter,
    inv (usedExist h schemas) (processParameterRefs h parameters fuel parameter).
Proof.
  induction fuel as [|fuel IH]; intros parameter; cbn [processParameterRefs];
    [apply inv_fail|].
  unfold refName, getH.
  repeat first [apply IH | apply inv_processContent | apply inv_processSchemaRefs | used_step].
Qed.

Lemma inv_processSchemaName fuel :
  forall schemaName, inv (usedExist h schemas) (processSchemaName h schemas fuel schemaName).
Proof.
  induction fuel as [|fuel IH]; intros schemaName; cbn [processSchemaName];
    [apply inv_fail|].
  apply inv_bind; [apply inv_get_state|]. intros u0.
  destruct (mem_string schemaName (visitedNames u0)); [apply inv_ret|].
  apply inv_bind; [apply inv_modify; intros ? ?; assumption|]. intros _.
  unfold getH at 1. intros u Hu. unfold bind at 1, of_outcome at 1.
  destruct (js_get h schemas schemaName) as [schema|e] eqn:Hget; [|exact Hu].
  destruct (truthy schema) eqn:Ht; cbn [negb]; [|exact Hu].
  revert u Hu. change (inv (usedExist h schemas)
    (modify (fun u => mkU (schemasToProcess u) (visitedResponses u)
                          (visitedRequestBodies u) (visitedParameters u)
                          (visitedNames u) (add_string schemaName (usedSchemas u))) ;;
     let* found := of_outcome (findRefsInObject fuel h schema []) in
     forEach (fst found) (fun ref =>
       let refSchemaName := Str.replace schemasPrefix EmptyString ref in
       let* target := getH h schemas refSchemaName in
       when (truthy target) (processSchemaName h schemas fuel refSchemaName)))).
  apply inv_bind.
  { apply inv_modify. intros u Hu n Hn. cbn [usedSchemas] in Hn.
    apply In_add_string in Hn. destruct Hn as [-> | Hn]; [|exact (Hu n Hn)].
    exists schema. split; assumption. }
  intros _. unfold getH. repeat first [apply IH | used_step].
Qed.

End UsedExist.



(** ** [flattenComplexSchema]: unions of two branches *)

Lemma hasNullableObject_item (h : list object) b fs :
  h !! b = Some (OMap fs) ->
  (let* t := getp (VObj b) "type" in
   if val_eqb t (VStr "object") then
     let* n := getp (VObj b) "nullable" in
     if val_eqb n (VBool true) then
       let* ks := keys (VObj b) in ret (Nat.leb (List.length ks) 2)
     else ret false
   else ret false) h = (Ok (nullableMarker fs), h).
Proof.
  intros Hb. unfold nullableMarker.
  erewrite bind_eval by (apply getp_eval, js_get_map; exact Hb).
  destruct (val_eqb (fget fs "type") (VStr "object")); [|reflexivity].
  erewrite bind_eval by (apply getp_eval, js_get_map; exact Hb).
  destruct (val_eqb (fget fs "nullable") (VBool true)); [|reflexivity].
  unfold keys. erewrite bind_eval.
  2:{ erewrite bind_eval; [reflexivity|].
      unfold entries, reading. cbn [heap_of heap_Store js_entries]. rewrite Hb. reflexivity. }
  cbn [andb ret]. rewrite length_map. reflexivity.
Qed.

(** X13: a schema whose [anyOf] has two branches, a reference and a
    nullable object marker, and which has no [oneOf], becomes that
    reference, nullable: [anyOf] is deleted, [$ref] is the reference of the
    first branch and [nullable] is [true]; nothing else changes. *)
Theorem flatten_ref_or_null (h : list object) (schemaName : string) a fs u b1 fs1 x b2 fs2 :
  h !! a = Some (OMap fs) ->
  fget fs "anyOf" = VObj u ->
  truthy (fget fs "oneOf") = false ->
  h !! u = Some (OArr [VObj b1; VObj b2]) ->
  h !! b1 = Some (OMap fs1) -> fget fs1 "$ref" = VStr x -> Str.nonempty x = true ->
  h !! b2 = Some (OMap fs2) -> nullableMarker fs2 = true ->
  b1 <> a ->
  flattenComplexSchema (VObj a) schemaName h
  = (Ok tt,
     <[a := OMap (fset (fset (fdel fs "anyOf") "$ref" (VStr x)) "nullable" (VBool true))]> h).
Proof.
  intros Ha Hany Hone Hu Hb1 Hx Hne Hb2 Hmark Hba.
  assert (Hlt : a < List.length h) by (eapply heap_lookup_lt; eauto).
  assert (Harr : is_array h (VObj u) = true) by (simpl; rewrite Hu; reflexivity).
  assert (Hitems : forall s : list object, s !! u = Some (OArr [VObj b1; VObj b2]) ->
            items_of (VObj u) s = (Ok [VObj b1; VObj b2], s)).
  { intros s Hs. apply items_of_eval. simpl. rewrite Hs. reflexivity. }
  assert (Href : (let* r := getp (VObj b1) "$ref" in ret (truthy r)) h = (Ok true, h)).
  { erewrite bind_eval by (apply getp_eval, js_get_map; exact Hb1).
    rewrite Hx. cbn [truthy]. rewrite Hne. reflexivity. }
  assert (HhasRef : hasRef [VObj b1; VObj b2] h = (Ok true, h)).
  { unfold hasRef. cbn [some_of]. erewrite bind_eval by exact Href. reflexivity. }
  assert (Hfind : findRef [VObj b1; VObj b2] h = (Ok (VObj b1), h)).
  { unfold findRef. cbn [find_of]. erewrite bind_eval by exact Href. reflexivity. }
  assert (Hnull : hasNullableObject [VObj b1; VObj b2] h = (Ok true, h)).
  { unfold hasNullableObject. cbn [some_of].
    erewrite bind_eval by (apply hasNullableObject_item; exact Hb1).
    destruct (nullableMarker fs1); [reflexivity|].
    erewrite bind_eval by (apply hasNullableObject_item; exact Hb2).
    rewrite Hmark. reflexivity. }
  set (f1 := fdel fs "anyOf").
  set (f2 := fset f1 "$ref" (VStr x)).
  set (f3 := fset f2 "nullable" (VBool true)).
  assert (Hcollapse : collapseRefNullable (VObj a) "anyOf" [VObj b1; VObj b2] h
                      = (Ok tt, <[a := OMap f3]> h)).
  { unfold collapseRefNullable.
    erewrite bind_eval by exact HhasRef. erewrite bind_eval by exact Hnull.
    cbn [andb when]. erewrite bind_eval by exact Hfind.
    erewrite bind_eval
      by (unfold delp, writing; cbn [heap_of with_heap heap_Store];
          rewrite (js_delete_map _ _ _ _ Ha); reflexivity).
    fold f1.
    erewrite bind_eval
      by (apply getp_eval; cbn [heap_of heap_Store]; simpl;
          rewrite list_lookup_insert_ne by auto; rewrite Hb1, Hx; reflexivity).
    erewrite bind_eval
      by (unfold setp, writing; cbn [heap_of with_heap heap_Store];
          rewrite (js_set_map _ a f1) by (apply heap_insert_same; exact Hlt);
          rewrite heap_insert_insert; reflexivity).
    fold f2. unfold setp, writing. cbn [heap_of with_heap heap_Store].
    rewrite (js_set_map _ a f2) by (apply heap_insert_same; exact Hlt).
    rewrite heap_insert_insert. reflexivity. }
  unfold flattenComplexSchema.
  erewrite bind_eval by (apply getp_eval, js_get_map; exact Ha). rewrite Hany.
  erewrite bind_eval by apply isArray_eval. cbn [heap_of heap_Store]. rewrite Harr.
  erewrite bind_eval.
  2:{ cbn [truthy andb when]. unfold lengthOf.
      erewrite bind_eval by (erewrite bind_eval by (apply Hitems; exact Hu); reflexivity).
      cbn [List.length Nat.eqb]. erewrite bind_eval by (apply Hitems; exact Hu).
      exact Hcollapse. }
  erewrite bind_eval
    by (apply getp_eval, js_get_map; apply heap_insert_same; exact Hlt).
  assert (Hone' : fget f3 "oneOf" = fget fs "oneOf").
  { unfold f3, f2, f1. rewrite !fget_fset_ne by discriminate.
    apply fget_fdel_ne. discriminate. }
  rewrite Hone'. erewrite bind_eval by apply isArray_eval. rewrite Hone. reflexivity.
Qed.

Lemma flatten_ref_or_null_witness :
  flattenComplexSchema (VObj 3) "Employee" (snd (load optionalRefSchema []))
  = (Ok tt,
     <[3 := OMap [("description", VStr "The manager");
                  ("$ref", VStr "#/components/schemas/User");
                  ("nullable", VBool true)]]> (snd (load optionalRefSchema []))).
Proof.
  apply (flatten_ref_or_null (snd (load optionalRefSchema [])) "Employee" 3
           [("description", VStr "The manager"); ("anyOf", VObj 2)] 2
           0 [("$ref", VStr "#/components/schemas/User")] "#/components/schemas/User"
           1 [("type", VStr "object"); ("nullable", VBool true)]);
    try reflexivity. discriminate.
Defined.

(** X14: no rule applies to a [oneOf] of two branches or fewer: a schema
    with no [anyOf] whose [oneOf] is such an array is left as it is. *)
Theorem flatten_small_oneOf (h : list object) (schemaName : string) a fs o xs :
  h !! a = Some (OMap fs) ->
  truthy (fget fs "anyOf") = false ->
  fget fs "oneOf" = VObj o ->
  h !! o = Some (OArr xs) -> List.length xs <= 2 ->
  flattenComplexSchema (VObj a) schemaName h = (Ok tt, h).
Proof.
  intros Ha Hany Hone Ho Hlen. unfold flattenComplexSchema.
  erewrite bind_eval by (apply getp_eval, js_get_map; exact Ha).
  erewrite bind_eval by apply isArray_eval. rewrite Hany. cbn [andb when].
  erewrite bind_eval by reflexivity.
  erewrite bind_eval by (apply getp_eval, js_get_map; exact Ha). rewrite Hone.
  erewrite bind_eval by apply isArray_eval. cbn [heap_of heap_Store truthy is_array].
  rewrite Ho. cbn [andb]. unfold lengthOf.
  erewrite bind_eval
    by (erewrite bind_eval by (apply items_of_eval; simpl; rewrite Ho; reflexivity);
        reflexivity).
  assert (Hn : Nat.ltb 2 (List.length xs) = false) by (apply Nat.ltb_ge; exact Hlen).
  rewrite Hn. reflexivity.
Qed.

Lemma flatten_small_oneOf_witness :
  flattenComplexSchema (VObj 3) "Value" (snd (load pairSchema []))
  = (Ok tt, snd (load pairSchema [])).
Proof.
  apply (flatten_small_oneOf (snd (load pairSchema [])) "Value" 3 [("oneOf", VObj 2)] 2
           [VObj 0; VObj 1]); [reflexivity | reflexivity | reflexivity | reflexivity |].
  simpl. lia.
Defined.

(** ** The endpoint filter: the paths that are left *)

Section NamedPaths.
Variable h : list object.
Variables r pa : nat.
Variable endpoints : list val.
Variables rfs pfs : list (string * val).
Hypothesis Hsep : separate h r pa endpoints = true.
Hypothesis Hr : h !! r = Some (OMap rfs).
Hypothesis Hpaths : fget rfs "paths" = VObj pa.
Hypothesis Hpa : h !! pa = Some (OMap pfs).

Lemma filterPath_named (hc hc1 : list object) key value :
  evolves (pa :: fieldAddrs h pa) endpoints r h hc -> In (key, value) pfs ->
  filterPath (VObj r) endpoints (key, value) hc = (Ok tt, hc1) ->
  (forall fs, hc1 !! pa = Some (OMap fs) -> ~ In key (fkeys fs))
  \/ exists ep, In ep endpoints /\ js_get h ep "pathPattern" = Ok (VStr key).
Proof.
  intros Hev Hin Hrun. unfold filterPath in Hrun. cbn [fst snd] in Hrun.
  apply bind_ok_inv in Hrun. destruct Hrun as (e & s1 & Hfilter & Hk).
  destruct (filter_of_pathMatches _ _ _ _ _ Hfilter) as [-> He].
  pose proof Hev as (_ & Hback & Hfwd & Hreads & Hroot).
  destruct e as [|ep0 e'].
  - left. apply bind_ok_inv in Hk. destruct Hk as (paths & s2 & Hg & Hdel).
    apply getp_ok in Hg. destruct Hg as [-> Hg].
    rewrite Hroot, (js_get_map _ _ _ _ Hr), Hpaths in Hg. injection Hg as <-.
    destruct (Hfwd pa pfs (or_introl eq_refl) Hpa) as (fs0 & Hfs0).
    unfold delp, writing in Hdel. cbn [heap_of with_heap heap_Store] in Hdel.
    rewrite (js_delete_map _ _ _ _ Hfs0) in Hdel. injection Hdel as <-.
    intros fs Hfs. rewrite heap_insert_same in Hfs by (eapply heap_lookup_lt; eauto).
    injection Hfs as <-. apply fdel_not_key.
  - right. destruct (He ep0 (or_introl eq_refl)) as [H1 H2]. exists ep0.
    split; [exact H1|].
    rewrite <- (Hreads ep0 "pathPattern" H1) by (left; reflexivity). exact H2.
Qed.

Lemma named_paths_loop (es : list (string * val)) :
  forall (hc h' : list object),
    (forall kv, In kv es -> In kv pfs) ->
    evolves (pa :: fieldAddrs h pa) endpoints r h hc ->
    forEach es (filterPath (VObj r) endpoints) hc = (Ok tt, h') ->
    forall key value, In (key, value) es ->
      (forall fs, h' !! pa = Some (OMap fs) -> ~ In key (fkeys fs))
      \/ exists ep, In ep endpoints /\ js_get h ep "pathPattern" = Ok (VStr key).
Proof.
  induction es as [|[key value] es IH]; intros hc h' Hsub Hev Hrun k v Hkv; [destruct Hkv|].
  simpl in Hrun. apply bind_ok_inv in Hrun. destruct Hrun as ([] & hc1 & Hpath & Hrest).
  assert (Hin : In (key, value) pfs) by (apply Hsub; left; reflexivity).
  destruct (filterPath_post h r pa endpoints rfs pfs Hsep Hr Hpaths Hpa hc hc1 key value
              Hev Hin Hpath) as [Hev1 _].
  assert (Hev' : evolves (pa :: fieldAddrs h pa) endpoints r h hc1)
    by (eapply evolves_trans; eauto).
  assert (Hsub' : forall kv, In kv es -> In kv pfs) by (intros kv Hx; apply Hsub; right; exact Hx).
  destruct Hkv as [[= <- <-] | Hkv]; [|exact (IH hc1 h' Hsub' Hev' Hrest k v Hkv)].
  destruct (filterPath_named hc hc1 key value Hev Hin Hpath) as [Hgone | Hnamed];
    [|right; exact Hnamed].
  left. intros fs Hfs Hk.
  destruct (paths_loop h r pa endpoints rfs pfs Hsep Hr Hpaths Hpa es hc1 h' Hsub' Hev' Hrest)
    as [(_ & Hback & _) _].
  destruct (Hback pa fs (or_introl eq_refl) Hfs) as (fs1 & Hfs1 & Hincl).
  apply (Hgone fs1 Hfs1). eapply fkeys_incl; eauto.
Qed.

End NamedPaths.

(** X15: after the endpoint filter, every path that is left is named by a
    record of the allow-list: a path no record names is deleted. *)
Theorem filterPaths_keeps_named_paths (h h' : list object) (r pa : nat)
    (endpoints : list val) rfs pfs :
  h !! r = Some (OMap rfs) ->
  fget rfs "paths" = VObj pa ->
  h !! pa = Some (OMap pfs) ->
  separate h r pa endpoints = true ->
  filterPaths (VObj r) endpoints h = (Ok tt, h') ->
  forall p pfs',
    h' !! pa = Some (OMap pfs') -> In p (fkeys pfs') ->
    exists ep, In ep endpoints /\ js_get h ep "pathPattern" = Ok (VStr p).
Proof.
  intros Hr Hpaths Hpa Hsep Hrun p pfs' Hpa' Hp.
  unfold filterPaths in Hrun.
  erewrite bind_eval in Hrun
    by (apply getp_eval; cbn [heap_of heap_Store]; rewrite (js_get_map _ _ _ _ Hr), Hpaths;
        reflexivity).
  erewrite bind_eval in Hrun
    by (unfold entries, reading; cbn [heap_of heap_Store js_entries]; rewrite Hpa; reflexivity).
  destruct (paths_loop h r pa endpoints rfs pfs Hsep Hr Hpaths Hpa pfs h h')
    as [(_ & Hback & _) _]; auto; [apply evolves_refl|].
  destruct (Hback pa pfs' (or_introl eq_refl) Hpa') as (pfs0 & Hpfs0 & Hincl).
  rewrite Hpa in Hpfs0. injection Hpfs0 as <-.
  unfold fkeys in Hp. apply in_map_iff in Hp. destruct Hp as ([p' v] & Hfst & Hin).
  cbn [fst] in Hfst. subst p'.
  destruct (named_paths_loop h r pa endpoints rfs pfs Hsep Hr Hpaths Hpa pfs h h'
              ltac:(auto) (evolves_refl _ _ _ _) Hrun p v (Hincl _ Hin)) as [Hgone | Hnamed];
    [|exact Hnamed].
  exfalso. apply (Hgone pfs' Hpa'). eapply In_fkeys; eauto.
Qed.

Lemma filterPaths_keeps_named_paths_witness :
  snd (filterPaths (VObj 12) [VObj 0] (snd (load filterDocument (snd (load testEndpoints [])))))
    !! 9 = Some (OMap [("/test", VObj 6)])
  /\ exists ep, In ep [VObj 0]
                /\ js_get (snd (load filterDocument (snd (load testEndpoints [])))) ep
                          "pathPattern" = Ok (VStr "/test").
Proof.
  split; [vm_compute; reflexivity|].
  apply (filterPaths_keeps_named_paths
           (snd (load filterDocument (snd (load testEndpoints []))))
           (snd (filterPaths (VObj 12) [VObj 0]
                             (snd (load filterDocument (snd (load testEndpoints []))))))
           12 9 [VObj 0]
           [("paths", VObj 9); ("components", VObj 11)]
           [("/test", VObj 6); ("/other", VObj 8)])
    with (pfs' := [("/test", VObj 6)]).
  - reflexivity.
  - reflexivity.
  - reflexivity.
  - reflexivity.
  - vm_compute. reflexivity.
  - vm_compute. reflexivity.
  - left; reflexivity.
Defined.

(** ** The endpoint filter: an operation that is kept *)

Lemma extends_refl h : extends h h.
Proof. intros a o Ha. exact Ha. Qed.

Lemma inv_extends_alloc h0 o : inv (extends h0) (alloc (St := list object) o).
Proof.
  intros s Hs a x Ha. cbn. rewrite lookup_app_l; [apply Hs; exact Ha|].
  eapply heap_lookup_lt. apply Hs. exact Ha.
Qed.

Lemma inv_extends_resolveParameter h0 openApiSpec param :
  inv (extends h0) (resolveParameter (St := list object) openApiSpec param).
Proof.
  unfold resolveParameter.
  apply inv_bind; [apply inv_readonly, readonly_getp|]. intros rv.
  apply inv_if; [|apply inv_ret].
  destruct rv; try apply inv_fail.
  apply inv_if; [|apply inv_ret].
  apply inv_bind; [apply inv_readonly, readonly_getp|]. intros comps.
  apply inv_bind; [apply inv_readonly, readonly_getp_opt|]. intros params.
  apply inv_bind; [apply inv_readonly, readonly_getp_opt|]. intros resolved.
  apply inv_if; [|apply inv_ret].
  apply inv_bind; [apply inv_readonly, readonly_entries|]. intros es.
  apply inv_extends_alloc.
Qed.



(** ** [hoistRef]: a pointer to a schema that is itself a reference *)

(** X17: a pointer that requires hoisting, is not recorded yet, and
    resolves to a schema whose own [$ref] is a reference to a component is
    not hoisted: [hoistRef] returns that reference and records the pointer
    as another name of the component; the document, the names in use and
    the count are as they were. *)
Theorem hoistRef_alias (fuel : nat) (openApiSpec contextName : val) (a : nat) (s : nstate)
    (ref : string) (parent : val) (key : string) (va : nat) (vr : string) :
  js_get (n_heap s) (VObj a) "$ref" = Ok (VStr ref) ->
  shouldHoistRef (VStr ref) = true ->
  memo_get (pointerToComponent s) ref = None ->
  resolveJsonPointerWithParent (n_heap s) openApiSpec (VStr ref)
  = Ok (Some (parent, key, VObj va)) ->
  js_get (n_heap s) (VObj va) "$ref" = Ok (VStr vr) ->
  Str.startsWith vr schemasPrefix = true ->
  shouldHoistRef (VStr vr) = false ->
  hoistRef (S fuel) openApiSpec (VObj a) contextName s
  = (Ok (Some vr),
     mkN (n_heap s)
         (memo_set (pointerToComponent s) ref (Str.replace schemasPrefix EmptyString vr))
         (existingNames s) (visitedSchemas s) (hoistedCount s)).
Proof.
  intros Href Hhoist Hmemo Hres Hvref Hpre Hcanon.
  assert (Halias : aliasTarget (VStr vr) = Some vr).
  { unfold aliasTarget. rewrite Hcanon, Hpre.
    destruct (prefix_inv _ _ Hpre) as [t ->]. reflexivity. }
  cbn [hoistRef].
  erewrite bind_eval by (apply getp_eval; exact Href).
  rewrite Hhoist. cbn [negb].
  erewrite bind_eval by reflexivity. rewrite Hmemo.
  erewrite bind_eval
    by (unfold reading; cbn [heap_of nstate_Store]; rewrite Hres; reflexivity).
  cbv beta iota. cbn [truthy typeof_object negb orb].
  erewrite bind_eval by (apply getp_eval; exact Hvref).
  rewrite Halias. reflexivity.
Qed.

Lemma hoistRef_alias_witness :
  hoistRef 1 (VObj 10) (VObj 4) (VStr "C") (mkN (snd (load aliasDocument [])) [] [] [] 0)
  = (Ok (Some "#/components/schemas/B"),
     mkN (snd (load aliasDocument []))
         [("#/components/schemas/A/properties/x", "B")] [] [] 0).
Proof.
  apply (hoistRef_alias 0 (VObj 10) (VStr "C") 4
           (mkN (snd (load aliasDocument [])) [] [] [] 0)
           "#/components/schemas/A/properties/x" (VObj 2) "x" 1 "#/components/schemas/B");
    reflexivity.
Defined.

(** ** [cloneSchema] shares nothing with the document *)

Lemma copyFields_ok (h0 : list object) (rec : cloner) :
  copierOK h0 rec ->
  forall fs h seen h' seen' fs',
    copying h0 h seen -> cloneFields rec fs h seen = Ok (h', seen', fs') ->
    copying h0 h' seen' /\ List.length h <= List.length h'
    /\ Forall2 (fun kv kv' => fst kv' = fst kv
                              /\ clonedAs (List.length h0) (snd kv) (snd kv')) fs fs'.
Proof.
  intros Hrec. induction fs as [|[k v] fs IH]; intros h seen h' seen' fs' Hc Hrun;
    simpl in Hrun.
  - injection Hrun as <- <- <-. split; [exact Hc | split; [lia | constructor]].
  - destruct (rec h seen v) as [[[h1 seen1] v1]|e] eqn:Hv; [|discriminate].
    destruct (cloneFields rec fs h1 seen1) as [[[h2 seen2] fs2]|e] eqn:Hfs; [|discriminate].
    injection Hrun as <- <- <-.
    destruct (Hrec _ _ _ _ _ _ Hc Hv) as (Hc1 & Hl1 & Hv1).
    destruct (IH _ _ _ _ _ Hc1 Hfs) as (Hc2 & Hl2 & Hall).
    split; [exact Hc2 | split; [lia|]].
    constructor; [split; [reflexivity | exact Hv1] | exact Hall].
Qed.

Lemma copyItems_ok (h0 : list object) (rec : cloner) :
  copierOK h0 rec ->
  forall xs h seen h' seen' xs',
    copying h0 h seen -> cloneItems rec xs h seen = Ok (h', seen', xs') ->
    copying h0 h' seen' /\ List.length h <= List.length h'
    /\ Forall2 (clonedAs (List.length h0)) xs xs'.
Proof.
  intros Hrec. induction xs as [|v xs IH]; intros h seen h' seen' xs' Hc Hrun;
    simpl in Hrun.
  - injection Hrun as <- <- <-. split; [exact Hc | split; [lia | constructor]].
  - destruct (rec h seen v) as [[[h1 seen1] v1]|e] eqn:Hv; [|discriminate].
    destruct (cloneItems rec xs h1 seen1) as [[[h2 seen2] xs2]|e] eqn:Hxs; [|discriminate].
    injection Hrun as <- <- <-.
    destruct (Hrec _ _ _ _ _ _ Hc Hv) as (Hc1 & Hl1 & Hv1).
    destruct (IH _ _ _ _ _ Hc1 Hxs) as (Hc2 & Hl2 & Hall).
    split; [exact Hc2 | split; [lia|]]. constructor; assumption.
Qed.

Lemma copying_reserve (h0 h : list object) seen a o :
  copying h0 h seen -> freshObj (List.length h0) o ->
  copying h0 (h ++ [o]) ((a, List.length h) :: seen).
Proof.
  intros (Hlen & Hold & Hseen & Hfresh) Ho. split; [|split; [|split]].
  - rewrite length_app. lia.
  - intros b Hb. rewrite lookup_app_l by lia. apply Hold; exact Hb.
  - intros o' n [[= <- <-] | Hin]; [exact Hlen | eapply Hseen; eauto].
  - intros b o' Hb Hlook. destruct (Nat.lt_ge_cases b (List.length h)) as [Hlt | Hge].
    + rewrite lookup_app_l in Hlook by exact Hlt. eapply Hfresh; eauto.
    + rewrite lookup_app_r in Hlook by exact Hge.
      destruct (b - List.length h) as [|n]; simpl in Hlook; [|discriminate].
      injection Hlook as <-. exact Ho.
Qed.

Lemma copying_fill (h0 h : list object) seen a' o :
  copying h0 h seen -> List.length h0 <= a' -> freshObj (List.length h0) o ->
  copying h0 (<[a' := o]> h) seen.
Proof.
  intros (Hlen & Hold & Hseen & Hfresh) Ha Ho. split; [|split; [|split]].
  - rewrite length_insert. exact Hlen.
  - intros b Hb. rewrite list_lookup_insert_ne by lia. apply Hold; exact Hb.
  - exact Hseen.
  - intros b o' Hb Hlook. destruct (Nat.eq_dec b a') as [->|Hne].
    + destruct (Nat.lt_ge_cases a' (List.length h)) as [Hlt | Hge].
      * rewrite heap_insert_same in Hlook by exact Hlt. injection Hlook as <-. exact Ho.
      * rewrite list_insert_ge in Hlook by exact Hge. eapply Hfresh; eauto.
    + rewrite list_lookup_insert_ne in Hlook by auto. eapply Hfresh; eauto.
Qed.

Lemma copyValue_ok (h0 : list object) (fuel : nat) : copierOK h0 (cloneValue fuel).
Proof.
  induction fuel as [|fuel IH]; intros h seen v h' seen' v' Hc Hrun; simpl in Hrun;
    [discriminate|].
  destruct v as [| | | | |a];
    try (injection Hrun as <- <- <-; split; [exact Hc | split; [lia | reflexivity]]).
  destruct (seen_get seen a) as [a'|] eqn:Hseen.
  { injection Hrun as <- <- <-. split; [exact Hc | split; [lia|]].
    exists a'. split; [reflexivity|].
    destruct Hc as (_ & _ & Hs & _). eapply Hs. apply seen_get_In; eauto. }
  pose proof Hc as (Hlen & _).
  destruct (h !! a) as [[fs|xs]|] eqn:Ha; [| |discriminate].
  - destruct (cloneFields (cloneValue fuel) fs (h ++ [OMap []]) ((a, List.length h) :: seen))
      as [[[h2 seen2] fs']|e] eqn:Hfs; [|discriminate].
    injection Hrun as <- <- <-.
    assert (Hc1 : copying h0 (h ++ [OMap []]) ((a, List.length h) :: seen))
      by (apply copying_reserve; [exact Hc | intros k b []]).
    destruct (copyFields_ok h0 _ IH _ _ _ _ _ _ Hc1 Hfs) as (Hc2 & Hl2 & Hall).
    rewrite length_app in Hl2. simpl in Hl2.
    split; [|split].
    + apply copying_fill; [exact Hc2 | exact Hlen |].
      intros k b Hin. apply (Forall2_right_In _ _ _ _ Hall) in Hin.
      destruct Hin as ((k0 & v0) & _ & Hk & Hv). simpl in Hk, Hv.
      destruct v0; simpl in Hv; try discriminate Hv.
      destruct Hv as (b' & [= ->] & Hb'). exact Hb'.
    + rewrite length_insert. lia.
    + exists (List.length h). split; [reflexivity | exact Hlen].
  - destruct (cloneItems (cloneValue fuel) xs (h ++ [OArr []]) ((a, List.length h) :: seen))
      as [[[h2 seen2] xs']|e] eqn:Hxs; [|discriminate].
    injection Hrun as <- <- <-.
    assert (Hc1 : copying h0 (h ++ [OArr []]) ((a, List.length h) :: seen))
      by (apply copying_reserve; [exact Hc | intros b []]).
    destruct (copyItems_ok h0 _ IH _ _ _ _ _ _ Hc1 Hxs) as (Hc2 & Hl2 & Hall).
    rewrite length_app in Hl2. simpl in Hl2.
    split; [|split].
    + apply copying_fill; [exact Hc2 | exact Hlen |].
      intros b Hin. apply (Forall2_right_In _ _ _ _ Hall) in Hin.
      destruct Hin as (v0 & _ & Hv).
      destruct v0; simpl in Hv; try discriminate Hv.
      destruct Hv as (b' & [= ->] & Hb'). exact Hb'.
    + rewrite length_insert. lia.
    + exists (List.length h). split; [reflexivity | exact Hlen].
Qed.

(** X18: the copy [cloneSchema] makes shares nothing with the document:
    every object that was there is as it was, the value returned is a new
    object (the value itself when it is no object), and every new object
    refers to new objects only. *)
Theorem cloneSchema_shares_nothing (fuel : nat) (schema v' : val) (h h' : list object) :
  cloneSchema fuel schema h = (Ok v', h') ->
  (forall a, a < List.length h -> h' !! a = h !! a)
  /\ clonedAs (List.length h) schema v'
  /\ (forall a o, List.length h <= a -> h' !! a = Some o -> freshObj (List.length h) o).
Proof.
  unfold cloneSchema. cbn [heap_of with_heap heap_Store].
  destruct (cloneValue fuel h [] schema) as [[[h1 seen1] v1]|e] eqn:Hrun; [|discriminate].
  intros [= <- <-].
  assert (Hc0 : copying h h []).
  { split; [lia|]. split; [reflexivity|]. split; [intros o n []|].
    intros a o Hge Ha. apply heap_lookup_lt in Ha. lia. }
  destruct (copyValue_ok h fuel _ _ _ _ _ _ Hc0 Hrun) as ((_ & Hold & _ & Hfresh) & _ & Hv).
  split; [exact Hold|]. split; [exact Hv | exact Hfresh].
Qed.

Lemma cloneSchema_shares_nothing_witness :
  cloneSchema 10 (VObj 2) (snd (load sharedDocument []))
  = (Ok (VObj 10),
     snd (load sharedDocument [])
     ++ [OMap [("type", VStr "object"); ("properties", VObj 11)];
         OMap [("x", VObj 12)]; OMap [("type", VStr "string")]])
  /\ (forall a, a < 10 ->
        (snd (load sharedDocument [])
         ++ [OMap [("type", VStr "object"); ("properties", VObj 11)];
             OMap [("x", VObj 12)]; OMap [("type", VStr "string")]]) !! a
        = snd (load sharedDocument []) !! a)
  /\ clonedAs 10 (VObj 2) (VObj 10)
  /\ (forall a o, 10 <= a ->
        (snd (load sharedDocument [])
         ++ [OMap [("type", VStr "object"); ("properties", VObj 11)];
             OMap [("x", VObj 12)]; OMap [("type", VStr "string")]]) !! a = Some o ->
        freshObj 10 o).
Proof.
  split; [vm_compute; reflexivity|].
  apply (cloneSchema_shares_nothing 10 (VObj 2) (VObj 10) (snd (load sharedDocument []))).
  vm_compute. reflexivity.
Defined.

(** ** [generateComponentName] finds a name *)

Lemma numeral_digit_char (d : nat) : d < 10 -> numeral_digit (Str.digit_char d) = d.
Proof.
  intros Hd. unfold numeral_digit, Str.digit_char.
  rewrite nat_ascii_embedding by lia. lia.
Qed.

Lemma nat_digits_value (fuel : nat) :
  forall n acc, n < fuel ->
    numeral_value (Str.nat_digits fuel n acc)
    = n * 10 ^ String.length acc + numeral_value acc.
Proof.
  induction fuel as [|fuel IH]; intros n acc Hn; [lia|].
  cbn [Str.nat_digits]. cbv zeta.
  pose proof (Nat.mod_upper_bound n 10 ltac:(lia)) as Hmod.
  pose proof (Nat.div_mod_eq n 10) as Hdiv.
  destruct (Nat.ltb n 10) eqn:Hlt.
  - apply Nat.ltb_lt in Hlt. cbn [numeral_value].
    rewrite numeral_digit_char by exact Hmod.
    rewrite Nat.mod_small by exact Hlt. reflexivity.
  - apply Nat.ltb_ge in Hlt.
    rewrite IH by (apply Nat.lt_le_trans with n; [apply Nat.div_lt; lia | lia]).
    cbn [numeral_value String.length].
    rewrite numeral_digit_char by exact Hmod.
    rewrite Nat.pow_succ_r'.
    set (p := 10 ^ String.length acc). set (q := n / 10) in *. set (m := n mod 10) in *.
    nia.
Qed.

Lemma of_nat_value (n : nat) : numeral_value (Str.of_nat n) = n.
Proof.
  unfold Str.of_nat. rewrite nat_digits_value by lia. simpl. lia.
Qed.

Lemma of_nat_inj (j k : nat) : Str.of_nat j = Str.of_nat k -> j = k.
Proof.
  intros H. rewrite <- (of_nat_value j), <- (of_nat_value k), H. reflexivity.
Qed.

Lemma nat_digits_nonempty (fuel : nat) :
  forall m a, a <> EmptyString -> Str.nat_digits fuel m a <> EmptyString.
Proof.
  induction fuel as [|fuel IH]; intros m a Ha; cbn [Str.nat_digits]; [exact Ha|].
  cbv zeta. destruct (Nat.ltb m 10); [discriminate | apply IH; discriminate].
Qed.

Lemma of_nat_nonempty (n : nat) : Str.of_nat n <> EmptyString.
Proof.
  unfold Str.of_nat. cbn [Str.nat_digits]. cbv zeta.
  destruct (Nat.ltb n 10); [discriminate | apply nat_digits_nonempty; discriminate].
Qed.

Lemma append_inj_r (p a b : string) : String.append p a = String.append p b -> a = b.
Proof.
  induction p as [|c p IH]; simpl; [auto|]. intros [= H]. apply IH; exact H.
Qed.

Lemma append_longer (p a : string) : a <> EmptyString -> String.append p a <> p.
Proof.
  intros Ha H. induction p as [|c p IH]; simpl in H; [exact (Ha H)|].
  injection H as H. exact (IH H).
Qed.

Lemma numbered_NoDup (candidate : string) (from count : nat) :
  List.NoDup (numbered candidate from count).
Proof.
  unfold numbered. apply Finite.Injective_map_NoDup; [|apply List.seq_NoDup].
  intros j k H. apply of_nat_inj. eapply append_inj_r. exact H.
Qed.

Lemma numbered_not_candidate (candidate : string) (from count : nat) :
  ~ List.In candidate (numbered candidate from count).
Proof.
  unfold numbered. intros Hin. apply List.in_map_iff in Hin.
  destruct Hin as (k & Hk & _). revert Hk. apply append_longer, of_nat_nonempty.
Qed.

Lemma mem_string_true_In (s : string) (xs : list string) :
  mem_string s xs = true -> List.In s xs.
Proof.
  unfold mem_string. intros H. apply List.existsb_exists in H.
  destruct H as (x & Hin & Heq). apply String.eqb_eq in Heq. subst x. exact Hin.
Qed.

(** When the loop runs out of steps, every name it tried is in use. *)
Lemma uniqueName_exhausted (fuel : nat) (candidate : string) (names : list string) :
  forall counter u0 e,
    uniqueName fuel candidate counter u0 names = Fail e ->
    List.In u0 names
    /\ List.incl (numbered candidate (S counter) fuel) names.
Proof.
  induction fuel as [|fuel IH]; intros counter u0 e Hrun; simpl in Hrun.
  - destruct (mem_string u0 names) eqn:Hm; [|discriminate].
    split; [apply mem_string_true_In; exact Hm | intros x []].
  - destruct (mem_string u0 names) eqn:Hm; [|discriminate].
    split; [apply mem_string_true_In; exact Hm|].
    destruct (IH _ _ _ Hrun) as (Hin & Hincl).
    intros x [<- | Hx]; [exact Hin | apply Hincl; exact Hx].
Qed.

Lemma uniqueName_finds (fuel : nat) (candidate : string) (names : list string) :
  List.length names <= fuel ->
  exists u, uniqueName fuel candidate 1 candidate names = Ok u.
Proof.
  intros Hfuel.
  destruct (uniqueName fuel candidate 1 candidate names) as [u|e] eqn:Hrun;
    [exists u; reflexivity|].
  exfalso. destruct (uniqueName_exhausted _ _ _ _ _ _ Hrun) as (Hin & Hincl).
  assert (Hnd : List.NoDup (candidate :: numbered candidate 2 fuel))
    by (constructor; [apply numbered_not_candidate | apply numbered_NoDup]).
  assert (Hsub : List.incl (candidate :: numbered candidate 2 fuel) names)
    by (intros x [<- | Hx]; [exact Hin | apply Hincl; exact Hx]).
  pose proof (List.NoDup_incl_length Hnd Hsub) as Hlen.
  cbn [List.length] in Hlen. unfold numbered in Hlen.
  rewrite List.length_map, List.length_seq in Hlen. lia.
Qed.

(** X19: [generateComponentName] returns a name for a context name that is
    a string, once the loop is given as many steps as there are names in
    use: the names it tries are all different, so one of them is free. *)
Theorem generateComponentName_returns (fuel : nat) (contextName pointer : string)
    (s : nstate) :
  List.length (existingNames s) <= fuel ->
  exists name,
    generateComponentName fuel (VStr contextName) pointer s
    = (Ok name, mkN (n_heap s) (pointerToComponent s) (existingNames s ++ [name])
                    (visitedSchemas s) (hoistedCount s)).
Proof.
  intros Hfuel. unfold generateComponentName.
  assert (Hp : exists cs, toPascalCase (js_or (VStr contextName) (VStr EmptyString)) s
                          = (Ok cs, s)).
  { unfold toPascalCase, js_or.
    destruct contextName as [|c r]; cbn [truthy Str.nonempty negb].
    - exists EmptyString. reflexivity.
    - eexists. reflexivity. }
  destruct Hp as (cs & Hp). erewrite bind_eval by exact Hp.
  cbv zeta. unfold bind at 1. unfold get_state at 1.
  match goal with |- context [uniqueName ?f ?c ?n ?u ?ns] =>
    destruct (uniqueName_finds f c ns Hfuel) as (u1 & Hu) end.
  exists u1. unfold bind, of_outcome. rewrite Hu.
  unfold addName, modify, ret.
  cbn [existingNames n_heap pointerToComponent visitedSchemas hoistedCount].
  rewrite (uniqueName_fresh _ _ _ _ _ _ Hu). reflexivity.
Qed.

Lemma generateComponentName_returns_witness :
  List.length (existingNames (mkN [] [] ["Pet"; "Pet2"] [] 0)) <= 2
  /\ exists name,
       generateComponentName 2 (VStr "pet") "#/paths/x" (mkN [] [] ["Pet"; "Pet2"] [] 0)
       = (Ok name, mkN [] [] (["Pet"; "Pet2"] ++ [name]) [] 0).
Proof.
  split; [simpl; lia|].
  apply (generateComponentName_returns 2 "pet" "#/paths/x" (mkN [] [] ["Pet"; "Pet2"] [] 0)).
  simpl. lia.
Defined.

(** ** Generated names are made of letters and digits *)

Lemma every_char_append (p : ascii -> bool) (a b : string) :
  every_char p (String.append a b) = every_char p a && every_char p b.
Proof.
  induction a as [|c a IH]; simpl; [reflexivity|]. rewrite IH. apply andb_assoc.
Qed.

Lemma squash_alnum_or_space (s : string) :
  forall inrun, every_char alnum_or_space (Str.squash_non_alnum inrun s) = true.
Proof.
  induction s as [|c s IH]; intros inrun; cbn [Str.squash_non_alnum]; [reflexivity|].
  destruct (Str.is_alnum c) eqn:Hc.
  - cbn [every_char]. unfold alnum_or_space at 1. rewrite Hc, IH. reflexivity.
  - destruct inrun; [apply IH|]. cbn [every_char]. rewrite IH. reflexivity.
Qed.

Lemma trim_start_every (p : ascii -> bool) (s : string) :
  every_char p s = true -> every_char p (Str.trim_start s) = true.
Proof.
  induction s as [|c s IH]; cbn [Str.trim_start]; [auto|].
  intros H. destruct (Str.is_space c); [|exact H].
  cbn [every_char] in H. apply andb_prop in H. apply IH, H.
Qed.

Lemma trim_end_every (p : ascii -> bool) (s : string) :
  every_char p s = true -> every_char p (Str.trim_end s) = true.
Proof.
  induction s as [|c s IH]; cbn [Str.trim_end]; [auto|].
  intros H. cbn [every_char] in H. apply andb_prop in H. destruct H as (Hc & Hs).
  specialize (IH Hs). destruct (Str.trim_end s) as [|d t].
  - destruct (Str.is_space c); [reflexivity|]. cbn [every_char]. rewrite Hc. reflexivity.
  - cbn [every_char] in *. rewrite Hc. exact IH.
Qed.

Lemma split_space_alnum (s : string) :
  every_char alnum_or_space s = true ->
  Forall (fun w => alphanumeric w = true) (Str.split " " s).
Proof.
  induction s as [|c s IH]; cbn [Str.split every_char].
  - intros _. constructor; [reflexivity | constructor].
  - intros H. apply andb_prop in H. destruct H as (Hc & Hs). specialize (IH Hs).
    unfold alnum_or_space in Hc. destruct (Ascii.eqb c " ") eqn:Hsp.
    + constructor; [reflexivity | exact IH].
    + rewrite orb_false_r in Hc. destruct (Str.split " " s) as [|w ws].
      * constructor; [|constructor]. unfold alphanumeric. cbn [every_char].
        rewrite Hc. reflexivity.
      * inversion IH as [|? ? Hw Hws]; subst. constructor; [|exact Hws].
        unfold alphanumeric in *. cbn [every_char]. rewrite Hc. exact Hw.
Qed.

Lemma upper_char_alnum (c : ascii) :
  Str.is_alnum c = true -> Str.is_alnum (Str.upper_char c) = true.
Proof.
  destruct c as [[] [] [] [] [] [] [] []]; vm_compute; auto.
Qed.

Lemma capitalize_alnum (w : string) :
  alphanumeric w = true -> alphanumeric (capitalize w) = true.
Proof.
  destruct w as [|c w]; [auto|]. unfold alphanumeric. cbn [capitalize every_char].
  intros H. apply andb_prop in H. destruct H as (Hc & Hw).
  rewrite (upper_char_alnum c Hc), Hw. reflexivity.
Qed.

Lemma join_alnum (xs : list string) :
  Forall (fun w => alphanumeric w = true) xs ->
  alphanumeric (Str.join EmptyString xs) = true.
Proof.
  induction 1 as [|x xs Hx Hxs IH]; [reflexivity|].
  cbn [Str.join]. destruct xs as [|y ys]; [exact Hx|].
  unfold alphanumeric in *. rewrite !every_char_append, Hx, IH. reflexivity.
Qed.

Lemma pascalCase_alnum (value : string) : alphanumeric (pascalCase value) = true.
Proof.
  unfold pascalCase. destruct (negb (Str.nonempty value)); [reflexivity|]. cbv zeta.
  apply join_alnum.
  assert (Hwords : forall ws, Forall (fun w => alphanumeric w = true) ws ->
            Forall (fun w => alphanumeric w = true)
                   (List.map capitalize (List.filter Str.nonempty ws))).
  { induction 1 as [|w ws Hw Hws IH]; cbn [List.filter List.map]; [constructor|].
    destruct (Str.nonempty w); cbn [List.map]; [|exact IH].
    constructor; [apply capitalize_alnum; exact Hw | exact IH]. }
  apply Hwords, split_space_alnum. unfold Str.trim.
  apply trim_end_every, trim_start_every, squash_alnum_or_space.
Qed.

Lemma extractPointerNameSegments_alnum (pointer contextSegment : string) :
  Forall (fun w => alphanumeric w = true)
         (extractPointerNameSegments pointer contextSegment).
Proof.
  unfold extractPointerNameSegments.
  destruct (negb (Str.startsWith pointer "#/")); [constructor|].
  cbv zeta. destruct (List.filter Str.nonempty (pointerSegments pointer)) as [|r0 raw];
    [constructor|].
  match goal with |- context [List.map pascalCase ?l] => generalize l end.
  intros sanitized.
  assert (Hp : Forall (fun w => alphanumeric w = true)
                      (List.filter Str.nonempty (List.map pascalCase sanitized))).
  { induction sanitized as [|x xs IH]; cbn [List.map List.filter]; [constructor|].
    destruct (Str.nonempty (pascalCase x)); [|exact IH].
    constructor; [apply pascalCase_alnum | exact IH]. }
  revert Hp. generalize (List.filter Str.nonempty (List.map pascalCase sanitized)).
  intros pascal Hp.
  assert (Htl : Forall (fun w => alphanumeric w = true) (List.tl pascal))
    by (destruct Hp; [constructor | assumption]).
  destruct (Str.nonempty contextSegment && head_is pascal contextSegment).
  - destruct (List.tl pascal); [repeat constructor | exact Htl].
  - destruct pascal; [repeat constructor | exact Hp].
Qed.

Lemma digit_char_alnum (d : nat) : d < 10 -> Str.is_alnum (Str.digit_char d) = true.
Proof.
  intros Hd. do 10 (destruct d as [|d]; [reflexivity|]). lia.
Qed.

Lemma nat_digits_alnum (fuel : nat) :
  forall n acc, alphanumeric acc = true -> alphanumeric (Str.nat_digits fuel n acc) = true.
Proof.
  induction fuel as [|fuel IH]; intros n acc Hacc; cbn [Str.nat_digits]; [exact Hacc|].
  cbv zeta.
  assert (Hd : alphanumeric (String (Str.digit_char (n mod 10)) acc) = true).
  { unfold alphanumeric in *. cbn [every_char].
    rewrite digit_char_alnum by (apply Nat.mod_upper_bound; lia). exact Hacc. }
  destruct (Nat.ltb n 10); [exact Hd | apply IH; exact Hd].
Qed.

Lemma uniqueName_alnum (fuel : nat) (candidate : string) (names : list string) :
  alphanumeric candidate = true ->
  forall counter u0 u,
    alphanumeric u0 = true ->
    uniqueName fuel candidate counter u0 names = Ok u -> alphanumeric u = true.
Proof.
  intros Hc. induction fuel as [|fuel IH]; intros counter u0 u Hu0; simpl.
  - destruct (mem_string u0 names); [discriminate | intros [= <-]; exact Hu0].
  - destruct (mem_string u0 names); [|intros [= <-]; exact Hu0].
    apply IH. unfold alphanumeric in *. rewrite every_char_append, Hc.
    apply (nat_digits_alnum _ _ EmptyString). reflexivity.
Qed.

(** X20: a name [generateComponentName] returns is made of the letters
    a-z and A-Z and of digits only, whatever the context name and the
    pointer are. *)
Theorem generateComponentName_alphanumeric (fuel : nat) (contextName : val)
    (pointer name : string) (s s' : nstate) :
  generateComponentName fuel contextName pointer s = (Ok name, s') ->
  alphanumeric name = true.
Proof.
  unfold generateComponentName. intros Hrun.
  apply bind_ok_inv in Hrun. destruct Hrun as (cs & s1 & Hp & Hrun).
  assert (Hcs : alphanumeric cs = true).
  { unfold toPascalCase in Hp.
    destruct (negb (truthy (js_or contextName (VStr EmptyString)))).
    - injection Hp as <- _. reflexivity.
    - apply bind_ok_inv in Hp. destruct Hp as (str & s2 & _ & Hp).
      injection Hp as <- _. apply pascalCase_alnum. }
  cbv zeta in Hrun.
  apply bind_ok_inv in Hrun. destruct Hrun as (st & s2 & _ & Hrun).
  apply bind_ok_inv in Hrun. destruct Hrun as (u & s3 & Hu & Hrun).
  apply bind_ok_inv in Hrun. destruct Hrun as (x & s4 & _ & Hrun).
  injection Hrun as <- _.
  unfold of_outcome in Hu.
  match type of Hu with context [uniqueName ?f ?c ?n ?u0 ?ns] =>
    assert (Hc : alphanumeric c = true);
    [|destruct (uniqueName f c n u0 ns) as [u1|e] eqn:Hun; [|discriminate Hu]] end.
  { pose proof (extractPointerNameSegments_alnum pointer cs) as Hsegs.
    match goal with |- alphanumeric (if Str.nonempty ?x then _ else _) = true =>
      assert (Hx : alphanumeric x = true); [|destruct (Str.nonempty x); [exact Hx | reflexivity]]
    end.
    match goal with |- context [Str.join EmptyString (snd ?bs)] =>
      assert (Hbs : alphanumeric (fst bs) = true
                    /\ Forall (fun w => alphanumeric w = true) (snd bs)) end.
    { destruct (Str.nonempty cs); [split; [exact Hcs | exact Hsegs]|].
      destruct Hsegs as [|first rest Hf Hr]; [split; [reflexivity | constructor]|].
      cbn [fst snd]. split; [|exact Hr].
      destruct (Str.nonempty first); [exact Hf | reflexivity]. }
    destruct Hbs as (Hb & Hr). apply join_alnum in Hr.
    match goal with |- alphanumeric (if ?b then _ else _) = true => destruct b end;
      [|exact Hb].
    unfold alphanumeric in *. rewrite every_char_append, Hb, Hr. reflexivity. }
  injection Hu as <- _.
  exact (uniqueName_alnum _ _ _ Hc _ _ _ Hc Hun).
Qed.

Lemma generateComponentName_alphanumeric_witness :
  generateComponentName 2 (VStr "my-pet_store") "#/paths/~1pets/get"
    (mkN [] [] ["MyPetStorePetsGet"] [] 0)
  = (Ok "MyPetStorePetsGet2", mkN [] [] ["MyPetStorePetsGet"; "MyPetStorePetsGet2"] [] 0)
  /\ alphanumeric "MyPetStorePetsGet2" = true.
Proof.
  split; [vm_compute; reflexivity|].
  apply (generateComponentName_alphanumeric 2 (VStr "my-pet_store") "#/paths/~1pets/get"
           "MyPetStorePetsGet2" (mkN [] [] ["MyPetStorePetsGet"] [] 0)
           (mkN [] [] ["MyPetStorePetsGet"; "MyPetStorePetsGet2"] [] 0)).
  vm_compute. reflexivity.
Defined.

(** ** [mergeAllOfSchemas] writes to its own objects only *)

Section Merging.
Variable h0 : heap.

Lemma inv_setp_merging (m : nat) (k : string) (x : val) :
  List.length h0 <= m ->
  (m = S (List.length h0) -> k <> "properties" /\ k <> "type") ->
  inv (merging h0) (setp (St := heap) (VObj m) k x).
Proof.
  intros Hm Hk s (Hold & fs & Hs & Ht & Hp). unfold setp, writing.
  cbn [heap_of with_heap heap_Store js_set].
  destruct (s !! m) as [[gs|xs]|] eqn:E; cbn [snd];
    [| |split; [exact Hold | exists fs; auto]].
  - split; [intros a Ha; rewrite list_lookup_insert_ne by lia; apply Hold; exact Ha|].
    destruct (Nat.eq_dec m (S (List.length h0))) as [->|Hne].
    + rewrite Hs in E. injection E as <-. destruct (Hk eq_refl) as (Hk1 & Hk2).
      exists (fset fs k x). rewrite heap_insert_same by (eapply heap_lookup_lt; eauto).
      split; [reflexivity|]. rewrite !fget_fset_ne by auto. auto.
    + exists fs. rewrite list_lookup_insert_ne by auto. auto.
  - destruct (index_of_key k) as [n|];
      [|split; [exact Hold | exists fs; auto]].
    destruct (Nat.ltb n (List.length xs)); cbn [snd];
      [|split; [exact Hold | exists fs; auto]].
    split; [intros a Ha; rewrite list_lookup_insert_ne by lia; apply Hold; exact Ha|].
    exists fs. rewrite list_lookup_insert_ne by (intros ->; congruence). auto.
Qed.

Lemma inv_alloc_merging (o : object) : inv (merging h0) (alloc (St := heap) o).
Proof.
  intros s (Hold & fs & Hs & Ht & Hp). unfold alloc. cbn [heap_of with_heap heap_Store snd].
  pose proof (heap_lookup_lt _ _ _ Hs) as Hlt.
  split; [intros a Ha; rewrite lookup_app_l by lia; apply Hold; exact Ha|].
  exists fs. rewrite lookup_app_l by exact Hlt. auto.
Qed.

Lemma inv_with_properties {A : Type} (k : val -> M heap A) :
  inv (merging h0) (k (VObj (List.length h0))) ->
  inv (merging h0)
      (let* mp := getp (St := heap) (VObj (S (List.length h0))) "properties" in k mp).
Proof.
  intros Hk. apply inv_bind_with; [apply inv_readonly, readonly_getp|].
  intros s mp s' J Hget. pose proof J as (Hold & fs & Hs & Ht & Hp).
  apply getp_run in Hget. destruct Hget as (-> & Hget). cbn [heap_of heap_Store] in Hget.
  rewrite (js_get_map _ _ _ _ Hs), Hp in Hget. injection Hget as <-.
  apply Hk. exact J.
Qed.

Lemma inv_assign_merging (source : val) :
  inv (merging h0) (assign (St := heap) (VObj (List.length h0)) source).
Proof.
  unfold assign. destruct source; try apply inv_ret;
    (apply inv_bind; [apply inv_readonly, readonly_entries|]; intros es;
     apply inv_forEach; intros kv; apply inv_setp_merging; [lia | intros H; lia]).
Qed.

Lemma inv_appendRequired_merging (source : val) :
  inv (merging h0) (appendRequired (St := heap) (VObj (S (List.length h0))) source).
Proof.
  unfold appendRequired.
  apply inv_bind; [apply inv_readonly, readonly_getp|]. intros req. apply inv_when.
  apply inv_bind; [apply inv_readonly, readonly_getp|]. intros old.
  assert (Hspread : forall v, inv (merging h0) (spread (St := heap) v)).
  { intros v. apply inv_readonly. unfold spread.
    destruct v; first [apply readonly_ret | apply readonly_items_of]. }
  apply inv_bind; [destruct (truthy old); [apply Hspread | apply inv_ret]|]. intros olds.
  apply inv_bind; [apply Hspread|]. intros news.
  apply inv_bind; [apply inv_alloc_merging|]. intros arr.
  apply inv_setp_merging; [lia|]. intros _. split; discriminate.
Qed.

Lemma inv_mergeItem (allSchemas item : val) :
  inv (merging h0)
    (let merged := VObj (S (List.length h0)) in
     let* r := getp (St := heap) item "$ref" in
     if truthy r then
       match r with
       | VStr rs =>
           let refSchemaName := Str.replace "#/components/schemas/" "" rs in
           let* refSchema := getp allSchemas refSchemaName in
           when (truthy refSchema)
             (let* rp := getp refSchema "properties" in
              when (truthy rp)
                (let* mp := getp merged "properties" in assign mp rp) ;;
              appendRequired merged refSchema ;;
              let* rd := getp refSchema "description" in
              let* md := getp merged "description" in
              when (truthy rd && negb (truthy md)) (setp merged "description" rd))
       | _ => fail TypeError
       end
     else
       let* ip := getp item "properties" in
       when (truthy ip)
         (let* mp := getp merged "properties" in
          assign mp ip ;;
          appendRequired merged item)).
Proof.
  cbv zeta. apply inv_bind; [apply inv_readonly, readonly_getp|]. intros r.
  apply inv_if.
  - destruct r; try apply inv_fail.
    apply inv_bind; [apply inv_readonly, readonly_getp|]. intros refSchema.
    apply inv_when.
    apply inv_bind; [apply inv_readonly, readonly_getp|]. intros rp.
    apply inv_bind; [apply inv_when, inv_with_properties, inv_assign_merging|]. intros _.
    apply inv_bind; [apply inv_appendRequired_merging|]. intros _.
    apply inv_bind; [apply inv_readonly, readonly_getp|]. intros rd.
    apply inv_bind; [apply inv_readonly, readonly_getp|]. intros md.
    apply inv_when. apply inv_setp_merging; [lia|]. intros _. split; discriminate.
  - apply inv_bind; [apply inv_readonly, readonly_getp|]. intros ip.
    apply inv_when.
    apply (inv_with_properties (fun mp =>
             assign mp ip ;; appendRequired (VObj (S (List.length h0))) item)).
    apply inv_bind; [apply inv_assign_merging|]. intros _.
    apply inv_appendRequired_merging.
Qed.

End Merging.

(** X21: [mergeAllOfSchemas] writes to the two objects it makes and to no
    other: whether it returns or throws, every object that was there is as
    it was, and the object made for the result still has [type] "object"
    and refers to the object made for its properties. What it returns is
    that object. *)
Theorem mergeAllOf_writes_own_objects (allOfArray allSchemas : val) (h : list object) :
  merging h (snd (mergeAllOfSchemas allOfArray allSchemas h))
  /\ match fst (mergeAllOfSchemas allOfArray allSchemas h) with
     | Ok merged => merged = VObj (S (List.length h))
     | Fail _ => True
     end.
Proof.
  unfold mergeAllOfSchemas.
  set (h1 := h ++ [OMap []]).
  set (h2 := h1 ++ [OMap [("type", VStr "object"); ("properties", VObj (List.length h))]]).
  assert (Hl1 : List.length h1 = S (List.length h))
    by (unfold h1; rewrite length_app; simpl; lia).
  assert (J2 : merging h h2).
  { split.
    - intros a Ha. unfold h2, h1. rewrite !lookup_app_l by (rewrite ?length_app; simpl; lia).
      reflexivity.
    - exists [("type", VStr "object"); ("properties", VObj (List.length h))].
      split; [|split; reflexivity].
      unfold h2. rewrite lookup_app_r by lia. rewrite Hl1, Nat.sub_diag. reflexivity. }
  assert (Ha1 : alloc (St := heap) (OMap []) h = (Ok (VObj (List.length h)), h1))
    by reflexivity.
  erewrite bind_eval by exact Ha1.
  assert (Ha2 : alloc (St := heap)
                  (OMap [("type", VStr "object"); ("properties", VObj (List.length h))]) h1
                = (Ok (VObj (S (List.length h))), h2))
    by (unfold alloc; cbn [heap_of with_heap heap_Store]; rewrite Hl1; reflexivity).
  erewrite bind_eval by exact Ha2.
  match goal with |- merging h (snd (?m h2)) /\ _ =>
    assert (Hinv : inv (merging h) m); [|split; [exact (Hinv h2 J2)|]] end.
  - apply inv_bind.
    { apply inv_forEach_live. intros item. apply (inv_mergeItem h allSchemas item). }
    intros _. apply inv_bind; [apply inv_readonly, readonly_getp|]. intros req.
    apply inv_bind; [|intros _; apply inv_ret].
    apply inv_when.
    apply inv_bind.
    { apply inv_readonly. unfold spread.
      destruct req; first [apply readonly_ret | apply readonly_items_of]. }
    intros xs. apply inv_bind; [apply inv_alloc_merging|]. intros arr.
    apply inv_setp_merging; [lia|]. intros _. split; discriminate.
  - match goal with |- match fst ?r with _ => _ end => destruct r as [[v|e] h'] eqn:Hrun end;
      cbn [fst]; [|exact I].
    apply bind_ok_inv in Hrun. destruct Hrun as (x1 & s1 & _ & Hrun).
    apply bind_ok_inv in Hrun. destruct Hrun as (x2 & s2 & _ & Hrun).
    apply bind_ok_inv in Hrun. destruct Hrun as (x3 & s3 & _ & Hrun).
    injection Hrun as <- _. reflexivity.
Qed.

(** ** [reduceProperties] keeps properties of the schema, the priority ones first *)

Lemma setp_eval (h : heap) a fs k x :
  h !! a = Some (OMap fs) ->
  setp (St := heap) (VObj a) k x h = (Ok tt, <[a := OMap (fset fs k x)]> h).
Proof.
  intros Ha. unfold setp, writing. cbn [heap_of with_heap heap_Store].
  rewrite (js_set_map _ _ _ _ _ Ha). reflexivity.
Qed.

Lemma keys_eval (h : heap) a fs :
  h !! a = Some (OMap fs) -> keys (St := heap) (VObj a) h = (Ok (fkeys fs), h).
Proof.
  intros Ha. unfold keys, entries, reading, bind, ret. cbn [heap_of heap_Store js_entries].
  rewrite Ha. reflexivity.
Qed.

Section Reducing.
Variables (p kp : nat) (pfs : list (string * val)).
Hypothesis Hpk : p <> kp.

Lemma priority_loop (xs : list string) :
  forall (hh : heap) kfs,
    hh !! kp = Some (OMap kfs) -> hh !! p = Some (OMap pfs) ->
    forEach xs (fun key =>
      let* v := getp (St := heap) (VObj p) key in
      when (truthy v) (setp (VObj kp) key v)) hh
    = (Ok tt, <[kp := OMap (fold_left (keepPriority pfs) xs kfs)]> hh).
Proof.
  induction xs as [|key xs IH]; intros hh kfs Hk Hp; cbn [forEach fold_left].
  - unfold ret. rewrite list_insert_id by exact Hk. reflexivity.
  - assert (Hstep : (let* v := getp (St := heap) (VObj p) key in
                     when (truthy v) (setp (VObj kp) key v)) hh
                    = (Ok tt, <[kp := OMap (keepPriority pfs kfs key)]> hh)).
    { erewrite bind_eval by (apply getp_eval, js_get_map; exact Hp).
      unfold keepPriority. destruct (truthy (fget pfs key)); cbn [when].
      - apply setp_eval; exact Hk.
      - unfold ret. rewrite list_insert_id by exact Hk. reflexivity. }
    erewrite bind_eval by exact Hstep.
    rewrite (IH _ (keepPriority pfs kfs key)).
    + rewrite heap_insert_insert. reflexivity.
    + apply heap_insert_same; eapply heap_lookup_lt; eauto.
    + rewrite list_lookup_insert_ne by auto. exact Hp.
Qed.

Lemma other_loop (xs : list string) :
  forall (hh : heap) kfs,
    hh !! kp = Some (OMap kfs) -> hh !! p = Some (OMap pfs) ->
    forEach xs (fun key =>
      let* v := getp (St := heap) (VObj p) key in setp (VObj kp) key v) hh
    = (Ok tt, <[kp := OMap (fold_left (keepOther pfs) xs kfs)]> hh).
Proof.
  induction xs as [|key xs IH]; intros hh kfs Hk Hp; cbn [forEach fold_left].
  - unfold ret. rewrite list_insert_id by exact Hk. reflexivity.
  - erewrite bind_eval; cycle 1.
    { erewrite bind_eval by (apply getp_eval, js_get_map; exact Hp).
      apply setp_eval; exact Hk. }
    rewrite (IH _ (keepOther pfs kfs key)).
    + rewrite heap_insert_insert. reflexivity.
    + apply heap_insert_same; eapply heap_lookup_lt; eauto.
    + rewrite list_lookup_insert_ne by auto. exact Hp.
Qed.

End Reducing.

Lemma keepOther_takenFrom pfs acc key :
  fhas pfs key = true -> takenFrom pfs acc -> takenFrom pfs (keepOther pfs acc key).
Proof.
  intros Hkey Hacc k Hk. unfold keepOther in *. rewrite fhas_fset in Hk.
  destruct (String.eqb key k) eqn:E.
  - apply String.eqb_eq in E. subst k. split; [exact Hkey | apply fget_fset_eq].
  - apply String.eqb_neq in E. rewrite fget_fset_ne by exact E. apply Hacc. exact Hk.
Qed.

Lemma keepPriority_takenFrom pfs acc key :
  takenFrom pfs acc -> takenFrom pfs (keepPriority pfs acc key).
Proof.
  intros Hacc. unfold keepPriority. destruct (truthy (fget pfs key)) eqn:E; [|exact Hacc].
  apply (keepOther_takenFrom pfs acc key); [apply truthy_fget_fhas; exact E | exact Hacc].
Qed.

Lemma fold_keepPriority_takenFrom pfs xs :
  forall acc, takenFrom pfs acc -> takenFrom pfs (fold_left (keepPriority pfs) xs acc).
Proof.
  induction xs as [|x xs IH]; intros acc Hacc; cbn [fold_left]; [exact Hacc|].
  apply IH, keepPriority_takenFrom, Hacc.
Qed.

Lemma fold_keepOther_takenFrom pfs xs :
  (forall x, In x xs -> fhas pfs x = true) ->
  forall acc, takenFrom pfs acc -> takenFrom pfs (fold_left (keepOther pfs) xs acc).
Proof.
  induction xs as [|x xs IH]; intros Hxs acc Hacc; cbn [fold_left]; [exact Hacc|].
  apply IH; [intros y Hy; apply Hxs; right; exact Hy|].
  apply keepOther_takenFrom; [apply Hxs; left; reflexivity | exact Hacc].
Qed.

(** Once a key has its value, no later step of either loop changes it. *)
Lemma keepOther_stays pfs acc key k :
  fget acc k = fget pfs k -> fget (keepOther pfs acc key) k = fget pfs k.
Proof.
  intros Hk. unfold keepOther. destruct (String.eqb key k) eqn:E.
  - apply String.eqb_eq in E. subst k. apply fget_fset_eq.
  - apply String.eqb_neq in E. rewrite fget_fset_ne by exact E. exact Hk.
Qed.

Lemma keepPriority_stays pfs acc key k :
  fget acc k = fget pfs k -> fget (keepPriority pfs acc key) k = fget pfs k.
Proof.
  intros Hk. unfold keepPriority. destruct (truthy (fget pfs key)); [|exact Hk].
  apply (keepOther_stays pfs acc key k Hk).
Qed.

Lemma fold_keepPriority_stays pfs xs k :
  forall acc, fget acc k = fget pfs k ->
              fget (fold_left (keepPriority pfs) xs acc) k = fget pfs k.
Proof.
  induction xs as [|x xs IH]; intros acc Hacc; cbn [fold_left]; [exact Hacc|].
  apply IH, keepPriority_stays, Hacc.
Qed.

Lemma fold_keepOther_stays pfs xs k :
  forall acc, fget acc k = fget pfs k ->
              fget (fold_left (keepOther pfs) xs acc) k = fget pfs k.
Proof.
  induction xs as [|x xs IH]; intros acc Hacc; cbn [fold_left]; [exact Hacc|].
  apply IH, keepOther_stays, Hacc.
Qed.

Lemma fold_keepPriority_has pfs xs k :
  In k xs -> truthy (fget pfs k) = true ->
  forall acc, fget (fold_left (keepPriority pfs) xs acc) k = fget pfs k.
Proof.
  intros Hin Ht. induction xs as [|x xs IH]; intros acc; [destruct Hin|].
  cbn [fold_left]. destruct Hin as [-> | Hin]; [|apply IH; exact Hin].
  apply fold_keepPriority_stays. unfold keepPriority. rewrite Ht. apply fget_fset_eq.
Qed.

Lemma firstn_incl {A : Type} (n : nat) :
  forall (xs : list A) x, In x (List.firstn n xs) -> In x xs.
Proof.
  induction n as [|n IH]; intros [|y xs] x Hin; simpl in Hin; try contradiction.
  destruct Hin as [-> | Hin]; [left; reflexivity | right; apply IH; exact Hin].
Qed.

Lemma slice_to_incl {A : Type} (xs : list A) (e : Z) x : In x (slice_to xs e) -> In x xs.
Proof.
  unfold slice_to. destruct (Z.ltb e 0); apply firstn_incl.
Qed.

(** What [reduceProperties] does to a schema of more than 25 properties. *)
Lemma reduceProperties_run (h : list object) (schemaName : string) (a p : nat)
    (sfs pfs : list (string * val)) :
  h !! a = Some (OMap sfs) ->
  fget sfs "properties" = VObj p ->
  h !! p = Some (OMap pfs) ->
  a <> p ->
  25 < List.length pfs ->
  typeof_object (fget sfs "description") = false ->
  exists sfs',
    reduceProperties (VObj a) schemaName h
    = (Ok tt, <[a := OMap sfs']> (h ++ [OMap (keptFields pfs)]))
    /\ fget sfs' "properties" = VObj (List.length h)
    /\ fget sfs' "additionalProperties" = VBool true.
Proof.
  intros Ha Hprops Hp Hap Hbig Hdesc.
  pose proof (heap_lookup_lt _ _ _ Ha) as Hlta.
  pose proof (heap_lookup_lt _ _ _ Hp) as Hltp.
  set (kp := List.length h).
  unfold keptFields, keptByPriority. cbv zeta.
  set (kept1 := fold_left (keepPriority pfs) priorityProperties []).
  set (otherKeys := List.filter (fun key => negb (truthy (fget kept1 key))) (fkeys pfs)).
  set (others := slice_to otherKeys (25 - Z.of_nat (List.length (fkeys kept1)))%Z).
  set (kept := fold_left (keepOther pfs) others kept1).
  set (sfs1 := fset sfs "properties" (VObj kp)).
  set (sfs2 := fset sfs1 "additionalProperties" (VBool true)).
  assert (Hnobj : match js_or (fget sfs "description") (VStr "") with
                  | VObj _ => False
                  | _ => True
                  end).
  { unfold js_or. destruct (fget sfs "description") as [| |[]| | |d]; simpl in Hdesc;
      try discriminate;
      match goal with |- context [if ?b then _ else _] => destruct b end; exact I. }
  assert (Hds : exists ds, forall hh : heap,
                 js_to_string hh (js_or (fget sfs "description") (VStr "")) = Ok ds).
  { destruct (js_or (fget sfs "description") (VStr "")) as [| |[]| | |d];
      try contradiction; eexists; intros hh; reflexivity. }
  destruct Hds as (ds & Hds).
  eexists (fset sfs2 "description" (VStr (Str.trim (ds ++ _)))).
  split; [|split].
  - unfold reduceProperties.
    erewrite bind_eval by (apply getp_eval, js_get_map; exact Ha). rewrite Hprops.
    erewrite bind_eval by (apply keys_eval; exact Hp).
    assert (Hlen : Nat.ltb 25 (List.length (fkeys pfs)) = true)
      by (unfold fkeys; rewrite List.length_map; apply Nat.ltb_lt; exact Hbig).
    rewrite Hlen. cbn [when].
    set (h1 := h ++ [OMap []]).
    assert (Halloc : alloc (St := heap) (OMap []) h = (Ok (VObj kp), h1)) by reflexivity.
    erewrite bind_eval by exact Halloc.
    assert (Hk1 : h1 !! kp = Some (OMap [])).
    { unfold h1, kp. rewrite lookup_app_r by lia. rewrite Nat.sub_diag. reflexivity. }
    assert (Hp1 : h1 !! p = Some (OMap pfs))
      by (unfold h1; rewrite lookup_app_l by exact Hltp; exact Hp).
    assert (Hpk : p <> kp) by (unfold kp; lia).
    assert (Hak : a <> kp) by (unfold kp; lia).
    erewrite bind_eval by (apply (priority_loop p kp pfs Hpk _ h1 []); assumption).
    fold kept1.
    set (h2 := <[kp := OMap kept1]> h1).
    assert (Hlt1 : kp < List.length h1) by (eapply heap_lookup_lt; eauto).
    assert (Hk2 : h2 !! kp = Some (OMap kept1)) by (apply heap_insert_same; exact Hlt1).
    assert (Hp2 : h2 !! p = Some (OMap pfs))
      by (unfold h2; rewrite list_lookup_insert_ne by auto; exact Hp1).
    erewrite bind_eval by (apply keys_eval; exact Hk2).
    erewrite bind_eval; cycle 1.
    { apply (filter_of_pure (fkeys pfs) _
               (fun key => negb (truthy (fget kept1 key)))).
      intros key _.
      erewrite bind_eval by (apply getp_eval, js_get_map; exact Hk2). reflexivity. }
    fold otherKeys. fold others.
    erewrite bind_eval by (apply (other_loop p kp pfs Hpk _ h2 kept1); assumption).
    fold kept. unfold h2. rewrite heap_insert_insert.
    set (h3 := <[kp := OMap kept]> h1).
    assert (Ha3 : h3 !! a = Some (OMap sfs)).
    { unfold h3. rewrite list_lookup_insert_ne by auto.
      unfold h1. rewrite lookup_app_l by exact Hlta. exact Ha. }
    assert (Hlt3 : a < List.length h3).
    { eapply heap_lookup_lt; eauto. }
    erewrite bind_eval by (apply setp_eval; exact Ha3). fold sfs1.
    assert (Ha4 : <[a := OMap sfs1]> h3 !! a = Some (OMap sfs1))
      by (apply heap_insert_same; exact Hlt3).
    erewrite bind_eval by (apply setp_eval; exact Ha4). fold sfs2.
    rewrite heap_insert_insert.
    assert (Ha5 : <[a := OMap sfs2]> h3 !! a = Some (OMap sfs2))
      by (apply heap_insert_same; exact Hlt3).
    unfold annotate.
    erewrite bind_eval by (apply getp_eval, js_get_map; exact Ha5).
    assert (Hd2 : fget sfs2 "description" = fget sfs "description")
      by (unfold sfs2, sfs1; rewrite !fget_fset_ne by discriminate; reflexivity).
    rewrite Hd2.
    erewrite bind_eval by (unfold to_string, reading; cbn [heap_of heap_Store];
                           rewrite Hds; reflexivity).
    rewrite (setp_eval _ _ _ _ _ Ha5), heap_insert_insert.
    unfold h3, h1, kp. rewrite insert_app_r_alt by lia. rewrite Nat.sub_diag.
    reflexivity.
  - unfold sfs2, sfs1. rewrite !fget_fset_ne by discriminate. apply fget_fset_eq.
  - unfold sfs2. rewrite fget_fset_ne by discriminate. apply fget_fset_eq.
Qed.

(** X22: on a schema of more than 25 properties (a map of its own, the
    description not an object) [reduceProperties] returns, having made a
    new properties object for the schema and set [additionalProperties].
    The new object holds properties of the old one only, each with the
    value it had, and holds every property of the priority list that the
    old one had with a truthy value. The old object is as it was. *)
Theorem reduceProperties_keeps (h : list object) (schemaName : string) (a p : nat)
    (sfs pfs : list (string * val)) :
  h !! a = Some (OMap sfs) ->
  fget sfs "properties" = VObj p ->
  h !! p = Some (OMap pfs) ->
  a <> p ->
  25 < List.length pfs ->
  typeof_object (fget sfs "description") = false ->
  exists kept sfs',
    reduceProperties (VObj a) schemaName h
    = (Ok tt, <[a := OMap sfs']> (h ++ [OMap kept]))
    /\ fget sfs' "properties" = VObj (List.length h)
    /\ fget sfs' "additionalProperties" = VBool true
    /\ takenFrom pfs kept
    /\ (forall k, In k priorityProperties -> truthy (fget pfs k) = true ->
                  fget kept k = fget pfs k).
Proof.
  intros Ha Hprops Hp Hap Hbig Hdesc.
  destruct (reduceProperties_run h schemaName a p sfs pfs Ha Hprops Hp Hap Hbig Hdesc)
    as (sfs' & Hrun & H1 & H2).
  exists (keptFields pfs), sfs'. split; [exact Hrun|]. split; [exact H1|].
  split; [exact H2|]. unfold keptFields, keptByPriority. cbv zeta. split.
  - apply fold_keepOther_takenFrom.
    + intros x Hx. apply slice_to_incl in Hx.
      apply List.filter_In in Hx. apply fhas_In, Hx.
    + apply fold_keepPriority_takenFrom. intros k Hk. discriminate Hk.
  - intros k Hin Ht. apply fold_keepOther_stays.
    apply fold_keepPriority_has; assumption.
Qed.

Lemma reduceProperties_keeps_witness :
  exists kept sfs',
    reduceProperties (VObj 30) "Mixed" (snd (load mixedSchema []))
    = (Ok tt, <[30 := OMap sfs']> (snd (load mixedSchema []) ++ [OMap kept]))
    /\ fget sfs' "properties" = VObj (List.length (snd (load mixedSchema [])))
    /\ fget sfs' "additionalProperties" = VBool true
    /\ takenFrom
         (List.map (fun n => (String.append "p" (Str.of_nat n), VObj n)) (seq 0 27)
          ++ [("id", VObj 27); ("name", VObj 28)]) kept
    /\ (forall k, In k priorityProperties ->
          truthy (fget (List.map (fun n => (String.append "p" (Str.of_nat n), VObj n))
                                 (seq 0 27)
                        ++ [("id", VObj 27); ("name", VObj 28)]) k) = true ->
          fget kept k
          = fget (List.map (fun n => (String.append "p" (Str.of_nat n), VObj n)) (seq 0 27)
                  ++ [("id", VObj 27); ("name", VObj 28)]) k).
Proof.
  apply (reduceProperties_keeps (snd (load mixedSchema [])) "Mixed" 30 29
           [("type", VStr "object"); ("properties", VObj 29)]
           (List.map (fun n => (String.append "p" (Str.of_nat n), VObj n)) (seq 0 27)
            ++ [("id", VObj 27); ("name", VObj 28)])).
  - vm_compute. reflexivity.
  - reflexivity.
  - vm_compute. reflexivity.
  - lia.
  - vm_compute. lia.
  - reflexivity.
Defined.

(** *** The cap *)

Lemma fold_keepPriority_truthy pfs xs :
  forall acc,
    (forall k, fhas acc k = true -> truthy (fget acc k) = true) ->
    forall k, fhas (fold_left (keepPriority pfs) xs acc) k = true ->
              truthy (fget (fold_left (keepPriority pfs) xs acc) k) = true.
Proof.
  induction xs as [|x xs IH]; intros acc Hacc; cbn [fold_left]; [exact Hacc|].
  apply IH. intros k. unfold keepPriority.
  destruct (truthy (fget pfs x)) eqn:E; [|apply Hacc].
  rewrite fhas_fset. destruct (String.eqb x k) eqn:Ek.
  - apply String.eqb_eq in Ek. subst k. intros _. rewrite fget_fset_eq. exact E.
  - apply String.eqb_neq in Ek. rewrite fget_fset_ne by exact Ek. apply Hacc.
Qed.

Lemma fold_keepPriority_length pfs xs :
  forall acc,
    List.length (fold_left (keepPriority pfs) xs acc)
    <= List.length acc + List.length (List.filter (fun k => truthy (fget pfs k)) xs).
Proof.
  induction xs as [|x xs IH]; intros acc; cbn [fold_left List.filter]; [lia|].
  etransitivity; [apply IH|]. unfold keepPriority.
  destruct (truthy (fget pfs x)); [|lia].
  rewrite length_fset. cbn [List.length]. destruct (fhas acc x); lia.
Qed.

Lemma filter_misses {A : Type} (f : A -> bool) (xs : list A) x :
  In x xs -> f x = false -> List.length (List.filter f xs) < List.length xs.
Proof.
  induction xs as [|y xs IH]; intros Hin Hx; [destruct Hin|]. cbn [List.filter List.length].
  destruct Hin as [-> | Hin].
  - rewrite Hx. pose proof (List.filter_length_le f xs). lia.
  - specialize (IH Hin Hx). destruct (f y); cbn [List.length]; lia.
Qed.

Lemma fold_keepOther_length pfs xs :
  List.NoDup xs ->
  forall acc,
    (forall x, In x xs -> fhas acc x = false) ->
    List.length (fold_left (keepOther pfs) xs acc) = List.length acc + List.length xs.
Proof.
  induction 1 as [|x xs Hx Hnd IH]; intros acc Hacc; cbn [fold_left List.length]; [lia|].
  rewrite IH.
  - unfold keepOther. rewrite length_fset, (Hacc x) by (left; reflexivity). lia.
  - intros y Hy. unfold keepOther. rewrite fhas_fset, (Hacc y) by (right; exact Hy).
    destruct (String.eqb x y) eqn:E; [|reflexivity].
    apply String.eqb_eq in E. subst y. contradiction.
Qed.

Lemma firstn_NoDup {A : Type} (n : nat) :
  forall xs : list A, List.NoDup xs -> List.NoDup (List.firstn n xs).
Proof.
  induction n as [|n IH]; intros [|x xs] Hnd; simpl; try constructor.
  - inversion Hnd as [|? ? Hx Hxs]; subst. intros Hin. apply Hx.
    apply (firstn_incl n xs x Hin).
  - inversion Hnd; subst. apply IH; assumption.
Qed.

Lemma distinctNames_NoDup (xs : list string) :
  distinctNames xs = true -> List.NoDup xs.
Proof.
  induction xs as [|x xs IH]; cbn [distinctNames]; [constructor|].
  intros H. apply andb_prop in H. destruct H as (Hx & Hxs).
  constructor; [|apply IH; exact Hxs].
  intros Hin. rewrite (mem_string_In _ _ Hin) in Hx. discriminate Hx.
Qed.

Lemma keptByPriority_length (pfs : list (string * val)) (missing : string) :
  In missing priorityProperties ->
  truthy (fget pfs missing) = false ->
  List.length (keptByPriority pfs) <= 25.
Proof.
  intros Hin Hmiss. unfold keptByPriority.
  pose proof (fold_keepPriority_length pfs priorityProperties []) as Hle.
  pose proof (filter_misses (fun k => truthy (fget pfs k)) priorityProperties missing
                Hin Hmiss) as Hlt.
  assert (H26 : List.length priorityProperties = 26) by reflexivity.
  rewrite H26 in Hlt. cbn [List.length] in Hle. lia.
Qed.

Lemma keptByPriority_truthy (pfs : list (string * val)) (k : string) :
  fhas (keptByPriority pfs) k = true -> truthy (fget (keptByPriority pfs) k) = true.
Proof.
  unfold keptByPriority. apply fold_keepPriority_truthy.
  intros k' Hk. discriminate Hk.
Qed.

Lemma keptFields_length (pfs : list (string * val)) (missing : string) :
  25 < List.length pfs ->
  List.NoDup (fkeys pfs) ->
  In missing priorityProperties ->
  truthy (fget pfs missing) = false ->
  List.length (keptFields pfs) = 25.
Proof.
  intros Hbig Hnd Hin Hmiss.
  pose proof (keptByPriority_length pfs missing Hin Hmiss) as Hlen1.
  pose proof (keptByPriority_truthy pfs) as Htruthy.
  unfold keptFields.
  generalize dependent (keptByPriority pfs). intros kept1 Hlen1 Htruthy. cbv zeta.
  set (otherKeys := List.filter (fun key => negb (truthy (fget kept1 key))) (fkeys pfs)).
  assert (Hnew : forall x, In x otherKeys -> fhas kept1 x = false).
  { intros x Hx. unfold otherKeys in Hx. apply List.filter_In in Hx.
    destruct Hx as (_ & Hx). destruct (fhas kept1 x) eqn:E; [|reflexivity].
    rewrite (Htruthy x E) in Hx. discriminate Hx. }
  assert (Hothers : 26 <= List.length otherKeys + List.length kept1).
  { pose proof (List.filter_length (fun key => negb (truthy (fget kept1 key))) (fkeys pfs))
      as Hsplit.
    fold otherKeys in Hsplit.
    assert (Hin1 : List.length (List.filter
                      (fun x => negb (negb (truthy (fget kept1 x)))) (fkeys pfs))
                   <= List.length (fkeys kept1)).
    { apply List.NoDup_incl_length; [apply List.NoDup_filter; exact Hnd|].
      intros x Hx. apply List.filter_In in Hx. destruct Hx as (_ & Hx).
      rewrite negb_involutive in Hx. apply fhas_In, truthy_fget_fhas, Hx. }
    unfold fkeys in Hsplit, Hin1. rewrite !List.length_map in Hsplit, Hin1. lia. }
  rewrite fold_keepOther_length.
  - unfold slice_to, fkeys. rewrite List.length_map.
    assert (Hpos : Z.ltb (25 - Z.of_nat (List.length kept1)) 0 = false)
      by (apply Z.ltb_ge; lia).
    rewrite Hpos, List.length_firstn. lia.
  - unfold slice_to. destruct (Z.ltb _ 0); apply firstn_NoDup, List.NoDup_filter, Hnd.
  - intros x Hx. apply Hnew. eapply slice_to_incl. exact Hx.
Qed.


